(** * Harmonic Depths: prime-ratio math, spatial model and voice manager

    A shallow embedding of [src/harmonic-engine.js], [src/harmonic-space.js]
    and the amplitude pipeline of the coordinator class [HarmonicDepths].

    JavaScript numbers are modelled as real numbers ([R]): every arithmetic
    operator, [Math.sqrt], [Math.sin], [Math.cos], [Math.max] and [Math.min]
    is its exact real counterpart, so rounding, [NaN] and the infinities of
    binary64 are outside the model.  Where a statement is about one concrete
    double ("exactly 192.5 Hz"), module [Binary64] re-runs the same
    arithmetic on primitive binary64 floats. *)

From Equations Require Import Equations.
From Stdlib Require Import Reals Lra Lia ZArith Bool List String DecimalString.
From Stdlib Require Import Sorted Permutation.
From Stdlib Require PrimFloat.
Import ListNotations.
Open Scope R_scope.

(* ================================================================== *)
(** * Host language facilities *)
(* ================================================================== *)

Module Js.

(** Errors a call can throw in the modelled fragment. *)
Inductive error : Type :=
| TypeError          (* property access or method call on [null] *)
| InvalidStateError. (* Web Audio: [stop()] before [start()] *)

(** The outcome of running a method: a value and the state it leaves, or
    a thrown exception (what the method did before it threw is not
    tracked). *)
Inductive completion (A : Type) : Type :=
| Normal (a : A)
| Throw (e : error).
Arguments Normal {A} a.
Arguments Throw {A} e.

Definition bind {A B : Type} (c : completion A) (k : A -> completion B)
  : completion B :=
  match c with
  | Normal a => k a
  | Throw e => Throw e
  end.

(** [Math.random()]: the host's generator is a stream of draws in [0,1)
    and a read position; every call consumes one draw. *)
Record RandomSource : Type := mkRandom {
  draws : nat -> R;
  position : nat
}.

Definition Math_random (g : RandomSource) : R * RandomSource :=
  (draws g (position g), mkRandom (draws g) (S (position g))).

(** Template-literal conversion of an integer-valued number. *)
Definition toString (z : Z) : string :=
  NilZero.string_of_int (Z.to_int z).

(** [Array.prototype.find]. *)
Fixpoint find {A : Type} (p : A -> bool) (l : list A) : option A :=
  match l with
  | [] => None
  | a :: l' => if p a then Some a else find p l'
  end.

(** [Array.prototype.sort(cmp)] is stable, so for a comparator that is a
    consistent ordering its result is the stable sort: an element moves
    in front of another only when [cmp] is negative.  Insertion from the
    right end realises exactly that order. *)
Fixpoint sort_insert {A : Type} (cmp : A -> A -> R) (a : A) (l : list A)
  : list A :=
  match l with
  | [] => [a]
  | b :: l' =>
      if Rle_dec (cmp a b) 0 then a :: b :: l'
      else b :: sort_insert cmp a l'
  end.

Definition sort {A : Type} (cmp : A -> A -> R) (l : list A) : list A :=
  fold_right (sort_insert cmp) [] l.


(** [Map]: keys in insertion order, one entry per key. *)
Module Map.
Definition t (V : Type) : Type := list (string * V).

Definition empty {V : Type} : t V := [].

Fixpoint get {V : Type} (m : t V) (k : string) : option V :=
  match m with
  | [] => None
  | (k', v) :: m' => if String.eqb k' k then Some v else get m' k
  end.

Definition has {V : Type} (m : t V) (k : string) : bool :=
  match get m k with Some _ => true | None => false end.

(** [set] overwrites in place when the key is present and appends
    otherwise. *)
Fixpoint set {V : Type} (m : t V) (k : string) (v : V) : t V :=
  match m with
  | [] => [(k, v)]
  | (k', v') :: m' =>
      if String.eqb k' k then (k', v) :: m' else (k', v') :: set m' k v
  end.

Fixpoint delete {V : Type} (m : t V) (k : string) : t V :=
  match m with
  | [] => []
  | (k', v') :: m' =>
      if String.eqb k' k then m' else (k', v') :: delete m' k
  end.

Definition keys {V : Type} (m : t V) : list string := map fst m.
End Map.

(** [new Set(iterable)] as the sequence its iteration yields: the
    distinct elements in the order of their first occurrence, after those
    in [seen]. *)
Fixpoint Set_from (ids seen : list string) : list string :=
  match ids with
  | [] => seen
  | id :: ids' =>
      if existsb (String.eqb id) seen then Set_from ids' seen
      else Set_from ids' (seen ++ [id])
  end.

End Js.

Notation "x <- c ;; k" := (Js.bind c (fun x => k))
  (at level 61, c at next level, right associativity).

(* ================================================================== *)
(** * Prime ratio math  (harmonic-engine.js, lines 14-80) *)
(* ================================================================== *)

Module PrimeMath.

Definition PRIMES : list Z :=
  [2; 3; 5; 7; 11; 13; 17; 19; 23; 29; 31; 37; 41; 43; 47; 53; 59; 61; 67;
   71; 73; 79; 83; 89; 97]%Z.

Record Color : Type := hsl { h : R; s : R; l : R }.

Definition PRIME_COLORS : list (Z * Color) :=
  [ (2%Z,  hsl 220 30 60); (3%Z,  hsl 200 40 55); (5%Z,  hsl 45 50 55);
    (7%Z,  hsl 280 45 50); (11%Z, hsl 320 50 50); (13%Z, hsl 160 45 45);
    (17%Z, hsl 30 55 50);  (19%Z, hsl 350 50 55); (23%Z, hsl 180 40 45);
    (29%Z, hsl 260 45 50); (31%Z, hsl 100 40 45); (37%Z, hsl 15 50 50);
    (41%Z, hsl 240 35 55); (43%Z, hsl 140 40 45); (47%Z, hsl 300 40 50) ].

Definition PRIME_COLORS_default : Color := hsl 200 30 50.

(** [PRIME_COLORS[prime] || PRIME_COLORS.default] *)
Fixpoint colorOf_in (table : list (Z * Color)) (prime : Z) : Color :=
  match table with
  | [] => PRIME_COLORS_default
  | (p, c) :: table' => if Z.eqb p prime then c else colorOf_in table' prime
  end.

Definition colorOf (prime : Z) : Color := colorOf_in PRIME_COLORS prime.

(** [getPrimeRatio]: [let ratio = prime; while (ratio >= 4) ratio /= 2;
    return ratio].  Over the reals the loop ends on every input: the
    integer ceiling of [ratio] drops at each halving of a value that is
    at least 4. *)
Equations? getPrimeRatio (ratio : R) : R by wf (Z.to_nat (up ratio)) lt :=
  getPrimeRatio ratio with Rge_dec ratio 4 => {
    | left _ := getPrimeRatio (ratio / 2);
    | right _ := ratio }.
Proof.
  destruct (archimed ratio) as [Hr _].
  destruct (archimed (ratio / 2)) as [Hh1 Hh2].
  assert (Hlt : IZR (up (ratio / 2)) < IZR (up ratio)) by lra.
  assert (Hpos : 0 < IZR (up (ratio / 2))) by lra.
  apply lt_IZR in Hlt. apply lt_IZR in Hpos. lia.
Qed.

(** One entry of the array [getPrimeHarmonics] returns. *)
Record PrimeHarmonic : Type := mkPrimeHarmonic {
  ratio : R;
  frequency : R;
  foldedRatio : R;
  multiplier : R
}.

(** The body of [while (true)] in [getPrimeHarmonics]; [fuel] bounds the
    number of iterations and [None] means the bound was reached before
    the [break]. *)
Fixpoint getPrimeHarmonics_loop (fuel : nat) (prime fundamental maxFreq : R)
    (multiplier : R) (harmonics : list PrimeHarmonic)
  : option (list PrimeHarmonic) :=
  match fuel with
  | O => None
  | S fuel' =>
      let harmonic := prime * multiplier in
      let frequency := fundamental * harmonic in
      if Rgt_dec frequency maxFreq then Some harmonics
      else
        getPrimeHarmonics_loop fuel' prime fundamental maxFreq
          (multiplier * 2)
          (harmonics ++
             [mkPrimeHarmonic harmonic frequency (getPrimeRatio harmonic)
                multiplier])
  end.

Definition getPrimeHarmonics (fuel : nat) (prime fundamental maxFreq : R)
  : option (list PrimeHarmonic) :=
  getPrimeHarmonics_loop fuel prime fundamental maxFreq 1 [].


End PrimeMath.

(* ================================================================== *)
(** * Spatial harmonic model  (harmonic-space.js) *)
(* ================================================================== *)

Definition PHI : R := (1 + sqrt 5) / 2.

Module Harmonic.

(** The object literal pushed by [generateHarmonics]. *)
Record t : Type := mk {
  id : string;
  prime : Z;
  ratio : R;
  x : R;
  y : R;
  baseX : R;
  baseY : R;
  size : R;
  baseSize : R;
  color : PrimeMath.Color;
  amplitude : R;
  glow : R;
  phase : R;
  breathRate : R;
  isExotic : bool;
  visibilityDepth : R;
  wanderAngle : R;
  wanderSpeed : R
}.

(** [h.amplitude = a] *)
Definition set_amplitude (a : R) (h : t) : t :=
  mk (id h) (prime h) (ratio h) (x h) (y h) (baseX h) (baseY h) (size h)
     (baseSize h) (color h) a (glow h) (phase h) (breathRate h)
     (isExotic h) (visibilityDepth h) (wanderAngle h) (wanderSpeed h).

(** [h.x += dx; h.y += dy; h.baseX += dx; h.baseY += dy] *)
Definition translate (dx dy : R) (h : t) : t :=
  mk (id h) (prime h) (ratio h) (x h + dx) (y h + dy) (baseX h + dx)
     (baseY h + dy) (size h) (baseSize h) (color h) (amplitude h) (glow h)
     (phase h) (breathRate h) (isExotic h) (visibilityDepth h)
     (wanderAngle h) (wanderSpeed h).

(** The body of the loop of [update], with [time] already advanced. *)
Definition animate (time deltaTime : R) (h : t) : t :=
  let breath := sin (time * breathRate h + phase h) in
  let size' := baseSize h * (1 + breath * 0.1) in
  let wanderAngle' := wanderAngle h + wanderSpeed h * deltaTime * 0.3 in
  let wanderAmount := 3 + amplitude h * 5 in
  let x' := baseX h + cos wanderAngle' * wanderAmount in
  let y' := baseY h + sin (wanderAngle' * 0.7) * wanderAmount in
  let glow' := glow h + (amplitude h - glow h) * deltaTime * 5 in
  mk (id h) (prime h) (ratio h) x' y' (baseX h) (baseY h) size'
     (baseSize h) (color h) (amplitude h) glow' (phase h) (breathRate h)
     (isExotic h) (visibilityDepth h) wanderAngle' (wanderSpeed h).

End Harmonic.

(** An element of the array [getHarmonicsNear] returns; [harmonic] holds
    the fields the harmonic had when the query ran. *)
Record NearEntry : Type := mkNear {
  harmonic : Harmonic.t;
  distance : R;
  influence : R
}.

Module HarmonicSpace.

Record Point : Type := mkPoint { px : R; py : R }.

Record t : Type := mk {
  width : R;
  height : R;
  center : Point;
  depth : R;
  time : R;
  harmonics : list Harmonic.t
}.

(** One iteration of the [for] loop of [generateHarmonics]: the harmonic
    of [PRIMES[i]], with the three [Math.random()] calls of the object
    literal taken in source order ([phase], [wanderAngle],
    [wanderSpeed]). *)
Definition generateHarmonic (center : Point) (baseRadius : R) (i : nat)
    (prime : Z) (rnd : Js.RandomSource) : Harmonic.t * Js.RandomSource :=
  let ratio := PrimeMath.getPrimeRatio (IZR prime) in
  let color := PrimeMath.colorOf prime in
  let goldenAngle := PI * 2 / (PHI * PHI) in
  let angle := INR i * goldenAngle + IZR prime * 0.1 in
  let normalizedIndex := INR i / (INR (List.length PrimeMath.PRIMES) - 1) in
  let distanceBase := 0.25 + normalizedIndex * 0.5 in
  let distanceVariation := sin (IZR prime * 0.7) * 0.1 in
  let distance := baseRadius * (distanceBase + distanceVariation) in
  let x := px center + cos angle * distance in
  let y := py center + sin angle * distance in
  let baseSize := 30 - INR i * 0.8 in
  let size := Rmax 12 baseSize in
  let '(r1, rnd1) := Js.Math_random rnd in
  let '(r2, rnd2) := Js.Math_random rnd1 in
  let '(r3, rnd3) := Js.Math_random rnd2 in
  (Harmonic.mk
     (String.append "prime_" (Js.toString prime))
     prime ratio x y x y size size color
     0 0
     (r1 * PI * 2)
     (0.5 + IZR prime * 0.02)
     (Z.leb 7 prime)
     (Rmax 0 ((INR i - 4) / 15))
     (r2 * PI * 2)
     (0.1 + r3 * 0.2),
   rnd3).

(** [for (let i = 0; i < PRIMES.length; i++) { ... push ... }], run on the
    primes from index [i] on. *)
Fixpoint generateHarmonics_loop (center : Point) (baseRadius : R) (i : nat)
    (primes : list Z) (rnd : Js.RandomSource) (acc : list Harmonic.t)
  : list Harmonic.t * Js.RandomSource :=
  match primes with
  | [] => (acc, rnd)
  | prime :: primes' =>
      let '(hm, rnd') := generateHarmonic center baseRadius i prime rnd in
      generateHarmonics_loop center baseRadius (S i) primes' rnd'
        (acc ++ [hm])
  end.

Definition generateHarmonics (this : t) (rnd : Js.RandomSource)
  : t * Js.RandomSource :=
  let minDim := Rmin (width this) (height this) in
  let baseRadius := minDim * 0.35 in
  let '(hs, rnd') :=
    generateHarmonics_loop (center this) baseRadius 0 PrimeMath.PRIMES rnd []
  in
  (mk (width this) (height this) (center this) (depth this) (time this) hs,
   rnd').

(** [new HarmonicSpace(width, height)] *)
Definition new (width height : R) (rnd : Js.RandomSource)
  : t * Js.RandomSource :=
  generateHarmonics
    (mk width height (mkPoint (width / 2) (height / 2)) 0 0 []) rnd.

Definition resize (this : t) (width height : R) (rnd : Js.RandomSource)
  : t * Js.RandomSource :=
  let oldCenter := center this in
  let center' := mkPoint (width / 2) (height / 2) in
  let dx := px center' - px oldCenter in
  let dy := py center' - py oldCenter in
  let moved := map (Harmonic.translate dx dy) (harmonics this) in
  generateHarmonics
    (mk width height center' (depth this) (time this) moved) rnd.

Definition setDepth (this : t) (d : R) : t :=
  mk (width this) (height this) (center this) (Rmax 0 (Rmin 1 d))
     (time this) (harmonics this).

Definition update (this : t) (deltaTime : R) : t :=
  let time' := time this + deltaTime in
  mk (width this) (height this) (center this) (depth this) time'
     (map (Harmonic.animate time' deltaTime) (harmonics this)).

(** The predicate of the [filter] in [getVisibleHarmonics]. *)
Definition visibleAt (depth : R) (hm : Harmonic.t) : bool :=
  if Rle_dec (Harmonic.visibilityDepth hm) (depth + 0.3) then true
  else false.

Definition getVisibleHarmonics (this : t) : list Harmonic.t :=
  filter (visibleAt (depth this)) (harmonics this).

(** [Math.sqrt(dx * dx + dy * dy)] for a harmonic and the query point. *)
Definition distanceTo (x y : R) (hm : Harmonic.t) : R :=
  let dx := Harmonic.x hm - x in
  let dy := Harmonic.y hm - y in
  sqrt (dx * dx + dy * dy).

(** The [for] loop of [getHarmonicsNear], pushing onto [near]. *)
Fixpoint collectNear (x y radius : R) (visible : list Harmonic.t)
    (near : list NearEntry) : list NearEntry :=
  match visible with
  | [] => near
  | hm :: visible' =>
      let distance := distanceTo x y hm in
      if Rlt_dec distance (radius + Harmonic.size hm) then
        collectNear x y radius visible'
          (near ++
             [mkNear hm distance
                (Rmax 0 (1 - distance / (radius + Harmonic.size hm)))])
      else collectNear x y radius visible' near
  end.

Definition getHarmonicsNear (this : t) (x y radius : R) : list NearEntry :=
  let visible := getVisibleHarmonics this in
  let near := collectNear x y radius visible [] in
  Js.sort (fun a b => distance a - distance b) near.

(** [h.amplitude = amplitude] on the first harmonic whose id matches;
    the array itself is left as it is when there is none. *)
Fixpoint assignAmplitude (id : string) (amplitude : R)
    (hs : list Harmonic.t) : list Harmonic.t :=
  match hs with
  | [] => []
  | hm :: hs' =>
      if String.eqb (Harmonic.id hm) id
      then Harmonic.set_amplitude amplitude hm :: hs'
      else hm :: assignAmplitude id amplitude hs'
  end.

Definition getHarmonic (this : t) (id : string) : option Harmonic.t :=
  Js.find (fun hm => String.eqb (Harmonic.id hm) id) (harmonics this).

Definition setHarmonicAmplitude (this : t) (id : string) (amplitude : R)
  : t :=
  match getHarmonic this id with
  | Some _ =>
      mk (width this) (height this) (center this) (depth this) (time this)
         (assignAmplitude id amplitude (harmonics this))
  | None => this
  end.

End HarmonicSpace.

(* ================================================================== *)
(** * The part of the Web Audio API the engine drives *)
(* ================================================================== *)

Module WebAudio.

Definition NodeRef : Type := nat.

(** Entries of an [AudioParam]'s automation timeline. *)
Inductive AutomationEvent : Type :=
| SetValueAtTime (value time : R)
| ExponentialRampToValueAtTime (value time : R).

Definition eventTime (e : AutomationEvent) : R :=
  match e with
  | SetValueAtTime _ t => t
  | ExponentialRampToValueAtTime _ t => t
  end.

(** An [AudioParam]: the value last assigned and the scheduled timeline.
    The audio thread that renders the timeline into [value] is not part
    of the model. *)
Record AudioParam : Type := mkParam {
  value : R;
  events : list AutomationEvent
}.

Definition setValue (v : R) (p : AudioParam) : AudioParam :=
  mkParam v (events p).

(** The three scheduling methods.  The API refuses a negative time, and
    [exponentialRampToValueAtTime] a target of 0, with a [RangeError].
    The definitions give the timeline a call leaves that the API accepts;
    the refusal is not among the exceptions of [Js.error].  A statement
    on a call whose time or target the caller chooses therefore carries
    the condition of acceptance as a hypothesis, and [engineInRange]
    below shows that the application never gives cause for the error. *)
Definition cancelScheduledValues (t : R) (p : AudioParam) : AudioParam :=
  mkParam (value p)
    (filter (fun e => if Rlt_dec (eventTime e) t then true else false)
       (events p)).

Definition setValueAtTime (v t : R) (p : AudioParam) : AudioParam :=
  mkParam (value p) (events p ++ [SetValueAtTime v t]).

Definition exponentialRampToValueAtTime (v t : R) (p : AudioParam)
  : AudioParam :=
  mkParam (value p) (events p ++ [ExponentialRampToValueAtTime v t]).

(** The convolver's impulse response: [data channel i] for
    [i < length]. *)
Record AudioBuffer : Type := mkBuffer {
  numberOfChannels : nat;
  length : nat;
  bufferRate : nat;
  data : nat -> nat -> R
}.

Inductive OscillatorType : Type := sine.

Inductive NodeKind : Type :=
| Destination
| Gain (gain : AudioParam)
| Oscillator (type : OscillatorType) (frequency : AudioParam)
    (started stopped : bool)
| Convolver (buffer : option AudioBuffer)
| DynamicsCompressor (threshold knee ratio attack release : R).

Record Node : Type := mkNode {
  kind : NodeKind;
  outputs : list NodeRef
}.

Record AudioContext : Type := mkContext {
  currentTime : R;
  sampleRate : nat;
  nodes : list Node;
  closed : bool
}.

(** [new AudioContext()]: node 0 is [destination]. *)
Definition destination : NodeRef := 0%nat.

Definition newContext (sampleRate : nat) : AudioContext :=
  mkContext 0 sampleRate [mkNode Destination []] false.

Definition createNode (k : NodeKind) (ctx : AudioContext)
  : NodeRef * AudioContext :=
  (List.length (nodes ctx),
   mkContext (currentTime ctx) (sampleRate ctx)
     (nodes ctx ++ [mkNode k []]) (closed ctx)).

(** Defaults of the API: gain 1, frequency 440 Hz, an empty convolver,
    and the compressor's documented initial settings. *)
Definition createGain := createNode (Gain (mkParam 1 [])).
Definition createOscillator :=
  createNode (Oscillator sine (mkParam 440 []) false false).
Definition createConvolver := createNode (Convolver None).
Definition createDynamicsCompressor :=
  createNode (DynamicsCompressor (-24) 30 12 0.003 0.25).

Fixpoint updateNth {A : Type} (n : nat) (f : A -> A) (l : list A) : list A :=
  match l, n with
  | [], _ => []
  | a :: l', O => f a :: l'
  | a :: l', S n' => a :: updateNth n' f l'
  end.

Definition updateNode (r : NodeRef) (f : Node -> Node) (ctx : AudioContext)
  : AudioContext :=
  mkContext (currentTime ctx) (sampleRate ctx)
    (updateNth r f (nodes ctx)) (closed ctx).

Definition getNode (r : NodeRef) (ctx : AudioContext) : option Node :=
  nth_error (nodes ctx) r.

(** [src.connect(dst)] *)
Definition connect (src dst : NodeRef) : AudioContext -> AudioContext :=
  updateNode src (fun n => mkNode (kind n) (outputs n ++ [dst])).

(** [node.disconnect()] *)
Definition disconnect (r : NodeRef) : AudioContext -> AudioContext :=
  updateNode r (fun n => mkNode (kind n) []).

(** Apply an [AudioParam] operation to [gainNode.gain]. *)
Definition onGain (r : NodeRef) (f : AudioParam -> AudioParam)
  : AudioContext -> AudioContext :=
  updateNode r (fun n =>
    match kind n with
    | Gain g => mkNode (Gain (f g)) (outputs n)
    | _ => n
    end).

(** Apply an [AudioParam] operation to [osc.frequency]. *)
Definition onFrequency (r : NodeRef) (f : AudioParam -> AudioParam)
  : AudioContext -> AudioContext :=
  updateNode r (fun n =>
    match kind n with
    | Oscillator ty fq st sp => mkNode (Oscillator ty (f fq) st sp) (outputs n)
    | _ => n
    end).

(** [gainNode.gain.value] *)
Definition gainValue (r : NodeRef) (ctx : AudioContext) : R :=
  match getNode r ctx with
  | Some (mkNode (Gain g) _) => value g
  | _ => 0
  end.

(** [osc.frequency.value] *)
Definition frequencyValue (r : NodeRef) (ctx : AudioContext) : option R :=
  match getNode r ctx with
  | Some (mkNode (Oscillator _ fq _ _) _) => Some (value fq)
  | _ => None
  end.

(** [osc.start()] on an oscillator that was not started yet. *)
Definition start (r : NodeRef) : AudioContext -> AudioContext :=
  updateNode r (fun n =>
    match kind n with
    | Oscillator ty fq _ sp => mkNode (Oscillator ty fq true sp) (outputs n)
    | _ => n
    end).

(** [osc.stop()]: an [InvalidStateError] unless [start()] was called. *)
Definition stop (r : NodeRef) (ctx : AudioContext)
  : Js.completion AudioContext :=
  match getNode r ctx with
  | Some (mkNode (Oscillator ty fq true _) _) =>
      Js.Normal
        (updateNode r
           (fun n => mkNode (Oscillator ty fq true true) (outputs n)) ctx)
  | Some (mkNode (Oscillator _ _ false _) _) => Js.Throw Js.InvalidStateError
  | _ => Js.Throw Js.TypeError
  end.

(** [convolver.buffer = b] *)
Definition setBuffer (r : NodeRef) (b : AudioBuffer)
  : AudioContext -> AudioContext :=
  updateNode r (fun n =>
    match kind n with
    | Convolver _ => mkNode (Convolver (Some b)) (outputs n)
    | _ => n
    end).

(** The five assignments to the compressor's parameters in [init]. *)
Definition setCompressor (r : NodeRef) (threshold knee ratio attack release : R)
  : AudioContext -> AudioContext :=
  updateNode r (fun n =>
    match kind n with
    | DynamicsCompressor _ _ _ _ _ =>
        mkNode (DynamicsCompressor threshold knee ratio attack release)
          (outputs n)
    | _ => n
    end).

(** [audioContext.close()] *)
Definition close (ctx : AudioContext) : AudioContext :=
  mkContext (currentTime ctx) (sampleRate ctx) (nodes ctx) true.

Definition isStopped (r : NodeRef) (ctx : AudioContext) : bool :=
  match getNode r ctx with
  | Some (mkNode (Oscillator _ _ _ sp) _) => sp
  | _ => false
  end.

End WebAudio.

(* ================================================================== *)
(** * Voice manager  (harmonic-engine.js, class HarmonicEngine) *)
(* ================================================================== *)

Module HarmonicEngine.
Import WebAudio.

(** The object literal built by [createVoice]; [oscillator] and [gain]
    are references to nodes of the audio graph. *)
Record Voice : Type := mkVoice {
  oscillator : NodeRef;
  gain : NodeRef;
  targetGain : R;
  ratio : R
}.

(** Voice objects have identity: the [Map] and the closures of
    [releaseVoice] hold references to them. *)
Definition VoiceRef : Type := nat.

(** The closure [releaseVoice] passes to [setTimeout], with the captured
    [voice] and [id] and the delay in milliseconds. *)
Record Timeout : Type := mkTimeout {
  delay : R;
  voice : VoiceRef;
  voiceId : string
}.

(** The fields of the class, then the part of the host's state its
    methods reach: the voice objects allocated so far and the callbacks
    registered with [setTimeout] that have not run yet. *)
Record t : Type := mk {
  audioContext : option AudioContext;
  masterGain : option NodeRef;
  reverbNode : option NodeRef;
  voices : Js.Map.t VoiceRef;
  fundamental : R;
  masterVolume : R;
  isInitialized : bool;
  compressor : option NodeRef;
  fundamentalOsc : option NodeRef;
  fundamentalGain : option NodeRef;
  objects : list Voice;
  timeouts : list Timeout
}.

Definition with_context (ctx : AudioContext) (e : t) : t :=
  mk (Some ctx) (masterGain e) (reverbNode e) (voices e) (fundamental e)
     (masterVolume e) (isInitialized e) (compressor e) (fundamentalOsc e)
     (fundamentalGain e) (objects e) (timeouts e).

Definition with_voices (m : Js.Map.t VoiceRef) (e : t) : t :=
  mk (audioContext e) (masterGain e) (reverbNode e) m (fundamental e)
     (masterVolume e) (isInitialized e) (compressor e) (fundamentalOsc e)
     (fundamentalGain e) (objects e) (timeouts e).

Definition with_objects (o : list Voice) (e : t) : t :=
  mk (audioContext e) (masterGain e) (reverbNode e) (voices e)
     (fundamental e) (masterVolume e) (isInitialized e) (compressor e)
     (fundamentalOsc e) (fundamentalGain e) o (timeouts e).

Definition with_timeouts (q : list Timeout) (e : t) : t :=
  mk (audioContext e) (masterGain e) (reverbNode e) (voices e)
     (fundamental e) (masterVolume e) (isInitialized e) (compressor e)
     (fundamentalOsc e) (fundamentalGain e) (objects e) q.

Definition with_fundamental (f : R) (e : t) : t :=
  mk (audioContext e) (masterGain e) (reverbNode e) (voices e) f
     (masterVolume e) (isInitialized e) (compressor e) (fundamentalOsc e)
     (fundamentalGain e) (objects e) (timeouts e).

Definition with_masterVolume (v : R) (e : t) : t :=
  mk (audioContext e) (masterGain e) (reverbNode e) (voices e)
     (fundamental e) v (isInitialized e) (compressor e) (fundamentalOsc e)
     (fundamentalGain e) (objects e) (timeouts e).

(** [new HarmonicEngine()] *)
Definition new : t :=
  mk None None None Js.Map.empty 110 0.4 false None None None [] [].

(** A parameter with a default value; [None] is an omitted argument. *)
Definition orDefault (d : R) (arg : option R) : R :=
  match arg with Some v => v | None => d end.

(** [this.audioContext.<member>]: a [TypeError] while the field is
    [null]. *)
Definition theContext (e : t) : Js.completion AudioContext :=
  match audioContext e with
  | Some ctx => Js.Normal ctx
  | None => Js.Throw Js.TypeError
  end.

(** Dereference of a voice object. *)
Definition deref (e : t) (v : VoiceRef) : Js.completion Voice :=
  match nth_error (objects e) v with
  | Some vo => Js.Normal vo
  | None => Js.Throw Js.TypeError
  end.

(** [createReverb]: a convolver whose two-channel, three-second impulse
    response is [(Math.random() * 2 - 1) * Math.exp(-3 * i / length)]. *)
Definition createReverb (ctx : AudioContext) (rnd : Js.RandomSource)
  : NodeRef * AudioContext * Js.RandomSource :=
  let '(convolver, ctx1) := createConvolver ctx in
  let rate := sampleRate ctx in
  let len := (rate * 3)%nat in
  let start := Js.position rnd in
  let impulse :=
    mkBuffer 2 len rate
      (fun channel i =>
         (Js.draws rnd (start + channel * len + i)%nat * 2 - 1)
         * exp (-3 * INR i / INR len)) in
  (convolver, setBuffer convolver impulse ctx1,
   Js.mkRandom (Js.draws rnd) (start + 2 * len)%nat).

(** [startFundamentalDrone], on the context and master gain of [init]. *)
Definition startFundamentalDrone (fundamental : R) (master : NodeRef)
    (ctx : AudioContext) : NodeRef * NodeRef * AudioContext :=
  let '(osc, ctx1) := createOscillator ctx in
  let '(g, ctx2) := createGain ctx1 in
  let ctx3 := onFrequency osc (setValue fundamental) ctx2 in
  let ctx4 := onGain g (setValue 0.08) ctx3 in
  let ctx5 := connect osc g ctx4 in
  let ctx6 := connect g master ctx5 in
  (osc, g, start osc ctx6).

(** [init]; [rate] is the sample rate the host gives the new context.
    The single [await] inside is on an already settled promise, so the
    body is run as one step. *)
Definition init (e : t) (rate : nat) (rnd : Js.RandomSource)
  : t * Js.RandomSource :=
  if isInitialized e then (e, rnd)
  else
    let ctx0 := newContext rate in
    let '(master, ctx1) := createGain ctx0 in
    let ctx2 := onGain master (setValue (masterVolume e)) ctx1 in
    let '(reverb, ctx3, rnd') := createReverb ctx2 rnd in
    let '(comp, ctx4) := createDynamicsCompressor ctx3 in
    let ctx5 := setCompressor comp (-24) 30 4 0.003 0.25 ctx4 in
    let '(dryGain, ctx6) := createGain ctx5 in
    let ctx7 := onGain dryGain (setValue 0.7) ctx6 in
    let '(wetGain, ctx8) := createGain ctx7 in
    let ctx9 := onGain wetGain (setValue 0.3) ctx8 in
    let ctx10 := connect master dryGain ctx9 in
    let ctx11 := connect master reverb ctx10 in
    let ctx12 := connect reverb wetGain ctx11 in
    let ctx13 := connect dryGain comp ctx12 in
    let ctx14 := connect wetGain comp ctx13 in
    let ctx15 := connect comp destination ctx14 in
    let '(osc, g, ctx16) :=
      startFundamentalDrone (fundamental e) master ctx15 in
    (mk (Some ctx16) (Some master) (Some reverb) (voices e) (fundamental e)
        (masterVolume e) true (Some comp) (Some osc) (Some g) (objects e)
        (timeouts e),
     rnd').

(** [createVoice(id, ratio)]: the reference it returns and the state it
    leaves. *)
Definition createVoice (e : t) (id : string) (ratio : R)
  : Js.completion (VoiceRef * t) :=
  if Js.Map.has (voices e) id then
    match Js.Map.get (voices e) id with
    | Some v => Js.Normal (v, e)
    | None => Js.Throw Js.TypeError
    end
  else
    ctx <- theContext e ;;
    let '(osc, ctx1) := createOscillator ctx in
    let '(g, ctx2) := createGain ctx1 in
    let ctx3 := onFrequency osc (setValue (fundamental e * ratio)) ctx2 in
    let ctx4 := onGain g (setValue 0) ctx3 in
    let ctx5 := connect osc g ctx4 in
    match masterGain e with
    | None => Js.Throw Js.TypeError
    | Some master =>
        let ctx6 := connect g master ctx5 in
        let ctx7 := start osc ctx6 in
        let v := List.length (objects e) in
        Js.Normal
          (v,
           with_voices (Js.Map.set (voices e) id v)
             (with_objects (objects e ++ [mkVoice osc g 0 ratio])
                (with_context ctx7 e)))
    end.

(** [voice.targetGain = amplitude] *)
Definition setTargetGain (v : VoiceRef) (amplitude : R) (e : t) : t :=
  with_objects
    (updateNth v
       (fun vo => mkVoice (oscillator vo) (gain vo) amplitude (ratio vo))
       (objects e)) e.

(** The three calls on [voice.gain.gain] shared by [setVoiceAmplitude]
    and [releaseVoice]. *)
Definition rampGain (g : NodeRef) (now target finish : R)
    (ctx : AudioContext) : AudioContext :=
  let ctx1 := onGain g (cancelScheduledValues now) ctx in
  let ctx2 := onGain g (setValueAtTime (gainValue g ctx1) now) ctx1 in
  onGain g (exponentialRampToValueAtTime target finish) ctx2.

(** [setVoiceAmplitude(id, amplitude, time = 0.1)] *)
Definition setVoiceAmplitude (e : t) (id : string) (amplitude : R)
    (time : option R) : Js.completion t :=
  let time := orDefault 0.1 time in
  match Js.Map.get (voices e) id with
  | None => Js.Normal e
  | Some v =>
      ctx <- theContext e ;;
      vo <- deref e v ;;
      let now := currentTime ctx in
      let e1 := setTargetGain v amplitude e in
      Js.Normal
        (with_context
           (rampGain (gain vo) now (Rmax amplitude 0.0001) (now + time) ctx)
           e1)
  end.

(** [releaseVoice(id, fadeTime = 0.5)] *)
Definition releaseVoice (e : t) (id : string) (fadeTime : option R)
  : Js.completion t :=
  let fadeTime := orDefault 0.5 fadeTime in
  match Js.Map.get (voices e) id with
  | None => Js.Normal e
  | Some v =>
      ctx <- theContext e ;;
      vo <- deref e v ;;
      let now := currentTime ctx in
      let ctx' := rampGain (gain vo) now 0.0001 (now + fadeTime) ctx in
      Js.Normal
        (with_timeouts
           (timeouts e ++ [mkTimeout (fadeTime * 1000 + 100) v id])
           (with_context ctx' e))
  end.

(** The body of the callback of [releaseVoice]. *)
Definition decommission (e : t) (cb : Timeout) : Js.completion t :=
  vo <- deref e (voice cb) ;;
  ctx <- theContext e ;;
  ctx1 <- stop (oscillator vo) ctx ;;
  let ctx2 := disconnect (oscillator vo) ctx1 in
  let ctx3 := disconnect (gain vo) ctx2 in
  Js.Normal
    (with_voices (Js.Map.delete (voices e) (voiceId cb))
       (with_context ctx3 e)).

Fixpoint removeNth {A : Type} (n : nat) (l : list A) : list A :=
  match l, n with
  | [], _ => []
  | _ :: l', O => l'
  | a :: l', S n' => a :: removeNth n' l'
  end.

(** The host runs the [k]-th pending callback: it leaves the queue and
    its body is executed.  Nothing happens when there is no such
    callback. *)
Definition fireTimeout (e : t) (k : nat) : Js.completion t :=
  match nth_error (timeouts e) k with
  | None => Js.Normal e
  | Some cb => decommission (with_timeouts (removeNth k (timeouts e)) e) cb
  end.

(** The loop over [this.voices] in [setFundamental]. *)
Fixpoint retune (e : t) (freq finish : R) (entries : list (string * VoiceRef))
    (ctx : AudioContext) : Js.completion AudioContext :=
  match entries with
  | [] => Js.Normal ctx
  | (_, v) :: entries' =>
      vo <- deref e v ;;
      retune e freq finish entries'
        (onFrequency (oscillator vo)
           (exponentialRampToValueAtTime (freq * ratio vo) finish) ctx)
  end.

(** [setFundamental(freq, time = 0.5)] *)
Definition setFundamental (e : t) (freq : R) (time : option R)
  : Js.completion t :=
  let time := orDefault 0.5 time in
  let e1 := with_fundamental freq e in
  ctx <- theContext e1 ;;
  let now := currentTime ctx in
  let ctx1 :=
    match fundamentalOsc e1 with
    | Some osc =>
        onFrequency osc (exponentialRampToValueAtTime freq (now + time)) ctx
    | None => ctx
    end in
  ctx2 <- retune e1 freq (now + time) (voices e1) ctx1 ;;
  Js.Normal (with_context ctx2 e1).

(** [setMasterVolume(volume)] *)
Definition setMasterVolume (e : t) (volume : R) : t :=
  let e1 := with_masterVolume volume e in
  match masterGain e1, audioContext e1 with
  | Some master, Some ctx =>
      with_context (onGain master (setValue volume) ctx) e1
  | _, _ => e1
  end.

(** The loop [for (const [id] of this.voices) this.releaseVoice(id, 0.1)];
    [releaseVoice] leaves the map as it is, so the keys are those at loop
    entry. *)
Fixpoint releaseAll (ids : list string) (e : t) : Js.completion t :=
  match ids with
  | [] => Js.Normal e
  | id :: ids' =>
      e' <- releaseVoice e id (Some 0.1) ;;
      releaseAll ids' e'
  end.

(** [destroy()] *)
Definition destroy (e : t) : Js.completion t :=
  e1 <- releaseAll (Js.Map.keys (voices e)) e ;;
  e2 <- match fundamentalOsc e1 with
        | Some osc =>
            ctx <- theContext e1 ;;
            ctx' <- stop osc ctx ;;
            Js.Normal (with_context ctx' e1)
        | None => Js.Normal e1
        end ;;
  match audioContext e2 with
  | Some ctx => Js.Normal (with_context (close ctx) e2)
  | None => Js.Normal e2
  end.

(** The objects [getHarmonicsForDepth] returns. *)
Module Descriptor.
Record t : Type := mk {
  id : string;
  prime : Z;
  ratio : R;
  pureRatio : Z;
  color : PrimeMath.Color;
  baseIntensity : R;
  isExotic : bool
}.
End Descriptor.





End HarmonicEngine.

(* ================================================================== *)
(** * Renderer  (visual-renderer.js, class VisualRenderer) *)
(* ================================================================== *)

Module VisualRenderer.

(** The object literal [spawnParticle] pushes. *)
Record Particle : Type := mkParticle {
  x : R;
  y : R;
  vx : R;
  vy : R;
  life : R;
  decay : R;
  size : R;
  color : PrimeMath.Color
}.

(** The fields of the renderer its clock and particle system use.  The
    canvas and what is painted on it are not part of the model: of the
    drawing methods only the numbers they compute are. *)
Record t : Type := mk {
  time : R;
  particles : list Particle;
  maxParticles : nat
}.

(** The particle fields as the constructor leaves them. *)
Definition new : t := mk 0 [] 200.

(** [spawnParticle(harmonic)]; the four [Math.random()] calls in source
    order: [angle], [speed], [decay], [size]. *)
Definition spawnParticle (this : t) (harmonic : Harmonic.t)
    (rnd : Js.RandomSource) : t * Js.RandomSource :=
  if (maxParticles this <=? List.length (particles this))%nat then (this, rnd)
  else
    let '(r1, rnd1) := Js.Math_random rnd in
    let angle := r1 * PI * 2 in
    let '(r2, rnd2) := Js.Math_random rnd1 in
    let speed := 10 + r2 * 30 in
    let '(r3, rnd3) := Js.Math_random rnd2 in
    let '(r4, rnd4) := Js.Math_random rnd3 in
    (mk (time this)
       (particles this ++
          [mkParticle (Harmonic.x harmonic) (Harmonic.y harmonic)
             (cos angle * speed) (sin angle * speed) 1
             (0.3 + r3 * 0.5) (1 + r4 * 2) (Harmonic.color harmonic)])
       (maxParticles this),
     rnd4).

(** The assignments to [p] in the loop of [updateParticles]. *)
Definition advance (deltaTime : R) (p : Particle) : Particle :=
  mkParticle (x p + vx p * deltaTime) (y p + vy p * deltaTime)
    (vx p * 0.98) (vy p * 0.98) (life p - decay p * deltaTime)
    (decay p) (size p) (color p).

(** [for (let i = n - 1; i >= 0; i--)]: the particle at index [i] is
    advanced in place and, when its life is used up, removed with
    [splice(i, 1)].  Reading a field of a missing element is a
    [TypeError]. *)
Fixpoint updateParticles_loop (deltaTime : R) (n : nat)
    (ps : list Particle) : Js.completion (list Particle) :=
  match n with
  | O => Js.Normal ps
  | S i =>
      match nth_error ps i with
      | None => Js.Throw Js.TypeError
      | Some p =>
          let p' := advance deltaTime p in
          let ps1 := WebAudio.updateNth i (fun _ => p') ps in
          let ps2 :=
            if Rle_dec (life p') 0 then HarmonicEngine.removeNth i ps1
            else ps1 in
          updateParticles_loop deltaTime i ps2
      end
  end.

Definition updateParticles (this : t) (deltaTime : R) : Js.completion t :=
  ps <- updateParticles_loop deltaTime (List.length (particles this))
          (particles this) ;;
  Js.Normal (mk (time this) ps (maxParticles this)).

(** The loop of [render] that spawns particles:
    [if (h.amplitude > 0.2 && Math.random() < h.amplitude * 0.3)]; the
    draw is made only when the first test holds. *)
Fixpoint spawnFor (this : t) (visible : list Harmonic.t)
    (rnd : Js.RandomSource) : t * Js.RandomSource :=
  match visible with
  | [] => (this, rnd)
  | h :: rest =>
      if Rgt_dec (Harmonic.amplitude h) 0.2 then
        let '(r, rnd1) := Js.Math_random rnd in
        if Rlt_dec r (Harmonic.amplitude h * 0.3) then
          let '(this', rnd2) := spawnParticle this h rnd1 in
          spawnFor this' rest rnd2
        else spawnFor this rest rnd1
      else spawnFor this rest rnd
  end.

(** [Math.min(1, (depth + 0.3 - h.visibilityDepth) * 3)] *)
Definition visibilityAlpha (h : Harmonic.t) (depth : R) : R :=
  Rmin 1 ((depth + 0.3 - Harmonic.visibilityDepth h) * 3).

(** What [drawHarmonic] paints: the opacity and radius of the outer glow,
    the opacity and radius of the core, and the opacity of the ring of an
    exotic prime when it is drawn. *)
Record Drawing : Type := mkDrawing {
  activeAlpha : R;
  glowSize : R;
  coreAlpha : R;
  coreSize : R;
  ringAlpha : option R
}.

(** [drawHarmonic(h, depth)]; [None] is the early return. *)
Definition drawHarmonic (h : Harmonic.t) (depth : R) : option Drawing :=
  let visibilityAlpha := visibilityAlpha h depth in
  if Rle_dec visibilityAlpha 0 then None
  else
    let activeAlpha := (0.3 + Harmonic.glow h * 0.7) * visibilityAlpha in
    let glowSize := Harmonic.size h * (1.5 + Harmonic.glow h * 2) in
    let coreSize := Harmonic.size h * (0.3 + Harmonic.amplitude h * 0.3) in
    Some
      (mkDrawing activeAlpha glowSize (0.8 * visibilityAlpha) coreSize
         (if Harmonic.isExotic h then
            if Rgt_dec (Harmonic.amplitude h) 0.1 then
              Some (Harmonic.amplitude h * 0.3 * visibilityAlpha)
            else None
          else None)).

(** The harmonics [render] hands to [drawHarmonic], each with what is
    painted for it. *)
Definition drawHarmonics (space : HarmonicSpace.t)
  : list (Harmonic.t * option Drawing) :=
  map (fun h => (h, drawHarmonic h (HarmonicSpace.depth space)))
    (HarmonicSpace.getVisibleHarmonics space).

(** [render(space, deltaTime)]: the clock, the particle update and the
    spawning loop. *)
Definition render (this : t) (space : HarmonicSpace.t) (deltaTime : R)
    (rnd : Js.RandomSource) : Js.completion (t * Js.RandomSource) :=
  let this1 :=
    mk (time this + deltaTime) (particles this) (maxParticles this) in
  this2 <- updateParticles this1 deltaTime ;;
  Js.Normal (spawnFor this2 (HarmonicSpace.getVisibleHarmonics space) rnd).

End VisualRenderer.

(* ================================================================== *)
(** * Amplitude pipeline of the coordinator  (updateHarmonicsFromCursor) *)
(* ================================================================== *)

Module HarmonicDepths.

(** [this.isMouseDown ? 0.6 : 0.25] *)
Definition baseIntensity (isMouseDown : bool) : R :=
  if isMouseDown then 0.6 else 0.25.

(** The value [updateHarmonicsFromCursor] stores in [newAmplitudes] for
    an entry of [getHarmonicsNear]. *)
Definition newAmplitude (isMouseDown : bool) (entry : NearEntry) : R :=
  let amplitude :=
    influence entry * baseIntensity isMouseDown
    * (1 / sqrt (IZR (Harmonic.prime (harmonic entry)) / 2)) in
  Rmin 0.8 amplitude.

(** [Math.min((timestamp - this.lastTime) / 1000, 0.1)], the time step
    [animate] passes to [space.update]. *)
Definition frameDelta (timestamp lastTime : R) : R :=
  Rmin ((timestamp - lastTime) / 1000) 0.1.

(** The two closures the coordinator passes to [setTimeout]:
    [updateHarmonicsFromCursor] registers, for 500 ms later,
    [if (activeHarmonics.get(id) === 0) { releaseVoice(id, 0.5);
    activeHarmonics.delete(id) }]; [syncVoicesWithDepth] registers, for
    600 ms later, [releaseVoice(id, 0.3); activeHarmonics.delete(id)]. *)
Inductive Timeout : Type :=
| ReleaseIfSilent (id : string)
| ReleaseHidden (id : string).

(** The fields of the class that its handlers read and write, and the
    timer callbacks it registered that have not run yet.  The page
    elements (intro, frequency hint, fundamental display) and the
    renderer's copy of the cursor only feed the display and are left
    out. *)
Record t : Type := mk {
  engine : HarmonicEngine.t;
  space : HarmonicSpace.t;
  renderer : VisualRenderer.t;
  isInitialized : bool;
  isMouseDown : bool;
  cursor : HarmonicSpace.Point;
  influenceRadius : R;
  activeHarmonics : Js.Map.t R;
  lastTime : R;
  timeouts : list Timeout
}.

Definition with_engine (e : HarmonicEngine.t) (this : t) : t :=
  mk e (space this) (renderer this) (isInitialized this) (isMouseDown this)
     (cursor this) (influenceRadius this) (activeHarmonics this)
     (lastTime this) (timeouts this).

Definition with_space (s : HarmonicSpace.t) (this : t) : t :=
  mk (engine this) s (renderer this) (isInitialized this) (isMouseDown this)
     (cursor this) (influenceRadius this) (activeHarmonics this)
     (lastTime this) (timeouts this).

Definition with_isInitialized (b : bool) (this : t) : t :=
  mk (engine this) (space this) (renderer this) b (isMouseDown this)
     (cursor this) (influenceRadius this) (activeHarmonics this)
     (lastTime this) (timeouts this).

Definition with_isMouseDown (b : bool) (this : t) : t :=
  mk (engine this) (space this) (renderer this) (isInitialized this) b
     (cursor this) (influenceRadius this) (activeHarmonics this)
     (lastTime this) (timeouts this).

Definition with_cursor (c : HarmonicSpace.Point) (this : t) : t :=
  mk (engine this) (space this) (renderer this) (isInitialized this)
     (isMouseDown this) c (influenceRadius this) (activeHarmonics this)
     (lastTime this) (timeouts this).

Definition with_activeHarmonics (m : Js.Map.t R) (this : t) : t :=
  mk (engine this) (space this) (renderer this) (isInitialized this)
     (isMouseDown this) (cursor this) (influenceRadius this) m
     (lastTime this) (timeouts this).

Definition with_timeouts (q : list Timeout) (this : t) : t :=
  mk (engine this) (space this) (renderer this) (isInitialized this)
     (isMouseDown this) (cursor this) (influenceRadius this)
     (activeHarmonics this) (lastTime this) q.

(** The constructor and [startAnimation]: [innerWidth] and [innerHeight]
    are the window's, [now] is [performance.now()].  The space draws its
    75 random numbers first, then the renderer's [createNoiseTexture]
    draws one for each of the 256 x 256 pixels of the texture. *)
Definition new (innerWidth innerHeight now : R) (rnd : Js.RandomSource)
  : t * Js.RandomSource :=
  let '(space, rnd1) := HarmonicSpace.new innerWidth innerHeight rnd in
  let rnd2 := Js.mkRandom (Js.draws rnd1) (Js.position rnd1 + 256 * 256) in
  (mk HarmonicEngine.new space VisualRenderer.new false false
      (HarmonicSpace.mkPoint 0 0) 120 Js.Map.empty now [],
   rnd2).

(** [initAudio], run to completion: its [await]s are on promises that are
    already settled, so no other handler runs in between. *)
Definition initAudio (this : t) (rate : nat) (rnd : Js.RandomSource)
  : t * Js.RandomSource :=
  if isInitialized this then (this, rnd)
  else
    let '(e, rnd') := HarmonicEngine.init (engine this) rate rnd in
    (with_isInitialized true (with_engine e this), rnd').

(** The loop that fills [newAmplitudes] from the entries of
    [getHarmonicsNear]. *)
Fixpoint collectAmplitudes (isMouseDown : bool) (near : list NearEntry)
    (newAmplitudes : Js.Map.t R) : Js.Map.t R :=
  match near with
  | [] => newAmplitudes
  | entry :: near' =>
      collectAmplitudes isMouseDown near'
        (Js.Map.set newAmplitudes (Harmonic.id (harmonic entry))
           (newAmplitude isMouseDown entry))
  end.

(** [map.get(id) || 0] *)
Definition orZero (v : option R) : R :=
  match v with Some a => a | None => 0 end.

(** The body of the loop over [allHarmonicIds]. *)
Definition updateHarmonic (newAmplitudes : Js.Map.t R) (this : t)
    (id : string) : Js.completion t :=
  let currentAmp := orZero (Js.Map.get (activeHarmonics this) id) in
  let targetAmp := orZero (Js.Map.get newAmplitudes id) in
  if Rgt_dec targetAmp 0.01 then
    match HarmonicSpace.getHarmonic (space this) id with
    | Some harmonic =>
        r <- HarmonicEngine.createVoice (engine this) id
               (Harmonic.ratio harmonic) ;;
        e <- HarmonicEngine.setVoiceAmplitude (snd r) id targetAmp
               (Some 0.15) ;;
        Js.Normal
          (with_space
             (HarmonicSpace.setHarmonicAmplitude (space this) id targetAmp)
             (with_activeHarmonics
                (Js.Map.set (activeHarmonics this) id targetAmp)
                (with_engine e this)))
    | None => Js.Normal this
    end
  else if Rgt_dec currentAmp 0.01 then
    e <- HarmonicEngine.setVoiceAmplitude (engine this) id 0 (Some 0.3) ;;
    Js.Normal
      (with_timeouts (timeouts this ++ [ReleaseIfSilent id])
         (with_space (HarmonicSpace.setHarmonicAmplitude (space this) id 0)
            (with_activeHarmonics (Js.Map.set (activeHarmonics this) id 0)
               (with_engine e this))))
  else Js.Normal this.

Fixpoint updateHarmonics_loop (newAmplitudes : Js.Map.t R)
    (ids : list string) (this : t) : Js.completion t :=
  match ids with
  | [] => Js.Normal this
  | id :: ids' =>
      this' <- updateHarmonic newAmplitudes this id ;;
      updateHarmonics_loop newAmplitudes ids' this'
  end.

(** [updateHarmonicsFromCursor()] *)
Definition updateHarmonicsFromCursor (this : t) : Js.completion t :=
  if negb (isInitialized this) then Js.Normal this
  else
    let near :=
      HarmonicSpace.getHarmonicsNear (space this)
        (HarmonicSpace.px (cursor this)) (HarmonicSpace.py (cursor this))
        (influenceRadius this) in
    let newAmplitudes :=
      collectAmplitudes (isMouseDown this) near Js.Map.empty in
    let allHarmonicIds :=
      Js.Set_from
        (Js.Map.keys (activeHarmonics this) ++ Js.Map.keys newAmplitudes)
        [] in
    updateHarmonics_loop newAmplitudes allHarmonicIds this.

(** The body of the loop of [syncVoicesWithDepth] for the entry
    [[id, amp]]. *)
Definition syncVoice (visible : list string) (this : t)
    (entry : string * R) : Js.completion t :=
  let '(id, amp) := entry in
  if negb (existsb (String.eqb id) visible) then
    if Rgt_dec amp 0 then
      e <- HarmonicEngine.setVoiceAmplitude (engine this) id 0 (Some 0.5) ;;
      Js.Normal
        (with_timeouts (timeouts this ++ [ReleaseHidden id])
           (with_activeHarmonics (Js.Map.set (activeHarmonics this) id 0)
              (with_space
                 (HarmonicSpace.setHarmonicAmplitude (space this) id 0)
                 (with_engine e this))))
    else Js.Normal this
  else Js.Normal this.

Fixpoint syncVoices_loop (visible : list string)
    (entries : list (string * R)) (this : t) : Js.completion t :=
  match entries with
  | [] => Js.Normal this
  | entry :: entries' =>
      this' <- syncVoice visible this entry ;;
      syncVoices_loop visible entries' this'
  end.

(** [syncVoicesWithDepth()].  The loop runs over the entries the map has
    on entry: its body only overwrites the value of the entry it is at,
    which neither moves nor adds an entry. *)
Definition syncVoicesWithDepth (this : t) : Js.completion t :=
  let visible :=
    map Harmonic.id (HarmonicSpace.getVisibleHarmonics (space this)) in
  syncVoices_loop visible (activeHarmonics this) this.

(** [handleMouseMove(e)] with [e.clientX] and [e.clientY] *)
Definition handleMouseMove (this : t) (clientX clientY : R)
  : Js.completion t :=
  let this1 := with_cursor (HarmonicSpace.mkPoint clientX clientY) this in
  if isInitialized this1 then updateHarmonicsFromCursor this1
  else Js.Normal this1.

(** [handleMouseDown(e)]; [rate] is the sample rate the host gives a new
    audio context. *)
Definition handleMouseDown (this : t) (rate : nat) (rnd : Js.RandomSource)
  : Js.completion (t * Js.RandomSource) :=
  let '(this1, rnd') := initAudio this rate rnd in
  this2 <- updateHarmonicsFromCursor (with_isMouseDown true this1) ;;
  Js.Normal (this2, rnd').

(** [handleMouseUp(e)] *)
Definition handleMouseUp (this : t) : Js.completion t :=
  updateHarmonicsFromCursor (with_isMouseDown false this).

(** [handleWheel(e)] with [e.deltaY] *)
Definition handleWheel (this : t) (deltaY : R) : Js.completion t :=
  let delta := if Rgt_dec deltaY 0 then 0.05 else -0.05 in
  let newDepth :=
    Rmax 0 (Rmin 1 (HarmonicSpace.depth (space this) + delta)) in
  let this1 :=
    with_space (HarmonicSpace.setDepth (space this) newDepth) this in
  if isInitialized this1 then syncVoicesWithDepth this1
  else Js.Normal this1.

(** The arrow-key branch of [handleKeyDown], for an initialised
    application: [direction] is 1 for ArrowUp and -1 for ArrowDown. *)
Definition shiftFundamental (this : t) (direction : R) : Js.completion t :=
  let ratio := Rpower 2 (direction / 12) in
  let newFundamental := HarmonicEngine.fundamental (engine this) * ratio in
  if Rge_dec newFundamental 55 then
    if Rle_dec newFundamental 440 then
      e <- HarmonicEngine.setFundamental (engine this) newFundamental
             (Some 0.3) ;;
      Js.Normal (with_engine e this)
    else Js.Normal this
  else Js.Normal this.

(** [handleKeyDown(e)] with [e.key].  The F key only toggles the
    frequency hint of the page.  The space bar calls [initAudio()]
    without awaiting it: when the application is not initialised yet,
    [updateHarmonicsFromCursor()] runs, and returns at once, before
    [initAudio] sets [isInitialized]. *)
Definition handleKeyDown (this : t) (key : string) (rate : nat)
    (rnd : Js.RandomSource) : Js.completion (t * Js.RandomSource) :=
  if String.eqb key "ArrowUp" || String.eqb key "ArrowDown" then
    if negb (isInitialized this) then Js.Normal (this, rnd)
    else
      this1 <- shiftFundamental this
                 (if String.eqb key "ArrowUp" then 1 else -1) ;;
      Js.Normal (this1, rnd)
  else if String.eqb key "r" || String.eqb key "R" then
    if isInitialized this then
      e <- HarmonicEngine.setFundamental (engine this) 110 (Some 0.5) ;;
      Js.Normal
        (with_space (HarmonicSpace.setDepth (space this) 0)
           (with_engine e this),
         rnd)
    else Js.Normal (this, rnd)
  else if String.eqb key " " then
    if isInitialized this then
      this1 <- updateHarmonicsFromCursor (with_isMouseDown true this) ;;
      Js.Normal (this1, rnd)
    else
      let '(this1, rnd') := initAudio this rate rnd in
      Js.Normal (with_isMouseDown true this1, rnd')
  else Js.Normal (this, rnd).

(** [handleKeyUp(e)] with [e.key] *)
Definition handleKeyUp (this : t) (key : string) : Js.completion t :=
  if String.eqb key " " then
    updateHarmonicsFromCursor (with_isMouseDown false this)
  else Js.Normal this.

(** [handleResize()] with the window's new [innerWidth] and
    [innerHeight] *)
Definition handleResize (this : t) (innerWidth innerHeight : R)
    (rnd : Js.RandomSource) : t * Js.RandomSource :=
  let '(s, rnd') :=
    HarmonicSpace.resize (space this) innerWidth innerHeight rnd in
  (with_space s this, rnd').

(** [animate(timestamp)], one frame. *)
Definition animate (this : t) (timestamp : R) (rnd : Js.RandomSource)
  : Js.completion (t * Js.RandomSource) :=
  let deltaTime := frameDelta timestamp (lastTime this) in
  let space' := HarmonicSpace.update (space this) deltaTime in
  r <- VisualRenderer.render (renderer this) space' deltaTime rnd ;;
  Js.Normal
    (mk (engine this) space' (fst r) (isInitialized this) (isMouseDown this)
        (cursor this) (influenceRadius this) (activeHarmonics this)
        timestamp (timeouts this),
     snd r).

(** The body of a timer callback of the coordinator. *)
Definition runTimeout (this : t) (cb : Timeout) : Js.completion t :=
  match cb with
  | ReleaseIfSilent id =>
      match Js.Map.get (activeHarmonics this) id with
      | Some amp =>
          if Req_dec_T amp 0 then
            e <- HarmonicEngine.releaseVoice (engine this) id (Some 0.5) ;;
            Js.Normal
              (with_activeHarmonics
                 (Js.Map.delete (activeHarmonics this) id)
                 (with_engine e this))
          else Js.Normal this
      | None => Js.Normal this
      end
  | ReleaseHidden id =>
      e <- HarmonicEngine.releaseVoice (engine this) id (Some 0.3) ;;
      Js.Normal
        (with_activeHarmonics (Js.Map.delete (activeHarmonics this) id)
           (with_engine e this))
  end.

(** The host runs the [k]-th pending timer callback of the coordinator. *)
Definition fireTimeout (this : t) (k : nat) : Js.completion t :=
  match nth_error (timeouts this) k with
  | None => Js.Normal this
  | Some cb =>
      runTimeout
        (with_timeouts (HarmonicEngine.removeNth k (timeouts this)) this) cb
  end.

(** [destroy()] *)
Definition destroy (this : t) : Js.completion t :=
  e <- HarmonicEngine.destroy (engine this) ;;
  Js.Normal (with_engine e this).

End HarmonicDepths.

(* ================================================================== *)
(** * Binary64 evaluation of the ratio arithmetic *)
(* ================================================================== *)

Module Binary64.
Import PrimFloat.

(** [getPrimeRatio] on doubles; [fuel] bounds the iterations of the
    [while] loop ([Infinity] never leaves it). *)
Fixpoint getPrimeRatio (fuel : nat) (ratio : float) : option float :=
  match fuel with
  | O => None
  | S fuel' =>
      if PrimFloat.leb 4%float ratio
      then getPrimeRatio fuel' (PrimFloat.div ratio 2%float)
      else Some ratio
  end.

(** [this.fundamental * ratio], the value [createVoice] assigns to
    [osc.frequency.value]. *)
Definition voiceFrequency (fundamental ratio : float) : float :=
  PrimFloat.mul fundamental ratio.

End Binary64.

(* ================================================================== *)
(** * Vocabulary of the statements *)
(* ================================================================== *)

(** The frequency [getPrimeHarmonics] tests in its [k]-th iteration. *)
Definition candidateFrequency (prime fundamental : R) (k : nat) : R :=
  fundamental * (prime * 2 ^ k).

(** The entry [getPrimeHarmonics] pushes in its [k]-th iteration: the
    multiplier has been doubled [k] times. *)
Definition octaveEntry (prime fundamental : R) (k : nat)
  : PrimeMath.PrimeHarmonic :=
  PrimeMath.mkPrimeHarmonic (prime * 2 ^ k) (fundamental * (prime * 2 ^ k))
    (PrimeMath.getPrimeRatio (prime * 2 ^ k)) (2 ^ k).

(** [voice.oscillator.frequency.value] of the voice object [v]. *)
Definition voiceFrequency (e : HarmonicEngine.t) (v : HarmonicEngine.VoiceRef)
  : option R :=
  match HarmonicEngine.audioContext e, nth_error (HarmonicEngine.objects e) v with
  | Some ctx, Some vo =>
      WebAudio.frequencyValue (HarmonicEngine.oscillator vo) ctx
  | _, _ => None
  end.

(** The graph after [createVoice] allocated a voice on [ctx]: the new
    oscillator and gain nodes follow the nodes that were there. *)
Definition graphWithVoice (ctx : WebAudio.AudioContext)
    (master : WebAudio.NodeRef) (freq : R) : WebAudio.AudioContext :=
  let osc := List.length (WebAudio.nodes ctx) in
  WebAudio.mkContext (WebAudio.currentTime ctx) (WebAudio.sampleRate ctx)
    (WebAudio.nodes ctx
     ++ [WebAudio.mkNode
           (WebAudio.Oscillator WebAudio.sine (WebAudio.mkParam freq [])
              true false)
           [S osc];
         WebAudio.mkNode (WebAudio.Gain (WebAudio.mkParam 0 [])) [master]])
    (WebAudio.closed ctx).

(** Concrete runs evaluate the state-passing code by value and leave the
    real-number operations as they are. *)
Declare Reduction run :=
  cbv -[Rplus Rmult Rminus Rdiv Ropp Rinv IZR INR sqrt sin cos exp PI PHI
        Rmax Rmin PrimeMath.getPrimeRatio Nat.mul Nat.add].

(** A generator for the concrete runs below: every draw is one half. *)
Definition evenDraws : Js.RandomSource := Js.mkRandom (fun _ => 1 / 2) 0.

(** The engine after [new HarmonicEngine()] and [init()] on a 48 kHz
    context. *)
Definition readyEngine : HarmonicEngine.t :=
  Eval run in fst (HarmonicEngine.init HarmonicEngine.new (48 * 1000) evenDraws).

(** The space after [new HarmonicSpace(800, 600)]. *)
Definition freshSpace : HarmonicSpace.t :=
  Eval run in fst (HarmonicSpace.new 800 600 evenDraws).

(** The engine state a completed call leaves; the engine itself when the
    call threw. *)
Definition stateAfter {A : Type} (e : HarmonicEngine.t)
    (c : Js.completion (A * HarmonicEngine.t)) : HarmonicEngine.t :=
  match c with
  | Js.Normal (_, e') => e'
  | Js.Throw _ => e
  end.

(** [readyEngine] after [createVoice("prime_7", getPrimeRatio(7))]. *)
Definition engineWithSeventh : HarmonicEngine.t :=
  Eval run in
    stateAfter readyEngine
      (HarmonicEngine.createVoice readyEngine "prime_7"
         (PrimeMath.getPrimeRatio 7)).

(** Whether [voice.oscillator] of the voice object [v] has been stopped. *)
Definition voiceStopped (e : HarmonicEngine.t) (v : HarmonicEngine.VoiceRef)
  : bool :=
  match HarmonicEngine.audioContext e, nth_error (HarmonicEngine.objects e) v with
  | Some ctx, Some vo => WebAudio.isStopped (HarmonicEngine.oscillator vo) ctx
  | _, _ => false
  end.

(** The nodes [voice.gain] of the voice object [v] feeds. *)
Definition voiceOutputs (e : HarmonicEngine.t) (v : HarmonicEngine.VoiceRef)
  : list WebAudio.NodeRef :=
  match HarmonicEngine.audioContext e, nth_error (HarmonicEngine.objects e) v with
  | Some ctx, Some vo =>
      match WebAudio.getNode (HarmonicEngine.gain vo) ctx with
      | Some n => WebAudio.outputs n
      | None => []
      end
  | _, _ => []
  end.

(** The generator [rnd] after [n] more calls of [Math.random()]. *)
Definition drawsFrom (rnd : Js.RandomSource) (n : nat) : Js.RandomSource :=
  Js.mkRandom (Js.draws rnd) (Js.position rnd + n).

(** The harmonic [generateHarmonics] builds for [PRIMES[i]] when the run
    started with generator [rnd]: three draws per harmonic put its own at
    offsets [3i], [3i+1] and [3i+2]. *)
Definition generatedHarmonic (center : HarmonicSpace.Point) (baseRadius : R)
    (rnd : Js.RandomSource) (ip : nat * Z) : Harmonic.t :=
  fst (HarmonicSpace.generateHarmonic center baseRadius (fst ip) (snd ip)
         (drawsFrom rnd (3 * fst ip))).

(** The primes with their indices in [PRIMES]. *)
Definition indexedPrimes : list (nat * Z) :=
  combine (seq 0 (List.length PrimeMath.PRIMES)) PrimeMath.PRIMES.

(** The calls a client can make on a [HarmonicSpace]. *)
Inductive SpaceCall : Type :=
| CallResize (width height : R)
| CallSetDepth (depth : R)
| CallUpdate (deltaTime : R)
| CallSetHarmonicAmplitude (id : string) (amplitude : R).

Definition runCall (st : HarmonicSpace.t * Js.RandomSource) (c : SpaceCall)
  : HarmonicSpace.t * Js.RandomSource :=
  match c with
  | CallResize w h => HarmonicSpace.resize (fst st) w h (snd st)
  | CallSetDepth d => (HarmonicSpace.setDepth (fst st) d, snd st)
  | CallUpdate dt => (HarmonicSpace.update (fst st) dt, snd st)
  | CallSetHarmonicAmplitude id a =>
      (HarmonicSpace.setHarmonicAmplitude (fst st) id a, snd st)
  end.

Definition runCalls (st : HarmonicSpace.t * Js.RandomSource)
    (cs : list SpaceCall) : HarmonicSpace.t * Js.RandomSource :=
  fold_left runCall cs st.

(** The amplitude arguments of a call sequence lie in [[0, 0.8]]. *)
Definition inputInRange (c : SpaceCall) : Prop :=
  match c with
  | CallSetHarmonicAmplitude _ a => 0 <= a <= 0.8
  | _ => True
  end.

(** Every harmonic of the space has its amplitude in [[0, 0.8]]. *)
Definition amplitudesInRange (s : HarmonicSpace.t) : Prop :=
  forall hm, In hm (HarmonicSpace.harmonics s) ->
             0 <= Harmonic.amplitude hm <= 0.8.

(** What every operation of the model keeps of [generateHarmonics]: the
    harmonic at index [i] carries the prime [PRIMES[i]] and the visibility
    threshold [max(0, (i - 4) / 15)]. *)
Definition generatedShape (s : HarmonicSpace.t) : Prop :=
  Forall2
    (fun hm ip =>
       Harmonic.visibilityDepth hm = Rmax 0 ((INR (fst ip) - 4) / 15)
       /\ Harmonic.prime hm = snd ip)
    (HarmonicSpace.harmonics s) indexedPrimes.

(** A call sequence with every amplitude argument within [[0, 0.8]]. *)
Definition cappedSession : list SpaceCall :=
  [CallSetHarmonicAmplitude "prime_2" 0.5; CallUpdate 0.016;
   CallSetDepth 0.4; CallResize 1024 768;
   CallSetHarmonicAmplitude "prime_3" 0.8].

(** The scroll gesture of the round trip: depth to 1 and back to 0. *)
Definition surfaceRoundTrip : list SpaceCall :=
  [CallSetDepth 1; CallSetDepth 0].

(** The test of the [if] in [getHarmonicsNear]. *)
Definition withinReach (x y radius : R) (hm : Harmonic.t) : bool :=
  if Rlt_dec (HarmonicSpace.distanceTo x y hm) (radius + Harmonic.size hm)
  then true else false.

(** The object [getHarmonicsNear] pushes for a harmonic within reach. *)
Definition nearEntry (x y radius : R) (hm : Harmonic.t) : NearEntry :=
  mkNear hm (HarmonicSpace.distanceTo x y hm)
    (Rmax 0
       (1 - HarmonicSpace.distanceTo x y hm / (radius + Harmonic.size hm))).

(** Nearest-first order on the entries. *)
Definition nearerOrEqual (a b : NearEntry) : Prop := distance a <= distance b.

(** A harmonic of size 20 that sits 60 to the right of the origin, and a
    space that holds it. *)
Definition probeHarmonic : Harmonic.t :=
  Harmonic.mk "prime_2" 2 2 60 0 60 0 20 20 (PrimeMath.hsl 220 30 60)
    0 0 0 0.54 false 0 0 0.2.

Definition probeSpace : HarmonicSpace.t :=
  HarmonicSpace.mk 800 600 (HarmonicSpace.mkPoint 400 300) 0 0 [probeHarmonic].

(* ================================================================== *)
(** * Vocabulary of the further statements *)
(* ================================================================== *)



(** What a harmonic keeps for life of the prime it was generated for: its
    id, prime, ratio, resting size and visibility threshold. *)
Definition harmonicCarries (hm : Harmonic.t) (ip : nat * Z) : Prop :=
  Harmonic.id hm = String.append "prime_" (Js.toString (snd ip))
  /\ Harmonic.prime hm = snd ip
  /\ Harmonic.ratio hm = PrimeMath.getPrimeRatio (IZR (snd ip))
  /\ Harmonic.baseSize hm = Rmax 12 (30 - INR (fst ip) * 0.8)
  /\ Harmonic.visibilityDepth hm = Rmax 0 ((INR (fst ip) - 4) / 15).

(** The shape of every state the model reaches: one harmonic per prime, in
    the order of [PRIMES], and a depth within [[0, 1]]. *)
Definition wellGenerated (s : HarmonicSpace.t) : Prop :=
  Forall2 harmonicCarries (HarmonicSpace.harmonics s) indexedPrimes
  /\ 0 <= HarmonicSpace.depth s <= 1.

(** The state after a call sequence on a new space. *)
Definition spaceAfter (width height : R) (rnd : Js.RandomSource)
    (cs : list SpaceCall) : HarmonicSpace.t :=
  fst (runCalls (HarmonicSpace.new width height rnd) cs).

(** The id [generateHarmonics] gives the harmonic of a prime. *)
Definition idOfPrime (p : Z) : string :=
  String.append "prime_" (Js.toString p).

(** A session that scrolls past full depth and back up a little. *)
Definition deepSession : list SpaceCall :=
  [CallSetDepth 0.4; CallUpdate 0.016; CallSetDepth 1.7;
   CallSetHarmonicAmplitude "prime_5" 0.3; CallSetDepth 0.95].

(** What [update] does to one harmonic, read as a relation between the
    harmonic before and after: the position stays within the wander
    amount of the base position, the size within a tenth of the resting
    size, the wander angle advances, and the rest is kept. *)
Definition animatedFrom (dt : R) (hm hm' : Harmonic.t) : Prop :=
  Rabs (Harmonic.x hm' - Harmonic.baseX hm)
    <= Rabs (3 + Harmonic.amplitude hm * 5)
  /\ Rabs (Harmonic.y hm' - Harmonic.baseY hm)
       <= Rabs (3 + Harmonic.amplitude hm * 5)
  /\ Rabs (Harmonic.size hm' - Harmonic.baseSize hm)
       <= 0.1 * Rabs (Harmonic.baseSize hm)
  /\ Harmonic.wanderAngle hm'
     = Harmonic.wanderAngle hm + Harmonic.wanderSpeed hm * dt * 0.3
  /\ Harmonic.id hm' = Harmonic.id hm
  /\ Harmonic.prime hm' = Harmonic.prime hm
  /\ Harmonic.ratio hm' = Harmonic.ratio hm
  /\ Harmonic.baseX hm' = Harmonic.baseX hm
  /\ Harmonic.baseY hm' = Harmonic.baseY hm
  /\ Harmonic.baseSize hm' = Harmonic.baseSize hm
  /\ Harmonic.color hm' = Harmonic.color hm
  /\ Harmonic.amplitude hm' = Harmonic.amplitude hm
  /\ Harmonic.phase hm' = Harmonic.phase hm
  /\ Harmonic.breathRate hm' = Harmonic.breathRate hm
  /\ Harmonic.isExotic hm' = Harmonic.isExotic hm
  /\ Harmonic.visibilityDepth hm' = Harmonic.visibilityDepth hm
  /\ Harmonic.wanderSpeed hm' = Harmonic.wanderSpeed hm.

(** [n] animation frames with the same time step. *)
Definition updateTimes (n : nat) (dt : R) (s : HarmonicSpace.t)
  : HarmonicSpace.t :=
  Nat.iter n (fun s0 => HarmonicSpace.update s0 dt) s.

(** A call whose amplitude argument lies in [[0, 0.8]] and whose time
    step lies in [[0, 0.2]]. *)
Definition callInRange (c : SpaceCall) : Prop :=
  match c with
  | CallSetHarmonicAmplitude _ a => 0 <= a <= 0.8
  | CallUpdate dt => 0 <= dt <= 0.2
  | _ => True
  end.

(** Every harmonic of the space has its glow in [[0, 0.8]]. *)
Definition glowsInRange (s : HarmonicSpace.t) : Prop :=
  forall hm, In hm (HarmonicSpace.harmonics s) ->
             0 <= Harmonic.glow hm <= 0.8.

(** A session of three frames around an amplitude change. *)
Definition frameSession : list SpaceCall :=
  [CallUpdate 0.016; CallSetHarmonicAmplitude "prime_3" 0.6;
   CallUpdate 0.1; CallResize 640 480; CallUpdate 0.2].

(** The base position of a harmonic lies on a circle around the centre of
    the space whose radius is between 0.15 and 0.85 of the base radius
    [0.35 * min(width, height)]. *)
Definition placedIn (s : HarmonicSpace.t) (hm : Harmonic.t) : Prop :=
  exists angle f : R,
    0.15 <= f <= 0.85
    /\ Harmonic.baseX hm
       = HarmonicSpace.px (HarmonicSpace.center s)
         + cos angle
           * (Rmin (HarmonicSpace.width s) (HarmonicSpace.height s) * 0.35 * f)
    /\ Harmonic.baseY hm
       = HarmonicSpace.py (HarmonicSpace.center s)
         + sin angle
           * (Rmin (HarmonicSpace.width s) (HarmonicSpace.height s) * 0.35 * f).

Definition wellPlaced (s : HarmonicSpace.t) : Prop :=
  HarmonicSpace.center s
  = HarmonicSpace.mkPoint (HarmonicSpace.width s / 2)
      (HarmonicSpace.height s / 2)
  /\ forall hm, In hm (HarmonicSpace.harmonics s) -> placedIn s hm.

(** Amplitude and glow of a harmonic both lie in [[0, 0.8]]. *)
Definition levelsInRange (hm : Harmonic.t) : Prop :=
  0 <= Harmonic.amplitude hm <= 0.8 /\ 0 <= Harmonic.glow hm <= 0.8.

(** The resting size of a harmonic lies in [[12, 30]], its current size
    within a tenth of the resting size, and its prime is at least 2. *)
Definition sizeBounded (hm : Harmonic.t) : Prop :=
  12 <= Harmonic.baseSize hm <= 30
  /\ 0.9 * Harmonic.baseSize hm <= Harmonic.size hm
     <= 1.1 * Harmonic.baseSize hm
  /\ (2 <= Harmonic.prime hm)%Z.

(** The particles [updateParticles] keeps: those with life left. *)
Definition hasLife (p : VisualRenderer.Particle) : bool :=
  if Rle_dec (VisualRenderer.life p) 0 then false else true.

(** Every draw of the generator lies in [[0, 1)], as [Math.random()]
    promises. *)
Definition drawsInUnit (rnd : Js.RandomSource) : Prop :=
  forall k, 0 <= Js.draws rnd k < 1.

(** A particle as [spawnParticle] and [updateParticles] leave it: life in
    [(0, 1]], decay in [[0.3, 0.8]], size in [[1, 3]], speed at most 40. *)
Definition particleInRange (p : VisualRenderer.Particle) : Prop :=
  0 < VisualRenderer.life p <= 1
  /\ 0.3 <= VisualRenderer.decay p <= 0.8
  /\ 1 <= VisualRenderer.size p <= 3
  /\ VisualRenderer.vx p * VisualRenderer.vx p
     + VisualRenderer.vy p * VisualRenderer.vy p <= 40 * 40.

(** Successive calls of [render], each with the space to draw and the
    time step. *)
Fixpoint renderFrames (r : VisualRenderer.t) (rnd : Js.RandomSource)
    (frames : list (HarmonicSpace.t * R))
  : Js.completion (VisualRenderer.t * Js.RandomSource) :=
  match frames with
  | [] => Js.Normal (r, rnd)
  | (space, deltaTime) :: frames' =>
      st <- VisualRenderer.render r space deltaTime rnd ;;
      renderFrames (fst st) (snd st) frames'
  end.

(** A generator whose draws are all one tenth: below the threshold
    [amplitude * 0.3] at which [render] spawns a particle for a harmonic
    that sounds above one third. *)
Definition lowDraws : Js.RandomSource := Js.mkRandom (fun _ => 1 / 10) 0.

(** The fresh 800 x 600 space with the harmonic of the prime 2 sounding
    at 0.6, drawn for two frames. *)
Definition soundingSpace : HarmonicSpace.t :=
  HarmonicSpace.setHarmonicAmplitude freshSpace "prime_2" 0.6.

Definition twoFrames : list (HarmonicSpace.t * R) :=
  [(soundingSpace, 0.016); (soundingSpace, 0.1)].

(** What holds of the particle system between frames. *)
Definition particlesBounded (this : VisualRenderer.t) : Prop :=
  (List.length (VisualRenderer.particles this)
   <= VisualRenderer.maxParticles this)%nat
  /\ Forall particleInRange (VisualRenderer.particles this).

(** The sum of the time steps of a sequence of frames. *)
Fixpoint elapsed (frames : list (HarmonicSpace.t * R)) : R :=
  match frames with
  | [] => 0
  | f :: frames' => snd f + elapsed frames'
  end.

(** What is painted for a harmonic that [drawHarmonic] does draw, in a
    state with amplitudes and glows in range: opacities that are valid
    alpha values and a core that lies inside the glow. *)
Definition drawingInRange (d : VisualRenderer.Drawing) : Prop :=
  0 < VisualRenderer.activeAlpha d <= 0.86
  /\ 0 < VisualRenderer.coreAlpha d <= 0.8
  /\ 0 < VisualRenderer.coreSize d < VisualRenderer.glowSize d
  /\ match VisualRenderer.ringAlpha d with
     | Some a => 0 < a <= 0.24
     | None => True
     end.

(* ================================================================== *)
(** * Vocabulary of the statements on engine sessions *)
(* ================================================================== *)

(** The calls a client can make on a [HarmonicEngine], and the host
    running the [k]-th pending timer callback. *)
Inductive EngineCall : Type :=
| CallInit (rate : nat)
| CallCreateVoice (id : string) (ratio : R)
| CallSetVoiceAmplitude (id : string) (amplitude : R) (time : option R)
| CallReleaseVoice (id : string) (fadeTime : option R)
| CallSetFundamental (freq : R) (time : option R)
| CallSetMasterVolume (volume : R)
| CallFireTimeout (k : nat)
| CallDestroy.

Definition runEngineCall (st : HarmonicEngine.t * Js.RandomSource)
    (c : EngineCall) : Js.completion (HarmonicEngine.t * Js.RandomSource) :=
  match c with
  | CallInit rate => Js.Normal (HarmonicEngine.init (fst st) rate (snd st))
  | CallCreateVoice id ratio =>
      r <- HarmonicEngine.createVoice (fst st) id ratio ;;
      Js.Normal (snd r, snd st)
  | CallSetVoiceAmplitude id amplitude time =>
      e <- HarmonicEngine.setVoiceAmplitude (fst st) id amplitude time ;;
      Js.Normal (e, snd st)
  | CallReleaseVoice id fadeTime =>
      e <- HarmonicEngine.releaseVoice (fst st) id fadeTime ;;
      Js.Normal (e, snd st)
  | CallSetFundamental freq time =>
      e <- HarmonicEngine.setFundamental (fst st) freq time ;;
      Js.Normal (e, snd st)
  | CallSetMasterVolume volume =>
      Js.Normal (HarmonicEngine.setMasterVolume (fst st) volume, snd st)
  | CallFireTimeout k =>
      e <- HarmonicEngine.fireTimeout (fst st) k ;;
      Js.Normal (e, snd st)
  | CallDestroy =>
      e <- HarmonicEngine.destroy (fst st) ;;
      Js.Normal (e, snd st)
  end.

(** A session stops at the first call that throws. *)
Fixpoint runEngineCalls (st : HarmonicEngine.t * Js.RandomSource)
    (cs : list EngineCall)
  : Js.completion (HarmonicEngine.t * Js.RandomSource) :=
  match cs with
  | [] => Js.Normal st
  | c :: cs' =>
      st' <- runEngineCall st c ;;
      runEngineCalls st' cs'
  end.

(** The master volume a session asks for: the argument of its last
    [setMasterVolume], or the volume it started with. *)
Definition volumeStep (v : R) (c : EngineCall) : R :=
  match c with
  | CallSetMasterVolume v' => v'
  | _ => v
  end.

Definition volumeAfter (v : R) (cs : list EngineCall) : R :=
  fold_left volumeStep cs v.

(** An oscillator node on which [start()] has been called. *)
Definition startedOscillatorNode (n : WebAudio.Node) : Prop :=
  match WebAudio.kind n with
  | WebAudio.Oscillator _ _ true _ => True
  | _ => False
  end.

(** A gain node whose [gain.value] is [v]. *)
Definition gainNodeOf (v : R) (n : WebAudio.Node) : Prop :=
  match WebAudio.kind n with
  | WebAudio.Gain g => WebAudio.value g = v
  | _ => False
  end.

(** The node [r] of the graph exists and satisfies [P]. *)
Definition nodeIs (P : WebAudio.Node -> Prop) (ctx : WebAudio.AudioContext)
    (r : WebAudio.NodeRef) : Prop :=
  exists n, WebAudio.getNode r ctx = Some n /\ P n.

(** A change of the graph that keeps started oscillators started and the
    values of gain nodes. *)
Definition graphKeeps (ctx ctx' : WebAudio.AudioContext) : Prop :=
  (forall r, nodeIs startedOscillatorNode ctx r ->
             nodeIs startedOscillatorNode ctx' r)
  /\ (forall v r, nodeIs (gainNodeOf v) ctx r -> nodeIs (gainNodeOf v) ctx' r).

(** The state of an engine on which [init] has run: it has a context and
    a master gain node whose value is the master volume, the drone and the
    oscillator of every voice object are started, the voice map and the
    pending timers refer to voice objects that exist, and the voice map
    has one entry per id and no voice object under two ids. *)
Definition engineReady (e : HarmonicEngine.t) : Prop :=
  HarmonicEngine.isInitialized e = true
  /\ exists ctx master,
       HarmonicEngine.audioContext e = Some ctx
       /\ HarmonicEngine.masterGain e = Some master
       /\ nodeIs (gainNodeOf (HarmonicEngine.masterVolume e)) ctx master
       /\ (forall osc, HarmonicEngine.fundamentalOsc e = Some osc ->
                       nodeIs startedOscillatorNode ctx osc)
       /\ Forall
            (fun vo =>
               nodeIs startedOscillatorNode ctx (HarmonicEngine.oscillator vo))
            (HarmonicEngine.objects e)
       /\ Forall
            (fun kv =>
               (snd kv < List.length (HarmonicEngine.objects e))%nat)
            (HarmonicEngine.voices e)
       /\ Forall
            (fun cb =>
               (HarmonicEngine.voice cb
                < List.length (HarmonicEngine.objects e))%nat)
            (HarmonicEngine.timeouts e)
       /\ NoDup (Js.Map.keys (HarmonicEngine.voices e))
       /\ NoDup (map snd (HarmonicEngine.voices e)).

(** The state of an engine on which [init] has not run: no context, no
    voices, no timers. *)
Definition engineIdle (e : HarmonicEngine.t) : Prop :=
  HarmonicEngine.isInitialized e = false
  /\ HarmonicEngine.audioContext e = None
  /\ HarmonicEngine.masterGain e = None
  /\ HarmonicEngine.fundamentalOsc e = None
  /\ HarmonicEngine.voices e = []
  /\ HarmonicEngine.objects e = []
  /\ HarmonicEngine.timeouts e = [].

(** A session that sets the volume before and after [init]. *)
Definition volumeSession : list EngineCall :=
  [CallSetMasterVolume 0.7; CallInit (48 * 1000);
   CallCreateVoice "prime_3" 3; CallSetMasterVolume 0.2;
   CallSetVoiceAmplitude "prime_3" 0.5 None].

(** The state a session ends in; the state it started from when a call
    threw. *)
Definition sessionEnd (st : HarmonicEngine.t * Js.RandomSource)
    (cs : list EngineCall) : HarmonicEngine.t * Js.RandomSource :=
  match runEngineCalls st cs with
  | Js.Normal st' => st'
  | Js.Throw _ => st
  end.

Definition volumeSessionEnd : HarmonicEngine.t * Js.RandomSource :=
  Eval run in sessionEnd (HarmonicEngine.new, evenDraws) volumeSession.



(** [readyEngine] with a voice for the third harmonic. *)
Definition engineWithThird : HarmonicEngine.t :=
  Eval run in
    stateAfter readyEngine
      (HarmonicEngine.createVoice readyEngine "prime_3" 3).




(** The host runs the pending timer callbacks one after the other,
    oldest first, [n] of them. *)
Fixpoint fireAll (n : nat) (e : HarmonicEngine.t)
  : Js.completion HarmonicEngine.t :=
  match n with
  | O => Js.Normal e
  | S n' =>
      e' <- HarmonicEngine.fireTimeout e 0 ;;
      fireAll n' e'
  end.

(* ================================================================== *)
(** * Vocabulary of the statements on the application *)
(* ================================================================== *)

(** What the host delivers to the application: the events it listens
    for, animation frames, and the timer callbacks of the coordinator and
    of the engine. *)
Inductive Event : Type :=
| MouseMove (clientX clientY : R)
| MouseDown
| MouseUp
| Wheel (deltaY : R)
| KeyDown (key : string)
| KeyUp (key : string)
| Resize (innerWidth innerHeight : R)
| AnimationFrame (timestamp : R)
| TimerFires (k : nat)
| EngineTimerFires (k : nat)
| BeforeUnload.

(** [rate] is the sample rate the host gives a new audio context. *)
Definition handleEvent (rate : nat)
    (st : HarmonicDepths.t * Js.RandomSource) (ev : Event)
  : Js.completion (HarmonicDepths.t * Js.RandomSource) :=
  match ev with
  | MouseMove clientX clientY =>
      this <- HarmonicDepths.handleMouseMove (fst st) clientX clientY ;;
      Js.Normal (this, snd st)
  | MouseDown => HarmonicDepths.handleMouseDown (fst st) rate (snd st)
  | MouseUp =>
      this <- HarmonicDepths.handleMouseUp (fst st) ;;
      Js.Normal (this, snd st)
  | Wheel deltaY =>
      this <- HarmonicDepths.handleWheel (fst st) deltaY ;;
      Js.Normal (this, snd st)
  | KeyDown key => HarmonicDepths.handleKeyDown (fst st) key rate (snd st)
  | KeyUp key =>
      this <- HarmonicDepths.handleKeyUp (fst st) key ;;
      Js.Normal (this, snd st)
  | Resize innerWidth innerHeight =>
      Js.Normal
        (HarmonicDepths.handleResize (fst st) innerWidth innerHeight (snd st))
  | AnimationFrame timestamp =>
      HarmonicDepths.animate (fst st) timestamp (snd st)
  | TimerFires k =>
      this <- HarmonicDepths.fireTimeout (fst st) k ;;
      Js.Normal (this, snd st)
  | EngineTimerFires k =>
      e <- HarmonicEngine.fireTimeout (HarmonicDepths.engine (fst st)) k ;;
      Js.Normal (HarmonicDepths.with_engine e (fst st), snd st)
  | BeforeUnload =>
      this <- HarmonicDepths.destroy (fst st) ;;
      Js.Normal (this, snd st)
  end.

(** A run stops at the first handler that throws. *)
Fixpoint runEvents (rate : nat) (st : HarmonicDepths.t * Js.RandomSource)
    (evs : list Event)
  : Js.completion (HarmonicDepths.t * Js.RandomSource) :=
  match evs with
  | [] => Js.Normal st
  | ev :: evs' =>
      st' <- handleEvent rate st ev ;;
      runEvents rate st' evs'
  end.

(** What the handlers keep of the space and of the fundamental. *)
Definition appInRange (this : HarmonicDepths.t) : Prop :=
  wellGenerated (HarmonicDepths.space this)
  /\ 55 <= HarmonicEngine.fundamental (HarmonicDepths.engine this) <= 440.

(** The state between two events: before the first click or space bar
    the engine is untouched and no timer is pending; afterwards the
    engine is in working order. *)
Definition appSound (this : HarmonicDepths.t) : Prop :=
  appInRange this
  /\ ((HarmonicDepths.isInitialized this = false
       /\ engineIdle (HarmonicDepths.engine this)
       /\ HarmonicDepths.timeouts this = [])
      \/ (HarmonicDepths.isInitialized this = true
          /\ engineReady (HarmonicDepths.engine this))).

(** The three records of how loud the harmonic [id] is agree on [a]: the
    coordinator's map, the harmonic in the space, and the target of the
    voice the engine holds for the id. *)
Definition storesAgree (this : HarmonicDepths.t) (id : string) (a : R)
  : Prop :=
  Js.Map.get (HarmonicDepths.activeHarmonics this) id = Some a
  /\ (exists hm,
        HarmonicSpace.getHarmonic (HarmonicDepths.space this) id = Some hm
        /\ Harmonic.amplitude hm = a)
  /\ (exists v vo,
        Js.Map.get (HarmonicEngine.voices (HarmonicDepths.engine this)) id
        = Some v
        /\ nth_error
             (HarmonicEngine.objects (HarmonicDepths.engine this)) v
           = Some vo
        /\ HarmonicEngine.targetGain vo = a).

(** An initialised application on a fresh 800 x 600 space, the mouse
    button down at the centre. *)
Definition pressedAtCentre : HarmonicDepths.t :=
  HarmonicDepths.mk readyEngine freshSpace VisualRenderer.new true true
    (HarmonicSpace.mkPoint 400 300) 120 Js.Map.empty 0 [].

(** The depth [handleWheel] asks for: a notch of 0.05 down or up, kept
    within [[0, 1]]. *)
Definition wheelDepth (depth deltaY : R) : R :=
  Rmax 0 (Rmin 1 (depth + (if Rgt_dec deltaY 0 then 0.05 else -0.05))).

(** [readyEngine] with a voice for the harmonic of the prime 89 that
    sounds at 0.05. *)
Definition engineWith89 : HarmonicEngine.t :=
  match
    HarmonicEngine.createVoice readyEngine "prime_89"
      (PrimeMath.getPrimeRatio 89)
  with
  | Js.Normal (_, e1) =>
      match
        HarmonicEngine.setVoiceAmplitude e1 "prime_89" 0.05 (Some 0.15)
      with
      | Js.Normal e2 => e2
      | Js.Throw _ => e1
      end
  | Js.Throw _ => readyEngine
  end.

(** An initialised application at full depth on which the harmonic of
    the prime 89, the deepest one that is visible there, sounds at 0.05:
    the space, the map of the coordinator and the engine all record
    it. *)
Definition soundingDeep : HarmonicDepths.t :=
  HarmonicDepths.mk engineWith89
    (HarmonicSpace.setHarmonicAmplitude
       (HarmonicSpace.setDepth freshSpace 1) "prime_89" 0.05)
    VisualRenderer.new true true (HarmonicSpace.mkPoint 400 300) 120
    (Js.Map.set Js.Map.empty "prime_89" 0.05) 0 [].

(** An automation event the Web Audio API accepts: its time is not
    negative, and the target of an exponential ramp is positive (the API
    raises a [RangeError] for a ramp to 0 and for a negative time). *)
Definition eventInRange (ev : WebAudio.AutomationEvent) : Prop :=
  match ev with
  | WebAudio.SetValueAtTime _ t => 0 <= t
  | WebAudio.ExponentialRampToValueAtTime v t => 0 < v /\ 0 <= t
  end.

(** Every event on the timeline of the node's parameter is in range. *)
Definition timelineInRange (n : WebAudio.Node) : Prop :=
  match WebAudio.kind n with
  | WebAudio.Gain g => Forall eventInRange (WebAudio.events g)
  | WebAudio.Oscillator _ fq _ _ => Forall eventInRange (WebAudio.events fq)
  | _ => True
  end.

(** The engine has scheduled nothing the API would refuse: the
    fundamental and the ratio of every voice are positive, the clock of
    the context is not negative, and every timeline is in range. *)
Definition engineInRange (e : HarmonicEngine.t) : Prop :=
  0 < HarmonicEngine.fundamental e
  /\ Forall (fun vo => 0 < HarmonicEngine.ratio vo) (HarmonicEngine.objects e)
  /\ forall ctx,
       HarmonicEngine.audioContext e = Some ctx ->
       0 <= WebAudio.currentTime ctx
       /\ Forall timelineInRange (WebAudio.nodes ctx).

(** Every harmonic of the space has a positive ratio. *)
Definition ratiosPositive (s : HarmonicSpace.t) : Prop :=
  Forall (fun hm => 0 < Harmonic.ratio hm) (HarmonicSpace.harmonics s).

(* ================================================================== *)
(** * The concrete states are what the code computes *)
(* ================================================================== *)

Ltac run_code :=
  cbv -[Rplus Rmult Rminus Rdiv Ropp Rinv IZR INR sqrt sin cos exp PI PHI
        Rmax Rmin PrimeMath.getPrimeRatio Nat.mul Nat.add].

Lemma readyEngine_run :
  readyEngine
  = fst (HarmonicEngine.init HarmonicEngine.new (48 * 1000) evenDraws).
Proof. run_code. reflexivity. Qed.

Lemma freshSpace_run : freshSpace = fst (HarmonicSpace.new 800 600 evenDraws).
Proof. run_code. reflexivity. Qed.

Lemma engineWithSeventh_run :
  HarmonicEngine.createVoice readyEngine "prime_7" (PrimeMath.getPrimeRatio 7)
  = Js.Normal (0%nat, engineWithSeventh).
Proof. run_code. reflexivity. Qed.

(* ================================================================== *)
(** * Properties of the prime ratio math *)
(* ================================================================== *)

Section PrimeRatio.
Import PrimeMath.

Lemma getPrimeRatio_halve (r : R) :
  r >= 4 -> getPrimeRatio r = getPrimeRatio (r / 2).
Proof.
  intros H. rewrite getPrimeRatio_equation_1 at 1.
  destruct (Rge_dec r 4) as [? | Hn]; [reflexivity | contradiction].
Qed.

Lemma getPrimeRatio_done (r : R) : r < 4 -> getPrimeRatio r = r.
Proof.
  intros H. rewrite getPrimeRatio_equation_1.
  destruct (Rge_dec r 4) as [Hge | ?]; [lra | reflexivity].
Qed.

Lemma getPrimeRatio_range (r : R) : 1 <= r -> 1 <= getPrimeRatio r < 4.
Proof.
  funelim (getPrimeRatio r); intros Hr.
  - apply H. lra.
  - lra.
Qed.

(** The loop halves its input a finite number of times. *)
Lemma getPrimeRatio_halvings (r : R) :
  exists k : nat, getPrimeRatio r = r / 2 ^ k.
Proof.
  funelim (getPrimeRatio r).
  - destruct H as [k Hk]. exists (S k). rewrite Hk. simpl.
    field. apply pow_nonzero. lra.
  - exists 0%nat. simpl. field.
Qed.

Lemma IZR_half_even (n : Z) : Z.even n = true -> IZR (n / 2) = IZR n / 2.
Proof.
  intros He. apply Z.even_spec in He. destruct He as [m ->].
  replace (2 * m / 2)%Z with m
    by (symmetry; rewrite Z.mul_comm; apply Z.div_mul; lia).
  rewrite mult_IZR. lra.
Qed.

(** C5.  For every positive integer [n] the fold of [n] is [n] halved a
    finite number of times and lies in [[1,4)]; when [n] is even and at
    least 4 it is the fold of [n/2]. *)
Theorem getPrimeRatio_fold (n : Z) :
  (0 < n)%Z ->
  (exists k : nat, getPrimeRatio (IZR n) = IZR n / 2 ^ k)
  /\ 1 <= getPrimeRatio (IZR n) < 4
  /\ (Z.even n = true -> (4 <= n)%Z ->
      getPrimeRatio (IZR n) = getPrimeRatio (IZR (n / 2))).
Proof.
  intros Hpos. split; [apply getPrimeRatio_halvings | split].
  - apply getPrimeRatio_range. apply (IZR_le 1 n). lia.
  - intros He Hge. rewrite (IZR_half_even n He).
    apply getPrimeRatio_halve. apply Rle_ge. apply (IZR_le 4 n). exact Hge.
Qed.

(** The statement at [n = 12]: even, at least 4, folded to 3. *)
Lemma getPrimeRatio_fold_witness :
  (0 < 12)%Z
  /\ (exists k : nat, getPrimeRatio (IZR 12) = IZR 12 / 2 ^ k)
  /\ 1 <= getPrimeRatio (IZR 12) < 4
  /\ (Z.even 12 = true -> (4 <= 12)%Z ->
      getPrimeRatio (IZR 12) = getPrimeRatio (IZR (12 / 2))).
Proof.
  split; [lia | apply (getPrimeRatio_fold 12); lia].
Defined.

End PrimeRatio.

Section Octaves.
Import PrimeMath.

Variables prime fundamental maxFreq : R.

Local Abbreviation candidate := (candidateFrequency prime fundamental).

(** When the candidates from [k] on stay within the ceiling for [d]
    iterations and the next one leaves it, the loop pushes exactly those
    [d] entries and breaks. *)
Lemma getPrimeHarmonics_loop_breaks :
  forall (d k fuel : nat) (acc : list PrimeHarmonic),
    (forall j, (k <= j < k + d)%nat -> ~ candidate j > maxFreq) ->
    candidate (k + d) > maxFreq ->
    (d < fuel)%nat ->
    getPrimeHarmonics_loop fuel prime fundamental maxFreq (2 ^ k) acc
    = Some (acc ++ map (octaveEntry prime fundamental) (seq k d)).
Proof.
  induction d as [| d IH]; intros k fuel acc Hin Hout Hfuel;
    (destruct fuel as [| fuel]; [lia |]); simpl.
  - rewrite Nat.add_0_r in Hout. fold (candidateFrequency prime fundamental k).
    destruct (Rgt_dec (candidate k) maxFreq) as [_ | Hn];
      [| contradiction].
    now rewrite app_nil_r.
  - fold (candidateFrequency prime fundamental k).
    destruct (Rgt_dec (candidate k) maxFreq) as [Hgt | _].
    + exfalso. apply (Hin k); [lia | exact Hgt].
    + replace (2 ^ k * 2) with (2 ^ S k) by (simpl; lra).
      rewrite IH.
      * now rewrite <- app_assoc.
      * intros j Hj. apply Hin. lia.
      * replace (S k + d)%nat with (k + S d)%nat by lia. exact Hout.
      * lia.
Qed.


Lemma first_above (n : nat) :
  (forall j, (j < n)%nat -> ~ candidate j > maxFreq)
  \/ (exists m, (m < n)%nat /\ candidate m > maxFreq
                /\ forall j, (j < m)%nat -> ~ candidate j > maxFreq).
Proof.
  induction n as [| n [Hbelow | (m & Hm & Hgt & Hmin)]].
  - left. intros j Hj. lia.
  - destruct (Rgt_dec (candidate n) maxFreq) as [Hgt | Hle].
    + right. exists n. repeat split; [lia | exact Hgt | exact Hbelow].
    + left. intros j Hj.
      destruct (Nat.eq_dec j n) as [-> | Hne]; [exact Hle |].
      apply Hbelow. lia.
  - right. exists m. repeat split; [lia | exact Hgt | exact Hmin].
Qed.

Hypothesis prime_pos : 0 < prime.
Hypothesis fundamental_pos : 0 < fundamental.


Lemma candidate_unbounded : exists n, candidate n > maxFreq.
Proof.
  destruct (Pow_x_infinity 2 ltac:(rewrite Rabs_right; lra)
              (Rabs (maxFreq / (fundamental * prime)) + 1)) as [N HN].
  exists N. specialize (HN N (Nat.le_refl N)).
  rewrite Rabs_right in HN by (apply Rle_ge, pow_le; lra).
  assert (Hfp : 0 < fundamental * prime) by (apply Rmult_lt_0_compat; lra).
  assert (Hq : maxFreq / (fundamental * prime) < 2 ^ N).
  { pose proof (Rle_abs (maxFreq / (fundamental * prime))). lra. }
  unfold candidateFrequency.
  apply (Rmult_lt_compat_l _ _ _ Hfp) in Hq.
  replace (fundamental * prime * (maxFreq / (fundamental * prime)))
    with maxFreq in Hq by (field; lra).
  lra.
Qed.

(** The number of entries: the first iteration whose candidate exceeds
    the ceiling. *)
Lemma octave_count :
  exists n, candidate n > maxFreq
            /\ forall j, (j < n)%nat -> ~ candidate j > maxFreq.
Proof.
  destruct candidate_unbounded as [N HN].
  destruct (first_above (S N)) as [Hbelow | (m & _ & Hgt & Hmin)].
  - exfalso. apply (Hbelow N); [lia | exact HN].
  - exists m. split; assumption.
Qed.

Lemma getPrimeHarmonics_octaves_aux :
  exists n : nat,
    (forall fuel, (n < fuel)%nat ->
       getPrimeHarmonics fuel prime fundamental maxFreq
       = Some (map (octaveEntry prime fundamental) (seq 0 n)))
    /\ (forall k, (k < n)%nat ->
          frequency (octaveEntry prime fundamental k) <= maxFreq)
    /\ frequency (octaveEntry prime fundamental n) > maxFreq.
Proof.
  destruct octave_count as (n & Hgt & Hmin).
  exists n. split; [| split].
  - intros fuel Hfuel. unfold getPrimeHarmonics.
    change 1 with (2 ^ 0).
    rewrite (getPrimeHarmonics_loop_breaks n 0 fuel []).
    + reflexivity.
    + intros j Hj. apply Hmin. lia.
    + exact Hgt.
    + exact Hfuel.
  - intros k Hk. simpl. apply Rnot_gt_le. exact (Hmin k Hk).
  - exact Hgt.
Qed.

End Octaves.




(* ================================================================== *)
(** * Properties of the voice manager *)
(* ================================================================== *)

Section AudioGraph.
Import WebAudio.

Lemma updateNth_app {A : Type} (f : A -> A) (l l' : list A) (n : nat) :
  updateNth (List.length l + n) f (l ++ l') = l ++ updateNth n f l'.
Proof.
  induction l as [| a l IH]; simpl.
  - reflexivity.
  - now rewrite IH.
Qed.

Lemma updateNth_app0 {A : Type} (f : A -> A) (l l' : list A) (a : A) :
  updateNth (List.length l) f (l ++ a :: l') = l ++ f a :: l'.
Proof.
  rewrite <- (Nat.add_0_r (List.length l)). now rewrite updateNth_app.
Qed.

Lemma updateNth_app1 {A : Type} (f : A -> A) (l l' : list A) (a b : A) :
  updateNth (S (List.length l)) f (l ++ a :: b :: l') = l ++ a :: f b :: l'.
Proof.
  rewrite <- (Nat.add_1_r (List.length l)). now rewrite updateNth_app.
Qed.

Lemma nth_error_app0 {A : Type} (l l' : list A) (a : A) :
  nth_error (l ++ a :: l') (List.length l) = Some a.
Proof.
  induction l as [| b l IH]; simpl; auto.
Qed.

End AudioGraph.

Section JsMap.
Context {V : Type}.
Implicit Types (m : Js.Map.t V) (k : string) (v : V).

Lemma Map_has_get m k :
  Js.Map.has m k = true <-> exists v, Js.Map.get m k = Some v.
Proof.
  unfold Js.Map.has. destruct (Js.Map.get m k) as [v |]; split.
  - intros _. now exists v.
  - reflexivity.
  - discriminate.
  - intros [v Hv]. discriminate.
Qed.

Lemma Map_has_false m k :
  Js.Map.has m k = false <-> Js.Map.get m k = None.
Proof.
  unfold Js.Map.has. destruct (Js.Map.get m k); split;
    congruence || reflexivity.
Qed.

Lemma Map_get_set_same m k v : Js.Map.get (Js.Map.set m k v) k = Some v.
Proof.
  induction m as [| [k' v'] m IH]; simpl.
  - now rewrite String.eqb_refl.
  - destruct (String.eqb k' k) eqn:Hk; simpl; rewrite Hk; auto.
Qed.

Lemma Map_delete_set_fresh m k v :
  Js.Map.get m k = None -> Js.Map.delete (Js.Map.set m k v) k = m.
Proof.
  induction m as [| [k' v'] m IH]; simpl; intros Hget.
  - now rewrite String.eqb_refl.
  - destruct (String.eqb k' k) eqn:Hk; [discriminate |].
    simpl. rewrite Hk. now rewrite IH.
Qed.

Lemma Map_get_keys m k :
  Js.Map.get m k = None <-> ~ In k (Js.Map.keys m).
Proof.
  induction m as [| [k' v'] m IH]; simpl.
  - split; [intros _ [] | reflexivity].
  - destruct (String.eqb k' k) eqn:Hk.
    + apply String.eqb_eq in Hk. split; [discriminate | intros H].
      exfalso. apply H. now left.
    + apply String.eqb_neq in Hk. rewrite IH. tauto.
Qed.

End JsMap.

Section Voices.
Import WebAudio HarmonicEngine.

(** What [createVoice] does for an id that has no voice yet. *)
Lemma createVoice_fresh (e : t) (id : string) (ratio : R)
    (ctx : AudioContext) (master : NodeRef) :
  audioContext e = Some ctx ->
  masterGain e = Some master ->
  Js.Map.has (voices e) id = false ->
  createVoice e id ratio
  = Js.Normal
      (List.length (objects e),
       with_voices (Js.Map.set (voices e) id (List.length (objects e)))
         (with_objects
            (objects e
             ++ [mkVoice (List.length (nodes ctx))
                   (S (List.length (nodes ctx))) 0 ratio])
            (with_context (graphWithVoice ctx master (fundamental e * ratio))
               e))).
Proof.
  intros Hctx Hmaster Hhas.
  unfold createVoice. rewrite Hhas.
  unfold theContext. rewrite Hctx. cbn [Js.bind].
  unfold createOscillator, createGain, createNode. cbn [nodes].
  rewrite Hmaster.
  unfold start, connect, onGain, onFrequency, updateNode, graphWithVoice.
  cbn [nodes currentTime sampleRate closed].
  rewrite length_app. cbn [List.length]. rewrite Nat.add_1_r.
  rewrite <- app_assoc. cbn [app].
  rewrite updateNth_app0. cbn [kind outputs].
  rewrite updateNth_app1. cbn [kind outputs].
  rewrite updateNth_app0. cbn [kind outputs].
  rewrite updateNth_app1. cbn [kind outputs].
  rewrite updateNth_app0. cbn [kind outputs setValue value events app].
  reflexivity.
Qed.

Lemma createVoice_existing (e : t) (id : string) (ratio : R) (v : VoiceRef) :
  Js.Map.get (voices e) id = Some v ->
  createVoice e id ratio = Js.Normal (v, e).
Proof.
  intros Hget. unfold createVoice.
  replace (Js.Map.has (voices e) id) with true
    by (symmetry; apply Map_has_get; eauto).
  now rewrite Hget.
Qed.

(** A completed [createVoice] leaves [id] bound to the voice it
    returned. *)
Lemma createVoice_binds (e e1 : t) (id : string) (ratio : R) (v : VoiceRef) :
  createVoice e id ratio = Js.Normal (v, e1) ->
  Js.Map.get (voices e1) id = Some v.
Proof.
  unfold createVoice. destruct (Js.Map.has (voices e) id) eqn:Hhas.
  - destruct (Js.Map.get (voices e) id) as [v0 |] eqn:Hget;
      [| discriminate].
    intros [= <- <-]. exact Hget.
  - unfold theContext. destruct (audioContext e) as [ctx |];
      [| discriminate].
    cbn [Js.bind]. unfold createOscillator, createGain, createNode.
    destruct (masterGain e) as [master |]; [| discriminate].
    intros [= <- <-]. cbn [voices with_voices].
    apply Map_get_set_same.
Qed.

End Voices.

(** C8.  A second [createVoice] for the same id, with any ratio, returns
    the voice object of the first call and leaves the whole engine state
    (voice map, voice objects, audio graph and its node count) as the
    first call left it. *)
Theorem createVoice_idempotent (e e1 : HarmonicEngine.t) (id : string)
    (ratio ratio' : R) (v : HarmonicEngine.VoiceRef) :
  HarmonicEngine.createVoice e id ratio = Js.Normal (v, e1) ->
  HarmonicEngine.createVoice e1 id ratio' = Js.Normal (v, e1).
Proof.
  intros Hfirst. apply createVoice_existing.
  exact (createVoice_binds e e1 id ratio v Hfirst).
Qed.

(** The statement on the initialised engine: the second call, with another
    ratio, returns voice 0 again and changes nothing. *)
Lemma createVoice_idempotent_witness :
  HarmonicEngine.createVoice readyEngine "prime_7" (PrimeMath.getPrimeRatio 7)
  = Js.Normal (0%nat, engineWithSeventh)
  /\ HarmonicEngine.createVoice engineWithSeventh "prime_7" 2
     = Js.Normal (0%nat, engineWithSeventh).
Proof.
  pose proof engineWithSeventh_run as Hfirst.
  split; [exact Hfirst |].
  exact (createVoice_idempotent readyEngine engineWithSeventh "prime_7"
           (PrimeMath.getPrimeRatio 7) 2 0%nat Hfirst).
Defined.


Section VoiceLifecycle.
Import WebAudio HarmonicEngine.

Lemma nth_error_app1 {A : Type} (l l' : list A) (a b : A) :
  nth_error (l ++ a :: b :: l') (S (List.length l)) = Some b.
Proof.
  induction l as [| c l IH]; simpl; auto.
Qed.

Lemma removeNth_last {A : Type} (l : list A) (a : A) :
  removeNth (List.length l) (l ++ [a]) = l.
Proof.
  induction l as [| b l IH]; simpl; [reflexivity | now rewrite IH].
Qed.

Lemma createVoice_frequency (e : t) (id : string) (ratio : R)
    (ctx : AudioContext) (master : NodeRef) :
  audioContext e = Some ctx ->
  masterGain e = Some master ->
  Js.Map.has (voices e) id = false ->
  exists (v : VoiceRef) (e' : t),
    createVoice e id ratio = Js.Normal (v, e')
    /\ voiceFrequency e' v = Some (fundamental e * ratio).
Proof.
  intros Hctx Hmaster Hhas.
  eexists. eexists. split.
  - apply (createVoice_fresh e id ratio ctx master); assumption.
  - unfold voiceFrequency.
    cbn [audioContext objects with_voices with_objects with_context].
    rewrite nth_error_app0. cbn [oscillator].
    unfold frequencyValue, getNode, graphWithVoice. cbn [nodes].
    rewrite nth_error_app0. reflexivity.
Qed.

(** [releaseVoice] followed by [createVoice] for the same id hands back
    the fading voice, and the callback [releaseVoice] registered then
    stops that voice's oscillator, disconnects it and removes the id. *)
Lemma release_create_fire (e : t) (id : string) (ratio ratio' : R)
    (fade : option R) (ctx : AudioContext) (master : NodeRef) :
  audioContext e = Some ctx ->
  masterGain e = Some master ->
  Js.Map.has (voices e) id = false ->
  exists (v : VoiceRef) (e1 e2 e3 : t),
    createVoice e id ratio = Js.Normal (v, e1)
    /\ releaseVoice e1 id fade = Js.Normal e2
    /\ createVoice e2 id ratio' = Js.Normal (v, e2)
    /\ voiceStopped e2 v = false
    /\ fireTimeout e2 (List.length (timeouts e)) = Js.Normal e3
    /\ Js.Map.has (voices e3) id = false
    /\ voiceStopped e3 v = true
    /\ voiceOutputs e3 v = [].
Proof.
  intros Hctx Hmaster Hhas.
  pose proof (proj1 (Map_has_false _ _) Hhas) as Hnone.
  eexists. eexists. eexists. eexists.
  split; [apply (createVoice_fresh e id ratio ctx master); assumption |].
  split.
  { unfold releaseVoice.
    cbn [voices with_voices with_objects with_context].
    rewrite Map_get_set_same.
    unfold theContext, deref.
    cbn [audioContext objects with_voices with_objects with_context Js.bind].
    rewrite nth_error_app0. cbn [Js.bind gain].
    unfold rampGain, onGain, updateNode, gainValue, getNode, graphWithVoice.
    cbn [nodes currentTime sampleRate closed].
    repeat (rewrite ?updateNth_app1, ?nth_error_app1; cbn [kind outputs]).
    reflexivity. }
  split.
  { apply createVoice_existing.
    cbn [voices with_voices with_objects with_context with_timeouts].
    apply Map_get_set_same. }
  split.
  { unfold voiceStopped.
    cbn [audioContext objects with_voices with_objects with_context
         with_timeouts].
    rewrite nth_error_app0. cbn [oscillator].
    unfold isStopped, getNode. cbn [nodes].
    rewrite nth_error_app0. reflexivity. }
  split.
  { unfold fireTimeout.
    cbn [timeouts with_voices with_objects with_context with_timeouts].
    rewrite nth_error_app0, removeNth_last.
    unfold decommission, deref, theContext.
    cbn [audioContext objects voices voice voiceId with_voices with_objects
         with_context with_timeouts Js.bind].
    rewrite nth_error_app0. cbn [Js.bind oscillator gain].
    unfold stop, getNode. cbn [nodes]. rewrite nth_error_app0.
    cbn [Js.bind].
    unfold disconnect, updateNode. cbn [nodes currentTime sampleRate closed].
    repeat (rewrite ?updateNth_app0, ?updateNth_app1; cbn [kind outputs]).
    rewrite (Map_delete_set_fresh _ _ _ Hnone).
    reflexivity. }
  split.
  { cbn [voices with_voices with_context]. exact Hhas. }
  split.
  - unfold voiceStopped.
    cbn [audioContext objects with_voices with_objects with_context
         with_timeouts].
    rewrite nth_error_app0. cbn [oscillator].
    unfold isStopped, getNode. cbn [nodes].
    rewrite nth_error_app0. reflexivity.
  - unfold voiceOutputs.
    cbn [audioContext objects with_voices with_objects with_context
         with_timeouts].
    rewrite nth_error_app0. cbn [gain].
    unfold getNode. cbn [nodes].
    rewrite nth_error_app1. reflexivity.
Qed.

End VoiceLifecycle.

Lemma getPrimeRatio_7 : PrimeMath.getPrimeRatio 7 = 3.5.
Proof.
  rewrite getPrimeRatio_halve by lra.
  rewrite getPrimeRatio_done by lra. lra.
Qed.

Lemma getPrimeRatio_11 : PrimeMath.getPrimeRatio 11 = 2.75.
Proof.
  rewrite getPrimeRatio_halve by lra.
  rewrite getPrimeRatio_halve by lra.
  rewrite getPrimeRatio_done by lra. lra.
Qed.

Section FoldedFrequency.
Import PrimFloat.

(** C3.  What the code computes in the scenario of the claim: with the
  fundamental at 110 Hz, [getPrimeRatio(7)] is 3.5 (one halving, the loop
  stops below 4, not below 2) and the voice created with it sounds at
  385 Hz; [getPrimeRatio(11)] is 2.75 and its voice sounds at 302.5 Hz.
  The same values come out of the binary64 arithmetic. *)
Theorem createVoice_folded_prime_frequency :
HarmonicEngine.fundamental readyEngine = 110
/\ PrimeMath.getPrimeRatio 7 = 3.5
/\ PrimeMath.getPrimeRatio 11 = 2.75
/\ (exists v e',
      HarmonicEngine.createVoice readyEngine "prime_7"
        (PrimeMath.getPrimeRatio 7) = Js.Normal (v, e')
      /\ voiceFrequency e' v = Some 385)
/\ (exists v e',
      HarmonicEngine.createVoice readyEngine "prime_11"
        (PrimeMath.getPrimeRatio 11) = Js.Normal (v, e')
      /\ voiceFrequency e' v = Some 302.5)
/\ Binary64.getPrimeRatio 2 7%float = Some 3.5%float
/\ Binary64.voiceFrequency 110%float 3.5%float = 385%float
/\ Binary64.getPrimeRatio 3 11%float = Some 2.75%float
/\ Binary64.voiceFrequency 110%float 2.75%float = 302.5%float.
Proof.
split; [reflexivity |].
split; [exact getPrimeRatio_7 |].
split; [exact getPrimeRatio_11 |].
split.
{ destruct (createVoice_frequency readyEngine "prime_7"
              (PrimeMath.getPrimeRatio 7) _ _ eq_refl eq_refl eq_refl)
    as (v & e' & Hrun & Hfreq).
  exists v, e'. split; [exact Hrun |].
  rewrite Hfreq, getPrimeRatio_7. f_equal. change (110 * 3.5 = 385). lra. }
split.
{ destruct (createVoice_frequency readyEngine "prime_11"
              (PrimeMath.getPrimeRatio 11) _ _ eq_refl eq_refl eq_refl)
    as (v & e' & Hrun & Hfreq).
  exists v, e'. split; [exact Hrun |].
  rewrite Hfreq, getPrimeRatio_11. f_equal. change (110 * 2.75 = 302.5).
  lra. }
repeat split; reflexivity.
Qed.

End FoldedFrequency.

(** C2.  What the code does in the scenario of the claim: a voice is
    created for [prime_7] and released; [createVoice] is called again for
    the same id before the callback of [releaseVoice] has run and returns
    the voice that is fading out, its oscillator still running; when the
    callback then runs it stops the oscillator of that voice, disconnects
    its gain node and deletes the id from the voice map. *)
Theorem stale_decommission_destroys_recreated_voice :
  exists (v : HarmonicEngine.VoiceRef) (e1 e2 e3 : HarmonicEngine.t),
    HarmonicEngine.createVoice readyEngine "prime_7"
      (PrimeMath.getPrimeRatio 7) = Js.Normal (v, e1)
    /\ HarmonicEngine.releaseVoice e1 "prime_7" None = Js.Normal e2
    /\ HarmonicEngine.createVoice e2 "prime_7" (PrimeMath.getPrimeRatio 7)
       = Js.Normal (v, e2)
    /\ voiceStopped e2 v = false
    /\ HarmonicEngine.fireTimeout e2 0 = Js.Normal e3
    /\ Js.Map.has (HarmonicEngine.voices e3) "prime_7" = false
    /\ voiceStopped e3 v = true
    /\ voiceOutputs e3 v = [].
Proof.
  exact (release_create_fire readyEngine "prime_7"
           (PrimeMath.getPrimeRatio 7) (PrimeMath.getPrimeRatio 7) None
           _ _ eq_refl eq_refl eq_refl).
Qed.

(* ================================================================== *)
(** * Properties of the spatial model *)
(* ================================================================== *)

Section Generation.
Import HarmonicSpace.

Variables (center : Point) (baseRadius : R).

Lemma drawsFrom_0 (rnd : Js.RandomSource) : drawsFrom rnd 0 = rnd.
Proof.
  destruct rnd as [d p]. unfold drawsFrom. simpl. now rewrite Nat.add_0_r.
Qed.

Lemma drawsFrom_add (rnd : Js.RandomSource) (a b : nat) :
  drawsFrom (drawsFrom rnd a) b = drawsFrom rnd (a + b).
Proof.
  unfold drawsFrom. simpl. now rewrite Nat.add_assoc.
Qed.

Lemma generateHarmonic_draws (i : nat) (prime : Z) (rnd : Js.RandomSource) :
  snd (generateHarmonic center baseRadius i prime rnd) = drawsFrom rnd 3.
Proof.
  unfold generateHarmonic, drawsFrom, Js.Math_random.
  cbn [fst snd Js.draws Js.position]. f_equal. lia.
Qed.

(** The loop pushes, for each remaining prime, the harmonic of its index,
    and leaves the generator three draws further per prime. *)
Lemma generateHarmonics_loop_spec (rnd : Js.RandomSource) :
  forall (primes : list Z) (i : nat) (acc : list Harmonic.t),
    generateHarmonics_loop center baseRadius i primes
      (drawsFrom rnd (3 * i)) acc
    = (acc ++ map (generatedHarmonic center baseRadius rnd)
                (combine (seq i (List.length primes)) primes),
       drawsFrom rnd (3 * (i + List.length primes))).
Proof.
  induction primes as [| p primes IH]; intros i acc;
    cbn [generateHarmonics_loop List.length seq combine map].
  - rewrite app_nil_r, Nat.add_0_r. reflexivity.
  - destruct (generateHarmonic center baseRadius i p (drawsFrom rnd (3 * i)))
      as [hm rnd'] eqn:Hgen.
    assert (Hrnd : rnd' = drawsFrom rnd (3 * S i)).
    { change rnd' with (snd (hm, rnd')). rewrite <- Hgen.
      rewrite generateHarmonic_draws, drawsFrom_add. f_equal. lia. }
    assert (Hhm : hm = generatedHarmonic center baseRadius rnd (i, p)).
    { unfold generatedHarmonic. cbn [fst snd]. now rewrite Hgen. }
    subst rnd' hm. rewrite IH. rewrite <- app_assoc. cbn [app].
    f_equal. f_equal. lia.
Qed.

End Generation.

Section SpaceFacts.
Import HarmonicSpace.

Lemma generateHarmonics_spec (s : t) (rnd : Js.RandomSource) :
  generateHarmonics s rnd
  = (mk (width s) (height s) (center s) (depth s) (time s)
       (map (generatedHarmonic (center s)
               (Rmin (width s) (height s) * 0.35) rnd)
          indexedPrimes),
     drawsFrom rnd 75).
Proof.
  unfold generateHarmonics.
  pose proof (generateHarmonics_loop_spec (center s)
                (Rmin (width s) (height s) * 0.35) rnd PrimeMath.PRIMES 0 [])
    as Hloop.
  change (3 * 0)%nat with 0%nat in Hloop. rewrite drawsFrom_0 in Hloop.
  cbv zeta. rewrite Hloop. reflexivity.
Qed.

Lemma generatedHarmonic_silent (c : Point) (b : R) (rnd : Js.RandomSource)
    (ip : nat * Z) :
  Harmonic.amplitude (generatedHarmonic c b rnd ip) = 0
  /\ Harmonic.glow (generatedHarmonic c b rnd ip) = 0.
Proof.
  split; reflexivity.
Qed.

Lemma generatedHarmonic_animation (c : Point) (b : R) (rnd : Js.RandomSource)
    (ip : nat * Z) :
  let at_ (k : nat) := Js.draws rnd (Js.position rnd + 3 * fst ip + k) in
  Harmonic.phase (generatedHarmonic c b rnd ip) = at_ 0%nat * PI * 2
  /\ Harmonic.wanderAngle (generatedHarmonic c b rnd ip) = at_ 1%nat * PI * 2
  /\ Harmonic.wanderSpeed (generatedHarmonic c b rnd ip)
     = 0.1 + at_ 2%nat * 0.2.
Proof.
  cbv zeta. unfold generatedHarmonic, generateHarmonic, Js.Math_random.
  cbn [fst snd Harmonic.phase Harmonic.wanderAngle Harmonic.wanderSpeed
       drawsFrom Js.draws Js.position].
  rewrite Nat.add_0_r.
  replace (S (Js.position rnd + 3 * fst ip))
    with (Js.position rnd + 3 * fst ip + 1)%nat by lia.
  replace (S (Js.position rnd + 3 * fst ip + 1))
    with (Js.position rnd + 3 * fst ip + 2)%nat by lia.
  repeat split; reflexivity.
Qed.

End SpaceFacts.

Section Regeneration.
Import HarmonicSpace.

Lemma nth_error_indexed {A : Type} (l : list A) :
  forall (a i k : nat) (x : A),
    nth_error (combine (seq a (List.length l)) l) i = Some (k, x) ->
    k = (a + i)%nat.
Proof.
  induction l as [| y l IH]; intros a i k x; simpl.
  - destruct i; discriminate.
  - destruct i as [| i]; simpl.
    + intros [= <- _]. lia.
    + intros H. apply IH in H. lia.
Qed.

Lemma resize_spec (s : t) (width height : R) (rnd : Js.RandomSource) :
  resize s width height rnd
  = (mk width height (mkPoint (width / 2) (height / 2)) (depth s) (time s)
       (map (generatedHarmonic (mkPoint (width / 2) (height / 2))
               (Rmin width height * 0.35) rnd)
          indexedPrimes),
     drawsFrom rnd 75).
Proof.
  unfold resize. rewrite generateHarmonics_spec. reflexivity.
Qed.

Lemma new_spec (width height : R) (rnd : Js.RandomSource) :
  new width height rnd
  = (mk width height (mkPoint (width / 2) (height / 2)) 0 0
       (map (generatedHarmonic (mkPoint (width / 2) (height / 2))
               (Rmin width height * 0.35) rnd)
          indexedPrimes),
     drawsFrom rnd 75).
Proof.
  unfold new. rewrite generateHarmonics_spec. reflexivity.
Qed.

End Regeneration.

(** C10.  [resize] replaces the harmonic set by a newly generated one, the
    one a fresh [HarmonicSpace] of these dimensions gets from the same
    generator: 25 harmonics, each with amplitude and glow 0 whatever they
    were before, and with [phase], [wanderAngle] and [wanderSpeed] computed
    from the next three draws of [Math.random()] (75 draws in all). *)
Theorem resize_regenerates_harmonics (s : HarmonicSpace.t) (width height : R)
    (rnd : Js.RandomSource) :
  let s' := fst (HarmonicSpace.resize s width height rnd) in
  HarmonicSpace.harmonics s'
  = HarmonicSpace.harmonics (fst (HarmonicSpace.new width height rnd))
  /\ List.length (HarmonicSpace.harmonics s') = 25%nat
  /\ (forall hm, In hm (HarmonicSpace.harmonics s') ->
        Harmonic.amplitude hm = 0 /\ Harmonic.glow hm = 0)
  /\ (forall i hm, nth_error (HarmonicSpace.harmonics s') i = Some hm ->
        let draw (k : nat) :=
          Js.draws rnd (Js.position rnd + 3 * i + k) in
        Harmonic.phase hm = draw 0%nat * PI * 2
        /\ Harmonic.wanderAngle hm = draw 1%nat * PI * 2
        /\ Harmonic.wanderSpeed hm = 0.1 + draw 2%nat * 0.2)
  /\ snd (HarmonicSpace.resize s width height rnd) = drawsFrom rnd 75.
Proof.
  cbv zeta. rewrite resize_spec, new_spec.
  cbn [fst snd HarmonicSpace.harmonics].
  split; [reflexivity |].
  split; [now rewrite length_map |].
  split; [| split; [| reflexivity]].
  - intros hm Hin. apply in_map_iff in Hin. destruct Hin as (ip & <- & _).
    apply generatedHarmonic_silent.
  - intros i hm Hnth. rewrite nth_error_map in Hnth.
    destruct (nth_error indexedPrimes i) as [[k p] |] eqn:Hip;
      [| discriminate].
    injection Hnth as <-.
    apply (nth_error_indexed PrimeMath.PRIMES 0 i k p) in Hip.
    subst k.
    exact (generatedHarmonic_animation _ _ rnd (i, p)).
Qed.

Section SpaceInvariants.
Import HarmonicSpace.

(** After [h.amplitude = a] on the first match, every harmonic is one that
    was there or carries exactly [a]. *)
Lemma assignAmplitude_In (id : string) (a : R) (hs : list Harmonic.t)
    (hm : Harmonic.t) :
  In hm (assignAmplitude id a hs) ->
  In hm hs \/ exists hm0, In hm0 hs /\ hm = Harmonic.set_amplitude a hm0.
Proof.
  induction hs as [| h0 hs IH]; simpl; [tauto |].
  destruct (String.eqb (Harmonic.id h0) id).
  - intros [<- | Hin].
    + right. exists h0. split; [now left | reflexivity].
    + left. now right.
  - intros [<- | Hin].
    + left. now left.
    + destruct (IH Hin) as [H | (hm0 & H & ->)].
      * left. now right.
      * right. exists hm0. split; [now right | reflexivity].
Qed.

Lemma setHarmonicAmplitude_In (s : t) (id : string) (a : R) (hm : Harmonic.t) :
  In hm (harmonics (setHarmonicAmplitude s id a)) ->
  In hm (harmonics s) \/ Harmonic.amplitude hm = a.
Proof.
  unfold setHarmonicAmplitude.
  destruct (getHarmonic s id); [| now left].
  cbn [harmonics]. intros Hin.
  destruct (assignAmplitude_In id a _ hm Hin) as [H | (hm0 & _ & ->)];
    [now left | now right].
Qed.

Lemma find_none_iff (id : string) (hs : list Harmonic.t) :
  Js.find (fun hm => String.eqb (Harmonic.id hm) id) hs = None
  <-> forall hm, In hm hs -> Harmonic.id hm <> id.
Proof.
  induction hs as [| h0 hs IH]; simpl.
  - split; [intros _ hm [] | reflexivity].
  - destruct (String.eqb (Harmonic.id h0) id) eqn:Hid.
    + apply String.eqb_eq in Hid. split; [discriminate |].
      intros H. exfalso. exact (H h0 (or_introl eq_refl) Hid).
    + apply String.eqb_neq in Hid. rewrite IH. split.
      * intros H hm [<- | Hin]; [exact Hid | now apply H].
      * intros H hm Hin. apply H. now right.
Qed.

(** A value stored by [setHarmonicAmplitude] is read back unchanged. *)
Lemma assignAmplitude_find (id : string) (a : R) (hs : list Harmonic.t)
    (hm : Harmonic.t) :
  Js.find (fun h0 => String.eqb (Harmonic.id h0) id) hs = Some hm ->
  Js.find (fun h0 => String.eqb (Harmonic.id h0) id) (assignAmplitude id a hs)
  = Some (Harmonic.set_amplitude a hm).
Proof.
  induction hs as [| h0 hs IH]; simpl; [discriminate |].
  destruct (String.eqb (Harmonic.id h0) id) eqn:Hid; simpl.
  - intros [= <-]. cbn [Harmonic.id Harmonic.set_amplitude].
    now rewrite Hid.
  - rewrite Hid. exact IH.
Qed.

Lemma setHarmonicAmplitude_stores (s : t) (id : string) (a : R)
    (hm : Harmonic.t) :
  getHarmonic s id = Some hm ->
  getHarmonic (setHarmonicAmplitude s id a) id
  = Some (Harmonic.set_amplitude a hm).
Proof.
  intros Hget. unfold setHarmonicAmplitude. rewrite Hget.
  unfold getHarmonic in *. cbn [harmonics].
  now apply assignAmplitude_find.
Qed.

Lemma amplitudesInRange_runCall (st : t * Js.RandomSource) (c : SpaceCall) :
  inputInRange c ->
  amplitudesInRange (fst st) -> amplitudesInRange (fst (runCall st c)).
Proof.
  intros Hc Hst. destruct c as [w h | d | dt | id a]; cbn [runCall fst].
  - rewrite resize_spec. cbn [fst]. intros hm Hin. cbn [harmonics] in Hin.
    apply in_map_iff in Hin. destruct Hin as (ip & <- & _).
    destruct (generatedHarmonic_silent
                (mkPoint (w / 2) (h / 2)) (Rmin w h * 0.35) (snd st) ip)
      as [-> _].
    lra.
  - exact Hst.
  - intros hm Hin. cbn [update harmonics] in Hin.
    apply in_map_iff in Hin. destruct Hin as (hm0 & <- & Hin0).
    exact (Hst hm0 Hin0).
  - intros hm Hin. apply setHarmonicAmplitude_In in Hin.
    destruct Hin as [Hin | ->]; [exact (Hst hm Hin) | exact Hc].
Qed.

Lemma amplitudesInRange_runCalls (cs : list SpaceCall) :
  forall st : t * Js.RandomSource,
    Forall inputInRange cs ->
    amplitudesInRange (fst st) -> amplitudesInRange (fst (runCalls st cs)).
Proof.
  induction cs as [| c cs IH]; intros st Hcs Hst; cbn [runCalls fold_left].
  - exact Hst.
  - inversion Hcs as [| ? ? Hc Hcs']; subst.
    apply IH; [exact Hcs' |].
    now apply amplitudesInRange_runCall.
Qed.

Lemma amplitudesInRange_new (width height : R) (rnd : Js.RandomSource) :
  amplitudesInRange (fst (new width height rnd)).
Proof.
  rewrite new_spec. intros hm Hin. cbn [fst harmonics] in Hin.
  apply in_map_iff in Hin. destruct Hin as (ip & <- & _).
  destruct (generatedHarmonic_silent
              (mkPoint (width / 2) (height / 2)) (Rmin width height * 0.35)
              rnd ip) as [-> _].
  lra.
Qed.

End SpaceInvariants.

Section Coordinator.
Import HarmonicDepths.

(** The value [updateHarmonicsFromCursor] passes on is capped by
    [Math.min(0.8, ...)] and is not negative. *)
Lemma newAmplitude_in_range (isMouseDown : bool) (entry : NearEntry) :
  0 <= influence entry ->
  (0 < Harmonic.prime (harmonic entry))%Z ->
  0 <= newAmplitude isMouseDown entry <= 0.8.
Proof.
  intros Hinf Hprime. unfold newAmplitude.
  assert (Hroot : 0 < sqrt (IZR (Harmonic.prime (harmonic entry)) / 2)).
  { apply sqrt_lt_R0. apply IZR_lt in Hprime. lra. }
  assert (Hinv : 0 < 1 / sqrt (IZR (Harmonic.prime (harmonic entry)) / 2)).
  { apply Rdiv_lt_0_compat; lra. }
  assert (Hbase : 0 < baseIntensity isMouseDown).
  { destruct isMouseDown; simpl; lra. }
  split.
  - apply Rmin_glb; [lra |].
    apply Rmult_le_pos; [apply Rmult_le_pos |]; lra.
  - apply Rmin_l.
Qed.

End Coordinator.

(** C1, as stated, fails: [setHarmonicAmplitude("prime_2", 5)] on a fresh
    space leaves the harmonic [prime_2] with amplitude 5. *)
Lemma setHarmonicAmplitude_stores_out_of_range :
  (exists hm,
     HarmonicSpace.getHarmonic
       (HarmonicSpace.setHarmonicAmplitude freshSpace "prime_2" 5) "prime_2"
     = Some hm
     /\ Harmonic.amplitude hm = 5)
  /\ ~ amplitudesInRange
         (HarmonicSpace.setHarmonicAmplitude freshSpace "prime_2" 5).
Proof.
  assert (Hget : exists h0,
             HarmonicSpace.getHarmonic freshSpace "prime_2" = Some h0).
  { eexists. reflexivity. }
  destruct Hget as [h0 Hget].
  pose proof (setHarmonicAmplitude_stores freshSpace "prime_2" 5 h0 Hget)
    as Hstored.
  split.
  - eexists. split; [exact Hstored | reflexivity].
  - intros Hrange.
    assert (Hin : In (Harmonic.set_amplitude 5 h0)
                    (HarmonicSpace.harmonics
                       (HarmonicSpace.setHarmonicAmplitude freshSpace
                          "prime_2" 5))).
    { unfold HarmonicSpace.getHarmonic in Hstored.
      clear - Hstored.
      induction (HarmonicSpace.harmonics
                   (HarmonicSpace.setHarmonicAmplitude freshSpace "prime_2" 5))
        as [| h1 hs IH]; simpl in Hstored; [discriminate |].
      destruct (String.eqb (Harmonic.id h1) "prime_2").
      - injection Hstored as ->. now left.
      - right. exact (IH Hstored). }
    specialize (Hrange _ Hin). cbn [Harmonic.amplitude Harmonic.set_amplitude]
      in Hrange. lra.
Qed.

(** C9.  When no harmonic and no voice carries [id], the three operations
    complete without an exception and return the state they were given:
    model and engine (voice map, voice objects, audio graph, pending
    callbacks) are unchanged. *)
Theorem unknown_id_is_ignored (s : HarmonicSpace.t) (e : HarmonicEngine.t)
    (id : string) (amplitude : R) (time fadeTime : option R) :
  (forall hm, In hm (HarmonicSpace.harmonics s) -> Harmonic.id hm <> id) ->
  ~ In id (Js.Map.keys (HarmonicEngine.voices e)) ->
  HarmonicSpace.setHarmonicAmplitude s id amplitude = s
  /\ HarmonicEngine.setVoiceAmplitude e id amplitude time = Js.Normal e
  /\ HarmonicEngine.releaseVoice e id fadeTime = Js.Normal e.
Proof.
  intros Hspace Hengine.
  apply find_none_iff in Hspace. apply Map_get_keys in Hengine.
  split; [| split].
  - unfold HarmonicSpace.setHarmonicAmplitude, HarmonicSpace.getHarmonic.
    now rewrite Hspace.
  - unfold HarmonicEngine.setVoiceAmplitude. now rewrite Hengine.
  - unfold HarmonicEngine.releaseVoice. now rewrite Hengine.
Qed.

(** The statement for the id [prime_4], which no harmonic and no voice
    carries. *)
Lemma unknown_id_is_ignored_witness :
  (forall hm, In hm (HarmonicSpace.harmonics freshSpace) ->
              Harmonic.id hm <> "prime_4"%string)
  /\ ~ In "prime_4"%string (Js.Map.keys (HarmonicEngine.voices engineWithSeventh))
  /\ HarmonicSpace.setHarmonicAmplitude freshSpace "prime_4" 0.5 = freshSpace
  /\ HarmonicEngine.setVoiceAmplitude engineWithSeventh "prime_4" 0.5 None
     = Js.Normal engineWithSeventh
  /\ HarmonicEngine.releaseVoice engineWithSeventh "prime_4" (Some 0.3)
     = Js.Normal engineWithSeventh.
Proof.
  assert (Hspace : forall hm, In hm (HarmonicSpace.harmonics freshSpace) ->
                              Harmonic.id hm <> "prime_4"%string).
  { apply find_none_iff. reflexivity. }
  assert (Hengine : ~ In "prime_4"%string
                      (Js.Map.keys (HarmonicEngine.voices engineWithSeventh))).
  { simpl. intros [Heq | []]. discriminate Heq. }
  split; [exact Hspace |]. split; [exact Hengine |].
  exact (unknown_id_is_ignored freshSpace engineWithSeventh "prime_4" 0.5
           None (Some 0.3) Hspace Hengine).
Defined.

Section Visibility.
Import HarmonicSpace.

Lemma generatedShape_generated (c : Point) (b : R) (rnd : Js.RandomSource)
    (l : list (nat * Z)) :
  Forall2
    (fun hm ip =>
       Harmonic.visibilityDepth hm = Rmax 0 ((INR (fst ip) - 4) / 15)
       /\ Harmonic.prime hm = snd ip)
    (map (generatedHarmonic c b rnd) l) l.
Proof.
  induction l as [| ip l IH]; simpl; constructor.
  - split; reflexivity.
  - exact IH.
Qed.

Lemma generatedShape_assign (id : string) (a : R) (l : list (nat * Z)) :
  forall hs : list Harmonic.t,
    Forall2
      (fun hm ip =>
         Harmonic.visibilityDepth hm = Rmax 0 ((INR (fst ip) - 4) / 15)
         /\ Harmonic.prime hm = snd ip) hs l ->
    Forall2
      (fun hm ip =>
         Harmonic.visibilityDepth hm = Rmax 0 ((INR (fst ip) - 4) / 15)
         /\ Harmonic.prime hm = snd ip) (assignAmplitude id a hs) l.
Proof.
  intros hs H. induction H as [| hm ip hs l Hhead Htail IH]; simpl.
  - constructor.
  - destruct (String.eqb (Harmonic.id hm) id); constructor; assumption.
Qed.

Lemma generatedShape_runCall (st : t * Js.RandomSource) (c : SpaceCall) :
  generatedShape (fst st) -> generatedShape (fst (runCall st c)).
Proof.
  unfold generatedShape. intros Hst.
  destruct c as [w h | d | dt | id a]; cbn [runCall fst].
  - rewrite resize_spec. cbn [fst harmonics]. apply generatedShape_generated.
  - exact Hst.
  - cbn [update harmonics].
    induction Hst as [| hm ip hs l Hhead Htail IH]; simpl; constructor;
      assumption.
  - unfold setHarmonicAmplitude.
    destruct (getHarmonic (fst st) id); [| exact Hst].
    cbn [harmonics]. now apply generatedShape_assign.
Qed.

Lemma generatedShape_runCalls (cs : list SpaceCall) :
  forall st : t * Js.RandomSource,
    generatedShape (fst st) -> generatedShape (fst (runCalls st cs)).
Proof.
  induction cs as [| c cs IH]; intros st Hst; cbn [runCalls fold_left].
  - exact Hst.
  - apply IH. now apply generatedShape_runCall.
Qed.

Lemma generatedShape_new (width height : R) (rnd : Js.RandomSource) :
  generatedShape (fst (new width height rnd)).
Proof.
  unfold generatedShape. rewrite new_spec. cbn [fst harmonics].
  apply generatedShape_generated.
Qed.

(** At depth 0 the threshold [max(0, (i - 4) / 15)] passes the test
    [<= 0 + 0.3] for the indices up to 8 and for no other. *)
Lemma surface_threshold (i : nat) :
  Rmax 0 ((INR i - 4) / 15) <= 0 + 0.3 <-> (i <= 8)%nat.
Proof.
  split.
  - intros Hle.
    destruct (Nat.le_gt_cases i 8) as [Hi | Hi]; [exact Hi | exfalso].
    apply (le_INR 9 i) in Hi.
    change (INR 9) with (1 + 1 + 1 + 1 + 1 + 1 + 1 + 1 + 1) in Hi.
    pose proof (Rmax_r 0 ((INR i - 4) / 15)). lra.
  - intros Hi. apply le_INR in Hi.
    change (INR 8) with (1 + 1 + 1 + 1 + 1 + 1 + 1 + 1) in Hi.
    apply Rmax_lub; lra.
Qed.

Lemma visibleAt_true (d : R) (hm : Harmonic.t) :
  visibleAt d hm = true <-> Harmonic.visibilityDepth hm <= d + 0.3.
Proof.
  unfold visibleAt.
  destruct (Rle_dec (Harmonic.visibilityDepth hm) (d + 0.3)); split;
    auto; discriminate.
Qed.

(** On a list shaped like the generated one, the depth-0 filter keeps the
    entries of index at most 8. *)
Lemma surface_filter_prefix (ps : list Z) :
  forall (a : nat) (hs : list Harmonic.t),
    Forall2
      (fun hm ip =>
         Harmonic.visibilityDepth hm = Rmax 0 ((INR (fst ip) - 4) / 15)
         /\ Harmonic.prime hm = snd ip)
      hs (combine (seq a (List.length ps)) ps) ->
    filter (visibleAt 0) hs = firstn (9 - a) hs
    /\ map Harmonic.prime hs = ps.
Proof.
  induction ps as [| p ps IH]; intros a hs H; simpl in H.
  - inversion H; subst. now destruct (9 - a)%nat.
  - inversion H as [| hm ip hs' l' [Hvis Hprime] Htail]; subst.
    cbn [fst snd] in Hvis, Hprime.
    destruct (IH (S a) hs' Htail) as [IHf IHp].
    split; [| cbn [map]; now rewrite Hprime, IHp].
    cbn [filter]. destruct (visibleAt 0 hm) eqn:Hv.
    + apply visibleAt_true in Hv. rewrite Hvis in Hv.
      apply surface_threshold in Hv.
      replace (9 - a)%nat with (S (9 - S a)) by lia.
      cbn [firstn]. now rewrite IHf.
    + assert (Hgt : (8 < a)%nat).
      { destruct (Nat.le_gt_cases a 8) as [Hi | Hi]; [| exact Hi].
        apply surface_threshold in Hi. rewrite <- Hvis in Hi.
        apply visibleAt_true in Hi. congruence. }
      replace (9 - a)%nat with 0%nat by lia.
      rewrite IHf. replace (9 - S a)%nat with 0%nat by lia.
      now destruct hs'.
Qed.

Lemma visible_monotone (s1 s2 : t) (hm : Harmonic.t) :
  harmonics s1 = harmonics s2 -> depth s1 <= depth s2 ->
  In hm (getVisibleHarmonics s1) -> In hm (getVisibleHarmonics s2).
Proof.
  unfold getVisibleHarmonics. intros Hsame Hle Hin.
  apply filter_In in Hin. destruct Hin as [Hin Hvis].
  apply filter_In. rewrite <- Hsame. split; [exact Hin |].
  apply visibleAt_true in Hvis. apply visibleAt_true. lra.
Qed.

End Visibility.

(** C4 (amended).  In every state the model reaches from construction
    that has depth 0, [getVisibleHarmonics] returns exactly the harmonics
    whose [visibilityDepth] is at most 0.3, and these are the harmonics of
    the first nine primes (indices 0 to 8: 2, 3, 5, 7, 11, 13, 17, 19, 23),
    in order; and between two states with the same harmonics, every
    harmonic visible at the smaller depth is visible at the larger. *)
Theorem getVisibleHarmonics_surface (width height : R) (rnd : Js.RandomSource)
    (cs : list SpaceCall) :
  let s := fst (runCalls (HarmonicSpace.new width height rnd) cs) in
  HarmonicSpace.depth s = 0 ->
  (forall hm, In hm (HarmonicSpace.getVisibleHarmonics s)
              <-> In hm (HarmonicSpace.harmonics s)
                  /\ Harmonic.visibilityDepth hm <= 0.3)
  /\ HarmonicSpace.getVisibleHarmonics s
     = firstn 9 (HarmonicSpace.harmonics s)
  /\ map Harmonic.prime (HarmonicSpace.getVisibleHarmonics s)
     = [2; 3; 5; 7; 11; 13; 17; 19; 23]%Z
  /\ (forall (s1 s2 : HarmonicSpace.t) (hm : Harmonic.t),
        HarmonicSpace.harmonics s1 = HarmonicSpace.harmonics s2 ->
        HarmonicSpace.depth s1 <= HarmonicSpace.depth s2 ->
        In hm (HarmonicSpace.getVisibleHarmonics s1) ->
        In hm (HarmonicSpace.getVisibleHarmonics s2)).
Proof.
  intros s Hdepth.
  assert (Hshape : generatedShape s).
  { apply generatedShape_runCalls, generatedShape_new. }
  destruct (surface_filter_prefix PrimeMath.PRIMES 0
              (HarmonicSpace.harmonics s) Hshape) as [Hfilter Hprimes].
  assert (Hvisible : HarmonicSpace.getVisibleHarmonics s
                     = firstn 9 (HarmonicSpace.harmonics s)).
  { unfold HarmonicSpace.getVisibleHarmonics. rewrite Hdepth.
    exact Hfilter. }
  split; [| split; [exact Hvisible | split]].
  - intros hm. unfold HarmonicSpace.getVisibleHarmonics.
    rewrite filter_In, visibleAt_true, Hdepth.
    replace (0 + 0.3) with 0.3 by lra. reflexivity.
  - rewrite Hvisible, <- firstn_map, Hprimes. reflexivity.
  - exact visible_monotone.
Qed.

(** The statement after the depth went to 1 and back to 0. *)
Lemma getVisibleHarmonics_surface_witness :
  HarmonicSpace.depth
    (fst (runCalls (HarmonicSpace.new 800 600 evenDraws) surfaceRoundTrip)) = 0
  /\ let s := fst (runCalls (HarmonicSpace.new 800 600 evenDraws)
                     surfaceRoundTrip) in
     (forall hm, In hm (HarmonicSpace.getVisibleHarmonics s)
                 <-> In hm (HarmonicSpace.harmonics s)
                     /\ Harmonic.visibilityDepth hm <= 0.3)
     /\ HarmonicSpace.getVisibleHarmonics s
        = firstn 9 (HarmonicSpace.harmonics s)
     /\ map Harmonic.prime (HarmonicSpace.getVisibleHarmonics s)
        = [2; 3; 5; 7; 11; 13; 17; 19; 23]%Z
     /\ (forall (s1 s2 : HarmonicSpace.t) (hm : Harmonic.t),
           HarmonicSpace.harmonics s1 = HarmonicSpace.harmonics s2 ->
           HarmonicSpace.depth s1 <= HarmonicSpace.depth s2 ->
           In hm (HarmonicSpace.getVisibleHarmonics s1) ->
           In hm (HarmonicSpace.getVisibleHarmonics s2)).
Proof.
  assert (Hdepth :
    HarmonicSpace.depth
      (fst (runCalls (HarmonicSpace.new 800 600 evenDraws) surfaceRoundTrip))
    = 0).
  { unfold runCalls, surfaceRoundTrip.
    cbn [fold_left runCall fst snd HarmonicSpace.setDepth HarmonicSpace.depth].
    unfold Rmax, Rmin.
    destruct (Rle_dec 1 0) as [H10 | _]; [lra |].
    destruct (Rle_dec 0 0) as [_ | H00]; [reflexivity | lra]. }
  split; [exact Hdepth |].
  exact (getVisibleHarmonics_surface 800 600 evenDraws surfaceRoundTrip Hdepth).
Defined.

(** C4, as stated, fails: on a fresh space, at depth 0, the harmonic of
    [PRIMES[5]] = 13 is among the visible ones, so they are not only those
    of the first five primes. *)
Lemma sixth_prime_visible_at_surface :
  HarmonicSpace.depth freshSpace = 0
  /\ nth_error PrimeMath.PRIMES 5 = Some 13%Z
  /\ ~ (forall hm, In hm (HarmonicSpace.getVisibleHarmonics freshSpace) ->
                   In (Harmonic.prime hm) (firstn 5 PrimeMath.PRIMES)).
Proof.
  split; [reflexivity | split; [reflexivity |]].
  intros Hfive.
  assert (Hsixth : exists hm,
             nth_error (HarmonicSpace.harmonics freshSpace) 5 = Some hm
             /\ Harmonic.prime hm = 13%Z
             /\ Harmonic.visibilityDepth hm = Rmax 0 ((INR 5 - 4) / 15)).
  { eexists. repeat split; reflexivity. }
  destruct Hsixth as (hm & Hnth & Hprime & Hvis).
  assert (Hin : In hm (HarmonicSpace.getVisibleHarmonics freshSpace)).
  { unfold HarmonicSpace.getVisibleHarmonics. apply filter_In. split.
    - exact (nth_error_In _ _ Hnth).
    - apply visibleAt_true. rewrite Hvis.
      change (HarmonicSpace.depth freshSpace) with 0.
      apply surface_threshold. lia. }
  specialize (Hfive hm Hin). rewrite Hprime in Hfive.
  simpl in Hfive. intuition discriminate.
Qed.

(* ================================================================== *)
(** * The proximity query *)
(* ================================================================== *)

Section Sorting.
Context {A : Type} (key : A -> R).

(** The comparator [(a, b) => key(a) - key(b)] and the order it sorts
    into. *)
Local Abbreviation cmp := (fun a b : A => key a - key b).
Local Abbreviation ordered := (fun a b : A => key a <= key b).

Lemma sort_insert_perm (a : A) (l : list A) :
  Permutation (Js.sort_insert cmp a l) (a :: l).
Proof.
  induction l as [| b l IH]; simpl.
  - apply Permutation_refl.
  - destruct (Rle_dec (cmp a b) 0).
    + apply Permutation_refl.
    + apply Permutation_trans with (b :: a :: l).
      * now apply perm_skip.
      * apply perm_swap.
Qed.

Lemma sort_perm (l : list A) : Permutation (Js.sort cmp l) l.
Proof.
  induction l as [| a l IH]; simpl.
  - apply Permutation_refl.
  - apply Permutation_trans with (a :: Js.sort cmp l).
    + apply sort_insert_perm.
    + now apply perm_skip.
Qed.

Lemma sort_insert_sorted (a : A) (l : list A) :
  StronglySorted ordered l -> StronglySorted ordered (Js.sort_insert cmp a l).
Proof.
  induction l as [| b l IH]; intros Hsorted; simpl.
  - constructor; constructor.
  - inversion Hsorted as [| b' l' Htail Hhead]; subst.
    destruct (Rle_dec (cmp a b) 0) as [Hle | Hgt].
    + constructor; [exact Hsorted |].
      constructor.
      * cbv beta in *. lra.
      * apply Forall_forall. intros c Hc.
        rewrite Forall_forall in Hhead. specialize (Hhead c Hc).
        cbv beta in *. lra.
    + constructor; [now apply IH |].
      apply Forall_forall. intros c Hc.
      apply (Permutation_in _ (sort_insert_perm a l)) in Hc.
      destruct Hc as [<- | Hc].
      * cbv beta in *. lra.
      * rewrite Forall_forall in Hhead. exact (Hhead c Hc).
Qed.

Lemma sort_sorted (l : list A) : StronglySorted ordered (Js.sort cmp l).
Proof.
  induction l as [| a l IH]; simpl.
  - constructor.
  - now apply sort_insert_sorted.
Qed.

End Sorting.

Section Proximity.
Import HarmonicSpace.

Lemma collectNear_spec (x y radius : R) (visible : list Harmonic.t) :
  forall near : list NearEntry,
    collectNear x y radius visible near
    = near ++ map (nearEntry x y radius)
                (filter (withinReach x y radius) visible).
Proof.
  induction visible as [| hm visible IH]; intros near; simpl.
  - now rewrite app_nil_r.
  - unfold withinReach at 1.
    destruct (Rlt_dec (distanceTo x y hm) (radius + Harmonic.size hm)).
    + rewrite IH, <- app_assoc. reflexivity.
    + apply IH.
Qed.

Lemma withinReach_true (x y radius : R) (hm : Harmonic.t) :
  withinReach x y radius hm = true
  <-> distanceTo x y hm < radius + Harmonic.size hm.
Proof.
  unfold withinReach.
  destruct (Rlt_dec (distanceTo x y hm) (radius + Harmonic.size hm)); split;
    auto; discriminate.
Qed.

Lemma getHarmonicsNear_perm (s : t) (x y radius : R) :
  Permutation (getHarmonicsNear s x y radius)
    (map (nearEntry x y radius)
       (filter (withinReach x y radius) (getVisibleHarmonics s))).
Proof.
  unfold getHarmonicsNear. rewrite collectNear_spec. cbn [app].
  apply (sort_perm distance).
Qed.

Lemma getHarmonicsNear_In (s : t) (x y radius : R) (e : NearEntry) :
  In e (getHarmonicsNear s x y radius)
  <-> exists hm,
        In hm (harmonics s)
        /\ Harmonic.visibilityDepth hm <= depth s + 0.3
        /\ distanceTo x y hm < radius + Harmonic.size hm
        /\ e = nearEntry x y radius hm.
Proof.
  split.
  - intros Hin.
    apply (Permutation_in _ (getHarmonicsNear_perm s x y radius)) in Hin.
    apply in_map_iff in Hin. destruct Hin as (hm & <- & Hin).
    apply filter_In in Hin. destruct Hin as [Hvis Hreach].
    unfold getVisibleHarmonics in Hvis. apply filter_In in Hvis.
    destruct Hvis as [Hin Hvis].
    exists hm. repeat split.
    + exact Hin.
    + now apply visibleAt_true.
    + now apply withinReach_true.
  - intros (hm & Hin & Hvis & Hreach & ->).
    apply (Permutation_in _
             (Permutation_sym (getHarmonicsNear_perm s x y radius))).
    apply in_map. apply filter_In. split.
    + unfold getVisibleHarmonics. apply filter_In. split; [exact Hin |].
      now apply visibleAt_true.
    + now apply withinReach_true.
Qed.

End Proximity.

(** C7.  [getHarmonicsNear(x, y, radius)] returns one entry for each
    harmonic that is visible ([visibilityDepth <= depth + 0.3]) and whose
    Euclidean distance to [(x, y)] is strictly less than [radius + size],
    and no other entry; the entry carries the harmonic, that distance and
    the influence [max(0, 1 - distance / (radius + size))]; the entries
    are in nondecreasing order of distance; and with radius 120 a visible
    harmonic of size 20 at distance 60 gets the influence [1 - 60/140],
    which is 0.571 to three decimals. *)
Theorem getHarmonicsNear_spec (s : HarmonicSpace.t) (x y radius : R) :
  let dist (hm : Harmonic.t) :=
    sqrt ((Harmonic.x hm - x) * (Harmonic.x hm - x)
          + (Harmonic.y hm - y) * (Harmonic.y hm - y)) in
  let reached (hm : Harmonic.t) : bool :=
    if Rlt_dec (dist hm) (radius + Harmonic.size hm) then true else false in
  let entry (hm : Harmonic.t) :=
    mkNear hm (dist hm)
      (Rmax 0 (1 - dist hm / (radius + Harmonic.size hm))) in
  let result := HarmonicSpace.getHarmonicsNear s x y radius in
  (forall e, In e result
             <-> exists hm,
                   In hm (HarmonicSpace.harmonics s)
                   /\ Harmonic.visibilityDepth hm <= HarmonicSpace.depth s + 0.3
                   /\ dist hm < radius + Harmonic.size hm
                   /\ e = entry hm)
  /\ Permutation result
       (map entry (filter reached (HarmonicSpace.getVisibleHarmonics s)))
  /\ StronglySorted nearerOrEqual result
  /\ (forall hm,
        In hm (HarmonicSpace.harmonics s) ->
        Harmonic.visibilityDepth hm <= HarmonicSpace.depth s + 0.3 ->
        radius = 120 -> dist hm = 60 -> Harmonic.size hm = 20 ->
        exists e, In e result
                  /\ harmonic e = hm
                  /\ distance e = 60
                  /\ influence e = 1 - 60 / 140
                  /\ 0.571 < influence e < 0.572).
Proof.
  cbv zeta. split; [| split; [| split]].
  - exact (getHarmonicsNear_In s x y radius).
  - exact (getHarmonicsNear_perm s x y radius).
  - unfold HarmonicSpace.getHarmonicsNear. apply (sort_sorted distance).
  - intros hm Hin Hvis Hradius Hdist Hsize.
    exists (nearEntry x y radius hm). split.
    + apply getHarmonicsNear_In. exists hm. repeat split; try assumption.
      unfold HarmonicSpace.distanceTo. cbv zeta. rewrite Hdist, Hradius, Hsize.
      lra.
    + unfold nearEntry, HarmonicSpace.distanceTo.
      cbn [harmonic distance influence]. rewrite Hdist, Hradius, Hsize.
      assert (Hmax : Rmax 0 (1 - 60 / (120 + 20)) = 1 - 60 / 140).
      { rewrite Rmax_right by lra. lra. }
      rewrite Hmax. repeat split; lra.
Qed.

(** The scenario on a space holding a harmonic of size 20 at distance 60
    from the query point. *)
Lemma getHarmonicsNear_spec_witness :
  exists e, In e (HarmonicSpace.getHarmonicsNear probeSpace 0 0 120)
            /\ harmonic e = probeHarmonic
            /\ distance e = 60
            /\ influence e = 1 - 60 / 140
            /\ 0.571 < influence e < 0.572.
Proof.
  apply (proj2 (proj2 (proj2 (getHarmonicsNear_spec probeSpace 0 0 120)))
           probeHarmonic).
  - now left.
  - simpl. lra.
  - reflexivity.
  - simpl. replace ((60 - 0) * (60 - 0) + (0 - 0) * (0 - 0)) with (60 * 60)
      by lra.
    apply sqrt_square. lra.
  - reflexivity.
Defined.

(* ================================================================== *)
(** * The amplitude invariant *)
(* ================================================================== *)

Section CursorAmplitudes.
Import HarmonicSpace.

Lemma generatedShape_primes (hs : list Harmonic.t) (l : list (nat * Z)) :
  Forall2
    (fun hm ip =>
       Harmonic.visibilityDepth hm = Rmax 0 ((INR (fst ip) - 4) / 15)
       /\ Harmonic.prime hm = snd ip) hs l ->
  forall hm, In hm hs -> In (Harmonic.prime hm) (map snd l).
Proof.
  intros H. induction H as [| h0 ip hs l [_ Hprime] _ IH]; intros hm Hin.
  - destruct Hin.
  - destruct Hin as [<- | Hin]; simpl.
    + left. now symmetry.
    + right. now apply IH.
Qed.

Lemma PRIMES_positive (p : Z) : In p PrimeMath.PRIMES -> (0 < p)%Z.
Proof.
  unfold PrimeMath.PRIMES. simpl. intuition lia.
Qed.

(** In a state shaped like the generated one, every value
    [updateHarmonicsFromCursor] computes from [getHarmonicsNear]. *)
Lemma cursor_amplitudes_in_range (s : t) (x y radius : R) (isMouseDown : bool)
    (entry : NearEntry) :
  generatedShape s ->
  In entry (getHarmonicsNear s x y radius) ->
  0 <= HarmonicDepths.newAmplitude isMouseDown entry <= 0.8.
Proof.
  intros Hshape Hin.
  apply getHarmonicsNear_In in Hin.
  destruct Hin as (hm & Hhm & _ & _ & ->).
  apply newAmplitude_in_range.
  - cbn [nearEntry influence]. apply Rmax_l.
  - cbn [nearEntry harmonic]. apply PRIMES_positive.
    pose proof (generatedShape_primes _ _ Hshape hm Hhm) as Hp.
    assert (Hsnd : map snd indexedPrimes = PrimeMath.PRIMES) by reflexivity.
    now rewrite Hsnd in Hp.
Qed.

End CursorAmplitudes.

(** C1 (amended).  From construction on and through any sequence of
    [resize], [setDepth], [update] and [setHarmonicAmplitude] calls whose
    amplitude arguments lie in [[0, 0.8]], every harmonic's amplitude lies
    in [[0, 0.8]]; the amplitudes [updateHarmonicsFromCursor] computes from
    [getHarmonicsNear] in such a state lie in that interval; and
    [setHarmonicAmplitude] itself stores its argument as it is. *)
Theorem amplitude_in_range_for_capped_inputs (width height : R)
    (rnd : Js.RandomSource) (cs : list SpaceCall) :
  Forall inputInRange cs ->
  let s := fst (runCalls (HarmonicSpace.new width height rnd) cs) in
  amplitudesInRange s
  /\ (forall (x y radius : R) (isMouseDown : bool) (entry : NearEntry),
        In entry (HarmonicSpace.getHarmonicsNear s x y radius) ->
        0 <= HarmonicDepths.newAmplitude isMouseDown entry <= 0.8)
  /\ (forall (id : string) (a : R) (hm : Harmonic.t),
        HarmonicSpace.getHarmonic s id = Some hm ->
        HarmonicSpace.getHarmonic (HarmonicSpace.setHarmonicAmplitude s id a) id
        = Some (Harmonic.set_amplitude a hm)).
Proof.
  intros Hcs s. split; [| split].
  - apply amplitudesInRange_runCalls; [exact Hcs |].
    apply amplitudesInRange_new.
  - intros x y radius isMouseDown entry Hin.
    apply (cursor_amplitudes_in_range s x y radius); [| exact Hin].
    apply generatedShape_runCalls, generatedShape_new.
  - intros id a hm. apply setHarmonicAmplitude_stores.
Qed.

(** The statement for a session on an 800 by 600 space. *)
Lemma amplitude_in_range_for_capped_inputs_witness :
  Forall inputInRange cappedSession
  /\ let s := fst (runCalls (HarmonicSpace.new 800 600 evenDraws)
                     cappedSession) in
     amplitudesInRange s
     /\ (forall (x y radius : R) (isMouseDown : bool) (entry : NearEntry),
           In entry (HarmonicSpace.getHarmonicsNear s x y radius) ->
           0 <= HarmonicDepths.newAmplitude isMouseDown entry <= 0.8)
     /\ (forall (id : string) (a : R) (hm : Harmonic.t),
           HarmonicSpace.getHarmonic s id = Some hm ->
           HarmonicSpace.getHarmonic
             (HarmonicSpace.setHarmonicAmplitude s id a) id
           = Some (Harmonic.set_amplitude a hm)).
Proof.
  assert (Hcs : Forall inputInRange cappedSession).
  { unfold cappedSession. repeat constructor; simpl; lra. }
  split; [exact Hcs |].
  exact (amplitude_in_range_for_capped_inputs 800 600 evenDraws cappedSession
           Hcs).
Defined.

(* ================================================================== *)
(** * Further properties of the prime ratio math *)
(* ================================================================== *)

Section Folding.
Import PrimeMath.

Lemma getPrimeRatio_below_4 (r : R) : getPrimeRatio r < 4.
Proof.
  funelim (getPrimeRatio r).
  - assumption.
  - lra.
Qed.

Lemma getPrimeRatio_from_2 (r : R) : 2 <= r -> 2 <= getPrimeRatio r.
Proof.
  funelim (getPrimeRatio r); intros Hr.
  - apply H. lra.
  - exact Hr.
Qed.

Lemma getPrimeRatio_double (r : R) :
  2 <= r -> getPrimeRatio (2 * r) = getPrimeRatio r.
Proof.
  intros Hr. rewrite getPrimeRatio_halve by lra.
  f_equal. lra.
Qed.

End Folding.

(** X1.  On every number the fold is below 4 and folding twice is folding
    once; a number below 4 (zero and the negative ones included) is
    returned as it is. *)
Theorem getPrimeRatio_idempotent (r : R) :
  PrimeMath.getPrimeRatio r < 4
  /\ PrimeMath.getPrimeRatio (PrimeMath.getPrimeRatio r)
     = PrimeMath.getPrimeRatio r
  /\ (r < 4 -> PrimeMath.getPrimeRatio r = r).
Proof.
  split; [apply getPrimeRatio_below_4 | split].
  - apply getPrimeRatio_done. apply getPrimeRatio_below_4.
  - apply getPrimeRatio_done.
Qed.

(** X2.  From 2 upwards the fold lands in [[2, 4)] and does not see
    octaves: a number and the number times a power of two fold to the same
    ratio. *)
Theorem getPrimeRatio_octave_invariant (r : R) (k : nat) :
  2 <= r ->
  2 <= PrimeMath.getPrimeRatio r < 4
  /\ PrimeMath.getPrimeRatio (r * 2 ^ k) = PrimeMath.getPrimeRatio r.
Proof.
  intros Hr. split.
  - split; [now apply getPrimeRatio_from_2 | apply getPrimeRatio_below_4].
  - induction k as [| k IH].
    + f_equal. simpl. lra.
    + replace (r * 2 ^ S k) with (2 * (r * 2 ^ k)) by (simpl; lra).
      rewrite getPrimeRatio_double; [exact IH |].
      assert (1 <= 2 ^ k) by (apply pow_R1_Rle; lra).
      nra.
Qed.

(** The statement for the fifth harmonic three octaves up: 40 folds like
    5, to 2.5. *)
Lemma getPrimeRatio_octave_invariant_witness :
  2 <= 5
  /\ 2 <= PrimeMath.getPrimeRatio 5 < 4
  /\ PrimeMath.getPrimeRatio (5 * 2 ^ 3) = PrimeMath.getPrimeRatio 5.
Proof.
  split; [lra | apply (getPrimeRatio_octave_invariant 5 3); lra].
Defined.

(** X3.  For a prime from 2 upwards and a positive fundamental, every
    entry [getPrimeHarmonics] returns has the folded ratio of the prime
    itself, its [ratio] is the prime times its multiplier and its
    [frequency] the fundamental times that ratio; the array is empty
    exactly when the fundamental times the prime already exceeds
    [maxFreq]. *)
Theorem getPrimeHarmonics_entries (prime fundamental maxFreq : R) :
  2 <= prime -> 0 < fundamental ->
  exists (n : nat) (result : list PrimeMath.PrimeHarmonic),
    (forall fuel, (n < fuel)%nat ->
       PrimeMath.getPrimeHarmonics fuel prime fundamental maxFreq
       = Some result)
    /\ List.length result = n
    /\ (forall e, In e result ->
          PrimeMath.foldedRatio e = PrimeMath.getPrimeRatio prime
          /\ PrimeMath.ratio e = prime * PrimeMath.multiplier e
          /\ PrimeMath.frequency e = fundamental * PrimeMath.ratio e
          /\ PrimeMath.frequency e <= maxFreq)
    /\ (result = [] <-> fundamental * prime > maxFreq).
Proof.
  intros Hp Hf.
  destruct (getPrimeHarmonics_octaves_aux prime fundamental maxFreq
              ltac:(lra) Hf) as (n & Hrun & Hin & Hout).
  exists n, (map (octaveEntry prime fundamental) (seq 0 n)).
  split; [exact Hrun |].
  split; [now rewrite length_map, length_seq |].
  split.
  - intros e He. apply in_map_iff in He. destruct He as (k & <- & Hk).
    apply in_seq in Hk. cbn [octaveEntry PrimeMath.foldedRatio PrimeMath.ratio
      PrimeMath.frequency PrimeMath.multiplier].
    split; [| split; [reflexivity | split; [reflexivity |]]].
    + apply (getPrimeRatio_octave_invariant prime k Hp).
    + apply (Hin k). lia.
  - split.
    + intros Hnil. destruct n as [| n]; [| discriminate Hnil].
      simpl in Hout. lra.
    + intros Hgt. destruct n as [| n]; [reflexivity | exfalso].
      specialize (Hin 0%nat ltac:(lia)). simpl in Hin. lra.
Qed.

(** The statement for the seventh harmonic of 110 Hz under a ceiling of
    8000 Hz. *)
Lemma getPrimeHarmonics_entries_witness :
  exists (n : nat) (result : list PrimeMath.PrimeHarmonic),
    (forall fuel, (n < fuel)%nat ->
       PrimeMath.getPrimeHarmonics fuel 7 110 8000 = Some result)
    /\ List.length result = n
    /\ (forall e, In e result ->
          PrimeMath.foldedRatio e = PrimeMath.getPrimeRatio 7
          /\ PrimeMath.ratio e = 7 * PrimeMath.multiplier e
          /\ PrimeMath.frequency e = 110 * PrimeMath.ratio e
          /\ PrimeMath.frequency e <= 8000)
    /\ (result = [] <-> 110 * 7 > 8000).
Proof.
  apply (getPrimeHarmonics_entries 7 110 8000); lra.
Defined.

Section DepthDescriptors.
Import HarmonicEngine.

Lemma In_firstn {A : Type} (n : nat) (l : list A) (x : A) :
  In x (firstn n l) -> In x l.
Proof.
  intros Hin. rewrite <- (firstn_skipn n l). apply in_or_app. now left.
Qed.






Lemma PRIMES_from_2 : Forall (fun p => (2 <= p)%Z) PrimeMath.PRIMES.
Proof.
  unfold PrimeMath.PRIMES. repeat constructor; lia.
Qed.


End DepthDescriptors.


(* ================================================================== *)
(** * Further properties of the spatial model *)
(* ================================================================== *)

Section Reachable.
Import HarmonicSpace.

Lemma harmonicCarries_generated (c : Point) (b : R) (rnd : Js.RandomSource)
    (l : list (nat * Z)) :
  Forall2 harmonicCarries (map (generatedHarmonic c b rnd) l) l.
Proof.
  induction l as [| ip l IH]; simpl; constructor; [| exact IH].
  repeat split; reflexivity.
Qed.

Lemma harmonicCarries_assign (id : string) (a : R) (l : list (nat * Z)) :
  forall hs : list Harmonic.t,
    Forall2 harmonicCarries hs l ->
    Forall2 harmonicCarries (assignAmplitude id a hs) l.
Proof.
  intros hs H. induction H as [| hm ip hs l Hhead Htail IH]; simpl.
  - constructor.
  - destruct (String.eqb (Harmonic.id hm) id); constructor; assumption.
Qed.

Lemma clamp_in_range (d : R) : 0 <= Rmax 0 (Rmin 1 d) <= 1.
Proof.
  split; [apply Rmax_l |].
  apply Rmax_lub; [lra | apply Rmin_l].
Qed.

Lemma wellGenerated_runCall (st : t * Js.RandomSource) (c : SpaceCall) :
  wellGenerated (fst st) -> wellGenerated (fst (runCall st c)).
Proof.
  intros [Hshape Hdepth].
  destruct c as [w h | d | dt | id a]; cbn [runCall fst].
  - rewrite resize_spec. cbn [fst]. split; [| exact Hdepth].
    cbn [harmonics]. apply harmonicCarries_generated.
  - split; [exact Hshape |]. cbn [setDepth depth]. apply clamp_in_range.
  - split; [| exact Hdepth]. cbn [update harmonics].
    induction Hshape as [| hm ip hs l Hhead Htail IH]; simpl; constructor;
      assumption.
  - unfold setHarmonicAmplitude.
    destruct (getHarmonic (fst st) id); [| split; assumption].
    split; [| exact Hdepth].
    cbn [harmonics]. now apply harmonicCarries_assign.
Qed.

Lemma wellGenerated_spaceAfter (width height : R) (rnd : Js.RandomSource)
    (cs : list SpaceCall) :
  wellGenerated (spaceAfter width height rnd cs).
Proof.
  unfold spaceAfter.
  assert (Hnew : wellGenerated (fst (new width height rnd))).
  { rewrite new_spec. split; [| cbn [fst depth]; lra].
    cbn [fst harmonics]. apply harmonicCarries_generated. }
  revert Hnew. generalize (new width height rnd).
  induction cs as [| c cs IH]; intros st Hst; cbn [runCalls fold_left].
  - exact Hst.
  - apply IH. now apply wellGenerated_runCall.
Qed.

End Reachable.

(** X5.  [setDepth] stores its argument clamped to [[0, 1]]: a value in
    the interval is stored as it is, a smaller one as 0, a larger one as
    1; nothing else of the space changes, and setting the stored depth
    again changes nothing. *)
Theorem setDepth_clamps (s : HarmonicSpace.t) (d : R) :
  let s' := HarmonicSpace.setDepth s d in
  0 <= HarmonicSpace.depth s' <= 1
  /\ (0 <= d <= 1 -> HarmonicSpace.depth s' = d)
  /\ (d <= 0 -> HarmonicSpace.depth s' = 0)
  /\ (1 <= d -> HarmonicSpace.depth s' = 1)
  /\ HarmonicSpace.harmonics s' = HarmonicSpace.harmonics s
  /\ HarmonicSpace.setDepth s' (HarmonicSpace.depth s') = s'.
Proof.
  cbv zeta. cbn [HarmonicSpace.setDepth HarmonicSpace.depth
                 HarmonicSpace.harmonics HarmonicSpace.width
                 HarmonicSpace.height HarmonicSpace.center
                 HarmonicSpace.time].
  split; [apply clamp_in_range |].
  split; [intros Hd; rewrite Rmin_right, Rmax_right by lra; reflexivity |].
  split.
  { intros Hd. rewrite Rmin_right by lra. apply Rmax_left. lra. }
  split.
  { intros Hd. rewrite Rmin_left by lra. apply Rmax_right. lra. }
  split; [reflexivity |].
  pose proof (clamp_in_range d) as [Hlo Hhi].
  unfold HarmonicSpace.setDepth.
  cbn [HarmonicSpace.depth HarmonicSpace.harmonics HarmonicSpace.width
       HarmonicSpace.height HarmonicSpace.center HarmonicSpace.time].
  rewrite (Rmin_right 1 (Rmax 0 (Rmin 1 d))) by lra.
  rewrite (Rmax_right 0 (Rmax 0 (Rmin 1 d))) by lra.
  reflexivity.
Qed.

Section VisiblePrefix.
Import HarmonicSpace.

(** The visibility threshold of index [i] passes the test at depth [d]
    exactly when [i <= 15 d + 8.5]. *)
Lemma threshold_test (d : R) (i : nat) :
  -0.3 <= d ->
  (Rmax 0 ((INR i - 4) / 15) <= d + 0.3 <-> INR i <= 15 * d + 8.5).
Proof.
  intros Hd. split.
  - intros Hle. pose proof (Rmax_r 0 ((INR i - 4) / 15)). lra.
  - intros Hle. apply Rmax_lub; lra.
Qed.

Lemma visible_prefix_from (d : R) (ps : list Z) :
  -0.3 <= d ->
  forall (a : nat) (hs : list Harmonic.t),
    Forall2 harmonicCarries hs (combine (seq a (List.length ps)) ps) ->
    exists k : nat,
      filter (visibleAt d) hs = firstn k hs
      /\ (k <= List.length hs)%nat
      /\ (forall j, (j < k)%nat -> INR (a + j) <= 15 * d + 8.5)
      /\ ((k < List.length hs)%nat -> ~ INR (a + k) <= 15 * d + 8.5).
Proof.
  intros Hd. induction ps as [| p ps IH]; intros a hs H; simpl in H.
  - inversion H; subst. exists 0%nat. simpl.
    repeat split; [lia | intros j Hj; lia | intros Hk; lia].
  - inversion H as [| hm ip hs' l' Hcarries Htail]; subst.
    destruct Hcarries as (_ & _ & _ & _ & Hvis). cbn [fst] in Hvis.
    destruct (IH (S a) hs' Htail) as (k' & Hfilter & Hlen & Hbelow & Habove).
    cbn [filter]. destruct (visibleAt d hm) eqn:Hv.
    + apply visibleAt_true in Hv. rewrite Hvis in Hv.
      apply threshold_test in Hv; [| exact Hd].
      exists (S k'). cbn [firstn List.length].
      split; [now rewrite Hfilter |].
      split; [lia |].
      split.
      * intros [| j] Hj; [now rewrite Nat.add_0_r |].
        replace (a + S j)%nat with (S a + j)%nat by lia.
        apply Hbelow. lia.
      * intros Hk. replace (a + S k')%nat with (S a + k')%nat by lia.
        apply Habove. lia.
    + assert (Hfail : ~ INR a <= 15 * d + 8.5).
      { intros Hle. apply (threshold_test d a Hd) in Hle.
        rewrite <- Hvis in Hle. apply visibleAt_true in Hle. congruence. }
      exists 0%nat. cbn [firstn List.length].
      split.
      * destruct k' as [| k']; [now rewrite Hfilter; destruct hs' |].
        exfalso. specialize (Hbelow 0%nat ltac:(lia)).
        rewrite Nat.add_0_r in Hbelow.
        rewrite S_INR in Hbelow. lra.
      * split; [lia |].
        split; [intros j Hj; lia |].
        intros _. now rewrite Nat.add_0_r.
Qed.

Lemma firstn_prefix {A : Type} (k n : nat) (l : list A) (x : A) :
  (k <= n)%nat -> In x (firstn k l) -> In x (firstn n l).
Proof.
  intros Hkn Hin.
  replace k with (Nat.min k n) in Hin by lia.
  rewrite <- firstn_firstn in Hin.
  now apply In_firstn in Hin.
Qed.

End VisiblePrefix.

(** X6.  In every state the model reaches, the depth lies in [[0, 1]] and
    the visible harmonics are the first [k] harmonics, in order, for some
    [k] from 9 to 24: the harmonics of the first nine primes are always
    visible, the harmonic of the last prime, 97, never is, and at depth 1
    exactly 24 of the 25 are. *)
Theorem visible_harmonics_are_a_prefix (width height : R)
    (rnd : Js.RandomSource) (cs : list SpaceCall) :
  let s := spaceAfter width height rnd cs in
  0 <= HarmonicSpace.depth s <= 1
  /\ List.length (HarmonicSpace.harmonics s) = 25%nat
  /\ exists k : nat,
       (9 <= k <= 24)%nat
       /\ HarmonicSpace.getVisibleHarmonics s
          = firstn k (HarmonicSpace.harmonics s)
       /\ map Harmonic.prime (HarmonicSpace.getVisibleHarmonics s)
          = firstn k PrimeMath.PRIMES
       /\ ~ In 97%Z (map Harmonic.prime (HarmonicSpace.getVisibleHarmonics s))
       /\ (HarmonicSpace.depth s = 1 -> k = 24%nat).
Proof.
  intros s.
  destruct (wellGenerated_spaceAfter width height rnd cs) as [Hshape Hdepth].
  fold s in Hshape, Hdepth.
  assert (Hlen : List.length (HarmonicSpace.harmonics s) = 25%nat).
  { apply Forall2_length in Hshape. exact Hshape. }
  assert (Hprimes : map Harmonic.prime (HarmonicSpace.harmonics s)
                    = PrimeMath.PRIMES).
  { assert (Hsnd : PrimeMath.PRIMES = map snd indexedPrimes) by reflexivity.
    rewrite Hsnd. clear - Hshape.
    induction Hshape as [| hm ip hs l (_ & Hp & _) _ IH]; simpl;
      [reflexivity | now rewrite Hp, IH]. }
  split; [exact Hdepth | split; [exact Hlen |]].
  destruct (visible_prefix_from (HarmonicSpace.depth s) PrimeMath.PRIMES
              ltac:(lra) 0 (HarmonicSpace.harmonics s) Hshape)
    as (k & Hfilter & Hk & Hbelow & Habove).
  rewrite Hlen in Hk, Habove. cbn [Nat.add] in Hbelow, Habove.
  assert (Hk9 : (9 <= k)%nat).
  { destruct (Nat.le_gt_cases 9 k) as [H | H]; [exact H | exfalso].
    apply Habove; [lia |].
    assert (INR k <= 8).
    { replace 8 with (INR 8) by (rewrite INR_IZR_INZ; reflexivity).
      apply le_INR. lia. }
    lra. }
  assert (Hk24 : (k <= 24)%nat).
  { destruct (Nat.le_gt_cases k 24) as [H | H]; [exact H | exfalso].
    specialize (Hbelow 24%nat ltac:(lia)).
    replace (INR 24) with 24 in Hbelow
      by (rewrite INR_IZR_INZ; reflexivity).
    lra. }
  exists k.
  assert (Hvisible : HarmonicSpace.getVisibleHarmonics s
                     = firstn k (HarmonicSpace.harmonics s)).
  { exact Hfilter. }
  assert (Hvp : map Harmonic.prime (HarmonicSpace.getVisibleHarmonics s)
                = firstn k PrimeMath.PRIMES).
  { now rewrite Hvisible, <- firstn_map, Hprimes. }
  split; [lia |].
  split; [exact Hvisible |].
  split; [exact Hvp |].
  split.
  - rewrite Hvp. intros Hin.
    apply (firstn_prefix k 24 _ _ Hk24) in Hin.
    simpl in Hin. intuition discriminate.
  - intros Hone.
    destruct (Nat.le_gt_cases 24 k) as [H | H]; [lia | exfalso].
    apply Habove; [lia |].
    assert (INR k <= 23).
    { replace 23 with (INR 23) by (rewrite INR_IZR_INZ; reflexivity).
      apply le_INR. lia. }
    lra.
Qed.

Section Lookup.
Import HarmonicSpace.

Lemma generated_ids_distinct :
  NoDup (map (fun ip : nat * Z => idOfPrime (snd ip)) indexedPrimes).
Proof.
  vm_compute. repeat constructor; simpl; intuition discriminate.
Qed.

(** On a list that carries distinct ids, [find] by the id of the entry at
    index [i] returns the harmonic at index [i]. *)
Lemma find_by_index :
  forall (hs : list Harmonic.t) (l : list (nat * Z)),
    Forall2 harmonicCarries hs l ->
    NoDup (map (fun ip : nat * Z => idOfPrime (snd ip)) l) ->
    forall (i : nat) (ip : nat * Z),
      nth_error l i = Some ip ->
      exists hm,
        nth_error hs i = Some hm
        /\ harmonicCarries hm ip
        /\ Js.find
             (fun h0 => String.eqb (Harmonic.id h0) (idOfPrime (snd ip))) hs
           = Some hm.
Proof.
  intros hs l H. induction H as [| hm ip0 hs l Hhead Htail IH];
    intros Hnodup i ip Hnth.
  - destruct i; discriminate.
  - cbn [map] in Hnodup. inversion Hnodup as [| ? ? Hnotin Hnodup']; subst.
    destruct i as [| i]; cbn [nth_error] in Hnth |- *.
    + injection Hnth as <-. exists hm. split; [reflexivity |].
      split; [exact Hhead |].
      cbn [Js.find]. destruct Hhead as (Hid & _).
      unfold idOfPrime. rewrite Hid, String.eqb_refl. reflexivity.
    + destruct (IH Hnodup' i ip Hnth) as (hm' & Hnth' & Hc & Hfind).
      exists hm'. split; [exact Hnth' | split; [exact Hc |]].
      cbn [Js.find].
      destruct (String.eqb (Harmonic.id hm) (idOfPrime (snd ip))) eqn:Heq;
        [| exact Hfind].
      exfalso. apply Hnotin. apply String.eqb_eq in Heq.
      destruct Hhead as (Hid & _). unfold idOfPrime in *.
      rewrite <- Hid, Heq.
      apply nth_error_In in Hnth.
      exact (in_map (fun ip1 : nat * Z => idOfPrime (snd ip1)) l ip Hnth).
Qed.

Lemma find_holds {A : Type} (p : A -> bool) (l : list A) (x : A) :
  Js.find p l = Some x -> p x = true.
Proof.
  induction l as [| a l IH]; cbn [Js.find]; [discriminate |].
  destruct (p a) eqn:Hp; [intros [= <-]; exact Hp | exact IH].
Qed.

Lemma assignAmplitude_at :
  forall (hs : list Harmonic.t) (i : nat) (hm : Harmonic.t) (id : string)
         (a : R),
    nth_error hs i = Some hm ->
    Js.find (fun h0 => String.eqb (Harmonic.id h0) id) hs = Some hm ->
    (forall j h0, (j < i)%nat -> nth_error hs j = Some h0 ->
                  Harmonic.id h0 <> id) ->
    forall j h0,
      nth_error hs j = Some h0 ->
      nth_error (assignAmplitude id a hs) j
      = Some (if Nat.eqb j i then Harmonic.set_amplitude a h0 else h0).
Proof.
  induction hs as [| h1 hs IH]; intros i hm id a Hnth Hfind Hbefore j h0 Hj.
  - destruct j; discriminate.
  - cbn [assignAmplitude]. cbn [Js.find] in Hfind.
    destruct (String.eqb (Harmonic.id h1) id) eqn:Heq.
    + assert (i = 0%nat) as ->.
      { destruct i as [| i]; [reflexivity | exfalso].
        apply (Hbefore 0%nat h1); [lia | reflexivity |].
        now apply String.eqb_eq. }
      destruct j as [| j]; cbn [nth_error Nat.eqb] in *.
      * now injection Hj as ->.
      * exact Hj.
    + destruct i as [| i]; cbn [nth_error] in Hnth.
      { injection Hnth as ->. exfalso.
        apply find_holds in Hfind. cbv beta in Hfind. congruence. }
      destruct j as [| j]; cbn [nth_error Nat.eqb] in *; [exact Hj |].
      apply (IH i hm id a Hnth Hfind); [| exact Hj].
      intros j' h' Hj' Hn'. apply (Hbefore (S j') h'); [lia | exact Hn'].
Qed.

End Lookup.

Section LookupFacts.
Import HarmonicSpace.

Lemma nth_error_indexed_at {A : Type} (l : list A) :
  forall (a i : nat) (x : A),
    nth_error l i = Some x ->
    nth_error (combine (seq a (List.length l)) l) i = Some ((a + i)%nat, x).
Proof.
  induction l as [| y l IH]; intros a i x Hnth.
  - destruct i; discriminate.
  - destruct i as [| i]; cbn [List.length seq combine nth_error] in *.
    + injection Hnth as ->. now rewrite Nat.add_0_r.
    + rewrite (IH (S a) i x Hnth). f_equal. f_equal. lia.
Qed.

Lemma nth_error_lt {A : Type} (l : list A) (i : nat) (x : A) :
  nth_error l i = Some x -> (i < List.length l)%nat.
Proof.
  intros H. apply nth_error_Some. congruence.
Qed.

Lemma Forall2_In_left {A B : Type} (P : A -> B -> Prop) (l : list A)
    (l' : list B) (x : A) :
  Forall2 P l l' -> In x l -> exists y, In y l' /\ P x y.
Proof.
  intros H. induction H as [| a b l l' Hab _ IH]; intros Hin.
  - destruct Hin.
  - destruct Hin as [<- | Hin].
    + exists b. split; [now left | exact Hab].
    + destruct (IH Hin) as (y & Hy & Hxy). exists y. split; [now right |].
      exact Hxy.
Qed.

Lemma assignAmplitude_comm (id1 id2 : string) (a b : R)
    (hs : list Harmonic.t) :
  id1 <> id2 ->
  assignAmplitude id1 a (assignAmplitude id2 b hs)
  = assignAmplitude id2 b (assignAmplitude id1 a hs).
Proof.
  intros Hne. induction hs as [| h0 hs IH]; [reflexivity |].
  cbn [assignAmplitude].
  destruct (String.eqb (Harmonic.id h0) id1) eqn:H1;
    destruct (String.eqb (Harmonic.id h0) id2) eqn:H2;
    cbn [assignAmplitude Harmonic.id Harmonic.set_amplitude];
    rewrite ?H1, ?H2.
  - apply String.eqb_eq in H1, H2. congruence.
  - reflexivity.
  - reflexivity.
  - now rewrite IH.
Qed.

Lemma assignAmplitude_again (id : string) (a b : R) (hs : list Harmonic.t) :
  assignAmplitude id b (assignAmplitude id a hs) = assignAmplitude id b hs.
Proof.
  induction hs as [| h0 hs IH]; [reflexivity |].
  cbn [assignAmplitude].
  destruct (String.eqb (Harmonic.id h0) id) eqn:H0;
    cbn [assignAmplitude Harmonic.id Harmonic.set_amplitude]; rewrite H0.
  - reflexivity.
  - now rewrite IH.
Qed.

(** Assigning an amplitude changes no id, so it changes no lookup
    result's presence. *)
Lemma find_assignAmplitude (id id' : string) (a : R) (hs : list Harmonic.t) :
  (Js.find (fun h0 => String.eqb (Harmonic.id h0) id')
     (assignAmplitude id a hs) = None)
  <-> (Js.find (fun h0 => String.eqb (Harmonic.id h0) id') hs = None).
Proof.
  rewrite !find_none_iff. split.
  - intros H hm Hin.
    assert (Hin' : exists hm', In hm' (assignAmplitude id a hs)
                               /\ Harmonic.id hm' = Harmonic.id hm).
    { clear H. induction hs as [| h0 hs IH]; [destruct Hin |].
      cbn [assignAmplitude].
      destruct (String.eqb (Harmonic.id h0) id).
      - destruct Hin as [<- | Hin].
        + exists (Harmonic.set_amplitude a h0). split; [now left | reflexivity].
        + exists hm. split; [now right | reflexivity].
      - destruct Hin as [<- | Hin].
        + exists h0. split; [now left | reflexivity].
        + destruct (IH Hin) as (hm' & Hin' & Hid).
          exists hm'. split; [now right | exact Hid]. }
    destruct Hin' as (hm' & Hin' & Hid). rewrite <- Hid. now apply H.
  - intros H hm Hin. apply assignAmplitude_In in Hin.
    destruct Hin as [Hin | (hm0 & Hin & ->)]; [now apply H |].
    cbn [Harmonic.id Harmonic.set_amplitude]. now apply H.
Qed.

End LookupFacts.

(** X7.  In every state the model reaches, [getHarmonic("prime_" + p)]
    for the prime [p] at index [i] of [PRIMES] returns the harmonic at
    index [i] of the array; it carries that prime and the ratio
    [getPrimeRatio(p)], which lies in [[2, 4)].  An id that is not of this
    form for one of the 25 primes is not found. *)
Theorem getHarmonic_by_prime (width height : R) (rnd : Js.RandomSource)
    (cs : list SpaceCall) (i : nat) (p : Z) :
  nth_error PrimeMath.PRIMES i = Some p ->
  let s := spaceAfter width height rnd cs in
  (exists hm,
     HarmonicSpace.getHarmonic s (idOfPrime p) = Some hm
     /\ nth_error (HarmonicSpace.harmonics s) i = Some hm
     /\ Harmonic.prime hm = p
     /\ Harmonic.ratio hm = PrimeMath.getPrimeRatio (IZR p)
     /\ 2 <= Harmonic.ratio hm < 4)
  /\ (forall id,
        (forall q, In q PrimeMath.PRIMES -> id <> idOfPrime q) ->
        HarmonicSpace.getHarmonic s id = None).
Proof.
  intros Hp s.
  destruct (wellGenerated_spaceAfter width height rnd cs) as [Hshape _].
  fold s in Hshape. split.
  - pose proof (nth_error_indexed_at PrimeMath.PRIMES 0 i p Hp) as Hip.
    destruct (find_by_index _ _ Hshape generated_ids_distinct i _ Hip)
      as (hm & Hnth & (_ & Hprime & Hratio & _) & Hfind).
    cbn [fst snd] in *.
    exists hm. split; [exact Hfind |]. split; [exact Hnth |].
    split; [exact Hprime |]. split; [exact Hratio |].
    rewrite Hratio.
    assert (H2 : (2 <= p)%Z).
    { pose proof PRIMES_from_2 as Hall. rewrite Forall_forall in Hall.
      apply Hall. exact (nth_error_In _ _ Hp). }
    split; [apply getPrimeRatio_from_2; now apply (IZR_le 2 p)
           | apply getPrimeRatio_below_4].
  - intros id Hid. unfold HarmonicSpace.getHarmonic.
    apply find_none_iff. intros hm Hin.
    destruct (Forall2_In_left _ _ _ hm Hshape Hin)
      as (ip & Hip & (Hcarried & _)).
    rewrite Hcarried. intros Heq. apply (Hid (snd ip)); [| now symmetry].
    assert (Hsnd : PrimeMath.PRIMES = map snd indexedPrimes) by reflexivity.
    rewrite Hsnd. now apply in_map.
Qed.

(** The statement for the prime 13, at index 5, after a session. *)
Lemma getHarmonic_by_prime_witness :
  nth_error PrimeMath.PRIMES 5 = Some 13%Z
  /\ let s := spaceAfter 800 600 evenDraws deepSession in
     (exists hm,
        HarmonicSpace.getHarmonic s (idOfPrime 13) = Some hm
        /\ nth_error (HarmonicSpace.harmonics s) 5 = Some hm
        /\ Harmonic.prime hm = 13%Z
        /\ Harmonic.ratio hm = PrimeMath.getPrimeRatio (IZR 13)
        /\ 2 <= Harmonic.ratio hm < 4)
     /\ (forall id,
           (forall q, In q PrimeMath.PRIMES -> id <> idOfPrime q) ->
           HarmonicSpace.getHarmonic s id = None).
Proof.
  split; [reflexivity |].
  exact (getHarmonic_by_prime 800 600 evenDraws deepSession 5 13 eq_refl).
Defined.

(** X8.  In every state the model reaches, [setHarmonicAmplitude] with the
    id of the prime at index [i] replaces the amplitude of the harmonic at
    index [i] and leaves every other harmonic, every other field of that
    harmonic, and the width, height, centre, depth and time of the space
    as they were. *)
Theorem setHarmonicAmplitude_frame (width height : R) (rnd : Js.RandomSource)
    (cs : list SpaceCall) (i : nat) (p : Z) (a : R) :
  nth_error PrimeMath.PRIMES i = Some p ->
  let s := spaceAfter width height rnd cs in
  let s' := HarmonicSpace.setHarmonicAmplitude s (idOfPrime p) a in
  (forall j hm,
     nth_error (HarmonicSpace.harmonics s) j = Some hm ->
     nth_error (HarmonicSpace.harmonics s') j
     = Some (if Nat.eqb j i then Harmonic.set_amplitude a hm else hm))
  /\ List.length (HarmonicSpace.harmonics s')
     = List.length (HarmonicSpace.harmonics s)
  /\ HarmonicSpace.width s' = HarmonicSpace.width s
  /\ HarmonicSpace.height s' = HarmonicSpace.height s
  /\ HarmonicSpace.center s' = HarmonicSpace.center s
  /\ HarmonicSpace.depth s' = HarmonicSpace.depth s
  /\ HarmonicSpace.time s' = HarmonicSpace.time s.
Proof.
  intros Hp s s'.
  destruct (wellGenerated_spaceAfter width height rnd cs) as [Hshape _].
  fold s in Hshape.
  pose proof (nth_error_indexed_at PrimeMath.PRIMES 0 i p Hp) as Hip.
  destruct (find_by_index _ _ Hshape generated_ids_distinct i _ Hip)
    as (hm & Hnth & _ & Hfind).
  cbn [fst snd] in Hfind.
  assert (Hs' : s' = HarmonicSpace.mk (HarmonicSpace.width s)
                       (HarmonicSpace.height s) (HarmonicSpace.center s)
                       (HarmonicSpace.depth s) (HarmonicSpace.time s)
                       (HarmonicSpace.assignAmplitude (idOfPrime p) a
                          (HarmonicSpace.harmonics s))).
  { unfold s', HarmonicSpace.setHarmonicAmplitude, HarmonicSpace.getHarmonic.
    now rewrite Hfind. }
  assert (Hat : forall j h0,
             nth_error (HarmonicSpace.harmonics s) j = Some h0 ->
             nth_error (HarmonicSpace.harmonics s') j
             = Some (if Nat.eqb j i then Harmonic.set_amplitude a h0
                     else h0)).
  { rewrite Hs'. cbn [HarmonicSpace.harmonics].
    apply (assignAmplitude_at _ i hm); [exact Hnth | exact Hfind |].
    intros j h0 Hj Hnj Hid.
    assert (Hjp : exists q, nth_error PrimeMath.PRIMES j = Some q).
    { destruct (nth_error PrimeMath.PRIMES j) as [q |] eqn:Hq; [eauto |].
      apply nth_error_None in Hq. apply nth_error_lt in Hp. lia. }
    destruct Hjp as [q Hq].
    pose proof (nth_error_indexed_at PrimeMath.PRIMES 0 j q Hq) as Hjq.
    destruct (find_by_index _ _ Hshape generated_ids_distinct j _ Hjq)
      as (hj & Hnj' & (Hidj & _) & _).
    rewrite Hnj in Hnj'. injection Hnj' as <-. cbn [snd] in Hidj.
    pose proof generated_ids_distinct as Hnd.
    rewrite (NoDup_nth_error) in Hnd.
    assert (Heq : j = i).
    { apply Hnd.
      - rewrite length_map. exact (nth_error_lt _ _ _ Hjq).
      - rewrite !nth_error_map. unfold indexedPrimes.
        rewrite Hjq, Hip. cbn [option_map snd].
        f_equal. unfold idOfPrime in *. congruence. }
    lia. }
  split; [exact Hat |].
  rewrite Hs'. cbn [HarmonicSpace.harmonics HarmonicSpace.width
                    HarmonicSpace.height HarmonicSpace.center
                    HarmonicSpace.depth HarmonicSpace.time].
  split; [| repeat split].
  clear. induction (HarmonicSpace.harmonics s) as [| h0 hs IH];
    [reflexivity |].
  cbn [HarmonicSpace.assignAmplitude].
  destruct (String.eqb (Harmonic.id h0) (idOfPrime p)); cbn [List.length];
    [reflexivity | now rewrite IH].
Qed.

(** The statement for the prime 13 and the amplitude 0.4. *)
Lemma setHarmonicAmplitude_frame_witness :
  nth_error PrimeMath.PRIMES 5 = Some 13%Z
  /\ let s := spaceAfter 800 600 evenDraws deepSession in
     let s' := HarmonicSpace.setHarmonicAmplitude s (idOfPrime 13) 0.4 in
     (forall j hm,
        nth_error (HarmonicSpace.harmonics s) j = Some hm ->
        nth_error (HarmonicSpace.harmonics s') j
        = Some (if Nat.eqb j 5 then Harmonic.set_amplitude 0.4 hm else hm))
     /\ List.length (HarmonicSpace.harmonics s')
        = List.length (HarmonicSpace.harmonics s)
     /\ HarmonicSpace.width s' = HarmonicSpace.width s
     /\ HarmonicSpace.height s' = HarmonicSpace.height s
     /\ HarmonicSpace.center s' = HarmonicSpace.center s
     /\ HarmonicSpace.depth s' = HarmonicSpace.depth s
     /\ HarmonicSpace.time s' = HarmonicSpace.time s.
Proof.
  split; [reflexivity |].
  exact (setHarmonicAmplitude_frame 800 600 evenDraws deepSession 5 13 0.4
           eq_refl).
Defined.

(** X9.  For any space, two [setHarmonicAmplitude] calls on different ids
    give the same space in either order, and of two calls on the same id
    the later one decides. *)
Theorem setHarmonicAmplitude_composes (s : HarmonicSpace.t)
    (id1 id2 : string) (a b : R) :
  id1 <> id2 ->
  HarmonicSpace.setHarmonicAmplitude
    (HarmonicSpace.setHarmonicAmplitude s id1 a) id2 b
  = HarmonicSpace.setHarmonicAmplitude
      (HarmonicSpace.setHarmonicAmplitude s id2 b) id1 a
  /\ HarmonicSpace.setHarmonicAmplitude
       (HarmonicSpace.setHarmonicAmplitude s id1 a) id1 b
     = HarmonicSpace.setHarmonicAmplitude s id1 b.
Proof.
  intros Hne.
  assert (Hkeep : forall id id' c,
    (HarmonicSpace.getHarmonic
       (HarmonicSpace.setHarmonicAmplitude s id c) id' = None)
    <-> (HarmonicSpace.getHarmonic s id' = None)).
  { intros id id' c. unfold HarmonicSpace.setHarmonicAmplitude.
    destruct (HarmonicSpace.getHarmonic s id); [| reflexivity].
    unfold HarmonicSpace.getHarmonic. cbn [HarmonicSpace.harmonics].
    apply find_assignAmplitude. }
  assert (Hcase : forall id id' c d,
    HarmonicSpace.setHarmonicAmplitude
      (HarmonicSpace.setHarmonicAmplitude s id c) id' d
    = match HarmonicSpace.getHarmonic s id, HarmonicSpace.getHarmonic s id'
      with
      | Some _, Some _ =>
          HarmonicSpace.mk (HarmonicSpace.width s) (HarmonicSpace.height s)
            (HarmonicSpace.center s) (HarmonicSpace.depth s)
            (HarmonicSpace.time s)
            (HarmonicSpace.assignAmplitude id' d
               (HarmonicSpace.assignAmplitude id c
                  (HarmonicSpace.harmonics s)))
      | Some _, None => HarmonicSpace.setHarmonicAmplitude s id c
      | None, _ => HarmonicSpace.setHarmonicAmplitude s id' d
      end).
  { intros id id' c d.
    pose proof (Hkeep id id' c) as Hk.
    unfold HarmonicSpace.setHarmonicAmplitude at 1.
    destruct (HarmonicSpace.getHarmonic
                (HarmonicSpace.setHarmonicAmplitude s id c) id') as [h' |]
      eqn:Hafter;
      destruct (HarmonicSpace.getHarmonic s id') as [h0' |] eqn:Hbefore;
      try (destruct Hk as [Hk1 Hk2];
           first [ specialize (Hk1 eq_refl) | specialize (Hk2 eq_refl) ];
           discriminate).
    - unfold HarmonicSpace.setHarmonicAmplitude.
      destruct (HarmonicSpace.getHarmonic s id); cbn; [reflexivity |].
      now rewrite Hbefore.
    - destruct (HarmonicSpace.getHarmonic s id) eqn:Hid; [reflexivity |].
      unfold HarmonicSpace.setHarmonicAmplitude. now rewrite Hid, Hbefore. }
  split.
  - rewrite (Hcase id1 id2 a b), (Hcase id2 id1 b a).
    destruct (HarmonicSpace.getHarmonic s id1) eqn:H1;
      destruct (HarmonicSpace.getHarmonic s id2) eqn:H2;
      try reflexivity.
    + now rewrite assignAmplitude_comm by congruence.
    + unfold HarmonicSpace.setHarmonicAmplitude. now rewrite H1, H2.
  - rewrite (Hcase id1 id1 a b).
    destruct (HarmonicSpace.getHarmonic s id1) eqn:H1.
    + rewrite assignAmplitude_again.
      unfold HarmonicSpace.setHarmonicAmplitude. now rewrite H1.
    + reflexivity.
Qed.

(** The statement on a fresh space for the harmonics of 2 and 3. *)
Lemma setHarmonicAmplitude_composes_witness :
  "prime_2"%string <> "prime_3"%string
  /\ HarmonicSpace.setHarmonicAmplitude
       (HarmonicSpace.setHarmonicAmplitude freshSpace "prime_2" 0.5)
       "prime_3" 0.2
     = HarmonicSpace.setHarmonicAmplitude
         (HarmonicSpace.setHarmonicAmplitude freshSpace "prime_3" 0.2)
         "prime_2" 0.5
  /\ HarmonicSpace.setHarmonicAmplitude
       (HarmonicSpace.setHarmonicAmplitude freshSpace "prime_2" 0.5)
       "prime_2" 0.2
     = HarmonicSpace.setHarmonicAmplitude freshSpace "prime_2" 0.2.
Proof.
  assert (Hne : "prime_2"%string <> "prime_3"%string) by discriminate.
  split; [exact Hne |].
  exact (setHarmonicAmplitude_composes freshSpace "prime_2" "prime_3" 0.5 0.2
           Hne).
Defined.

Section Animation.
Import HarmonicSpace.

Lemma scaled_by_unit (u w : R) : -1 <= u <= 1 -> Rabs (u * w) <= Rabs w.
Proof.
  intros Hu. rewrite Rabs_mult.
  assert (Rabs u <= 1) by (apply Rabs_le; lra).
  pose proof (Rabs_pos w). nra.
Qed.

Lemma animate_animatedFrom (time dt : R) (hm : Harmonic.t) :
  animatedFrom dt hm (Harmonic.animate time dt hm).
Proof.
  unfold animatedFrom, Harmonic.animate.
  cbn [Harmonic.x Harmonic.y Harmonic.size Harmonic.wanderAngle Harmonic.id
       Harmonic.prime Harmonic.ratio Harmonic.baseX Harmonic.baseY
       Harmonic.baseSize Harmonic.color Harmonic.amplitude Harmonic.phase
       Harmonic.breathRate Harmonic.isExotic Harmonic.visibilityDepth
       Harmonic.wanderSpeed].
  split; [| split; [| split; [| repeat split]]].
  - match goal with |- Rabs (?b + ?c * ?w - ?b) <= _ =>
      replace (b + c * w - b) with (c * w) by lra end.
    apply scaled_by_unit. apply COS_bound.
  - match goal with |- Rabs (?b + ?c * ?w - ?b) <= _ =>
      replace (b + c * w - b) with (c * w) by lra end.
    apply scaled_by_unit. apply SIN_bound.
  - match goal with |- Rabs (?b * (1 + ?u * 0.1) - ?b) <= _ =>
      replace (b * (1 + u * 0.1) - b) with (0.1 * (u * b)) by lra;
      pose proof (scaled_by_unit u b (SIN_bound _)) as Hb end.
    rewrite Rabs_mult. rewrite (Rabs_right 0.1) by lra. lra.
Qed.

Lemma update_glow (time dt : R) (hm : Harmonic.t) :
  Harmonic.glow (Harmonic.animate time dt hm)
  - Harmonic.amplitude (Harmonic.animate time dt hm)
  = (1 - 5 * dt) * (Harmonic.glow hm - Harmonic.amplitude hm).
Proof.
  unfold Harmonic.animate. cbn [Harmonic.glow Harmonic.amplitude]. lra.
Qed.

End Animation.

(** X10.  [update(deltaTime)] advances the time of the space by
    [deltaTime] and keeps its other fields; it keeps the number and order
    of the harmonics, and for each of them the new position is within the
    wander amount [|3 + 5 * amplitude|] of the base position in both
    coordinates, the new size within a tenth of the resting size, and the
    id, prime, ratio, base position, resting size, colour, amplitude and
    visibility threshold are what they were. *)
Theorem update_keeps_harmonics_near_base (s : HarmonicSpace.t) (dt : R) :
  let s' := HarmonicSpace.update s dt in
  Forall2 (animatedFrom dt) (HarmonicSpace.harmonics s)
    (HarmonicSpace.harmonics s')
  /\ HarmonicSpace.time s' = HarmonicSpace.time s + dt
  /\ HarmonicSpace.depth s' = HarmonicSpace.depth s
  /\ HarmonicSpace.width s' = HarmonicSpace.width s
  /\ HarmonicSpace.height s' = HarmonicSpace.height s
  /\ HarmonicSpace.center s' = HarmonicSpace.center s.
Proof.
  cbv zeta. split; [| repeat split].
  cbn [HarmonicSpace.update HarmonicSpace.harmonics].
  induction (HarmonicSpace.harmonics s) as [| hm hs IH]; simpl;
    constructor; [apply animate_animatedFrom | exact IH].
Qed.

(** X11.  Each [update(dt)] multiplies the gap between a harmonic's glow
    and its amplitude by [1 - 5 dt], so after [n] frames with the same
    step the gap is [(1 - 5 dt)^n] times the first one; with
    [0 <= dt <= 0.2] the glow never passes the amplitude. *)
Theorem glow_follows_amplitude (s : HarmonicSpace.t) (dt : R) (n : nat) :
  Forall2
    (fun hm hm' =>
       Harmonic.amplitude hm' = Harmonic.amplitude hm
       /\ Harmonic.glow hm' - Harmonic.amplitude hm
          = (1 - 5 * dt) ^ n * (Harmonic.glow hm - Harmonic.amplitude hm)
       /\ (0 <= dt <= 0.2 ->
           Rmin (Harmonic.glow hm) (Harmonic.amplitude hm)
           <= Harmonic.glow hm'
           <= Rmax (Harmonic.glow hm) (Harmonic.amplitude hm)))
    (HarmonicSpace.harmonics s)
    (HarmonicSpace.harmonics (updateTimes n dt s)).
Proof.
  assert (Hstep : forall (hs : list Harmonic.t) time,
    Forall2
      (fun hm hm' =>
         Harmonic.amplitude hm' = Harmonic.amplitude hm
         /\ Harmonic.glow hm' - Harmonic.amplitude hm
            = (1 - 5 * dt) * (Harmonic.glow hm - Harmonic.amplitude hm))
      hs (map (Harmonic.animate time dt) hs)).
  { intros hs time. induction hs as [| hm hs IH]; simpl; constructor;
      [| exact IH].
    split; [reflexivity |].
    pose proof (update_glow time dt hm) as Hg.
    cbn [Harmonic.animate Harmonic.amplitude] in Hg. exact Hg. }
  assert (Hgap : Forall2
    (fun hm hm' =>
       Harmonic.amplitude hm' = Harmonic.amplitude hm
       /\ Harmonic.glow hm' - Harmonic.amplitude hm
          = (1 - 5 * dt) ^ n * (Harmonic.glow hm - Harmonic.amplitude hm))
    (HarmonicSpace.harmonics s)
    (HarmonicSpace.harmonics (updateTimes n dt s))).
  { induction n as [| n IH].
    - change (updateTimes 0 dt s) with s.
      induction (HarmonicSpace.harmonics s) as [| hm hs IHs]; constructor;
        [split; [reflexivity | simpl; lra] | exact IHs].
    - change (updateTimes (S n) dt s)
        with (HarmonicSpace.update (updateTimes n dt s) dt).
      cbn [HarmonicSpace.update HarmonicSpace.harmonics].
      pose proof (Hstep
                    (HarmonicSpace.harmonics (updateTimes n dt s))
                    (HarmonicSpace.time (updateTimes n dt s) + dt)) as Hs.
      revert IH Hs.
      generalize (map
        (Harmonic.animate (HarmonicSpace.time (updateTimes n dt s) + dt) dt)
        (HarmonicSpace.harmonics (updateTimes n dt s))).
      generalize (HarmonicSpace.harmonics (updateTimes n dt s)).
      generalize (HarmonicSpace.harmonics s).
      intros l0 l1 l2 H01. revert l2.
      induction H01 as [| a b l0 l1 [Ha Hg] _ IH01]; intros l2 H12;
        inversion H12 as [| ? c ? l2' [Hb Hg'] H12']; subst; constructor.
      + split; [congruence |].
        rewrite Ha in Hg'. simpl.
        replace (Harmonic.glow c - Harmonic.amplitude a)
          with ((1 - 5 * dt) * (Harmonic.glow b - Harmonic.amplitude a))
          by (symmetry; exact Hg').
        rewrite Hg. lra.
      + now apply IH01. }
  clear Hstep.
  induction Hgap as [| hm hm' l l' [Ha Hg] _ IH]; constructor; [| exact IH].
  split; [exact Ha | split; [exact Hg |]].
  intros Hdt.
  assert (Hq : 0 <= (1 - 5 * dt) ^ n <= 1).
  { split; [apply pow_le; lra |].
    pose proof (pow_incr (1 - 5 * dt) 1 n ltac:(lra)) as Hp.
    rewrite pow1 in Hp. exact Hp. }
  set (q := (1 - 5 * dt) ^ n) in *.
  assert (Hglow : Harmonic.glow hm'
                  = Harmonic.amplitude hm
                    + q * (Harmonic.glow hm - Harmonic.amplitude hm))
    by lra.
  rewrite Hglow.
  unfold Rmin, Rmax.
  destruct (Rle_dec (Harmonic.glow hm) (Harmonic.amplitude hm)); nra.
Qed.

Section HarmonicInvariants.
Import HarmonicSpace.

Variable P : Harmonic.t -> Prop.
Variable ok : SpaceCall -> Prop.

Hypothesis P_generated :
  forall c b rnd ip, In ip indexedPrimes -> P (generatedHarmonic c b rnd ip).
Hypothesis P_animate :
  forall time dt hm, ok (CallUpdate dt) -> P hm ->
                     P (Harmonic.animate time dt hm).
Hypothesis P_set_amplitude :
  forall id a hm, ok (CallSetHarmonicAmplitude id a) -> P hm ->
                  P (Harmonic.set_amplitude a hm).

Lemma harmonics_invariant_generated (c : Point) (b : R)
    (rnd : Js.RandomSource) (hm : Harmonic.t) :
  In hm (map (generatedHarmonic c b rnd) indexedPrimes) -> P hm.
Proof.
  intros Hin. apply in_map_iff in Hin. destruct Hin as (ip & <- & Hip).
  now apply P_generated.
Qed.

Lemma harmonics_invariant_runCall (st : t * Js.RandomSource)
    (c : SpaceCall) :
  ok c ->
  (forall hm, In hm (harmonics (fst st)) -> P hm) ->
  forall hm, In hm (harmonics (fst (runCall st c))) -> P hm.
Proof.
  intros Hok Hst hm.
  destruct c as [w h | d | dt | id a]; cbn [runCall fst].
  - rewrite resize_spec. cbn [fst harmonics].
    apply harmonics_invariant_generated.
  - cbn [setDepth harmonics]. apply Hst.
  - cbn [update harmonics]. intros Hin. apply in_map_iff in Hin.
    destruct Hin as (hm0 & <- & Hin0). apply P_animate; auto.
  - unfold setHarmonicAmplitude.
    destruct (getHarmonic (fst st) id); [| apply Hst].
    cbn [harmonics]. intros Hin.
    apply assignAmplitude_In in Hin.
    destruct Hin as [Hin | (hm0 & Hin0 & ->)]; [now apply Hst |].
    apply (P_set_amplitude id); auto.
Qed.

Lemma harmonics_invariant (width height : R) (rnd : Js.RandomSource)
    (cs : list SpaceCall) :
  Forall ok cs ->
  forall hm, In hm (harmonics (spaceAfter width height rnd cs)) -> P hm.
Proof.
  unfold spaceAfter.
  assert (Hnew : forall hm,
             In hm (harmonics (fst (new width height rnd))) -> P hm).
  { rewrite new_spec. cbn [fst harmonics].
    apply harmonics_invariant_generated. }
  revert Hnew. generalize (new width height rnd).
  induction cs as [| c cs IH]; intros st Hst Hok; cbn [runCalls fold_left].
  - exact Hst.
  - inversion Hok as [| ? ? Hc Hcs]; subst.
    apply IH; [| exact Hcs].
    now apply harmonics_invariant_runCall.
Qed.

End HarmonicInvariants.

Section Levels.
Import HarmonicSpace.

Lemma indexedPrimes_In (ip : nat * Z) :
  In ip indexedPrimes ->
  (fst ip <= 24)%nat /\ In (snd ip) PrimeMath.PRIMES.
Proof.
  destruct ip as [i p]. intros Hin. split.
  - apply in_combine_l in Hin. apply in_seq in Hin. cbn [fst].
    change (List.length PrimeMath.PRIMES) with 25%nat in Hin. lia.
  - apply in_combine_r in Hin. exact Hin.
Qed.

Lemma PRIMES_at_least_2 (p : Z) : In p PrimeMath.PRIMES -> (2 <= p)%Z.
Proof.
  unfold PrimeMath.PRIMES. simpl. intuition lia.
Qed.

Lemma levelsInRange_spaceAfter (width height : R) (rnd : Js.RandomSource)
    (cs : list SpaceCall) :
  Forall callInRange cs ->
  forall hm, In hm (harmonics (spaceAfter width height rnd cs)) ->
             levelsInRange hm.
Proof.
  apply (harmonics_invariant levelsInRange callInRange).
  - intros c b rnd0 ip _. unfold levelsInRange.
    destruct (generatedHarmonic_silent c b rnd0 ip) as [-> ->]. lra.
  - intros time dt hm Hdt [Ha Hg]. cbn [callInRange] in Hdt.
    unfold levelsInRange, Harmonic.animate.
    cbn [Harmonic.amplitude Harmonic.glow].
    split; [exact Ha |]. nra.
  - intros id a hm Ha [_ Hg]. cbn [callInRange] in Ha.
    unfold levelsInRange, Harmonic.set_amplitude.
    cbn [Harmonic.amplitude Harmonic.glow]. split; assumption.
Qed.

Lemma sizeBounded_spaceAfter (width height : R) (rnd : Js.RandomSource)
    (cs : list SpaceCall) :
  forall hm, In hm (harmonics (spaceAfter width height rnd cs)) ->
             sizeBounded hm.
Proof.
  apply (harmonics_invariant sizeBounded (fun _ => True)).
  - intros c b rnd0 ip Hip. apply indexedPrimes_In in Hip.
    destruct Hip as [Hi Hp]. apply PRIMES_at_least_2 in Hp.
    unfold sizeBounded, generatedHarmonic, generateHarmonic.
    cbn [fst Js.Math_random Harmonic.baseSize Harmonic.size Harmonic.prime].
    assert (Hi0 : 0 <= INR (fst ip)) by apply pos_INR.
    assert (Hsize : 12 <= Rmax 12 (30 - INR (fst ip) * 0.8) <= 30).
    { split; [apply Rmax_l | apply Rmax_lub; lra]. }
    repeat split; try lra; exact Hp.
  - intros time dt hm _ (Hb & _ & Hp).
    unfold sizeBounded, Harmonic.animate.
    cbn [Harmonic.baseSize Harmonic.size Harmonic.prime].
    split; [exact Hb | split; [| exact Hp]].
    match goal with |- _ <= _ * (1 + sin ?a * 0.1) <= _ =>
      pose proof (SIN_bound a) end.
    nra.
  - intros id a hm _ H. exact H.
  - clear. induction cs; constructor; auto.
Qed.

End Levels.

(** X12.  From construction on and through any sequence of [resize],
    [setDepth], [update] and [setHarmonicAmplitude] calls whose amplitude
    arguments lie in [[0, 0.8]] and whose time steps lie in [[0, 0.2]],
    every harmonic's glow stays in [[0, 0.8]].  The time step [animate]
    computes, [min(elapsed / 1000, 0.1)], is such a step whenever the
    timestamp does not run backwards. *)
Theorem glow_stays_in_range (width height : R) (rnd : Js.RandomSource)
    (cs : list SpaceCall) :
  Forall callInRange cs ->
  glowsInRange (spaceAfter width height rnd cs)
  /\ forall timestamp lastTime : R,
       lastTime <= timestamp ->
       callInRange (CallUpdate (HarmonicDepths.frameDelta timestamp lastTime)).
Proof.
  intros Hcs. split.
  - intros hm Hin.
    apply (levelsInRange_spaceAfter width height rnd cs Hcs hm Hin).
  - intros timestamp lastTime Hle. cbn [callInRange].
    unfold HarmonicDepths.frameDelta. split.
    + apply Rmin_glb; [| lra].
      apply Rmult_le_pos; [lra |].
      apply Rlt_le, Rinv_0_lt_compat. lra.
    + eapply Rle_trans; [apply Rmin_r | lra].
Qed.

(** The statement for a session of three frames around an amplitude
    change on an 800 x 600 space. *)
Lemma glow_stays_in_range_witness :
  glowsInRange (spaceAfter 800 600 evenDraws frameSession)
  /\ forall timestamp lastTime : R,
       lastTime <= timestamp ->
       callInRange (CallUpdate (HarmonicDepths.frameDelta timestamp lastTime)).
Proof.
  apply (glow_stays_in_range 800 600 evenDraws frameSession).
  unfold frameSession.
  repeat constructor; cbn [callInRange]; lra.
Defined.

Section Placement.
Import HarmonicSpace.

Lemma generated_placed (width height : R) (rnd : Js.RandomSource)
    (ip : nat * Z) (s : t) :
  In ip indexedPrimes ->
  center s = mkPoint (width / 2) (height / 2) ->
  HarmonicSpace.width s = width ->
  HarmonicSpace.height s = height ->
  placedIn s
    (generatedHarmonic (mkPoint (width / 2) (height / 2))
       (Rmin width height * 0.35) rnd ip).
Proof.
  intros Hip Hc Hw Hh. apply indexedPrimes_In in Hip. destruct Hip as [Hi _].
  unfold placedIn. rewrite Hc, Hw, Hh.
  exists (INR (fst ip) * (PI * 2 / (PHI * PHI)) + IZR (snd ip) * 0.1).
  exists (0.25 + INR (fst ip) / (INR (List.length PrimeMath.PRIMES) - 1) * 0.5
          + sin (IZR (snd ip) * 0.7) * 0.1).
  split; [| split; reflexivity].
  replace (INR (List.length PrimeMath.PRIMES)) with 25
    by (change (List.length PrimeMath.PRIMES) with 25%nat;
        rewrite INR_IZR_INZ; reflexivity).
  assert (Hi0 : 0 <= INR (fst ip)) by apply pos_INR.
  assert (Hi24 : INR (fst ip) <= 24).
  { replace 24 with (INR 24) by (rewrite INR_IZR_INZ; reflexivity).
    now apply le_INR. }
  pose proof (SIN_bound (IZR (snd ip) * 0.7)) as Hs.
  lra.
Qed.

Lemma wellPlaced_runCall (st : t * Js.RandomSource) (c : SpaceCall) :
  wellPlaced (fst st) -> wellPlaced (fst (runCall st c)).
Proof.
  intros [Hc Hst].
  destruct c as [w h | d | dt | id a]; cbn [runCall fst].
  - rewrite resize_spec. cbn [fst]. split; [reflexivity |].
    cbn [harmonics]. intros hm Hin. apply in_map_iff in Hin.
    destruct Hin as (ip & <- & Hip).
    now apply generated_placed.
  - split; [exact Hc | exact Hst].
  - split; [exact Hc |]. cbn [update harmonics]. intros hm Hin.
    apply in_map_iff in Hin. destruct Hin as (hm0 & <- & Hin0).
    destruct (Hst hm0 Hin0) as (angle & f & Hf & Hx & Hy).
    exists angle, f. split; [exact Hf |]. split; [exact Hx | exact Hy].
  - unfold setHarmonicAmplitude.
    destruct (getHarmonic (fst st) id); [| split; assumption].
    split; [exact Hc |]. cbn [harmonics]. intros hm Hin.
    apply assignAmplitude_In in Hin.
    destruct Hin as [Hin | (hm0 & Hin0 & ->)].
    + destruct (Hst hm Hin) as (angle & f & Hf & Hx & Hy).
      exists angle, f. split; [exact Hf |]. split; [exact Hx | exact Hy].
    + destruct (Hst hm0 Hin0) as (angle & f & Hf & Hx & Hy).
      exists angle, f. split; [exact Hf |]. split; [exact Hx | exact Hy].
Qed.

Lemma wellPlaced_spaceAfter (width height : R) (rnd : Js.RandomSource)
    (cs : list SpaceCall) :
  wellPlaced (spaceAfter width height rnd cs).
Proof.
  unfold spaceAfter.
  assert (Hnew : wellPlaced (fst (new width height rnd))).
  { rewrite new_spec. cbn [fst]. split; [reflexivity |].
    cbn [harmonics]. intros hm Hin. apply in_map_iff in Hin.
    destruct Hin as (ip & <- & Hip).
    now apply generated_placed. }
  revert Hnew. generalize (new width height rnd).
  induction cs as [| c cs IH]; intros st Hst; cbn [runCalls fold_left].
  - exact Hst.
  - apply IH. now apply wellPlaced_runCall.
Qed.

Lemma circle_point (a r : R) :
  (cos a * r) * (cos a * r) + (sin a * r) * (sin a * r) = r * r.
Proof.
  pose proof (sin2_cos2 a) as H. unfold Rsqr in H. nra.
Qed.

End Placement.

(** X13.  In every state reached from the constructor by [resize],
    [setDepth], [update] and [setHarmonicAmplitude] calls, the centre of
    the space is the middle of the canvas, and every harmonic's base
    position lies in the ring around the centre between 0.0525 and 0.2975
    times the smaller canvas dimension (0.15 to 0.85 of the base radius);
    on a canvas of positive width and height the base position is
    therefore strictly inside the canvas. *)
Theorem base_positions_inside_canvas (width height : R)
    (rnd : Js.RandomSource) (cs : list SpaceCall) :
  let s := spaceAfter width height rnd cs in
  let m := Rmin (HarmonicSpace.width s) (HarmonicSpace.height s) in
  HarmonicSpace.center s
  = HarmonicSpace.mkPoint (HarmonicSpace.width s / 2)
      (HarmonicSpace.height s / 2)
  /\ Forall
       (fun hm =>
          let dx := Harmonic.baseX hm - HarmonicSpace.width s / 2 in
          let dy := Harmonic.baseY hm - HarmonicSpace.height s / 2 in
          (0.0525 * m) * (0.0525 * m) <= dx * dx + dy * dy
            <= (0.2975 * m) * (0.2975 * m)
          /\ (0 < HarmonicSpace.width s -> 0 < HarmonicSpace.height s ->
              0 < Harmonic.baseX hm < HarmonicSpace.width s
              /\ 0 < Harmonic.baseY hm < HarmonicSpace.height s))
       (HarmonicSpace.harmonics s).
Proof.
  cbv zeta.
  destruct (wellPlaced_spaceAfter width height rnd cs) as [Hc Hall].
  set (s := spaceAfter width height rnd cs) in *.
  split; [exact Hc |].
  apply Forall_forall. intros hm Hin.
  destruct (Hall hm Hin) as (angle & f & Hf & Hx & Hy).
  rewrite Hc in Hx, Hy. cbn [HarmonicSpace.px HarmonicSpace.py] in Hx, Hy.
  set (m := Rmin (HarmonicSpace.width s) (HarmonicSpace.height s)) in *.
  set (r := m * 0.35 * f) in *.
  assert (Hsq : (Harmonic.baseX hm - HarmonicSpace.width s / 2)
                * (Harmonic.baseX hm - HarmonicSpace.width s / 2)
                + (Harmonic.baseY hm - HarmonicSpace.height s / 2)
                  * (Harmonic.baseY hm - HarmonicSpace.height s / 2)
                = r * r).
  { rewrite Hx, Hy.
    replace (HarmonicSpace.width s / 2 + cos angle * r
             - HarmonicSpace.width s / 2) with (cos angle * r) by lra.
    replace (HarmonicSpace.height s / 2 + sin angle * r
             - HarmonicSpace.height s / 2) with (sin angle * r) by lra.
    apply circle_point. }
  split.
  - rewrite Hsq. unfold r.
    assert (Hm : 0 <= m * m) by nra.
    assert (Hff : 0.0225 <= f * f <= 0.7225) by nra.
    replace (m * 0.35 * f * (m * 0.35 * f))
      with (0.1225 * (m * m) * (f * f)) by lra.
    nra.
  - intros Hw Hh.
    assert (Hm : 0 < m) by (unfold m; apply Rmin_glb_lt; assumption).
    assert (Hmw : m <= HarmonicSpace.width s) by apply Rmin_l.
    assert (Hmh : m <= HarmonicSpace.height s) by apply Rmin_r.
    assert (Hr : 0 <= r <= 0.2975 * m) by (unfold r; nra).
    pose proof (COS_bound angle) as Hcos.
    pose proof (SIN_bound angle) as Hsin.
    assert (Hcr : - r <= cos angle * r <= r) by nra.
    assert (Hsr : - r <= sin angle * r <= r) by nra.
    rewrite Hx, Hy. lra.
Qed.

Section CursorReach.
Import HarmonicSpace.

Lemma distanceTo_nonneg (x y : R) (hm : Harmonic.t) : 0 <= distanceTo x y hm.
Proof.
  unfold distanceTo. apply sqrt_pos.
Qed.

Lemma near_entry_reachable (width height : R) (rnd : Js.RandomSource)
    (cs : list SpaceCall) (x y radius : R) (e : NearEntry) :
  In e (getHarmonicsNear (spaceAfter width height rnd cs) x y radius) ->
  sizeBounded (harmonic e)
  /\ 0 <= distance e
  /\ distance e < radius + Harmonic.size (harmonic e)
  /\ influence e
     = Rmax 0 (1 - distance e / (radius + Harmonic.size (harmonic e))).
Proof.
  intros Hin. apply getHarmonicsNear_In in Hin.
  destruct Hin as (hm & Hhm & _ & Hreach & ->).
  cbn [nearEntry harmonic distance influence].
  split; [now apply (sizeBounded_spaceAfter width height rnd cs) |].
  split; [apply distanceTo_nonneg |].
  split; [exact Hreach | reflexivity].
Qed.

Lemma half_prime_root (p : Z) : (2 <= p)%Z -> 1 <= sqrt (IZR p / 2).
Proof.
  intros Hp. apply IZR_le in Hp.
  rewrite <- sqrt_1 at 1. apply sqrt_le_1; lra.
Qed.

End CursorReach.

(** X14.  In every state reached from the constructor, and for a radius
    that is not negative, each entry [getHarmonicsNear] returns has a
    harmonic of size between 10.8 and 33, a distance in
    [[0, radius + size)], and an influence that is exactly
    [1 - distance / (radius + size)], in [(0, 1]]: the [Math.max(0, ...)]
    of the code never takes effect. *)
Theorem getHarmonicsNear_influence_positive (width height : R)
    (rnd : Js.RandomSource) (cs : list SpaceCall) (x y radius : R) :
  0 <= radius ->
  Forall
    (fun e =>
       10.8 <= Harmonic.size (harmonic e) <= 33
       /\ 0 <= distance e < radius + Harmonic.size (harmonic e)
       /\ influence e
          = 1 - distance e / (radius + Harmonic.size (harmonic e))
       /\ 0 < influence e <= 1)
    (HarmonicSpace.getHarmonicsNear (spaceAfter width height rnd cs)
       x y radius).
Proof.
  intros Hr. apply Forall_forall. intros e Hin.
  apply near_entry_reachable in Hin.
  destruct Hin as ((Hb & Hs & _) & Hd0 & Hd & Hinf).
  set (reach := radius + Harmonic.size (harmonic e)) in *.
  assert (Hreach : 0 < reach) by (unfold reach; lra).
  assert (Hq : 0 <= distance e / reach < 1).
  { split.
    - apply Rmult_le_pos; [exact Hd0 |].
      apply Rlt_le, Rinv_0_lt_compat, Hreach.
    - apply (Rmult_lt_reg_r reach); [exact Hreach |].
      unfold Rdiv. rewrite Rmult_assoc, Rinv_l by lra. lra. }
  assert (Hval : influence e = 1 - distance e / reach).
  { rewrite Hinf. apply Rmax_right. lra. }
  split; [lra |]. split; [lra |]. split; [exact Hval |]. lra.
Qed.

(** The statement for the cursor radius of the application on a fresh
    800 x 600 space. *)
Lemma getHarmonicsNear_influence_positive_witness :
  Forall
    (fun e =>
       10.8 <= Harmonic.size (harmonic e) <= 33
       /\ 0 <= distance e < 120 + Harmonic.size (harmonic e)
       /\ influence e = 1 - distance e / (120 + Harmonic.size (harmonic e))
       /\ 0 < influence e <= 1)
    (HarmonicSpace.getHarmonicsNear (spaceAfter 800 600 evenDraws [])
       400 300 120).
Proof.
  apply (getHarmonicsNear_influence_positive 800 600 evenDraws [] 400 300 120).
  lra.
Defined.

(** X15.  For the entries [getHarmonicsNear] returns in any state reached
    from the constructor (radius not negative), the amplitude
    [updateHarmonicsFromCursor] computes is
    [influence * baseIntensity / sqrt(prime / 2)] itself: it is positive
    and at most [baseIntensity], which is 0.6 with the mouse down and 0.25
    otherwise, so the cap [Math.min(0.8, ...)] never takes effect. *)
Theorem cursor_amplitude_below_cap (width height : R)
    (rnd : Js.RandomSource) (cs : list SpaceCall) (x y radius : R)
    (isMouseDown : bool) :
  0 <= radius ->
  Forall
    (fun e =>
       HarmonicDepths.newAmplitude isMouseDown e
       = influence e * HarmonicDepths.baseIntensity isMouseDown
         * (1 / sqrt (IZR (Harmonic.prime (harmonic e)) / 2))
       /\ 0 < HarmonicDepths.newAmplitude isMouseDown e
          <= HarmonicDepths.baseIntensity isMouseDown
       /\ HarmonicDepths.baseIntensity isMouseDown <= 0.6)
    (HarmonicSpace.getHarmonicsNear (spaceAfter width height rnd cs)
       x y radius).
Proof.
  intros Hr. apply Forall_forall. intros e Hin.
  apply near_entry_reachable in Hin.
  destruct Hin as ((Hb & Hs & Hp) & Hd0 & Hd & Hinf).
  set (reach := radius + Harmonic.size (harmonic e)) in *.
  assert (Hreach : 0 < reach) by (unfold reach; lra).
  assert (Hq : 0 <= distance e / reach < 1).
  { split.
    - apply Rmult_le_pos; [exact Hd0 |].
      apply Rlt_le, Rinv_0_lt_compat, Hreach.
    - apply (Rmult_lt_reg_r reach); [exact Hreach |].
      unfold Rdiv. rewrite Rmult_assoc, Rinv_l by lra. lra. }
  assert (Hval : 0 < influence e <= 1).
  { rewrite Hinf. rewrite Rmax_right by lra. lra. }
  pose proof (half_prime_root _ Hp) as Hroot.
  assert (Hinv : 0 < 1 / sqrt (IZR (Harmonic.prime (harmonic e)) / 2) <= 1).
  { split.
    - apply Rdiv_lt_0_compat; lra.
    - apply (Rmult_le_reg_r (sqrt (IZR (Harmonic.prime (harmonic e)) / 2)));
        [lra |].
      unfold Rdiv. rewrite Rmult_assoc, Rinv_l by lra. lra. }
  assert (Hbase : 0 < HarmonicDepths.baseIntensity isMouseDown <= 0.6).
  { destruct isMouseDown; simpl; lra. }
  unfold HarmonicDepths.newAmplitude.
  set (u := 1 / sqrt (IZR (Harmonic.prime (harmonic e)) / 2)) in *.
  set (b := HarmonicDepths.baseIntensity isMouseDown) in *.
  assert (Hprod : 0 < influence e * b * u <= b).
  { assert (0 < influence e * b <= b) by nra. nra. }
  rewrite Rmin_right by lra.
  split; [reflexivity |]. split; [exact Hprod | lra].
Qed.

(** The statement for the cursor radius of the application, with the
    mouse button down, on a fresh 800 x 600 space. *)
Lemma cursor_amplitude_below_cap_witness :
  Forall
    (fun e =>
       HarmonicDepths.newAmplitude true e
       = influence e * HarmonicDepths.baseIntensity true
         * (1 / sqrt (IZR (Harmonic.prime (harmonic e)) / 2))
       /\ 0 < HarmonicDepths.newAmplitude true e
          <= HarmonicDepths.baseIntensity true
       /\ HarmonicDepths.baseIntensity true <= 0.6)
    (HarmonicSpace.getHarmonicsNear (spaceAfter 800 600 evenDraws [])
       400 300 120).
Proof.
  apply (cursor_amplitude_below_cap 800 600 evenDraws [] 400 300 120 true).
  lra.
Defined.

(* ================================================================== *)
(** * Properties of the renderer *)
(* ================================================================== *)

Section Particles.
Import VisualRenderer.

Lemma removeNth_app {A : Type} (front back : list A) (a : A) :
  HarmonicEngine.removeNth (List.length front) (front ++ a :: back)
  = front ++ back.
Proof.
  induction front as [| b front IH]; simpl; [reflexivity |].
  now rewrite IH.
Qed.

Lemma updateNth_middle {A : Type} (front back : list A) (a : A)
    (f : A -> A) :
  WebAudio.updateNth (List.length front) f (front ++ a :: back)
  = front ++ f a :: back.
Proof.
  induction front as [| b front IH]; simpl; [reflexivity |].
  now rewrite IH.
Qed.

Lemma nth_error_middle {A : Type} (front back : list A) (a : A) :
  nth_error (front ++ a :: back) (List.length front) = Some a.
Proof.
  induction front as [| b front IH]; simpl; [reflexivity | exact IH].
Qed.

Lemma updateParticles_loop_spec (deltaTime : R) (front : list Particle) :
  forall back : list Particle,
    updateParticles_loop deltaTime (List.length front) (front ++ back)
    = Js.Normal (filter hasLife (map (advance deltaTime) front) ++ back).
Proof.
  induction front as [| p front IH] using rev_ind; intros back.
  - reflexivity.
  - rewrite length_app, Nat.add_comm. cbn [List.length Nat.add].
    cbn [updateParticles_loop].
    rewrite <- app_assoc. cbn [app].
    rewrite nth_error_middle, updateNth_middle.
    rewrite map_app, filter_app. cbn [map filter]. unfold hasLife at 2.
    destruct (Rle_dec (life (advance deltaTime p)) 0).
    + rewrite removeNth_app, IH, app_nil_r. reflexivity.
    + rewrite IH, <- app_assoc. reflexivity.
Qed.

Lemma updateParticles_spec (this : t) (deltaTime : R) :
  updateParticles this deltaTime
  = Js.Normal
      (mk (time this)
          (filter hasLife (map (advance deltaTime) (particles this)))
          (maxParticles this)).
Proof.
  unfold updateParticles.
  pose proof (updateParticles_loop_spec deltaTime (particles this) [])
    as Hloop.
  rewrite !app_nil_r in Hloop. rewrite Hloop. reflexivity.
Qed.

Lemma filter_length_le {A : Type} (f : A -> bool) (l : list A) :
  (List.length (filter f l) <= List.length l)%nat.
Proof.
  induction l as [| a l IH]; simpl; [lia |].
  destruct (f a); simpl; lia.
Qed.

Lemma updateParticles_bounded (this : t) (deltaTime : R) :
  0 <= deltaTime ->
  particlesBounded this ->
  particlesBounded
    (mk (time this)
        (filter hasLife (map (advance deltaTime) (particles this)))
        (maxParticles this)).
Proof.
  intros Hdt [Hlen Hall]. split; cbn [particles maxParticles].
  - eapply Nat.le_trans; [apply filter_length_le |].
    now rewrite length_map.
  - apply Forall_forall. intros q Hq. apply filter_In in Hq.
    destruct Hq as [Hq Hlife]. apply in_map_iff in Hq.
    destruct Hq as (p & <- & Hp).
    rewrite Forall_forall in Hall.
    destruct (Hall p Hp) as (Hl & Hd & Hs & Hv).
    unfold hasLife in Hlife.
    destruct (Rle_dec (life (advance deltaTime p)) 0) as [| Hpos];
      [discriminate |].
    unfold particleInRange, advance in *. cbn [life decay size vx vy] in *.
    repeat split; try lra; nra.
Qed.

Lemma spawnParticle_bounded (this : t) (h : Harmonic.t)
    (rnd : Js.RandomSource) :
  drawsInUnit rnd ->
  particlesBounded this ->
  particlesBounded (fst (spawnParticle this h rnd))
  /\ Js.draws (snd (spawnParticle this h rnd)) = Js.draws rnd
  /\ maxParticles (fst (spawnParticle this h rnd)) = maxParticles this
  /\ time (fst (spawnParticle this h rnd)) = time this.
Proof.
  intros Hrnd [Hlen Hall]. unfold spawnParticle.
  destruct (maxParticles this <=? List.length (particles this))%nat eqn:Hfull.
  - repeat split; assumption.
  - apply Nat.leb_gt in Hfull. cbn [Js.Math_random fst snd Js.draws].
    split; [| repeat split].
    split; cbn [particles maxParticles].
    + rewrite length_app. cbn [List.length]. lia.
    + apply Forall_app. split; [exact Hall |].
      constructor; [| constructor].
      unfold particleInRange. cbn [life decay size vx vy Js.position].
      pose proof (Hrnd (Js.position rnd)) as H1.
      pose proof (Hrnd (S (Js.position rnd))) as H2.
      pose proof (Hrnd (S (S (Js.position rnd)))) as H3.
      pose proof (Hrnd (S (S (S (Js.position rnd))))) as H4.
      split; [lra |]. split; [lra |]. split; [lra |].
      rewrite circle_point. nra.
Qed.

Lemma spawnFor_bounded (visible : list Harmonic.t) :
  forall (this : t) (rnd : Js.RandomSource),
    drawsInUnit rnd ->
    particlesBounded this ->
    particlesBounded (fst (spawnFor this visible rnd))
    /\ Js.draws (snd (spawnFor this visible rnd)) = Js.draws rnd
    /\ maxParticles (fst (spawnFor this visible rnd)) = maxParticles this
    /\ time (fst (spawnFor this visible rnd)) = time this.
Proof.
  induction visible as [| h rest IH]; intros this rnd Hrnd Hthis.
  - repeat split; apply Hthis.
  - cbn [spawnFor].
    destruct (Rgt_dec (Harmonic.amplitude h) 0.2); [| now apply IH].
    cbn [Js.Math_random].
    destruct (Rlt_dec (Js.draws rnd (Js.position rnd))
                (Harmonic.amplitude h * 0.3)).
    + set (rnd1 := Js.mkRandom (Js.draws rnd) (S (Js.position rnd))).
      assert (Hrnd1 : drawsInUnit rnd1) by exact Hrnd.
      destruct (spawnParticle_bounded this h rnd1 Hrnd1 Hthis)
        as (Hb & Hd & Hm & Ht).
      destruct (spawnParticle this h rnd1) as [this' rnd2].
      cbn [fst snd] in *.
      assert (Hrnd2 : drawsInUnit rnd2).
      { intros k. rewrite Hd. apply Hrnd. }
      destruct (IH this' rnd2 Hrnd2 Hb) as (Hb' & Hd' & Hm' & Ht').
      split; [exact Hb' |].
      split; [rewrite Hd', Hd; reflexivity |].
      split; [rewrite Hm'; exact Hm | rewrite Ht'; exact Ht].
    + apply (IH this (Js.mkRandom (Js.draws rnd) (S (Js.position rnd))));
        assumption.
Qed.

Lemma renderFrames_bounded (frames : list (HarmonicSpace.t * R)) :
  forall (r : t) (rnd : Js.RandomSource),
    drawsInUnit rnd ->
    Forall (fun f => 0 <= snd f) frames ->
    particlesBounded r ->
    exists r' rnd',
      renderFrames r rnd frames = Js.Normal (r', rnd')
      /\ particlesBounded r'
      /\ maxParticles r' = maxParticles r
      /\ time r' = time r + elapsed frames.
Proof.
  induction frames as [| [space dt] frames IH]; intros r rnd Hrnd Hdt Hr.
  - exists r, rnd. cbn [renderFrames elapsed].
    repeat split; try apply Hr. lra.
  - inversion Hdt as [| ? ? Hdt0 Hdts]; subst. cbn [snd] in Hdt0.
    cbn [renderFrames]. unfold render.
    rewrite updateParticles_spec. cbn [Js.bind particles maxParticles time].
    set (r1 := mk (time r + dt)
                  (filter hasLife (map (advance dt) (particles r)))
                  (maxParticles r)).
    assert (Hr1 : particlesBounded r1).
    { apply (updateParticles_bounded
               (mk (time r + dt) (particles r) (maxParticles r)) dt Hdt0).
      exact Hr. }
    destruct (spawnFor_bounded (HarmonicSpace.getVisibleHarmonics space)
                r1 rnd Hrnd Hr1) as (Hb & Hd & Hm & Ht).
    destruct (spawnFor r1 (HarmonicSpace.getVisibleHarmonics space) rnd)
      as [r2 rnd2].
    cbn [fst snd] in *.
    assert (Hrnd2 : drawsInUnit rnd2).
    { intros k. rewrite Hd. apply Hrnd. }
    destruct (IH r2 rnd2 Hrnd2 Hdts Hb) as (r' & rnd' & Hrun & Hb' & Hm' & Ht').
    exists r', rnd'. split; [exact Hrun |]. split; [exact Hb' |].
    split; [rewrite Hm'; exact Hm |].
    rewrite Ht', Ht. cbn [elapsed snd]. unfold r1. cbn [time]. lra.
Qed.

End Particles.

(** X16.  [updateParticles(deltaTime)] never reads past the array: it
    completes, and what the backwards loop with [splice] leaves is the
    particles in their order, each advanced by the time step, without
    those whose life is used up (life at most 0 after the step). *)
Theorem updateParticles_removes_dead (this : VisualRenderer.t)
    (deltaTime : R) :
  VisualRenderer.updateParticles this deltaTime
  = Js.Normal
      (VisualRenderer.mk (VisualRenderer.time this)
         (filter hasLife
            (map (VisualRenderer.advance deltaTime)
               (VisualRenderer.particles this)))
         (VisualRenderer.maxParticles this)).
Proof.
  apply updateParticles_spec.
Qed.

(** X17.  Starting from the renderer's initial particle system, any
    number of [render] calls with time steps that are not negative (and
    [Math.random()] in [[0, 1)]) complete, and afterwards there are at
    most 200 particles, each with life in [(0, 1]], decay in [[0.3, 0.8]],
    size in [[1, 3]] and speed at most 40; the renderer's clock is the sum
    of the time steps. *)
Theorem particles_stay_bounded (rnd : Js.RandomSource)
    (frames : list (HarmonicSpace.t * R)) :
  drawsInUnit rnd ->
  Forall (fun f => 0 <= snd f) frames ->
  exists r' rnd',
    renderFrames VisualRenderer.new rnd frames = Js.Normal (r', rnd')
    /\ (List.length (VisualRenderer.particles r') <= 200)%nat
    /\ Forall particleInRange (VisualRenderer.particles r')
    /\ VisualRenderer.time r' = elapsed frames.
Proof.
  intros Hrnd Hdt.
  assert (Hnew : particlesBounded VisualRenderer.new).
  { split; cbn; [lia | constructor]. }
  destruct (renderFrames_bounded frames VisualRenderer.new rnd Hrnd Hdt Hnew)
    as (r' & rnd' & Hrun & [Hlen Hall] & Hm & Ht).
  exists r', rnd'. split; [exact Hrun |].
  rewrite Hm in Hlen. cbn in Hlen.
  split; [exact Hlen |]. split; [exact Hall |].
  rewrite Ht. cbn. lra.
Qed.

Section Spawning.
Import VisualRenderer.

Lemma spawnParticle_grows (this : t) (h : Harmonic.t)
    (rnd : Js.RandomSource) :
  (List.length (particles this)
   <= List.length (particles (fst (spawnParticle this h rnd)))
   <= S (List.length (particles this)))%nat
  /\ ((List.length (particles this) < maxParticles this)%nat ->
      List.length (particles (fst (spawnParticle this h rnd)))
      = S (List.length (particles this)))
  /\ maxParticles (fst (spawnParticle this h rnd)) = maxParticles this
  /\ Js.draws (snd (spawnParticle this h rnd)) = Js.draws rnd.
Proof.
  unfold spawnParticle.
  destruct (maxParticles this <=? List.length (particles this))%nat eqn:Hfull.
  - apply Nat.leb_le in Hfull. cbn [fst snd].
    split; [lia |]. split; [lia |]. split; reflexivity.
  - cbn [Js.Math_random fst snd particles maxParticles Js.draws].
    rewrite length_app. cbn [List.length].
    split; [lia |]. split; [lia |]. split; reflexivity.
Qed.

(** The loop of [render] adds at most one particle per visible
    harmonic and removes none. *)
Lemma spawnFor_grows (visible : list Harmonic.t) :
  forall (this : t) (rnd : Js.RandomSource),
    (List.length (particles this)
     <= List.length (particles (fst (spawnFor this visible rnd)))
     <= List.length (particles this) + List.length visible)%nat
    /\ maxParticles (fst (spawnFor this visible rnd)) = maxParticles this
    /\ Js.draws (snd (spawnFor this visible rnd)) = Js.draws rnd.
Proof.
  induction visible as [| h rest IH]; intros this rnd; cbn [spawnFor].
  - cbn [fst snd List.length]. split; [lia |]. split; reflexivity.
  - cbn [List.length].
    destruct (Rgt_dec (Harmonic.amplitude h) 0.2).
    + cbn [Js.Math_random].
      set (rnd1 := Js.mkRandom (Js.draws rnd) (S (Js.position rnd))).
      destruct (Rlt_dec (Js.draws rnd (Js.position rnd))
                  (Harmonic.amplitude h * 0.3)).
      * destruct (spawnParticle_grows this h rnd1) as (Hlen & _ & Hm & Hd).
        destruct (spawnParticle this h rnd1) as [this' rnd2].
        cbn [fst snd] in *.
        destruct (IH this' rnd2) as (Hlen' & Hm' & Hd').
        split; [lia |].
        split; [rewrite Hm'; exact Hm | rewrite Hd', Hd; reflexivity].
      * destruct (IH this rnd1) as (Hlen' & Hm' & Hd').
        split; [lia |]. split; [exact Hm' | exact Hd'].
    + destruct (IH this rnd) as (Hlen' & Hm' & Hd').
      split; [lia |]. split; [exact Hm' | exact Hd'].
Qed.

(** With room left and every draw at [c], a visible harmonic that sounds
    above 0.2 and whose threshold [amplitude * 0.3] lies above [c] gets a
    particle. *)
Lemma spawnFor_spawns (c : R) (h : Harmonic.t) (visible : list Harmonic.t) :
  Harmonic.amplitude h > 0.2 ->
  c < Harmonic.amplitude h * 0.3 ->
  In h visible ->
  forall (this : t) (rnd : Js.RandomSource),
    (forall k, Js.draws rnd k = c) ->
    (List.length (particles this) + List.length visible
     <= maxParticles this)%nat ->
    (List.length (particles this)
     < List.length (particles (fst (spawnFor this visible rnd))))%nat.
Proof.
  intros Hloud Hbelow.
  induction visible as [| h0 rest IH]; intros Hin this rnd Hdraws Hroom;
    [contradiction |].
  cbn [List.length] in Hroom. cbn [spawnFor].
  set (rnd1 := Js.mkRandom (Js.draws rnd) (S (Js.position rnd))).
  destruct Hin as [-> | Hin].
  - destruct (Rgt_dec (Harmonic.amplitude h) 0.2) as [_ | Hn];
      [| contradiction].
    cbn [Js.Math_random]. rewrite Hdraws.
    destruct (Rlt_dec c (Harmonic.amplitude h * 0.3)) as [_ | Hn];
      [| contradiction].
    destruct (spawnParticle_grows this h rnd1) as (_ & Hone & _).
    specialize (Hone ltac:(lia)).
    fold rnd1.
    destruct (spawnParticle this h rnd1) as [this' rnd2].
    cbn [fst snd] in *.
    destruct (spawnFor_grows rest this' rnd2) as (Hlen' & _). lia.
  - destruct (Rgt_dec (Harmonic.amplitude h0) 0.2).
    + cbn [Js.Math_random]. fold rnd1.
      destruct (Rlt_dec (Js.draws rnd (Js.position rnd))
                  (Harmonic.amplitude h0 * 0.3)).
      * destruct (spawnParticle_grows this h0 rnd1) as (Hlen & _ & Hm & Hd).
        destruct (spawnParticle this h0 rnd1) as [this' rnd2].
        cbn [fst snd] in *.
        assert (Hlt : (List.length (particles this')
                       < List.length
                           (particles (fst (spawnFor this' rest rnd2))))%nat).
        { apply (IH Hin).
          - intros k. rewrite Hd. apply Hdraws.
          - rewrite Hm. lia. }
        lia.
      * apply (IH Hin); [exact Hdraws | lia].
    + apply (IH Hin); [exact Hdraws | lia].
Qed.

(** One call of [render] under the same conditions leaves a particle. *)
Lemma render_spawns (c : R) (h : Harmonic.t) (this : t)
    (space : HarmonicSpace.t) (deltaTime : R) (rnd : Js.RandomSource) :
  Harmonic.amplitude h > 0.2 ->
  c < Harmonic.amplitude h * 0.3 ->
  In h (HarmonicSpace.getVisibleHarmonics space) ->
  (forall k, Js.draws rnd k = c) ->
  (List.length (particles this)
   + List.length (HarmonicSpace.getVisibleHarmonics space)
   <= maxParticles this)%nat ->
  exists r' rnd',
    render this space deltaTime rnd = Js.Normal (r', rnd')
    /\ (0 < List.length (particles r')
        <= List.length (particles this)
           + List.length (HarmonicSpace.getVisibleHarmonics space))%nat
    /\ maxParticles r' = maxParticles this
    /\ (forall k, Js.draws rnd' k = c).
Proof.
  intros Hloud Hbelow Hin Hdraws Hroom.
  unfold render. rewrite updateParticles_spec.
  cbn [Js.bind particles maxParticles time].
  set (r1 := mk (time this + deltaTime)
                (filter hasLife (map (advance deltaTime) (particles this)))
                (maxParticles this)).
  assert (Hlen1 : (List.length (particles r1)
                   <= List.length (particles this))%nat).
  { unfold r1. cbn [particles].
    eapply Nat.le_trans; [apply filter_length_le |].
    now rewrite length_map. }
  assert (Hroom1 : (List.length (particles r1)
                    + List.length (HarmonicSpace.getVisibleHarmonics space)
                    <= maxParticles r1)%nat).
  { unfold r1 at 2. cbn [maxParticles]. lia. }
  pose proof (spawnFor_spawns c h _ Hloud Hbelow Hin r1 rnd Hdraws Hroom1)
    as Hspawn.
  destruct (spawnFor_grows (HarmonicSpace.getVisibleHarmonics space) r1 rnd)
    as (Hgrow & Hm & Hd).
  destruct (spawnFor r1 (HarmonicSpace.getVisibleHarmonics space) rnd)
    as [r2 rnd2].
  cbn [fst snd] in *.
  exists r2, rnd2. split; [reflexivity |].
  split; [lia |]. split; [exact Hm |].
  intros k. rewrite Hd. apply Hdraws.
Qed.

Lemma find_member {A : Type} (p : A -> bool) (l : list A) (x : A) :
  Js.find p l = Some x -> In x l.
Proof.
  induction l as [| a l IH]; cbn [Js.find]; [discriminate |].
  destruct (p a); [intros [= <-]; now left | intros H; right; now apply IH].
Qed.

(** In [soundingSpace] the harmonic of the prime 2 is visible and sounds
    at 0.6, and at most 25 harmonics are visible. *)
Lemma soundingSpace_loud :
  (exists h,
     In h (HarmonicSpace.getVisibleHarmonics soundingSpace)
     /\ Harmonic.amplitude h = 0.6)
  /\ (List.length (HarmonicSpace.getVisibleHarmonics soundingSpace)
      <= 25)%nat.
Proof.
  assert (Hfresh : Forall2 harmonicCarries
                     (HarmonicSpace.harmonics freshSpace) indexedPrimes).
  { rewrite freshSpace_run, new_spec.
    cbn [fst HarmonicSpace.harmonics]. apply harmonicCarries_generated. }
  destruct (find_by_index _ _ Hfresh generated_ids_distinct 0
              (0%nat, 2%Z) eq_refl)
    as (hm & _ & (_ & _ & _ & _ & Hthreshold) & Hfind).
  cbn [fst snd] in Hthreshold.
  assert (Hget : HarmonicSpace.getHarmonic freshSpace "prime_2" = Some hm)
    by exact Hfind.
  clear Hfind.
  pose proof (setHarmonicAmplitude_stores freshSpace "prime_2"
                0.6 hm Hget) as Hstored.
  fold soundingSpace in Hstored.
  assert (Hdepth : HarmonicSpace.depth soundingSpace = 0).
  { unfold soundingSpace, HarmonicSpace.setHarmonicAmplitude.
    rewrite Hget. reflexivity. }
  assert (Hsound : Forall2 harmonicCarries
                     (HarmonicSpace.harmonics soundingSpace) indexedPrimes).
  { unfold soundingSpace, HarmonicSpace.setHarmonicAmplitude.
    rewrite Hget. cbn [HarmonicSpace.harmonics].
    now apply harmonicCarries_assign. }
  split.
  - exists (Harmonic.set_amplitude 0.6 hm). split; [| reflexivity].
    unfold HarmonicSpace.getVisibleHarmonics. apply filter_In.
    split; [exact (find_member _ _ _ Hstored) |].
    apply visibleAt_true. rewrite Hdepth.
    cbn [Harmonic.set_amplitude Harmonic.visibilityDepth].
    rewrite Hthreshold. apply threshold_test; cbn [INR]; lra.
  - unfold HarmonicSpace.getVisibleHarmonics.
    eapply Nat.le_trans; [apply filter_length_le |].
    rewrite (Forall2_length Hsound). reflexivity.
Qed.

(** Two frames of the same space under those conditions: the first
    leaves a particle for the second to advance, and there is one at the
    end. *)
Lemma two_frames_spawn (c : R) (h : Harmonic.t) (space : HarmonicSpace.t)
    (rnd : Js.RandomSource) (dt1 dt2 : R) :
  Harmonic.amplitude h > 0.2 ->
  c < Harmonic.amplitude h * 0.3 ->
  In h (HarmonicSpace.getVisibleHarmonics space) ->
  (forall k, Js.draws rnd k = c) ->
  (List.length (HarmonicSpace.getVisibleHarmonics space) <= 25)%nat ->
  exists r1 rnd1 r2 rnd2,
    render new space dt1 rnd = Js.Normal (r1, rnd1)
    /\ (0 < List.length (particles r1))%nat
    /\ renderFrames new rnd [(space, dt1); (space, dt2)]
       = Js.Normal (r2, rnd2)
    /\ (0 < List.length (particles r2))%nat.
Proof.
  intros Hloud Hbelow Hin Hdraws Hcount.
  destruct (render_spawns c h new space dt1 rnd Hloud Hbelow Hin Hdraws)
    as (r1 & rnd1 & Hrun1 & Hlen1 & Hm1 & Hd1).
  { cbn [new particles maxParticles List.length Nat.add]. lia. }
  destruct (render_spawns c h r1 space dt2 rnd1 Hloud Hbelow Hin Hd1)
    as (r2 & rnd2 & Hrun2 & Hlen2 & _).
  { rewrite Hm1. cbn [new particles maxParticles List.length Nat.add] in *.
    lia. }
  exists r1, rnd1, r2, rnd2.
  split; [exact Hrun1 |]. split; [lia |].
  split; [| lia].
  cbn [renderFrames].
  rewrite Hrun1. cbn [Js.bind fst snd]. rewrite Hrun2. reflexivity.
Qed.

Lemma twoFrames_spawn :
  exists r1 rnd1 r2 rnd2,
    render new soundingSpace 0.016 lowDraws = Js.Normal (r1, rnd1)
    /\ (0 < List.length (particles r1))%nat
    /\ renderFrames new lowDraws twoFrames = Js.Normal (r2, rnd2)
    /\ (0 < List.length (particles r2))%nat.
Proof.
  destruct soundingSpace_loud as [(h & Hin & Hamp) Hcount].
  assert (Hloud : Harmonic.amplitude h > 0.2) by (rewrite Hamp; lra).
  assert (Hbelow : 1 / 10 < Harmonic.amplitude h * 0.3)
    by (rewrite Hamp; lra).
  exact (two_frames_spawn (1 / 10) h soundingSpace lowDraws 0.016 0.1
           Hloud Hbelow Hin (fun k => eq_refl) Hcount).
Qed.

End Spawning.

(** The statement for two frames of a space on which the harmonic of the
    prime 2 sounds at 0.6, with every draw at one tenth, below its spawn
    threshold of 0.18: the first frame spawns a particle, the second
    advances it and spawns again, and the bounds hold of a particle list
    that is not empty. *)
Lemma particles_stay_bounded_witness :
  exists r' rnd',
    renderFrames VisualRenderer.new lowDraws twoFrames
    = Js.Normal (r', rnd')
    /\ (0 < List.length (VisualRenderer.particles r') <= 200)%nat
    /\ Forall particleInRange (VisualRenderer.particles r')
    /\ VisualRenderer.time r' = elapsed twoFrames.
Proof.
  destruct (particles_stay_bounded lowDraws twoFrames)
    as (r' & rnd' & Hrun & Hlen & Hall & Htime).
  - intros k. cbn. lra.
  - unfold twoFrames. repeat constructor; cbn [snd]; lra.
  - destruct twoFrames_spawn as (_ & _ & r2 & rnd2 & _ & _ & Hrun2 & Hlen2).
    rewrite Hrun in Hrun2. injection Hrun2 as <- <-.
    exists r', rnd'. split; [exact Hrun |].
    split; [split; [exact Hlen2 | exact Hlen] |].
    split; [exact Hall | exact Htime].
Defined.

Section Drawing.
Import VisualRenderer.

Lemma visibilityAlpha_sign (h : Harmonic.t) (depth : R) :
  visibilityAlpha h depth <= 1
  /\ (0 < visibilityAlpha h depth
      <-> Harmonic.visibilityDepth h < depth + 0.3)
  /\ (visibilityAlpha h depth = 1
      <-> Harmonic.visibilityDepth h + 1 / 30 <= depth).
Proof.
  unfold visibilityAlpha.
  set (u := (depth + 0.3 - Harmonic.visibilityDepth h) * 3).
  assert (Hu : u = (depth + 0.3 - Harmonic.visibilityDepth h) * 3)
    by reflexivity.
  split; [apply Rmin_l |]. unfold Rmin.
  destruct (Rle_dec 1 u); split; split; intros; lra.
Qed.

Lemma drawHarmonic_cases (h : Harmonic.t) (depth : R) :
  (Harmonic.visibilityDepth h < depth + 0.3
   /\ drawHarmonic h depth
      = Some
          (mkDrawing
             ((0.3 + Harmonic.glow h * 0.7) * visibilityAlpha h depth)
             (Harmonic.size h * (1.5 + Harmonic.glow h * 2))
             (0.8 * visibilityAlpha h depth)
             (Harmonic.size h * (0.3 + Harmonic.amplitude h * 0.3))
             (if Harmonic.isExotic h then
                if Rgt_dec (Harmonic.amplitude h) 0.1 then
                  Some (Harmonic.amplitude h * 0.3 * visibilityAlpha h depth)
                else None
              else None)))
  \/ (depth + 0.3 <= Harmonic.visibilityDepth h
      /\ drawHarmonic h depth = None).
Proof.
  destruct (visibilityAlpha_sign h depth) as (_ & Hpos & _).
  unfold drawHarmonic.
  destruct (Rle_dec (visibilityAlpha h depth) 0) as [Hle | Hgt].
  - right. split; [| reflexivity].
    destruct (Rlt_dec (Harmonic.visibilityDepth h) (depth + 0.3)) as [Hlt |];
      [| lra].
    apply Hpos in Hlt. lra.
  - left. split; [| reflexivity]. apply Hpos. lra.
Qed.

End Drawing.

(** X18.  [drawHarmonic(h, depth)] paints exactly when
    [h.visibilityDepth < depth + 0.3]: every harmonic it paints passes the
    filter of [getVisibleHarmonics], and a harmonic that passes the
    filter is left unpainted only when its threshold equals
    [depth + 0.3].  The opacity of the core of a painted harmonic lies in
    [(0, 0.8]], and reaches 0.8 exactly when the depth is at least 1/30
    past the threshold. *)
Theorem drawHarmonic_paints_strictly_visible (h : Harmonic.t) (depth : R) :
  (VisualRenderer.drawHarmonic h depth <> None
   <-> Harmonic.visibilityDepth h < depth + 0.3)
  /\ (VisualRenderer.drawHarmonic h depth <> None ->
      HarmonicSpace.visibleAt depth h = true)
  /\ (HarmonicSpace.visibleAt depth h = true ->
      VisualRenderer.drawHarmonic h depth = None ->
      Harmonic.visibilityDepth h = depth + 0.3)
  /\ forall d,
       VisualRenderer.drawHarmonic h depth = Some d ->
       0 < VisualRenderer.coreAlpha d <= 0.8
       /\ (VisualRenderer.coreAlpha d = 0.8
           <-> Harmonic.visibilityDepth h + 1 / 30 <= depth).
Proof.
  destruct (visibilityAlpha_sign h depth) as (Hle & Hpos & Hone).
  destruct (drawHarmonic_cases h depth) as [[Hlt Hd] | [Hge Hd]];
    rewrite Hd.
  - split; [split; [intros _; exact Hlt | discriminate] |].
    split.
    { intros _. apply visibleAt_true. lra. }
    split; [discriminate |].
    intros d Heq. injection Heq as <-. cbn [VisualRenderer.coreAlpha].
    apply Hpos in Hlt.
    split; [lra |]. split.
    + intros H8. apply Hone. lra.
    + intros H30. apply Hone in H30. lra.
  - split; [split; [congruence | lra] |].
    split; [congruence |].
    split; [| discriminate].
    intros Hvis _. apply visibleAt_true in Hvis. lra.
Qed.

(** X19.  In every state reached from the constructor by calls with
    amplitude arguments in [[0, 0.8]] and time steps in [[0, 0.2]], each
    harmonic [render] hands to [drawHarmonic] is either painted, with
    glow opacity in [(0, 0.86]], core opacity in [(0, 0.8]], ring opacity
    in [(0, 0.24]] and a core radius that is positive and smaller than
    the glow radius, or it has its threshold exactly at [depth + 0.3] and
    is skipped. *)
Theorem drawings_are_in_range (width height : R) (rnd : Js.RandomSource)
    (cs : list SpaceCall) :
  Forall callInRange cs ->
  Forall
    (fun entry =>
       match snd entry with
       | Some d =>
           Harmonic.visibilityDepth (fst entry)
           < HarmonicSpace.depth (spaceAfter width height rnd cs) + 0.3
           /\ drawingInRange d
       | None =>
           Harmonic.visibilityDepth (fst entry)
           = HarmonicSpace.depth (spaceAfter width height rnd cs) + 0.3
       end)
    (VisualRenderer.drawHarmonics (spaceAfter width height rnd cs)).
Proof.
  intros Hcs. apply Forall_forall. intros [h d] Hin.
  unfold VisualRenderer.drawHarmonics in Hin. apply in_map_iff in Hin.
  destruct Hin as (h0 & Heq & Hvis). injection Heq as -> <-.
  unfold HarmonicSpace.getVisibleHarmonics in Hvis.
  apply filter_In in Hvis. destruct Hvis as [Hin Hvis].
  apply visibleAt_true in Hvis.
  destruct (levelsInRange_spaceAfter width height rnd cs Hcs h Hin)
    as [Ha Hg].
  destruct (sizeBounded_spaceAfter width height rnd cs h Hin)
    as (Hb & Hs & _).
  set (depth := HarmonicSpace.depth (spaceAfter width height rnd cs)) in *.
  destruct (visibilityAlpha_sign h depth) as (Hle & Hpos & _).
  cbn [fst snd].
  destruct (drawHarmonic_cases h depth) as [[Hlt Hd] | [Hge Hd]];
    rewrite Hd; [| lra].
  split; [exact Hlt |].
  apply Hpos in Hlt.
  set (va := VisualRenderer.visibilityAlpha h depth) in *.
  unfold drawingInRange.
  cbn [VisualRenderer.activeAlpha VisualRenderer.coreAlpha
       VisualRenderer.coreSize VisualRenderer.glowSize
       VisualRenderer.ringAlpha].
  split; [nra |]. split; [lra |]. split; [nra |].
  destruct (Harmonic.isExotic h); [| exact I].
  destruct (Rgt_dec (Harmonic.amplitude h) 0.1); [| exact I].
  nra.
Qed.

(** The statement for the session of three frames around an amplitude
    change. *)
Lemma drawings_are_in_range_witness :
  Forall
    (fun entry =>
       match snd entry with
       | Some d =>
           Harmonic.visibilityDepth (fst entry)
           < HarmonicSpace.depth (spaceAfter 800 600 evenDraws frameSession)
             + 0.3
           /\ drawingInRange d
       | None =>
           Harmonic.visibilityDepth (fst entry)
           = HarmonicSpace.depth (spaceAfter 800 600 evenDraws frameSession)
             + 0.3
       end)
    (VisualRenderer.drawHarmonics
       (spaceAfter 800 600 evenDraws frameSession)).
Proof.
  apply (drawings_are_in_range 800 600 evenDraws frameSession).
  unfold frameSession.
  repeat constructor; cbn [callInRange]; lra.
Defined.

(** X20.  The skipped case occurs: for each prime of index 9 to 23, at
    the depth [(index - 4) / 15 - 0.3] (0.1 for the prime 31 of index 10,
    two notches of the wheel), [getVisibleHarmonics] returns the harmonic
    of that prime and [drawHarmonic] paints nothing for it. *)
Theorem visible_harmonic_at_threshold_is_not_drawn (width height : R)
    (rnd : Js.RandomSource) (i : nat) (p : Z) :
  nth_error PrimeMath.PRIMES i = Some p ->
  (9 <= i <= 23)%nat ->
  let s :=
    spaceAfter width height rnd [CallSetDepth ((INR i - 4) / 15 - 0.3)] in
  HarmonicSpace.depth s = (INR i - 4) / 15 - 0.3
  /\ exists hm,
       In (hm, None) (VisualRenderer.drawHarmonics s)
       /\ Harmonic.prime hm = p.
Proof.
  intros Hp [Hlo Hhi]. cbv zeta.
  assert (Hi9 : 9 <= INR i).
  { replace 9 with (INR 9) by (rewrite INR_IZR_INZ; reflexivity).
    now apply le_INR. }
  assert (Hi23 : INR i <= 23).
  { replace 23 with (INR 23) by (rewrite INR_IZR_INZ; reflexivity).
    now apply le_INR. }
  unfold spaceAfter. cbn [runCalls fold_left runCall fst].
  rewrite new_spec. cbn [fst].
  unfold HarmonicSpace.setDepth.
  cbn [HarmonicSpace.depth HarmonicSpace.harmonics HarmonicSpace.width
       HarmonicSpace.height HarmonicSpace.center HarmonicSpace.time].
  assert (Hdepth : Rmax 0 (Rmin 1 ((INR i - 4) / 15 - 0.3))
                   = (INR i - 4) / 15 - 0.3).
  { rewrite Rmin_right by lra. apply Rmax_right. lra. }
  split; [exact Hdepth |].
  set (hm := generatedHarmonic
               (HarmonicSpace.mkPoint (width / 2) (height / 2))
               (Rmin width height * 0.35) rnd (i, p)).
  assert (Hvd : Harmonic.visibilityDepth hm = (INR i - 4) / 15).
  { change (Harmonic.visibilityDepth hm) with (Rmax 0 ((INR i - 4) / 15)).
    apply Rmax_right. lra. }
  exists hm. split; [| reflexivity].
  unfold VisualRenderer.drawHarmonics.
  cbn [HarmonicSpace.depth]. rewrite Hdepth.
  apply in_map_iff. exists hm. split.
  - f_equal.
    destruct (drawHarmonic_cases hm ((INR i - 4) / 15 - 0.3))
      as [[Hlt _] | [_ Hd]]; [lra | exact Hd].
  - unfold HarmonicSpace.getVisibleHarmonics.
    cbn [HarmonicSpace.depth HarmonicSpace.harmonics].
    apply filter_In. split.
    + apply in_map. unfold indexedPrimes.
      pose proof (nth_error_indexed_at PrimeMath.PRIMES 0 i p Hp) as Hnth.
      apply nth_error_In in Hnth. exact Hnth.
    + apply visibleAt_true. lra.
Qed.

(** The statement for the prime 31, of index 10. *)
Lemma visible_harmonic_at_threshold_is_not_drawn_witness :
  let s :=
    spaceAfter 800 600 evenDraws [CallSetDepth ((INR 10 - 4) / 15 - 0.3)] in
  HarmonicSpace.depth s = (INR 10 - 4) / 15 - 0.3
  /\ exists hm,
       In (hm, None) (VisualRenderer.drawHarmonics s)
       /\ Harmonic.prime hm = 31%Z.
Proof.
  apply (visible_harmonic_at_threshold_is_not_drawn 800 600 evenDraws 10 31).
  - reflexivity.
  - lia.
Defined.

(* ================================================================== *)
(** * Sessions of the voice manager *)
(* ================================================================== *)

Section GraphSteps.
Import WebAudio.

Lemma nth_error_updateNth {A : Type} (f : A -> A) (l : list A) :
  forall n m,
    nth_error (updateNth n f l) m
    = if Nat.eqb m n then option_map f (nth_error l m) else nth_error l m.
Proof.
  induction l as [| a l IH]; intros n m.
  - destruct n, m; simpl; try reflexivity; destruct (Nat.eqb m n);
      reflexivity.
  - destruct n as [| n]; destruct m as [| m]; simpl; try reflexivity.
    apply IH.
Qed.

Lemma length_updateNth {A : Type} (f : A -> A) (l : list A) :
  forall n, List.length (updateNth n f l) = List.length l.
Proof.
  induction l as [| a l IH]; intros [| n]; simpl; auto.
Qed.

Lemma Forall_updateNth {A : Type} (P : A -> Prop) (f : A -> A) (l : list A) :
  (forall x, P x -> P (f x)) ->
  forall n, Forall P l -> Forall P (updateNth n f l).
Proof.
  intros Hf. induction l as [| a l IH]; intros [| n] Hl; simpl;
    try exact Hl; inversion Hl; subst; constructor; auto.
Qed.

Lemma nodeIs_updateNode (P : Node -> Prop) (r : NodeRef) (f : Node -> Node)
    (ctx : AudioContext) (r0 : NodeRef) :
  (forall n, getNode r ctx = Some n -> P n -> P (f n)) ->
  nodeIs P ctx r0 -> nodeIs P (updateNode r f ctx) r0.
Proof.
  intros Hf (n & Hn & HP). unfold nodeIs, getNode, updateNode in *.
  cbn [nodes]. rewrite nth_error_updateNth.
  destruct (Nat.eqb r0 r) eqn:Heq.
  - apply Nat.eqb_eq in Heq. subst r0. rewrite Hn.
    exists (f n). split; [reflexivity |]. now apply Hf.
  - exists n. split; assumption.
Qed.

Lemma graphKeeps_refl (ctx : AudioContext) : graphKeeps ctx ctx.
Proof.
  split; auto.
Qed.

Lemma graphKeeps_trans (ctx1 ctx2 ctx3 : AudioContext) :
  graphKeeps ctx1 ctx2 -> graphKeeps ctx2 ctx3 -> graphKeeps ctx1 ctx3.
Proof.
  intros [H1 H1'] [H2 H2']. split; auto.
Qed.

Lemma graphKeeps_updateNode (r : NodeRef) (f : Node -> Node)
    (ctx : AudioContext) :
  (forall n, startedOscillatorNode n -> startedOscillatorNode (f n)) ->
  (forall v n, gainNodeOf v n -> gainNodeOf v (f n)) ->
  graphKeeps ctx (updateNode r f ctx).
Proof.
  intros Ho Hg. split.
  - intros r0. apply nodeIs_updateNode. intros n _. apply Ho.
  - intros v r0. apply nodeIs_updateNode. intros n _. apply Hg.
Qed.

Lemma graphKeeps_connect (src dst : NodeRef) (ctx : AudioContext) :
  graphKeeps ctx (connect src dst ctx).
Proof.
  apply graphKeeps_updateNode; intros; assumption.
Qed.

Lemma graphKeeps_disconnect (r : NodeRef) (ctx : AudioContext) :
  graphKeeps ctx (disconnect r ctx).
Proof.
  apply graphKeeps_updateNode; intros; assumption.
Qed.

Lemma graphKeeps_onFrequency (r : NodeRef) (f : AudioParam -> AudioParam)
    (ctx : AudioContext) :
  graphKeeps ctx (onFrequency r f ctx).
Proof.
  apply graphKeeps_updateNode.
  - intros [k outs]. unfold startedOscillatorNode. cbn [kind].
    destruct k; cbn [kind]; auto.
  - intros v [k outs]. unfold gainNodeOf. cbn [kind].
    destruct k; cbn [kind]; auto.
Qed.

Lemma graphKeeps_start (r : NodeRef) (ctx : AudioContext) :
  graphKeeps ctx (start r ctx).
Proof.
  apply graphKeeps_updateNode.
  - intros [k outs]. unfold startedOscillatorNode. cbn [kind].
    destruct k; cbn [kind]; auto.
  - intros v [k outs]. unfold gainNodeOf. cbn [kind].
    destruct k; cbn [kind]; auto.
Qed.

Lemma graphKeeps_onGain (r : NodeRef) (f : AudioParam -> AudioParam)
    (ctx : AudioContext) :
  (forall p, value (f p) = value p) ->
  graphKeeps ctx (onGain r f ctx).
Proof.
  intros Hf. apply graphKeeps_updateNode.
  - intros [k outs]. unfold startedOscillatorNode. cbn [kind].
    destruct k; auto.
  - intros v [k outs]. unfold gainNodeOf. cbn [kind].
    destruct k; cbn [kind]; auto. intros <-. apply Hf.
Qed.

Lemma graphKeeps_close (ctx : AudioContext) : graphKeeps ctx (close ctx).
Proof.
  split; auto.
Qed.

Lemma graphKeeps_graphWithVoice (ctx : AudioContext) (master : NodeRef)
    (freq : R) :
  graphKeeps ctx (graphWithVoice ctx master freq).
Proof.
  assert (H : forall P r, nodeIs P ctx r ->
                          nodeIs P (graphWithVoice ctx master freq) r).
  { intros P r (n & Hn & HP). exists n. split; [| exact HP].
    unfold getNode, graphWithVoice in *. cbn [nodes].
    rewrite List.nth_error_app1; [exact Hn |].
    apply nth_error_Some. congruence. }
  split; intros; apply H; assumption.
Qed.

Lemma stop_started (r : NodeRef) (ctx : AudioContext) :
  nodeIs startedOscillatorNode ctx r ->
  exists ctx', stop r ctx = Js.Normal ctx' /\ graphKeeps ctx ctx'.
Proof.
  intros (n & Hn & HP). unfold stop. rewrite Hn.
  destruct n as [k outs]. unfold startedOscillatorNode in HP.
  cbn [kind] in HP.
  destruct k as [| g | ty fq st sp | b | ? ? ? ? ?]; try contradiction.
  destruct st; [| contradiction].
  eexists. split; [reflexivity |]. split.
  - intros r0. apply nodeIs_updateNode. intros n _ _. exact I.
  - intros v r0. apply nodeIs_updateNode. intros n Hn' Hg.
    rewrite Hn in Hn'. injection Hn' as <-. exact Hg.
Qed.

End GraphSteps.

Section EngineSteps.
Import WebAudio HarmonicEngine.

Lemma Map_get_In {V : Type} (m : Js.Map.t V) (k : string) (v : V) :
  Js.Map.get m k = Some v -> exists k', In (k', v) m.
Proof.
  induction m as [| [k0 v0] m IH]; simpl; [discriminate |].
  destruct (String.eqb k0 k).
  - intros [= <-]. exists k0. now left.
  - intros Hget. destruct (IH Hget) as [k' Hin]. exists k'. now right.
Qed.

Lemma Forall_Map_set {V : Type} (Q : V -> Prop) (m : Js.Map.t V)
    (k : string) (v : V) :
  Forall (fun kv => Q (snd kv)) m -> Q v ->
  Forall (fun kv => Q (snd kv)) (Js.Map.set m k v).
Proof.
  intros Hm Hv. induction Hm as [| [k0 v0] m H0 Hm IH]; simpl.
  - constructor; [exact Hv | constructor].
  - destruct (String.eqb k0 k); constructor; assumption.
Qed.

Lemma Forall_Map_delete {V : Type} (P : string * V -> Prop)
    (m : Js.Map.t V) (k : string) :
  Forall P m -> Forall P (Js.Map.delete m k).
Proof.
  intros Hm. induction Hm as [| [k0 v0] m H0 Hm IH]; simpl.
  - constructor.
  - destruct (String.eqb k0 k); [exact Hm | constructor; assumption].
Qed.

Lemma keys_set_fresh {V : Type} (m : Js.Map.t V) (k : string) (v : V) :
  Js.Map.get m k = None ->
  Js.Map.keys (Js.Map.set m k v) = Js.Map.keys m ++ [k].
Proof.
  induction m as [| [k0 v0] m IH]; simpl; [reflexivity |].
  destruct (String.eqb k0 k); [discriminate |].
  intros Hget. simpl. now rewrite (IH Hget).
Qed.

Lemma values_set_fresh {V : Type} (m : Js.Map.t V) (k : string) (v : V) :
  Js.Map.get m k = None ->
  map snd (Js.Map.set m k v) = map snd m ++ [v].
Proof.
  induction m as [| [k0 v0] m IH]; simpl; [reflexivity |].
  destruct (String.eqb k0 k); [discriminate |].
  intros Hget. simpl. now rewrite (IH Hget).
Qed.

Lemma values_delete_In {V : Type} (m : Js.Map.t V) (k : string) (v : V) :
  In v (map snd (Js.Map.delete m k)) -> In v (map snd m).
Proof.
  induction m as [| [k0 v0] m IH]; simpl; [tauto |].
  destruct (String.eqb k0 k); simpl; tauto.
Qed.

Lemma NoDup_values_delete {V : Type} (m : Js.Map.t V) (k : string) :
  NoDup (map snd m) -> NoDup (map snd (Js.Map.delete m k)).
Proof.
  induction m as [| [k0 v0] m IH]; simpl; [auto |].
  intros Hnd. inversion Hnd as [| ? ? Hv0 Hm]; subst.
  destruct (String.eqb k0 k); [exact Hm |].
  simpl. constructor; [| now apply IH].
  intros Hin. apply Hv0. eapply values_delete_In. exact Hin.
Qed.

Lemma NoDup_app_last {A : Type} (l : list A) (a : A) :
  NoDup l -> ~ In a l -> NoDup (l ++ [a]).
Proof.
  intros Hl Ha. induction Hl as [| b l Hb Hl IH]; simpl.
  - constructor; [intros [] | constructor].
  - constructor.
    + rewrite in_app_iff. intros [Hin | [-> | []]]; [auto |].
      apply Ha. now left.
    + apply IH. intros Hin. apply Ha. now right.
Qed.

Lemma keys_delete_In {V : Type} (m : Js.Map.t V) (k k' : string) :
  In k' (Js.Map.keys (Js.Map.delete m k)) -> In k' (Js.Map.keys m).
Proof.
  induction m as [| [k0 v0] m IH]; simpl; [tauto |].
  destruct (String.eqb k0 k); simpl; tauto.
Qed.

Lemma NoDup_keys_delete {V : Type} (m : Js.Map.t V) (k : string) :
  NoDup (Js.Map.keys m) -> NoDup (Js.Map.keys (Js.Map.delete m k)).
Proof.
  induction m as [| [k0 v0] m IH]; simpl; [auto |].
  intros Hnd. inversion Hnd as [| ? ? Hk0 Hm]; subst.
  destruct (String.eqb k0 k); [exact Hm |].
  simpl. constructor; [| now apply IH].
  intros Hin. apply Hk0. eapply keys_delete_In. exact Hin.
Qed.

Lemma Forall_removeNth {A : Type} (P : A -> Prop) (l : list A) :
  forall n, Forall P l -> Forall P (removeNth n l).
Proof.
  induction l as [| a l IH]; intros [| n] Hl; simpl; try exact Hl;
    inversion Hl; subst; [assumption | constructor; auto].
Qed.

Lemma ready_with_context (e : t) (ctx ctx' : AudioContext) :
  engineReady e ->
  audioContext e = Some ctx ->
  graphKeeps ctx ctx' ->
  engineReady (with_context ctx' e).
Proof.
  intros (Hinit & ctx0 & master & Hctx0 & Hmaster & Hmg & Hfo & Hobj & Hvo
          & Hto & Hnd & Hinj) Hctx [Hosc Hgain].
  rewrite Hctx in Hctx0. injection Hctx0 as <-.
  split; [exact Hinit |]. exists ctx', master.
  cbn [with_context audioContext masterGain masterVolume fundamentalOsc
       objects voices timeouts].
  split; [reflexivity |]. split; [exact Hmaster |].
  split; [apply Hgain, Hmg |].
  split; [intros osc Ho; apply Hosc, Hfo, Ho |].
  split; [| split; [assumption | split; [assumption | split; assumption]]].
  eapply Forall_impl; [| exact Hobj]. intros vo. apply Hosc.
Qed.

Lemma ready_deref (e : t) (v : VoiceRef) :
  engineReady e ->
  (v < List.length (objects e))%nat ->
  exists vo ctx,
    deref e v = Js.Normal vo
    /\ audioContext e = Some ctx
    /\ nodeIs startedOscillatorNode ctx (oscillator vo).
Proof.
  intros (_ & ctx & master & Hctx & _ & _ & _ & Hobj & _) Hlt.
  destruct (nth_error (objects e) v) as [vo |] eqn:Hnth.
  - exists vo, ctx. unfold deref. rewrite Hnth.
    split; [reflexivity |]. split; [exact Hctx |].
    rewrite Forall_forall in Hobj. apply Hobj.
    eapply nth_error_In. exact Hnth.
  - apply nth_error_None in Hnth. lia.
Qed.

Lemma ready_voice_bound (e : t) (id : string) (v : VoiceRef) :
  engineReady e ->
  Js.Map.get (voices e) id = Some v ->
  (v < List.length (objects e))%nat.
Proof.
  intros (_ & ctx & master & _ & _ & _ & _ & _ & Hvo & _) Hget.
  destruct (Map_get_In _ _ _ Hget) as [k' Hin].
  rewrite Forall_forall in Hvo. apply (Hvo (k', v) Hin).
Qed.

Lemma graphKeeps_rampGain (g : NodeRef) (now target finish : R)
    (ctx : AudioContext) :
  graphKeeps ctx (rampGain g now target finish ctx).
Proof.
  unfold rampGain.
  eapply graphKeeps_trans; [| apply graphKeeps_onGain; reflexivity].
  eapply graphKeeps_trans; [| apply graphKeeps_onGain; reflexivity].
  apply graphKeeps_onGain. reflexivity.
Qed.

Lemma ready_setTargetGain (e : t) (v : VoiceRef) (a : R) :
  engineReady e -> engineReady (setTargetGain v a e).
Proof.
  intros (Hinit & ctx & master & Hctx & Hmaster & Hmg & Hfo & Hobj & Hvo
          & Hto & Hnd & Hinj).
  split; [exact Hinit |]. exists ctx, master.
  unfold setTargetGain.
  cbn [with_objects audioContext masterGain masterVolume fundamentalOsc
       objects voices timeouts].
  rewrite length_updateNth.
  split; [exact Hctx |]. split; [exact Hmaster |]. split; [exact Hmg |].
  split; [exact Hfo |].
  split; [| split; [assumption | split; [assumption | split; assumption]]].
  apply Forall_updateNth; [| exact Hobj].
  intros vo Hvo'. exact Hvo'.
Qed.

Lemma ready_createVoice (e : t) (id : string) (ratio : R) :
  engineReady e ->
  exists v e',
    createVoice e id ratio = Js.Normal (v, e')
    /\ engineReady e'
    /\ masterVolume e' = masterVolume e.
Proof.
  intros Hready.
  destruct (Js.Map.has (voices e) id) eqn:Hhas.
  - apply Map_has_get in Hhas. destruct Hhas as [v Hget].
    exists v, e. split; [now apply createVoice_existing |].
    split; [exact Hready | reflexivity].
  - destruct Hready as (Hinit & ctx & master & Hctx & Hmaster & Hmg & Hfo
                        & Hobj & Hvo & Hto & Hnd & Hinj).
    eexists. eexists.
    split; [apply (createVoice_fresh e id ratio ctx master); assumption |].
    split; [| reflexivity].
    destruct (graphKeeps_graphWithVoice ctx master (fundamental e * ratio))
      as [Hosc Hgain].
    split; [exact Hinit |].
    exists (graphWithVoice ctx master (fundamental e * ratio)), master.
    cbn [with_context with_objects with_voices audioContext masterGain
         masterVolume fundamentalOsc objects voices timeouts].
    rewrite length_app. cbn [List.length].
    split; [reflexivity |]. split; [exact Hmaster |].
    split; [apply Hgain, Hmg |].
    split; [intros osc Ho; apply Hosc, Hfo, Ho |].
    split.
    { apply Forall_app. split.
      - eapply Forall_impl; [| exact Hobj]. intros vo. apply Hosc.
      - constructor; [| constructor]. cbn [oscillator].
        eexists. split.
        + unfold getNode, graphWithVoice. cbn [nodes].
          apply nth_error_app0.
        + exact I. }
    split.
    { apply (Forall_Map_set
               (fun v => (v < List.length (objects e) + 1)%nat)).
      - eapply Forall_impl; [| exact Hvo]. intros kv Hkv. cbn beta in *. lia.
      - lia. }
    split.
    { eapply Forall_impl; [| exact Hto]. intros cb Hcb. cbn beta in *. lia. }
    apply Map_has_false in Hhas.
    rewrite (keys_set_fresh _ _ _ Hhas), (values_set_fresh _ _ _ Hhas).
    split.
    { apply NoDup_app_last; [exact Hnd |]. now apply Map_get_keys. }
    apply NoDup_app_last; [exact Hinj |].
    intros Hin. apply in_map_iff in Hin. destruct Hin as (kv & Hsnd & Hin).
    rewrite Forall_forall in Hvo. pose proof (Hvo kv Hin) as Hlt.
    destruct kv as [k0 v0]. cbn [snd] in *. subst v0. lia.
Qed.

Lemma ready_setVoiceAmplitude (e : t) (id : string) (a : R)
    (time : option R) :
  engineReady e ->
  exists e',
    setVoiceAmplitude e id a time = Js.Normal e'
    /\ engineReady e'
    /\ masterVolume e' = masterVolume e.
Proof.
  intros Hready. unfold setVoiceAmplitude.
  destruct (Js.Map.get (voices e) id) as [v |] eqn:Hget.
  - pose proof (ready_voice_bound e id v Hready Hget) as Hlt.
    destruct (ready_deref e v Hready Hlt) as (vo & ctx & Hderef & Hctx & _).
    unfold theContext. rewrite Hctx. cbn [Js.bind]. rewrite Hderef.
    cbn [Js.bind].
    eexists. split; [reflexivity |]. split; [| reflexivity].
    apply (ready_with_context _ ctx).
    + now apply ready_setTargetGain.
    + exact Hctx.
    + apply graphKeeps_rampGain.
  - exists e. split; [reflexivity |]. split; [exact Hready | reflexivity].
Qed.

Lemma ready_with_timeout (e : t) (cb : Timeout) :
  engineReady e ->
  (voice cb < List.length (objects e))%nat ->
  engineReady (with_timeouts (timeouts e ++ [cb]) e).
Proof.
  intros (Hinit & ctx & master & Hctx & Hmaster & Hmg & Hfo & Hobj & Hvo
          & Hto & Hnd & Hinj) Hlt.
  split; [exact Hinit |]. exists ctx, master.
  cbn [with_timeouts audioContext masterGain masterVolume fundamentalOsc
       objects voices timeouts].
  split; [exact Hctx |]. split; [exact Hmaster |]. split; [exact Hmg |].
  split; [exact Hfo |]. split; [exact Hobj |]. split; [exact Hvo |].
  split; [| split; assumption].
  apply Forall_app. split; [exact Hto |]. constructor; [exact Hlt |].
  constructor.
Qed.

Lemma ready_releaseVoice (e : t) (id : string) (fade : option R) :
  engineReady e ->
  exists e',
    releaseVoice e id fade = Js.Normal e'
    /\ engineReady e'
    /\ masterVolume e' = masterVolume e
    /\ voices e' = voices e.
Proof.
  intros Hready. unfold releaseVoice.
  destruct (Js.Map.get (voices e) id) as [v |] eqn:Hget.
  - pose proof (ready_voice_bound e id v Hready Hget) as Hlt.
    destruct (ready_deref e v Hready Hlt) as (vo & ctx & Hderef & Hctx & _).
    unfold theContext. rewrite Hctx. cbn [Js.bind]. rewrite Hderef.
    cbn [Js.bind].
    eexists. split; [reflexivity |].
    split; [| split; reflexivity].
    apply (ready_with_timeout
             (with_context
                (rampGain (gain vo) (currentTime ctx) 0.0001
                   (currentTime ctx + orDefault 0.5 fade) ctx) e)
             (mkTimeout (orDefault 0.5 fade * 1000 + 100) v id)).
    + apply (ready_with_context _ ctx); [exact Hready | exact Hctx |].
      apply graphKeeps_rampGain.
    + exact Hlt.
  - exists e. split; [reflexivity |].
    split; [exact Hready | split; reflexivity].
Qed.

Lemma ready_fireTimeout (e : t) (k : nat) :
  engineReady e ->
  exists e',
    fireTimeout e k = Js.Normal e'
    /\ engineReady e'
    /\ masterVolume e' = masterVolume e
    /\ forall cb,
         nth_error (timeouts e) k = Some cb ->
         timeouts e' = removeNth k (timeouts e)
         /\ voices e' = Js.Map.delete (voices e) (voiceId cb).
Proof.
  intros Hready. unfold fireTimeout.
  destruct (nth_error (timeouts e) k) as [cb |] eqn:Hnth.
  - assert (Hready1 : engineReady (with_timeouts (removeNth k (timeouts e)) e)).
    { destruct Hready as (Hinit & ctx & master & Hctx & Hmaster & Hmg & Hfo
                          & Hobj & Hvo & Hto & Hnd & Hinj).
      split; [exact Hinit |]. exists ctx, master.
      cbn [with_timeouts audioContext masterGain masterVolume fundamentalOsc
           objects voices timeouts].
      split; [exact Hctx |]. split; [exact Hmaster |]. split; [exact Hmg |].
      split; [exact Hfo |]. split; [exact Hobj |]. split; [exact Hvo |].
      split; [now apply Forall_removeNth | split; assumption]. }
    assert (Hlt : (voice cb < List.length (objects e))%nat).
    { destruct Hready as (_ & ctx & master & _ & _ & _ & _ & _ & _ & Hto & _).
      rewrite Forall_forall in Hto. apply Hto.
      eapply nth_error_In. exact Hnth. }
    set (e1 := with_timeouts (removeNth k (timeouts e)) e) in *.
    destruct (ready_deref e1 (voice cb) Hready1 Hlt)
      as (vo & ctx & Hderef & Hctx & Hosc).
    destruct (stop_started _ _ Hosc) as (ctx1 & Hstop & Hkeep1).
    unfold decommission. rewrite Hderef. cbn [Js.bind].
    unfold theContext. rewrite Hctx. cbn [Js.bind]. rewrite Hstop.
    cbn [Js.bind].
    eexists. split; [reflexivity |].
    split; [| split; [reflexivity |];
              intros cb' [= <-]; split; reflexivity].
    assert (Hready2 :
              engineReady
                (with_context
                   (disconnect (gain vo) (disconnect (oscillator vo) ctx1))
                   e1)).
    { apply (ready_with_context _ ctx); [exact Hready1 | exact Hctx |].
      eapply graphKeeps_trans; [exact Hkeep1 |].
      eapply graphKeeps_trans; apply graphKeeps_disconnect. }
    destruct Hready2 as (Hinit & ctx' & master & Hctx' & Hmaster & Hmg & Hfo
                         & Hobj & Hvo & Hto & Hnd & Hinj).
    split; [exact Hinit |]. exists ctx', master.
    split; [exact Hctx' |]. split; [exact Hmaster |]. split; [exact Hmg |].
    split; [exact Hfo |]. split; [exact Hobj |].
    cbn [with_voices voices objects timeouts].
    split; [apply Forall_Map_delete; exact Hvo |].
    split; [exact Hto |].
    split; [apply NoDup_keys_delete; exact Hnd |].
    apply NoDup_values_delete; exact Hinj.
  - exists e. split; [reflexivity |]. split; [exact Hready |].
    split; [reflexivity | discriminate].
Qed.

Lemma retune_keeps (e : t) (freq finish : R)
    (entries : list (string * VoiceRef)) :
  Forall (fun kv => (snd kv < List.length (objects e))%nat) entries ->
  forall ctx,
    exists ctx',
      retune e freq finish entries ctx = Js.Normal ctx'
      /\ graphKeeps ctx ctx'.
Proof.
  intros Hall. induction Hall as [| [id v] entries Hv _ IH]; intros ctx.
  - exists ctx. split; [reflexivity | apply graphKeeps_refl].
  - cbn [snd] in Hv. cbn [retune]. unfold deref.
    destruct (nth_error (objects e) v) as [vo |] eqn:Hnth.
    + cbn [Js.bind].
      destruct (IH (onFrequency (oscillator vo)
                      (exponentialRampToValueAtTime (freq * ratio vo) finish)
                      ctx)) as (ctx' & Hrun & Hkeep).
      exists ctx'. split; [exact Hrun |].
      eapply graphKeeps_trans; [apply graphKeeps_onFrequency | exact Hkeep].
    + apply nth_error_None in Hnth. lia.
Qed.

Lemma ready_with_fundamental (e : t) (freq : R) :
  engineReady e -> engineReady (with_fundamental freq e).
Proof.
  intros H. exact H.
Qed.

Lemma ready_setFundamental (e : t) (freq : R) (time : option R) :
  engineReady e ->
  exists e',
    setFundamental e freq time = Js.Normal e'
    /\ engineReady e'
    /\ masterVolume e' = masterVolume e.
Proof.
  intros Hready.
  pose proof (ready_with_fundamental e freq Hready) as Hready1.
  unfold setFundamental.
  set (e1 := with_fundamental freq e) in *.
  destruct Hready1 as (Hinit & ctx & master & Hctx & Hmaster & Hmg & Hfo
                       & Hobj & Hvo & Hto & Hnd & Hinj).
  unfold theContext. rewrite Hctx. cbn [Js.bind].
  set (ctx1 := match fundamentalOsc e1 with
               | Some osc =>
                   onFrequency osc
                     (exponentialRampToValueAtTime freq
                        (currentTime ctx + orDefault 0.5 time)) ctx
               | None => ctx
               end).
  assert (Hkeep1 : graphKeeps ctx ctx1).
  { unfold ctx1. destruct (fundamentalOsc e1);
      [apply graphKeeps_onFrequency | apply graphKeeps_refl]. }
  destruct (retune_keeps e1 freq (currentTime ctx + orDefault 0.5 time)
              (voices e1) Hvo ctx1) as (ctx2 & Hrun & Hkeep2).
  rewrite Hrun. cbn [Js.bind].
  eexists. split; [reflexivity |]. split; [| reflexivity].
  apply (ready_with_context e1 ctx).
  - split; [exact Hinit |]. exists ctx, master.
    repeat (split; [assumption |]). assumption.
  - exact Hctx.
  - eapply graphKeeps_trans; eassumption.
Qed.

Lemma ready_setMasterVolume (e : t) (volume : R) :
  engineReady e ->
  engineReady (setMasterVolume e volume)
  /\ masterVolume (setMasterVolume e volume) = volume.
Proof.
  intros (Hinit & ctx & master & Hctx & Hmaster & Hmg & Hfo & Hobj & Hvo
          & Hto & Hnd & Hinj).
  unfold setMasterVolume.
  cbn [with_masterVolume masterGain audioContext].
  rewrite Hmaster, Hctx.
  split; [| reflexivity].
  split; [exact Hinit |].
  exists (onGain master (setValue volume) ctx), master.
  cbn [with_context with_masterVolume audioContext masterGain masterVolume
       fundamentalOsc objects voices timeouts].
  assert (Hosc : forall r, nodeIs startedOscillatorNode ctx r ->
                           nodeIs startedOscillatorNode
                             (onGain master (setValue volume) ctx) r).
  { intros r. apply nodeIs_updateNode. intros [k outs] _.
    unfold startedOscillatorNode. cbn [kind]. destruct k; cbn [kind]; auto. }
  split; [reflexivity |]. split; [exact Hmaster |].
  split.
  { destruct Hmg as (n & Hn & Hg).
    unfold nodeIs, onGain, updateNode, getNode in *. cbn [nodes].
    rewrite nth_error_updateNth, Nat.eqb_refl, Hn. cbn [option_map].
    eexists. split; [reflexivity |].
    destruct n as [k outs]. unfold gainNodeOf in *. cbn [kind] in *.
    destruct k; try contradiction. reflexivity. }
  split; [intros osc Ho; apply Hosc, Hfo, Ho |].
  split; [| split; [assumption | split; [assumption | split; assumption]]].
  eapply Forall_impl; [| exact Hobj]. intros vo. apply Hosc.
Qed.

Lemma ready_releaseAll (ids : list string) :
  forall e : t,
    engineReady e ->
    exists e',
      releaseAll ids e = Js.Normal e'
      /\ engineReady e'
      /\ masterVolume e' = masterVolume e
      /\ voices e' = voices e.
Proof.
  induction ids as [| id ids IH]; intros e Hready.
  - exists e. split; [reflexivity |].
    split; [exact Hready | split; reflexivity].
  - destruct (ready_releaseVoice e id (Some 0.1) Hready)
      as (e1 & Hrun1 & Hready1 & Hmv1 & Hv1).
    destruct (IH e1 Hready1) as (e2 & Hrun2 & Hready2 & Hmv2 & Hv2).
    exists e2. cbn [releaseAll]. rewrite Hrun1. cbn [Js.bind].
    split; [exact Hrun2 |]. split; [exact Hready2 |].
    split; congruence.
Qed.

Lemma ready_destroy (e : t) :
  engineReady e ->
  exists e',
    destroy e = Js.Normal e'
    /\ engineReady e'
    /\ masterVolume e' = masterVolume e.
Proof.
  intros Hready. unfold destroy.
  destruct (ready_releaseAll (Js.Map.keys (voices e)) e Hready)
    as (e1 & Hrun1 & Hready1 & Hmv1 & _).
  rewrite Hrun1. cbn [Js.bind].
  assert (Hstep :
    exists e2,
      match fundamentalOsc e1 with
      | Some osc =>
          ctx <- theContext e1 ;;
          ctx' <- stop osc ctx ;;
          Js.Normal (with_context ctx' e1)
      | None => Js.Normal e1
      end = Js.Normal e2
      /\ engineReady e2 /\ masterVolume e2 = masterVolume e1).
  { destruct (fundamentalOsc e1) as [osc |] eqn:Hosc.
    - destruct Hready1 as (Hinit & ctx & master & Hctx & Hmaster & Hmg & Hfo
                           & Hobj & Hvo & Hto & Hnd & Hinj).
      destruct (stop_started osc ctx (Hfo osc Hosc))
        as (ctx' & Hstop & Hkeep).
      unfold theContext. rewrite Hctx. cbn [Js.bind]. rewrite Hstop.
      cbn [Js.bind]. eexists. split; [reflexivity |].
      split; [| reflexivity].
      apply (ready_with_context e1 ctx); [| exact Hctx | exact Hkeep].
      split; [exact Hinit |]. exists ctx, master.
      repeat (split; [assumption |]). assumption.
    - exists e1. split; [reflexivity |]. split; [exact Hready1 | reflexivity]. }
  destruct Hstep as (e2 & Hrun2 & Hready2 & Hmv2).
  rewrite Hrun2. cbn [Js.bind].
  destruct (audioContext e2) as [ctx |] eqn:Hctx.
  - eexists. split; [reflexivity |]. split.
    + apply (ready_with_context e2 ctx);
        [exact Hready2 | exact Hctx | apply graphKeeps_close].
    + cbn [with_context masterVolume]. congruence.
  - exists e2. split; [reflexivity |]. split; [exact Hready2 | congruence].
Qed.

Lemma ready_init (e : t) (rate : nat) (rnd : Js.RandomSource) :
  engineReady e -> init e rate rnd = (e, rnd).
Proof.
  intros (Hinit & _). unfold init. now rewrite Hinit.
Qed.

Lemma idle_init (e : t) (rate : nat) (rnd : Js.RandomSource) :
  engineIdle e ->
  engineReady (fst (init e rate rnd))
  /\ masterVolume (fst (init e rate rnd)) = masterVolume e.
Proof.
  intros (Hinit & Hctx & Hmaster & Hfo & Hvo & Hobj & Hto).
  destruct e as [ac mg rv vs fu mv ii co fo fg ob ti].
  cbn [isInitialized audioContext masterGain fundamentalOsc voices objects
       timeouts] in *.
  subst. split; [| reflexivity].
  unfold engineReady, nodeIs. run_code.
  split; [reflexivity |].
  eexists. eexists.
  split; [reflexivity |]. split; [reflexivity |].
  split; [eexists; split; [reflexivity | reflexivity] |].
  split.
  { intros osc [= <-]. eexists. split; [reflexivity | exact I]. }
  split; [constructor |]. split; [constructor |].
  split; [constructor |]. split; constructor.
Qed.

Lemma ready_step (e : t) (rnd : Js.RandomSource) (c : EngineCall) :
  engineReady e ->
  exists st',
    runEngineCall (e, rnd) c = Js.Normal st'
    /\ engineReady (fst st')
    /\ masterVolume (fst st') = volumeStep (masterVolume e) c.
Proof.
  intros Hready.
  destruct c as [rate | id ratio | id a time | id fade | freq time | volume
                 | k |]; cbn [runEngineCall fst snd volumeStep].
  - rewrite (ready_init e rate rnd Hready).
    eexists. split; [reflexivity |]. split; [exact Hready | reflexivity].
  - destruct (ready_createVoice e id ratio Hready) as (v & e' & Hrun & H & Hm).
    rewrite Hrun. cbn [Js.bind snd]. eexists. split; [reflexivity |].
    split; assumption.
  - destruct (ready_setVoiceAmplitude e id a time Hready)
      as (e' & Hrun & H & Hm).
    rewrite Hrun. cbn [Js.bind]. eexists. split; [reflexivity |].
    split; assumption.
  - destruct (ready_releaseVoice e id fade Hready)
      as (e' & Hrun & H & Hm & _).
    rewrite Hrun. cbn [Js.bind]. eexists. split; [reflexivity |].
    split; assumption.
  - destruct (ready_setFundamental e freq time Hready)
      as (e' & Hrun & H & Hm).
    rewrite Hrun. cbn [Js.bind]. eexists. split; [reflexivity |].
    split; assumption.
  - destruct (ready_setMasterVolume e volume Hready) as [H Hm].
    eexists. split; [reflexivity |]. split; assumption.
  - destruct (ready_fireTimeout e k Hready) as (e' & Hrun & H & Hm & _).
    rewrite Hrun. cbn [Js.bind]. eexists. split; [reflexivity |].
    split; assumption.
  - destruct (ready_destroy e Hready) as (e' & Hrun & H & Hm).
    rewrite Hrun. cbn [Js.bind]. eexists. split; [reflexivity |].
    split; assumption.
Qed.

Lemma ready_session (cs : list EngineCall) :
  forall (e : t) (rnd : Js.RandomSource),
    engineReady e ->
    exists st',
      runEngineCalls (e, rnd) cs = Js.Normal st'
      /\ engineReady (fst st')
      /\ masterVolume (fst st') = volumeAfter (masterVolume e) cs.
Proof.
  induction cs as [| c cs IH]; intros e rnd Hready.
  - exists (e, rnd). split; [reflexivity |].
    split; [exact Hready | reflexivity].
  - destruct (ready_step e rnd c Hready) as ([e1 rnd1] & Hrun1 & H1 & Hm1).
    cbn [fst] in *.
    destruct (IH e1 rnd1 H1) as (st' & Hrun & H & Hm).
    exists st'. cbn [runEngineCalls]. rewrite Hrun1. cbn [Js.bind].
    split; [exact Hrun |]. split; [exact H |].
    rewrite Hm, Hm1. reflexivity.
Qed.

Lemma idle_step (e : t) (rnd : Js.RandomSource) (c : EngineCall)
    (st' : t * Js.RandomSource) :
  engineIdle e ->
  runEngineCall (e, rnd) c = Js.Normal st' ->
  (engineIdle (fst st') \/ engineReady (fst st'))
  /\ masterVolume (fst st') = volumeStep (masterVolume e) c.
Proof.
  intros Hidle.
  pose proof Hidle as (Hinit & Hctx & Hmaster & Hfo & Hvo & Hobj & Hto).
  destruct c as [rate | id ratio | id a time | id fade | freq time | volume
                 | k |]; cbn [runEngineCall fst snd volumeStep].
  - intros [= <-]. destruct (idle_init e rate rnd Hidle) as [H Hm].
    split; [right; exact H | exact Hm].
  - unfold createVoice, Js.Map.has, theContext.
    rewrite Hvo, Hctx. cbn [Js.Map.get Js.bind]. discriminate.
  - unfold setVoiceAmplitude. rewrite Hvo. cbn [Js.Map.get Js.bind].
    intros [= <-]. split; [left; exact Hidle | reflexivity].
  - unfold releaseVoice. rewrite Hvo. cbn [Js.Map.get Js.bind].
    intros [= <-]. split; [left; exact Hidle | reflexivity].
  - unfold setFundamental, theContext.
    cbn [with_fundamental audioContext]. rewrite Hctx. cbn [Js.bind].
    discriminate.
  - unfold setMasterVolume. cbn [with_masterVolume masterGain audioContext].
    rewrite Hmaster. intros [= <-]. cbn [fst].
    split; [left | reflexivity].
    repeat (split; [assumption |]). assumption.
  - unfold fireTimeout. rewrite Hto.
    replace (nth_error (@nil Timeout) k) with (@None Timeout)
      by (destruct k; reflexivity).
    cbn [Js.bind]. intros [= <-]. split; [left; exact Hidle | reflexivity].
  - unfold destroy. rewrite Hvo. cbn [Js.Map.keys map releaseAll Js.bind].
    rewrite Hfo. cbn [Js.bind]. rewrite Hctx.
    intros [= <-]. split; [left; exact Hidle | reflexivity].
Qed.

Lemma sound_session (cs : list EngineCall) :
  forall (e : t) (rnd : Js.RandomSource) (st' : t * Js.RandomSource),
    engineIdle e \/ engineReady e ->
    runEngineCalls (e, rnd) cs = Js.Normal st' ->
    (engineIdle (fst st') \/ engineReady (fst st'))
    /\ masterVolume (fst st') = volumeAfter (masterVolume e) cs.
Proof.
  induction cs as [| c cs IH]; intros e rnd st' Hsound Hrun.
  - injection Hrun as <-. split; [exact Hsound | reflexivity].
  - cbn [runEngineCalls] in Hrun.
    destruct Hsound as [Hidle | Hready].
    + destruct (runEngineCall (e, rnd) c) as [[e1 rnd1] | err] eqn:Hstep;
        [| discriminate].
      cbn [Js.bind] in Hrun.
      destruct (idle_step e rnd c (e1, rnd1) Hidle Hstep) as [H1 Hm1].
      cbn [fst] in *.
      destruct (IH e1 rnd1 st' H1 Hrun) as [H Hm].
      split; [exact H |]. rewrite Hm, Hm1. reflexivity.
    + destruct (ready_session (c :: cs) e rnd Hready)
        as (st2 & Hrun2 & H2 & Hm2).
      cbn [runEngineCalls] in Hrun2. rewrite Hrun in Hrun2.
      injection Hrun2 as <-. split; [right; exact H2 | exact Hm2].
Qed.

Lemma new_idle : engineIdle HarmonicEngine.new.
Proof.
  repeat split.
Qed.

End EngineSteps.

(** X21.  Once [init] has run on a new engine, no sequence of [init],
    [createVoice], [setVoiceAmplitude], [releaseVoice], [setFundamental],
    [setMasterVolume] and [destroy] calls and of timer callbacks run by
    the host, in any order and with any arguments, throws for a missing
    context, node or voice object ([TypeError]) or for stopping an
    oscillator that was not started ([InvalidStateError]); and the engine
    keeps its context and master gain, every voice object's oscillator
    stays started, and the voice map and the pending timers only refer to
    voice objects that exist.  The [RangeError] the API raises for a ramp
    to 0 or a negative time depends on the arguments and is not among the
    exceptions of [WebAudio]; [engineInRange] covers it for the
    application. *)
Theorem initialised_engine_never_throws (rate : nat) (rnd : Js.RandomSource)
    (cs : list EngineCall) :
  exists st',
    runEngineCalls (HarmonicEngine.init HarmonicEngine.new rate rnd) cs
    = Js.Normal st'
    /\ engineReady (fst st').
Proof.
  destruct (idle_init HarmonicEngine.new rate rnd new_idle) as [Hready _].
  destruct (HarmonicEngine.init HarmonicEngine.new rate rnd) as [e rnd'].
  cbn [fst] in Hready.
  destruct (ready_session cs e rnd' Hready) as (st' & Hrun & H & _).
  exists st'. split; assumption.
Qed.

(** X22.  In a session on a new engine that completes, the master volume
    field is the argument of the last [setMasterVolume] call (0.4 when
    there was none), and from [init] on the value of the master gain node
    is that volume, whether the volume was set before or after [init]. *)
Theorem master_gain_tracks_volume (rnd : Js.RandomSource)
    (cs : list EngineCall) (st' : HarmonicEngine.t * Js.RandomSource) :
  runEngineCalls (HarmonicEngine.new, rnd) cs = Js.Normal st' ->
  HarmonicEngine.masterVolume (fst st') = volumeAfter 0.4 cs
  /\ (HarmonicEngine.isInitialized (fst st') = true ->
      exists ctx master,
        HarmonicEngine.audioContext (fst st') = Some ctx
        /\ HarmonicEngine.masterGain (fst st') = Some master
        /\ WebAudio.gainValue master ctx = volumeAfter 0.4 cs).
Proof.
  intros Hrun.
  destruct (sound_session cs HarmonicEngine.new rnd st' (or_introl new_idle)
              Hrun) as [Hsound Hm].
  change (HarmonicEngine.masterVolume HarmonicEngine.new) with 0.4 in Hm.
  split; [exact Hm |].
  intros Hinit.
  destruct Hsound as [(Hidle & _) | (_ & ctx & master & Hctx & Hmaster & Hmg
                                     & _)].
  - rewrite Hidle in Hinit. discriminate.
  - exists ctx, master. split; [exact Hctx |]. split; [exact Hmaster |].
    destruct Hmg as (n & Hn & Hg).
    unfold WebAudio.gainValue. rewrite Hn.
    destruct n as [k outs]. unfold gainNodeOf in Hg.
    cbn [WebAudio.kind] in Hg.
    destruct k; try contradiction. rewrite Hg. exact Hm.
Qed.

(** The statement for a session that sets the volume to 0.7 before
    [init] and to 0.2 after a voice was created. *)
Lemma master_gain_tracks_volume_witness :
  HarmonicEngine.masterVolume (fst volumeSessionEnd)
  = volumeAfter 0.4 volumeSession
  /\ (HarmonicEngine.isInitialized (fst volumeSessionEnd) = true ->
      exists ctx master,
        HarmonicEngine.audioContext (fst volumeSessionEnd) = Some ctx
        /\ HarmonicEngine.masterGain (fst volumeSessionEnd) = Some master
        /\ WebAudio.gainValue master ctx = volumeAfter 0.4 volumeSession).
Proof.
  apply (master_gain_tracks_volume evenDraws volumeSession volumeSessionEnd).
  run_code. reflexivity.
Defined.

(** X23.  On an engine on which [init] has not run, [createVoice] and
    [setFundamental] throw a [TypeError], with any arguments, while
    [destroy] completes and leaves the engine as it is. *)
Theorem uninitialised_engine_rejects_voices (e : HarmonicEngine.t)
    (id : string) (ratio freq : R) (time : option R) :
  engineIdle e ->
  HarmonicEngine.createVoice e id ratio = Js.Throw Js.TypeError
  /\ HarmonicEngine.setFundamental e freq time = Js.Throw Js.TypeError
  /\ HarmonicEngine.destroy e = Js.Normal e.
Proof.
  intros (Hinit & Hctx & Hmaster & Hfo & Hvo & Hobj & Hto).
  split; [| split].
  - unfold HarmonicEngine.createVoice, Js.Map.has, HarmonicEngine.theContext.
    rewrite Hvo, Hctx. reflexivity.
  - unfold HarmonicEngine.setFundamental, HarmonicEngine.theContext.
    cbn [HarmonicEngine.with_fundamental HarmonicEngine.audioContext].
    rewrite Hctx. reflexivity.
  - unfold HarmonicEngine.destroy. rewrite Hvo.
    cbn [Js.Map.keys map HarmonicEngine.releaseAll Js.bind].
    rewrite Hfo. cbn [Js.bind]. rewrite Hctx. reflexivity.
Qed.

(** The statement for [new HarmonicEngine()]. *)
Lemma uninitialised_engine_rejects_voices_witness :
  HarmonicEngine.createVoice HarmonicEngine.new "prime_7" 3.5
  = Js.Throw Js.TypeError
  /\ HarmonicEngine.setFundamental HarmonicEngine.new 220 None
     = Js.Throw Js.TypeError
  /\ HarmonicEngine.destroy HarmonicEngine.new
     = Js.Normal HarmonicEngine.new.
Proof.
  apply (uninitialised_engine_rejects_voices HarmonicEngine.new "prime_7"
           3.5 220 None).
  repeat split.
Defined.

Section VoiceGain.
Import WebAudio HarmonicEngine.

Lemma getNode_updateNode_same (r : NodeRef) (f : Node -> Node)
    (ctx : AudioContext) (n : Node) :
  getNode r ctx = Some n -> getNode r (updateNode r f ctx) = Some (f n).
Proof.
  intros Hn. unfold getNode, updateNode in *. cbn [nodes].
  now rewrite nth_error_updateNth, Nat.eqb_refl, Hn.
Qed.



End VoiceGain.





Section Retuning.
Import WebAudio HarmonicEngine.

Lemma Map_get_In_key {V : Type} (m : Js.Map.t V) (k : string) (v : V) :
  Js.Map.get m k = Some v -> In (k, v) m.
Proof.
  induction m as [| [k0 v0] m IH]; simpl; [discriminate |].
  destruct (String.eqb k0 k) eqn:Hk.
  - apply String.eqb_eq in Hk. subst k0. intros [= <-]. now left.
  - intros Hget. right. now apply IH.
Qed.




End Retuning.


Section ConcreteEngines.
Import WebAudio HarmonicEngine.

Lemma readyEngine_ready : engineReady readyEngine.
Proof.
  rewrite readyEngine_run. apply idle_init. apply new_idle.
Qed.

Lemma engineWithThird_ready : engineReady engineWithThird.
Proof.
  destruct (ready_createVoice readyEngine "prime_3" 3 readyEngine_ready)
    as (v & e' & Hrun & Hready & _).
  assert (Hrun' : createVoice readyEngine "prime_3" 3
                  = Js.Normal (0%nat, engineWithThird))
    by (run_code; reflexivity).
  rewrite Hrun' in Hrun. injection Hrun as _ <-. exact Hready.
Qed.

End ConcreteEngines.


Section Shutdown.
Import WebAudio HarmonicEngine.

Lemma releaseVoice_known (e : t) (id : string) (fade : option R)
    (v : VoiceRef) :
  engineReady e ->
  Js.Map.get (voices e) id = Some v ->
  exists e',
    releaseVoice e id fade = Js.Normal e'
    /\ engineReady e'
    /\ voices e' = voices e
    /\ timeouts e'
       = timeouts e ++ [mkTimeout (orDefault 0.5 fade * 1000 + 100) v id]
    /\ fundamentalOsc e' = fundamentalOsc e.
Proof.
  intros Hready Hget.
  destruct (ready_releaseVoice e id fade Hready)
    as (e' & Hrun & Hready' & _ & Hv).
  exists e'. split; [exact Hrun |]. split; [exact Hready' |].
  split; [exact Hv |].
  pose proof (ready_voice_bound e id v Hready Hget) as Hlt.
  destruct (ready_deref e v Hready Hlt) as (vo & ctx & Hderef & Hctx & _).
  unfold releaseVoice in Hrun. rewrite Hget in Hrun.
  unfold theContext in Hrun. rewrite Hctx in Hrun. cbn [Js.bind] in Hrun.
  rewrite Hderef in Hrun. cbn [Js.bind] in Hrun.
  injection Hrun as <-. split; reflexivity.
Qed.

Lemma releaseAll_known (ids : list string) :
  forall e : t,
    engineReady e ->
    (forall id, In id ids -> Js.Map.get (voices e) id <> None) ->
    exists e' timers,
      releaseAll ids e = Js.Normal e'
      /\ engineReady e'
      /\ voices e' = voices e
      /\ timeouts e' = timeouts e ++ timers
      /\ map voiceId timers = ids
      /\ Forall (fun cb => delay cb = 0.1 * 1000 + 100) timers
      /\ fundamentalOsc e' = fundamentalOsc e.
Proof.
  induction ids as [| id ids IH]; intros e Hready Hknown.
  - exists e, []. rewrite app_nil_r.
    repeat (split; [reflexivity || assumption || constructor |]).
    reflexivity.
  - destruct (Js.Map.get (voices e) id) as [v |] eqn:Hget;
      [| exfalso; apply (Hknown id); [now left | exact Hget]].
    destruct (releaseVoice_known e id (Some 0.1) v Hready Hget)
      as (e1 & Hrun1 & Hready1 & Hv1 & Ht1 & Hf1).
    destruct (IH e1 Hready1) as (e2 & timers & Hrun2 & Hready2 & Hv2 & Ht2
                                 & Hids & Hdelay & Hf2).
    { intros id' Hin. rewrite Hv1. apply Hknown. now right. }
    exists e2, (mkTimeout (0.1 * 1000 + 100) v id :: timers).
    cbn [releaseAll]. rewrite Hrun1. cbn [Js.bind].
    split; [exact Hrun2 |]. split; [exact Hready2 |].
    split; [congruence |].
    split.
    { rewrite Ht2, Ht1. cbn [orDefault]. rewrite <- app_assoc. reflexivity. }
    split; [cbn [map voiceId]; now rewrite Hids |].
    split; [constructor; [reflexivity | exact Hdelay] | congruence].
Qed.

Lemma stop_isStopped (r : NodeRef) (ctx ctx' : AudioContext) :
  stop r ctx = Js.Normal ctx' ->
  isStopped r ctx' = true /\ closed ctx' = closed ctx.
Proof.
  unfold stop. destruct (getNode r ctx) as [[k outs] |] eqn:Hn;
    [| discriminate].
  destruct k as [| g | ty fq st sp | b | ? ? ? ? ?]; try discriminate.
  destruct st; [| discriminate].
  intros [= <-]. split; [| reflexivity].
  unfold isStopped.
  rewrite (getNode_updateNode_same r _ ctx _ Hn). reflexivity.
Qed.

Lemma keys_delete_notin {V : Type} (m : Js.Map.t V) (k : string) :
  NoDup (Js.Map.keys m) -> ~ In k (Js.Map.keys (Js.Map.delete m k)).
Proof.
  induction m as [| [k0 v0] m IH]; simpl; [auto |].
  intros Hnd. inversion Hnd as [| ? ? Hk0 Hm]; subst.
  destruct (String.eqb k0 k) eqn:Hk.
  - apply String.eqb_eq in Hk. now subst k0.
  - apply String.eqb_neq in Hk. simpl. intros [Heq | Hin];
      [contradiction | now apply IH in Hin].
Qed.

Lemma fireAll_empties (n : nat) :
  forall e : t,
    engineReady e ->
    List.length (timeouts e) = n ->
    (forall id, In id (Js.Map.keys (voices e)) ->
                In id (map voiceId (timeouts e))) ->
    exists e',
      fireAll n e = Js.Normal e' /\ voices e' = [] /\ timeouts e' = [].
Proof.
  induction n as [| n IH]; intros e Hready Hlen Hcover.
  - exists e. split; [reflexivity |].
    destruct (timeouts e) as [| cb rest] eqn:Ht; [| discriminate].
    split; [| reflexivity].
    destruct (voices e) as [| [k v] m]; [reflexivity |].
    exfalso. apply (Hcover k). now left.
  - destruct (timeouts e) as [| cb rest] eqn:Ht; [discriminate |].
    destruct (ready_fireTimeout e 0 Hready) as (e1 & Hrun & Hready1 & _ & Heff).
    destruct (Heff cb) as [Ht1 Hv1]; [rewrite Ht; reflexivity |].
    rewrite Ht in Ht1. cbn [removeNth] in Ht1.
    destruct (IH e1 Hready1) as (e2 & Hrun2 & Hv2 & Ht2).
    + rewrite Ht1. cbn [List.length] in Hlen. lia.
    + intros id Hin. rewrite Hv1 in Hin. rewrite Ht1.
      pose proof (keys_delete_In _ _ _ Hin) as Hin0.
      apply Hcover in Hin0. cbn [map] in Hin0.
      destruct Hin0 as [Heq | Hrest]; [| exact Hrest].
      exfalso. subst id.
      destruct Hready as (_ & ctx & master & _ & _ & _ & _ & _ & _ & _ & Hnd & _).
      exact (keys_delete_notin _ _ Hnd Hin).
    + exists e2. cbn [fireAll]. rewrite Hrun. cbn [Js.bind].
      split; [exact Hrun2 |]. split; assumption.
Qed.

End Shutdown.

(** X27.  On an initialised engine [destroy()] completes: it closes the
    context, stops the drone and registers one timer of 200 ms for each
    id of the voice map, in the order of the map, behind the timers that
    were pending; the voice map itself is not touched by [destroy].  Once
    the host has run all pending timers, the voice map and the timer
    queue are empty. *)
Theorem destroy_then_timers_empty_the_voice_map (e : HarmonicEngine.t) :
  engineReady e ->
  exists e1 ctx1 timers,
    HarmonicEngine.destroy e = Js.Normal e1
    /\ HarmonicEngine.audioContext e1 = Some ctx1
    /\ WebAudio.closed ctx1 = true
    /\ (forall osc, HarmonicEngine.fundamentalOsc e = Some osc ->
                    WebAudio.isStopped osc ctx1 = true)
    /\ HarmonicEngine.voices e1 = HarmonicEngine.voices e
    /\ HarmonicEngine.timeouts e1 = HarmonicEngine.timeouts e ++ timers
    /\ map HarmonicEngine.voiceId timers
       = Js.Map.keys (HarmonicEngine.voices e)
    /\ Forall (fun cb => HarmonicEngine.delay cb = 0.1 * 1000 + 100) timers
    /\ exists e2,
         fireAll (List.length (HarmonicEngine.timeouts e1)) e1 = Js.Normal e2
         /\ HarmonicEngine.voices e2 = []
         /\ HarmonicEngine.timeouts e2 = [].
Proof.
  intros Hready.
  destruct (releaseAll_known (Js.Map.keys (HarmonicEngine.voices e)) e Hready)
    as (e1 & timers & Hrun1 & Hready1 & Hv1 & Ht1 & Hids & Hdelay & Hf1).
  { intros id Hin Hnone. apply Map_get_keys in Hnone. contradiction. }
  pose proof Hready1 as (Hinit & ctx & master & Hctx & Hmaster & Hmg & Hfo
                         & Hobj & Hvo & Hto & Hnd & Hinj).
  assert (Hstep :
    exists ctx2,
      graphKeeps ctx ctx2
      /\ match HarmonicEngine.fundamentalOsc e1 with
         | Some osc =>
             ctx0 <- HarmonicEngine.theContext e1 ;;
             ctx' <- WebAudio.stop osc ctx0 ;;
             Js.Normal (HarmonicEngine.with_context ctx' e1)
         | None => Js.Normal e1
         end = Js.Normal (HarmonicEngine.with_context ctx2 e1)
      /\ forall osc, HarmonicEngine.fundamentalOsc e1 = Some osc ->
                     WebAudio.isStopped osc ctx2 = true).
  { destruct (HarmonicEngine.fundamentalOsc e1) as [osc |] eqn:Hosc.
    - destruct (stop_started osc ctx (Hfo osc eq_refl))
        as (ctx' & Hstop & Hkeep).
      exists ctx'. split; [exact Hkeep |].
      unfold HarmonicEngine.theContext. rewrite Hctx. cbn [Js.bind].
      rewrite Hstop. cbn [Js.bind]. split; [reflexivity |].
      intros osc' [= <-]. apply (stop_isStopped _ _ _ Hstop).
    - exists ctx. split; [apply graphKeeps_refl |].
      split; [| discriminate].
      destruct e1; cbn in Hctx |- *. now rewrite Hctx. }
  destruct Hstep as (ctx2 & Hkeep & Hrun2 & Hstopped).
  set (e3 := HarmonicEngine.with_context (WebAudio.close ctx2) e1).
  assert (Hready3 : engineReady e3).
  { apply (ready_with_context e1 ctx); [exact Hready1 | exact Hctx |].
    eapply graphKeeps_trans; [exact Hkeep | apply graphKeeps_close]. }
  exists e3, (WebAudio.close ctx2), timers.
  split.
  { unfold HarmonicEngine.destroy. rewrite Hrun1. cbn [Js.bind].
    rewrite Hrun2. cbn [Js.bind HarmonicEngine.with_context
                        HarmonicEngine.audioContext].
    reflexivity. }
  split; [reflexivity |]. split; [reflexivity |].
  split.
  { intros osc Hosc. rewrite <- Hf1 in Hosc.
    unfold WebAudio.isStopped, WebAudio.getNode, WebAudio.close.
    cbn [WebAudio.nodes]. apply (Hstopped osc Hosc). }
  split; [exact Hv1 |]. split; [exact Ht1 |]. split; [exact Hids |].
  split; [exact Hdelay |].
  apply (fireAll_empties (List.length (HarmonicEngine.timeouts e3)) e3 Hready3
           eq_refl).
  intros id Hin.
  change (HarmonicEngine.voices e3) with (HarmonicEngine.voices e1) in Hin.
  change (HarmonicEngine.timeouts e3) with (HarmonicEngine.timeouts e1).
  rewrite Hv1 in Hin. rewrite Ht1, map_app, Hids.
  apply in_or_app. now right.
Qed.

(** The statement for an initialised engine with one voice. *)
Lemma destroy_then_timers_empty_the_voice_map_witness :
  exists e1 ctx1 timers,
    HarmonicEngine.destroy engineWithThird = Js.Normal e1
    /\ HarmonicEngine.audioContext e1 = Some ctx1
    /\ WebAudio.closed ctx1 = true
    /\ (forall osc,
          HarmonicEngine.fundamentalOsc engineWithThird = Some osc ->
          WebAudio.isStopped osc ctx1 = true)
    /\ HarmonicEngine.voices e1 = HarmonicEngine.voices engineWithThird
    /\ HarmonicEngine.timeouts e1
       = HarmonicEngine.timeouts engineWithThird ++ timers
    /\ map HarmonicEngine.voiceId timers
       = Js.Map.keys (HarmonicEngine.voices engineWithThird)
    /\ Forall (fun cb => HarmonicEngine.delay cb = 0.1 * 1000 + 100) timers
    /\ exists e2,
         fireAll (List.length (HarmonicEngine.timeouts e1)) e1 = Js.Normal e2
         /\ HarmonicEngine.voices e2 = []
         /\ HarmonicEngine.timeouts e2 = [].
Proof.
  apply (destroy_then_timers_empty_the_voice_map engineWithThird).
  apply engineWithThird_ready.
Defined.

(* ================================================================== *)
(** * The application as a whole *)
(* ================================================================== *)

Section EngineFrame.
Import WebAudio HarmonicEngine.

Lemma createVoice_fundamental (e e' : t) (id : string) (ratio : R)
    (v : VoiceRef) :
  createVoice e id ratio = Js.Normal (v, e') ->
  fundamental e' = fundamental e.
Proof.
  unfold createVoice. destruct (Js.Map.has (voices e) id).
  - destruct (Js.Map.get (voices e) id); [| discriminate].
    intros [= _ <-]. reflexivity.
  - unfold theContext. destruct (audioContext e); [| discriminate].
    cbn [Js.bind]. unfold createOscillator, createGain, createNode.
    destruct (masterGain e); [| discriminate].
    intros [= _ <-]. reflexivity.
Qed.

Lemma setVoiceAmplitude_fundamental (e e' : t) (id : string) (a : R)
    (time : option R) :
  setVoiceAmplitude e id a time = Js.Normal e' ->
  fundamental e' = fundamental e.
Proof.
  unfold setVoiceAmplitude.
  destruct (Js.Map.get (voices e) id); [| intros [= <-]; reflexivity].
  unfold theContext. destruct (audioContext e); [| discriminate].
  cbn [Js.bind]. unfold deref.
  destruct (nth_error (objects e) v); [| discriminate].
  cbn [Js.bind]. intros [= <-]. reflexivity.
Qed.

Lemma releaseVoice_fundamental (e e' : t) (id : string) (fade : option R) :
  releaseVoice e id fade = Js.Normal e' ->
  fundamental e' = fundamental e.
Proof.
  unfold releaseVoice.
  destruct (Js.Map.get (voices e) id); [| intros [= <-]; reflexivity].
  unfold theContext. destruct (audioContext e); [| discriminate].
  cbn [Js.bind]. unfold deref.
  destruct (nth_error (objects e) v); [| discriminate].
  cbn [Js.bind]. intros [= <-]. reflexivity.
Qed.

Lemma fireTimeout_fundamental (e e' : t) (k : nat) :
  fireTimeout e k = Js.Normal e' ->
  fundamental e' = fundamental e.
Proof.
  unfold fireTimeout.
  destruct (nth_error (timeouts e) k) as [cb |];
    [| intros [= <-]; reflexivity].
  unfold decommission, deref. cbn [objects with_timeouts].
  destruct (nth_error (objects e) (voice cb)); [| discriminate].
  cbn [Js.bind]. unfold theContext. cbn [audioContext with_timeouts].
  destruct (audioContext e); [| discriminate].
  cbn [Js.bind]. destruct (stop (oscillator v) a); [| discriminate].
  cbn [Js.bind]. intros [= <-]. reflexivity.
Qed.

Lemma releaseAll_fundamental (ids : list string) :
  forall e e' : t,
    releaseAll ids e = Js.Normal e' -> fundamental e' = fundamental e.
Proof.
  induction ids as [| id ids IH]; intros e e'; cbn [releaseAll].
  - intros [= <-]. reflexivity.
  - destruct (releaseVoice e id (Some 0.1)) as [e1 | err] eqn:Hrel;
      [| discriminate].
    cbn [Js.bind]. intros Hrun.
    rewrite (IH _ _ Hrun). now apply releaseVoice_fundamental in Hrel.
Qed.

Lemma destroy_fundamental (e e' : t) :
  destroy e = Js.Normal e' -> fundamental e' = fundamental e.
Proof.
  unfold destroy.
  destruct (releaseAll (Js.Map.keys (voices e)) e) as [e1 | err] eqn:Hrel;
    [| discriminate].
  cbn [Js.bind]. apply releaseAll_fundamental in Hrel.
  destruct (fundamentalOsc e1).
  - unfold theContext. destruct (audioContext e1) as [ctx |] eqn:Hctx;
      [| discriminate].
    cbn [Js.bind]. destruct (stop n ctx); [| discriminate].
    cbn [Js.bind audioContext with_context].
    intros [= <-]. exact Hrel.
  - cbn [Js.bind]. destruct (audioContext e1); intros [= <-]; exact Hrel.
Qed.

Lemma setFundamental_fundamental (e e' : t) (freq : R) (time : option R) :
  setFundamental e freq time = Js.Normal e' -> fundamental e' = freq.
Proof.
  unfold setFundamental, theContext.
  cbn [audioContext with_fundamental].
  destruct (audioContext e); [| discriminate].
  cbn [Js.bind].
  match goal with
  | |- context [retune ?a ?b ?c ?d ?g] => destruct (retune a b c d g)
  end; [| discriminate].
  cbn [Js.bind]. intros [= <-]. reflexivity.
Qed.

Lemma init_fundamental (e : t) (rate : nat) (rnd : Js.RandomSource) :
  fundamental (fst (init e rate rnd)) = fundamental e.
Proof.
  destruct e as [ac mg rv vs fu mv ii co fo fg ob ti].
  unfold init. cbn [isInitialized]. destruct ii; [reflexivity |].
  run_code. reflexivity.
Qed.

End EngineFrame.

Ltac unchanged_state this :=
  exists this; split; [reflexivity |];
  split; [assumption || (split; assumption) |];
  split; [assumption | reflexivity].

Section AppSteps.
Import HarmonicDepths.

Lemma wellGenerated_setHarmonicAmplitude (s : HarmonicSpace.t) (id : string)
    (a : R) :
  wellGenerated s -> wellGenerated (HarmonicSpace.setHarmonicAmplitude s id a).
Proof.
  intros H.
  pose proof (wellGenerated_runCall (s, evenDraws)
                (CallSetHarmonicAmplitude id a) H) as H'.
  cbn [runCall fst snd] in H'. exact H'.
Qed.

Lemma wellGenerated_setDepth (s : HarmonicSpace.t) (d : R) :
  wellGenerated s -> wellGenerated (HarmonicSpace.setDepth s d).
Proof.
  intros H.
  pose proof (wellGenerated_runCall (s, evenDraws) (CallSetDepth d) H) as H'.
  cbn [runCall fst snd] in H'. exact H'.
Qed.

Lemma wellGenerated_update (s : HarmonicSpace.t) (dt : R) :
  wellGenerated s -> wellGenerated (HarmonicSpace.update s dt).
Proof.
  intros H.
  pose proof (wellGenerated_runCall (s, evenDraws) (CallUpdate dt) H) as H'.
  cbn [runCall fst snd] in H'. exact H'.
Qed.

Lemma wellGenerated_resize (s : HarmonicSpace.t) (w h : R)
    (rnd : Js.RandomSource) :
  wellGenerated s -> wellGenerated (fst (HarmonicSpace.resize s w h rnd)).
Proof.
  intros [Hshape Hdepth]. rewrite resize_spec. cbn [fst].
  split; [| exact Hdepth].
  cbn [HarmonicSpace.harmonics]. apply harmonicCarries_generated.
Qed.

Lemma ready_updateHarmonic (newAmplitudes : Js.Map.t R) (this : t)
    (id : string) :
  appInRange this ->
  engineReady (engine this) ->
  exists this',
    updateHarmonic newAmplitudes this id = Js.Normal this'
    /\ appInRange this'
    /\ engineReady (engine this')
    /\ isInitialized this' = isInitialized this.
Proof.
  intros [Hwg Hf] Hready. unfold updateHarmonic.
  destruct (Rgt_dec (orZero (Js.Map.get newAmplitudes id)) 0.01).
  - destruct (HarmonicSpace.getHarmonic (space this) id) as [hm |].
    + destruct (ready_createVoice (engine this) id (Harmonic.ratio hm) Hready)
        as (v & e1 & Hc & Hr1 & _).
      rewrite Hc. cbn [Js.bind snd].
      destruct (ready_setVoiceAmplitude e1 id
                  (orZero (Js.Map.get newAmplitudes id)) (Some 0.15) Hr1)
        as (e2 & Hs & Hr2 & _).
      rewrite Hs. cbn [Js.bind].
      eexists. split; [reflexivity |]. unfold appInRange.
      cbn [with_space with_activeHarmonics with_engine engine space
           isInitialized].
      split; [| split; [exact Hr2 | reflexivity]].
      split; [now apply wellGenerated_setHarmonicAmplitude |].
      rewrite (setVoiceAmplitude_fundamental _ _ _ _ _ Hs).
      rewrite (createVoice_fundamental _ _ _ _ _ Hc). exact Hf.
    + unchanged_state this.
  - destruct (Rgt_dec (orZero (Js.Map.get (activeHarmonics this) id)) 0.01).
    + destruct (ready_setVoiceAmplitude (engine this) id 0 (Some 0.3) Hready)
        as (e1 & Hs & Hr1 & _).
      rewrite Hs. cbn [Js.bind].
      eexists. split; [reflexivity |]. unfold appInRange.
      cbn [with_timeouts with_space with_activeHarmonics with_engine engine
           space isInitialized].
      split; [| split; [exact Hr1 | reflexivity]].
      split; [now apply wellGenerated_setHarmonicAmplitude |].
      rewrite (setVoiceAmplitude_fundamental _ _ _ _ _ Hs). exact Hf.
    + unchanged_state this.
Qed.

Lemma ready_updateHarmonics_loop (newAmplitudes : Js.Map.t R)
    (ids : list string) :
  forall this : t,
    appInRange this ->
    engineReady (engine this) ->
    exists this',
      updateHarmonics_loop newAmplitudes ids this = Js.Normal this'
      /\ appInRange this'
      /\ engineReady (engine this')
      /\ isInitialized this' = isInitialized this.
Proof.
  induction ids as [| id ids IH]; intros this Hin Hready.
  - unchanged_state this.
  - destruct (ready_updateHarmonic newAmplitudes this id Hin Hready)
      as (this1 & Hrun1 & Hin1 & Hready1 & Hi1).
    destruct (IH this1 Hin1 Hready1) as (this2 & Hrun2 & Hin2 & Hready2 & Hi2).
    exists this2. cbn [updateHarmonics_loop]. rewrite Hrun1. cbn [Js.bind].
    split; [exact Hrun2 |]. split; [exact Hin2 |]. split; [exact Hready2 |].
    congruence.
Qed.

Lemma ready_updateHarmonicsFromCursor (this : t) :
  appInRange this ->
  engineReady (engine this) ->
  exists this',
    updateHarmonicsFromCursor this = Js.Normal this'
    /\ appInRange this'
    /\ engineReady (engine this')
    /\ isInitialized this' = isInitialized this.
Proof.
  intros Hin Hready. unfold updateHarmonicsFromCursor.
  destruct (negb (isInitialized this)).
  - unchanged_state this.
  - now apply ready_updateHarmonics_loop.
Qed.

Lemma ready_syncVoice (visible : list string) (this : t)
    (entry : string * R) :
  appInRange this ->
  engineReady (engine this) ->
  exists this',
    syncVoice visible this entry = Js.Normal this'
    /\ appInRange this'
    /\ engineReady (engine this')
    /\ isInitialized this' = isInitialized this.
Proof.
  intros [Hwg Hf] Hready. destruct entry as [id amp]. cbn [syncVoice].
  destruct (negb (existsb (String.eqb id) visible));
    [| unchanged_state this].
  destruct (Rgt_dec amp 0); [| unchanged_state this].
  destruct (ready_setVoiceAmplitude (engine this) id 0 (Some 0.5) Hready)
    as (e1 & Hs & Hr1 & _).
  rewrite Hs. cbn [Js.bind].
  eexists. split; [reflexivity |]. unfold appInRange.
  cbn [with_timeouts with_space with_activeHarmonics with_engine engine
       space isInitialized].
  split; [| split; [exact Hr1 | reflexivity]].
  split; [now apply wellGenerated_setHarmonicAmplitude |].
  rewrite (setVoiceAmplitude_fundamental _ _ _ _ _ Hs). exact Hf.
Qed.

Lemma ready_syncVoices_loop (visible : list string)
    (entries : list (string * R)) :
  forall this : t,
    appInRange this ->
    engineReady (engine this) ->
    exists this',
      syncVoices_loop visible entries this = Js.Normal this'
      /\ appInRange this'
      /\ engineReady (engine this')
      /\ isInitialized this' = isInitialized this.
Proof.
  induction entries as [| entry entries IH]; intros this Hin Hready.
  - unchanged_state this.
  - destruct (ready_syncVoice visible this entry Hin Hready)
      as (this1 & Hrun1 & Hin1 & Hready1 & Hi1).
    destruct (IH this1 Hin1 Hready1) as (this2 & Hrun2 & Hin2 & Hready2 & Hi2).
    exists this2. cbn [syncVoices_loop]. rewrite Hrun1. cbn [Js.bind].
    split; [exact Hrun2 |]. split; [exact Hin2 |]. split; [exact Hready2 |].
    congruence.
Qed.

Lemma ready_release (this : t) (id : string) (fade : option R) :
  appInRange this ->
  engineReady (engine this) ->
  exists e,
    HarmonicEngine.releaseVoice (engine this) id fade = Js.Normal e
    /\ appInRange
         (with_activeHarmonics (Js.Map.delete (activeHarmonics this) id)
            (with_engine e this))
    /\ engineReady e.
Proof.
  intros [Hwg Hf] Hready.
  destruct (ready_releaseVoice (engine this) id fade Hready)
    as (e & Hrun & Hr & _).
  exists e. split; [exact Hrun |]. split; [| exact Hr].
  unfold appInRange. cbn [with_activeHarmonics with_engine engine space].
  split; [exact Hwg |].
  rewrite (releaseVoice_fundamental _ _ _ _ Hrun). exact Hf.
Qed.

Lemma ready_runTimeout (this : t) (cb : Timeout) :
  appInRange this ->
  engineReady (engine this) ->
  exists this',
    runTimeout this cb = Js.Normal this'
    /\ appInRange this'
    /\ engineReady (engine this')
    /\ isInitialized this' = isInitialized this.
Proof.
  intros Hin Hready. destruct cb as [id | id]; cbn [runTimeout].
  - destruct (Js.Map.get (activeHarmonics this) id) as [amp |];
      [| unchanged_state this].
    destruct (Req_dec_T amp 0) as [Hzero | Hnonzero];
      [| unchanged_state this].
    destruct (ready_release this id (Some 0.5) Hin Hready)
      as (e & Hrun & Hin' & Hr).
    rewrite Hrun. cbn [Js.bind]. eexists. split; [reflexivity |].
    split; [exact Hin' |]. split; [exact Hr | reflexivity].
  - destruct (ready_release this id (Some 0.3) Hin Hready)
      as (e & Hrun & Hin' & Hr).
    rewrite Hrun. cbn [Js.bind]. eexists. split; [reflexivity |].
    split; [exact Hin' |]. split; [exact Hr | reflexivity].
Qed.

Lemma ready_shiftFundamental (this : t) (direction : R) :
  appInRange this ->
  engineReady (engine this) ->
  exists this',
    shiftFundamental this direction = Js.Normal this'
    /\ appInRange this'
    /\ engineReady (engine this')
    /\ isInitialized this' = isInitialized this.
Proof.
  intros [Hwg Hf] Hready. unfold shiftFundamental.
  set (nf := HarmonicEngine.fundamental (engine this)
             * Rpower 2 (direction / 12)).
  destruct (Rge_dec nf 55) as [Hlo |];
    [| unchanged_state this].
  destruct (Rle_dec nf 440) as [Hhi |];
    [| unchanged_state this].
  destruct (ready_setFundamental (engine this) nf (Some 0.3) Hready)
    as (e & Hrun & Hr & _).
  rewrite Hrun. cbn [Js.bind]. eexists. split; [reflexivity |].
  unfold appInRange. cbn [with_engine engine space isInitialized].
  split; [| split; [exact Hr | reflexivity]].
  split; [exact Hwg |].
  rewrite (setFundamental_fundamental _ _ _ _ Hrun). lra.
Qed.

End AppSteps.

Section AppEvents.
Import HarmonicDepths.

Lemma ready_syncVoicesWithDepth (this : t) :
  appInRange this ->
  engineReady (engine this) ->
  exists this',
    syncVoicesWithDepth this = Js.Normal this'
    /\ appInRange this'
    /\ engineReady (engine this')
    /\ isInitialized this' = isInitialized this.
Proof.
  intros Hin Hready. unfold syncVoicesWithDepth.
  now apply ready_syncVoices_loop.
Qed.

Lemma idle_destroy (e : HarmonicEngine.t) :
  engineIdle e -> HarmonicEngine.destroy e = Js.Normal e.
Proof.
  intros (Hinit & Hctx & Hmaster & Hfo & Hvo & Hobj & Hto).
  unfold HarmonicEngine.destroy. rewrite Hvo.
  cbn [Js.Map.keys map HarmonicEngine.releaseAll Js.bind].
  rewrite Hfo. cbn [Js.bind]. rewrite Hctx. reflexivity.
Qed.

Lemma idle_fireTimeout (e : HarmonicEngine.t) (k : nat) :
  engineIdle e -> HarmonicEngine.fireTimeout e k = Js.Normal e.
Proof.
  intros (Hinit & Hctx & Hmaster & Hfo & Hvo & Hobj & Hto).
  unfold HarmonicEngine.fireTimeout. rewrite Hto.
  destruct k; reflexivity.
Qed.

Lemma render_completes (r : VisualRenderer.t) (s : HarmonicSpace.t)
    (dt : R) (rnd : Js.RandomSource) :
  exists st, VisualRenderer.render r s dt rnd = Js.Normal st.
Proof.
  unfold VisualRenderer.render. rewrite updateParticles_spec.
  cbn [Js.bind]. eexists. reflexivity.
Qed.

Lemma sound_initAudio (this : t) (rate : nat) (rnd : Js.RandomSource) :
  appSound this ->
  appInRange (fst (initAudio this rate rnd))
  /\ engineReady (engine (fst (initAudio this rate rnd)))
  /\ isInitialized (fst (initAudio this rate rnd)) = true.
Proof.
  intros [[Hwg Hf] [(Hinit & Hidle & Hto) | (Hinit & Hready)]];
    unfold initAudio; rewrite Hinit.
  - destruct (idle_init (engine this) rate rnd Hidle) as [Hready _].
    pose proof (init_fundamental (engine this) rate rnd) as Hfund.
    destruct (HarmonicEngine.init (engine this) rate rnd) as [e rnd'].
    cbn [fst] in *. unfold appInRange.
    cbn [with_isInitialized with_engine engine space isInitialized].
    split; [split; [exact Hwg | rewrite Hfund; exact Hf] |].
    split; [exact Hready | reflexivity].
  - cbn [fst]. split; [split; [exact Hwg | exact Hf] |]. split; assumption.
Qed.

Lemma sound_ready (this : t) :
  appInRange this ->
  engineReady (engine this) ->
  isInitialized this = true ->
  appSound this.
Proof.
  intros Hin Hready Hinit. split; [exact Hin |]. right. split; assumption.
Qed.

Lemma sound_handleEvent (rate : nat) (this : t) (rnd : Js.RandomSource)
    (ev : Event) :
  appSound this ->
  exists st',
    handleEvent rate (this, rnd) ev = Js.Normal st' /\ appSound (fst st').
Proof.
  intros Hsound.
  pose proof Hsound as [[Hwg Hf] Hcase].
  destruct ev as [cx cy | | | deltaY | key | key | w h | timestamp | k | k |];
    cbn [handleEvent fst snd].
  - (* mouse move *)
    unfold handleMouseMove. cbv zeta.
    destruct Hcase as [(Hinit & Hidle & Hto) | (Hinit & Hready)].
    + replace (isInitialized
                 (with_cursor (HarmonicSpace.mkPoint cx cy) this))
        with false by (symmetry; exact Hinit).
      cbn [Js.bind]. eexists. split; [reflexivity |]. cbn [fst].
      split; [split; [exact Hwg | exact Hf] |].
      left. split; [exact Hinit |]. split; [exact Hidle | exact Hto].
    + replace (isInitialized
                 (with_cursor (HarmonicSpace.mkPoint cx cy) this))
        with true by (symmetry; exact Hinit).
      destruct (ready_updateHarmonicsFromCursor
                  (with_cursor (HarmonicSpace.mkPoint cx cy) this))
        as (this' & Hrun & Hin' & Hr' & Hi');
        [split; [exact Hwg | exact Hf] | exact Hready |].
      rewrite Hrun. cbn [Js.bind].
      eexists. split; [reflexivity |]. cbn [fst].
      apply sound_ready; [assumption | assumption |].
      rewrite Hi'. exact Hinit.
  - (* mouse down *)
    unfold handleMouseDown.
    destruct (sound_initAudio this rate rnd Hsound) as (Hin1 & Hr1 & Hi1).
    destruct (initAudio this rate rnd) as [this1 rnd'].
    cbn [fst] in *.
    destruct (ready_updateHarmonicsFromCursor (with_isMouseDown true this1))
      as (this' & Hrun & Hin' & Hr' & Hi'); [exact Hin1 | exact Hr1 |].
    rewrite Hrun. cbn [Js.bind]. eexists. split; [reflexivity |]. cbn [fst].
    apply sound_ready; [assumption | assumption |].
    rewrite Hi'. exact Hi1.
  - (* mouse up *)
    unfold handleMouseUp.
    destruct Hcase as [(Hinit & Hidle & Hto) | (Hinit & Hready)].
    + unfold updateHarmonicsFromCursor. cbn [with_isMouseDown isInitialized].
      rewrite Hinit. cbn [negb Js.bind].
      eexists. split; [reflexivity |]. cbn [fst].
      split; [split; [exact Hwg | exact Hf] |]. left. split; [exact Hinit |]. split; [exact Hidle | exact Hto].
    + destruct (ready_updateHarmonicsFromCursor (with_isMouseDown false this))
        as (this' & Hrun & Hin' & Hr' & Hi'); [split; [exact Hwg | exact Hf] | exact Hready |].
      rewrite Hrun. cbn [Js.bind]. eexists. split; [reflexivity |]. cbn [fst].
      apply sound_ready; [assumption | assumption |].
      rewrite Hi'. exact Hinit.
  - (* wheel *)
    unfold handleWheel. cbv zeta.
    set (newDepth := Rmax 0 (Rmin 1 (HarmonicSpace.depth (space this)
                       + (if Rgt_dec deltaY 0 then 0.05 else -0.05)))).
    pose proof (wellGenerated_setDepth (space this) newDepth Hwg) as Hwg'.
    set (this1 := with_space (HarmonicSpace.setDepth (space this) newDepth)
                    this).
    destruct Hcase as [(Hinit & Hidle & Hto) | (Hinit & Hready)].
    + replace (isInitialized this1) with false by (symmetry; exact Hinit).
      cbn [Js.bind]. eexists. split; [reflexivity |]. cbn [fst].
      split; [split; [exact Hwg' | exact Hf] |].
      left. split; [exact Hinit |]. split; [exact Hidle | exact Hto].
    + replace (isInitialized this1) with true by (symmetry; exact Hinit).
      destruct (ready_syncVoicesWithDepth this1)
        as (this' & Hrun & Hin' & Hr' & Hi');
        [split; [exact Hwg' | exact Hf] | exact Hready |].
      rewrite Hrun. cbn [Js.bind].
      eexists. split; [reflexivity |]. cbn [fst].
      apply sound_ready; [assumption | assumption |].
      rewrite Hi'. exact Hinit.
  - (* key down *)
    unfold handleKeyDown.
    destruct (String.eqb key "ArrowUp" || String.eqb key "ArrowDown")%bool.
    { destruct Hcase as [(Hinit & Hidle & Hto) | (Hinit & Hready)];
        rewrite Hinit; cbn [negb].
      - eexists. split; [reflexivity | exact Hsound].
      - destruct (ready_shiftFundamental this
                    (if String.eqb key "ArrowUp" then 1 else -1))
          as (this' & Hrun & Hin' & Hr' & Hi'); [split; [exact Hwg | exact Hf] | exact Hready |].
        rewrite Hrun. cbn [Js.bind]. eexists. split; [reflexivity |].
        cbn [fst]. apply sound_ready; [assumption | assumption |].
        rewrite Hi'. exact Hinit. }
    destruct (String.eqb key "r" || String.eqb key "R")%bool.
    { destruct Hcase as [(Hinit & Hidle & Hto) | (Hinit & Hready)];
        rewrite Hinit.
      - eexists. split; [reflexivity | exact Hsound].
      - destruct (ready_setFundamental (engine this) 110 (Some 0.5) Hready)
          as (e & Hrun & Hr & _).
        rewrite Hrun. cbn [Js.bind]. eexists. split; [reflexivity |].
        cbn [fst]. apply sound_ready; [| exact Hr | exact Hinit].
        unfold appInRange. cbn [with_space with_engine space engine].
        split; [now apply wellGenerated_setDepth |].
        rewrite (setFundamental_fundamental _ _ _ _ Hrun). lra. }
    destruct (String.eqb key " ").
    { destruct (isInitialized this) eqn:Hinit.
      - destruct Hcase as [(Hinit' & _) | (_ & Hready)]; [congruence |].
        destruct (ready_updateHarmonicsFromCursor
                    (with_isMouseDown true this))
          as (this' & Hrun & Hin' & Hr' & Hi'); [split; [exact Hwg | exact Hf] | exact Hready |].
        rewrite Hrun. cbn [Js.bind]. eexists. split; [reflexivity |].
        cbn [fst]. apply sound_ready; [assumption | assumption |].
        rewrite Hi'. exact Hinit.
      - destruct (sound_initAudio this rate rnd Hsound)
          as (Hin1 & Hr1 & Hi1).
        destruct (initAudio this rate rnd) as [this1 rnd'].
        cbn [fst] in *. eexists. split; [reflexivity |]. cbn [fst].
        apply sound_ready; assumption. }
    eexists. split; [reflexivity | exact Hsound].
  - (* key up *)
    unfold handleKeyUp. destruct (String.eqb key " ").
    + destruct Hcase as [(Hinit & Hidle & Hto) | (Hinit & Hready)].
      * unfold updateHarmonicsFromCursor.
        cbn [with_isMouseDown isInitialized].
        rewrite Hinit. cbn [negb Js.bind].
        eexists. split; [reflexivity |]. cbn [fst].
        split; [split; [exact Hwg | exact Hf] |]. left. split; [exact Hinit |]. split; [exact Hidle | exact Hto].
      * destruct (ready_updateHarmonicsFromCursor
                    (with_isMouseDown false this))
          as (this' & Hrun & Hin' & Hr' & Hi'); [split; [exact Hwg | exact Hf] | exact Hready |].
        rewrite Hrun. cbn [Js.bind]. eexists. split; [reflexivity |].
        cbn [fst]. apply sound_ready; [assumption | assumption |].
        rewrite Hi'. exact Hinit.
    + cbn [Js.bind]. eexists. split; [reflexivity | exact Hsound].
  - (* resize *)
    unfold handleResize.
    pose proof (wellGenerated_resize (space this) w h rnd Hwg) as Hwg'.
    destruct (HarmonicSpace.resize (space this) w h rnd) as [s rnd'].
    cbn [fst] in Hwg'. eexists. split; [reflexivity |]. cbn [fst].
    split; [split; [exact Hwg' | exact Hf] |]. exact Hcase.
  - (* animation frame *)
    unfold animate.
    destruct (render_completes (renderer this)
                (HarmonicSpace.update (space this)
                   (frameDelta timestamp (lastTime this)))
                (frameDelta timestamp (lastTime this)) rnd) as [st Hrun].
    rewrite Hrun. cbn [Js.bind]. eexists. split; [reflexivity |]. cbn [fst].
    split; [split; [now apply wellGenerated_update | exact Hf] |].
    exact Hcase.
  - (* a timer of the coordinator *)
    unfold fireTimeout.
    destruct (nth_error (timeouts this) k) as [cb |] eqn:Hnth.
    + destruct Hcase as [(Hinit & Hidle & Hto) | (Hinit & Hready)].
      * rewrite Hto in Hnth. destruct k; discriminate.
      * destruct (ready_runTimeout
                    (with_timeouts
                       (HarmonicEngine.removeNth k (timeouts this)) this) cb)
          as (this' & Hrun & Hin' & Hr' & Hi'); [split; [exact Hwg | exact Hf] | exact Hready |].
        rewrite Hrun. cbn [Js.bind]. eexists. split; [reflexivity |].
        cbn [fst]. apply sound_ready; [assumption | assumption |].
        rewrite Hi'. exact Hinit.
    + cbn [Js.bind]. eexists. split; [reflexivity | exact Hsound].
  - (* a timer of the engine *)
    destruct Hcase as [(Hinit & Hidle & Hto) | (Hinit & Hready)].
    + rewrite (idle_fireTimeout _ k Hidle). cbn [Js.bind].
      eexists. split; [reflexivity |]. cbn [fst].
      split; [split; [exact Hwg | exact Hf] |]. left. split; [exact Hinit |]. split; [exact Hidle | exact Hto].
    + destruct (ready_fireTimeout (engine this) k Hready)
        as (e & Hrun & Hr & _).
      rewrite Hrun. cbn [Js.bind]. eexists. split; [reflexivity |].
      cbn [fst]. apply sound_ready; [| exact Hr | exact Hinit].
      split; [exact Hwg |]. cbn [with_engine engine].
      rewrite (fireTimeout_fundamental _ _ _ Hrun). exact Hf.
  - (* unload *)
    unfold destroy.
    destruct Hcase as [(Hinit & Hidle & Hto) | (Hinit & Hready)].
    + rewrite (idle_destroy _ Hidle). cbn [Js.bind].
      eexists. split; [reflexivity |]. cbn [fst].
      split; [split; [exact Hwg | exact Hf] |]. left. split; [exact Hinit |]. split; [exact Hidle | exact Hto].
    + destruct (ready_destroy (engine this) Hready) as (e & Hrun & Hr & _).
      rewrite Hrun. cbn [Js.bind]. eexists. split; [reflexivity |].
      cbn [fst]. apply sound_ready; [| exact Hr | exact Hinit].
      split; [exact Hwg |]. cbn [with_engine engine].
      rewrite (destroy_fundamental _ _ Hrun). exact Hf.
Qed.

Lemma sound_runEvents (rate : nat) (evs : list Event) :
  forall (this : t) (rnd : Js.RandomSource),
    appSound this ->
    exists st',
      runEvents rate (this, rnd) evs = Js.Normal st' /\ appSound (fst st').
Proof.
  induction evs as [| ev evs IH]; intros this rnd Hsound.
  - exists (this, rnd). split; [reflexivity | exact Hsound].
  - destruct (sound_handleEvent rate this rnd ev Hsound)
      as ([this1 rnd1] & Hrun1 & Hsound1).
    destruct (IH this1 rnd1 Hsound1) as (st' & Hrun & Hsound').
    exists st'. cbn [runEvents]. rewrite Hrun1. cbn [Js.bind].
    split; assumption.
Qed.

Lemma sound_new (innerWidth innerHeight now : R) (rnd : Js.RandomSource) :
  appSound (fst (new innerWidth innerHeight now rnd)).
Proof.
  unfold new. rewrite new_spec. cbn [fst]. split.
  - split.
    + split; [| cbn [space HarmonicSpace.depth]; lra].
      cbn [space HarmonicSpace.harmonics]. apply harmonicCarries_generated.
    + cbn [engine]. unfold HarmonicEngine.new.
      cbn [HarmonicEngine.fundamental]. lra.
  - left. split; [reflexivity |]. split; [apply new_idle | reflexivity].
Qed.

End AppEvents.

Section CursorUpdate.
Import HarmonicDepths.

Lemma Map_get_set_other {V : Type} (m : Js.Map.t V) (k k' : string) (v : V) :
  k <> k' -> Js.Map.get (Js.Map.set m k v) k' = Js.Map.get m k'.
Proof.
  intros Hne. induction m as [| [k0 v0] m IH]; simpl.
  - destruct (String.eqb k k') eqn:Hk; [| reflexivity].
    apply String.eqb_eq in Hk. contradiction.
  - destruct (String.eqb k0 k) eqn:Hk0; simpl.
    + apply String.eqb_eq in Hk0. subst k0.
      destruct (String.eqb k k') eqn:Hk; [| reflexivity].
      apply String.eqb_eq in Hk. contradiction.
    + destruct (String.eqb k0 k'); [reflexivity | exact IH].
Qed.

Lemma NoDup_map_injective {A B : Type} (f : A -> B) (l : list A) (x y : A) :
  NoDup (map f l) -> In x l -> In y l -> f x = f y -> x = y.
Proof.
  induction l as [| a l IH]; simpl; [tauto |].
  intros Hnd Hx Hy Hf. inversion Hnd as [| ? ? Ha Hl]; subst.
  destruct Hx as [<- | Hx], Hy as [<- | Hy]; auto.
  - exfalso. apply Ha. rewrite Hf. now apply in_map.
  - exfalso. apply Ha. rewrite <- Hf. now apply in_map.
Qed.

(** Filtering harmonics keeps their ids distinct. *)
Lemma ids_distinct_filter (keep : Harmonic.t -> bool) :
  forall hs : list Harmonic.t,
    NoDup (map Harmonic.id hs) ->
    NoDup (map Harmonic.id (filter keep hs)).
Proof.
  intros hs Hnd. induction hs as [| hm hs IH]; [exact Hnd |].
  cbn [map] in Hnd. inversion Hnd as [| ? ? Hfresh Hrest]; subst.
  cbn [filter]. destruct (keep hm); [| exact (IH Hrest)].
  cbn [map]. constructor; [| exact (IH Hrest)].
  intros Hin. apply Hfresh. apply in_map_iff in Hin.
  destruct Hin as (hm' & Hid & Hin). apply filter_In in Hin.
  apply in_map_iff. exists hm'. split; [exact Hid | apply Hin].
Qed.

Lemma wellGenerated_ids_distinct (s : HarmonicSpace.t) :
  wellGenerated s ->
  NoDup (map Harmonic.id (HarmonicSpace.harmonics s)).
Proof.
  intros [Hshape _].
  assert (Hids : map Harmonic.id (HarmonicSpace.harmonics s)
                 = map (fun ip : nat * Z => idOfPrime (snd ip))
                     indexedPrimes).
  { induction Hshape as [| hm ip hs l (Hid & _) _ IH]; simpl;
      [reflexivity |].
    rewrite IH. unfold idOfPrime. now rewrite Hid. }
  rewrite Hids. apply generated_ids_distinct.
Qed.

Lemma near_ids_distinct (s : HarmonicSpace.t) (x y radius : R) :
  NoDup (map Harmonic.id (HarmonicSpace.harmonics s)) ->
  NoDup
    (map (fun entry => Harmonic.id (harmonic entry))
       (HarmonicSpace.getHarmonicsNear s x y radius)).
Proof.
  intros Hnd.
  eapply Permutation_NoDup.
  - apply Permutation_sym. apply Permutation_map.
    apply getHarmonicsNear_perm.
  - rewrite map_map. cbn [nearEntry harmonic].
    apply ids_distinct_filter. unfold HarmonicSpace.getVisibleHarmonics.
    now apply ids_distinct_filter.
Qed.

Lemma collectAmplitudes_other (b : bool) (near : list NearEntry) :
  forall (m : Js.Map.t R) (id : string),
    ~ In id (map (fun entry => Harmonic.id (harmonic entry)) near) ->
    Js.Map.get (collectAmplitudes b near m) id = Js.Map.get m id.
Proof.
  induction near as [| e near IH]; intros m id Hnot; cbn [collectAmplitudes].
  - reflexivity.
  - cbn [map] in Hnot. rewrite IH by (intros H; apply Hnot; now right).
    apply Map_get_set_other. intros Heq. apply Hnot. now left.
Qed.

Lemma collectAmplitudes_get (b : bool) (near : list NearEntry) :
  forall m : Js.Map.t R,
    NoDup (map (fun entry => Harmonic.id (harmonic entry)) near) ->
    forall entry,
      In entry near ->
      Js.Map.get (collectAmplitudes b near m) (Harmonic.id (harmonic entry))
      = Some (newAmplitude b entry).
Proof.
  induction near as [| e near IH]; intros m Hnd entry Hin; [destruct Hin |].
  cbn [map] in Hnd. inversion Hnd as [| ? ? He Hnear]; subst.
  cbn [collectAmplitudes]. destruct Hin as [<- | Hin].
  - rewrite collectAmplitudes_other by exact He.
    apply Map_get_set_same.
  - now apply IH.
Qed.

Lemma Set_from_In (ids : list string) :
  forall (seen : list string) (id : string),
    In id (Js.Set_from ids seen) <-> In id ids \/ In id seen.
Proof.
  induction ids as [| k ids IH]; intros seen id; cbn [Js.Set_from].
  - simpl. tauto.
  - destruct (existsb (String.eqb k) seen) eqn:Hex.
    + rewrite IH. simpl. split; [tauto |].
      intros [[<- | H] | H]; auto.
      right. apply existsb_exists in Hex. destruct Hex as (x & Hx & Heq).
      apply String.eqb_eq in Heq. now subst x.
    + rewrite IH, in_app_iff. simpl. tauto.
Qed.

Lemma Set_from_NoDup (ids : list string) :
  forall seen : list string, NoDup seen -> NoDup (Js.Set_from ids seen).
Proof.
  induction ids as [| k ids IH]; intros seen Hseen; cbn [Js.Set_from].
  - exact Hseen.
  - destruct (existsb (String.eqb k) seen) eqn:Hex; [now apply IH |].
    apply IH. apply NoDup_app_last; [exact Hseen |].
    intros Hin.
    assert (Htrue : existsb (String.eqb k) seen = true).
    { apply existsb_exists. exists k. split; [exact Hin |].
      apply String.eqb_refl. }
    congruence.
Qed.

Lemma find_assignAmplitude_other (id id' : string) (a : R)
    (hs : list Harmonic.t) :
  id <> id' ->
  Js.find (fun h0 => String.eqb (Harmonic.id h0) id')
    (HarmonicSpace.assignAmplitude id a hs)
  = Js.find (fun h0 => String.eqb (Harmonic.id h0) id') hs.
Proof.
  intros Hne. induction hs as [| h0 hs IH]; [reflexivity |].
  cbn [HarmonicSpace.assignAmplitude].
  destruct (String.eqb (Harmonic.id h0) id) eqn:Hid; cbn [Js.find].
  - cbn [Harmonic.id Harmonic.set_amplitude].
    apply String.eqb_eq in Hid.
    destruct (String.eqb (Harmonic.id h0) id') eqn:Hid'; [| reflexivity].
    apply String.eqb_eq in Hid'. congruence.
  - destruct (String.eqb (Harmonic.id h0) id'); [reflexivity | exact IH].
Qed.

Lemma getHarmonic_set_other (s : HarmonicSpace.t) (id id' : string) (a : R) :
  id <> id' ->
  HarmonicSpace.getHarmonic (HarmonicSpace.setHarmonicAmplitude s id a) id'
  = HarmonicSpace.getHarmonic s id'.
Proof.
  intros Hne. unfold HarmonicSpace.setHarmonicAmplitude.
  destruct (HarmonicSpace.getHarmonic s id); [| reflexivity].
  unfold HarmonicSpace.getHarmonic. cbn [HarmonicSpace.harmonics].
  now apply find_assignAmplitude_other.
Qed.

Lemma getHarmonic_set_present (s : HarmonicSpace.t) (id id' : string)
    (a : R) :
  HarmonicSpace.getHarmonic (HarmonicSpace.setHarmonicAmplitude s id a) id'
  = None
  <-> HarmonicSpace.getHarmonic s id' = None.
Proof.
  unfold HarmonicSpace.setHarmonicAmplitude.
  destruct (HarmonicSpace.getHarmonic s id); [| tauto].
  unfold HarmonicSpace.getHarmonic. cbn [HarmonicSpace.harmonics].
  apply find_assignAmplitude.
Qed.

Lemma createVoice_frame (e e1 : HarmonicEngine.t) (id0 : string) (ratio : R)
    (v0 : HarmonicEngine.VoiceRef) :
  HarmonicEngine.createVoice e id0 ratio = Js.Normal (v0, e1) ->
  (forall id, id0 <> id ->
              Js.Map.get (HarmonicEngine.voices e1) id
              = Js.Map.get (HarmonicEngine.voices e) id)
  /\ (forall v vo, nth_error (HarmonicEngine.objects e) v = Some vo ->
                   nth_error (HarmonicEngine.objects e1) v = Some vo).
Proof.
  unfold HarmonicEngine.createVoice.
  destruct (Js.Map.has (HarmonicEngine.voices e) id0).
  - destruct (Js.Map.get (HarmonicEngine.voices e) id0); [| discriminate].
    intros [= _ <-]. split; auto.
  - unfold HarmonicEngine.theContext.
    destruct (HarmonicEngine.audioContext e); [| discriminate].
    cbn [Js.bind].
    unfold WebAudio.createOscillator, WebAudio.createGain,
      WebAudio.createNode.
    destruct (HarmonicEngine.masterGain e); [| discriminate].
    intros [= _ <-].
    cbn [HarmonicEngine.with_voices HarmonicEngine.with_objects
         HarmonicEngine.with_context HarmonicEngine.voices
         HarmonicEngine.objects].
    split.
    + intros id Hne. now apply Map_get_set_other.
    + intros v vo Hnth. rewrite List.nth_error_app1; [exact Hnth |].
      apply nth_error_Some. congruence.
Qed.

Lemma setVoiceAmplitude_objects (e e2 : HarmonicEngine.t) (id : string)
    (a : R) (time : option R) :
  HarmonicEngine.setVoiceAmplitude e id a time = Js.Normal e2 ->
  HarmonicEngine.voices e2 = HarmonicEngine.voices e
  /\ (forall v vo,
        Js.Map.get (HarmonicEngine.voices e) id = Some v ->
        nth_error (HarmonicEngine.objects e) v = Some vo ->
        nth_error (HarmonicEngine.objects e2) v
        = Some
            (HarmonicEngine.mkVoice (HarmonicEngine.oscillator vo)
               (HarmonicEngine.gain vo) a (HarmonicEngine.ratio vo)))
  /\ (forall v',
        Js.Map.get (HarmonicEngine.voices e) id <> Some v' ->
        nth_error (HarmonicEngine.objects e2) v'
        = nth_error (HarmonicEngine.objects e) v').
Proof.
  unfold HarmonicEngine.setVoiceAmplitude.
  destruct (Js.Map.get (HarmonicEngine.voices e) id) as [v0 |] eqn:Hget.
  - unfold HarmonicEngine.theContext.
    destruct (HarmonicEngine.audioContext e); [| discriminate].
    cbn [Js.bind]. unfold HarmonicEngine.deref.
    destruct (nth_error (HarmonicEngine.objects e) v0) as [vo0 |] eqn:Hnth;
      [| discriminate].
    cbn [Js.bind]. intros [= <-].
    unfold HarmonicEngine.setTargetGain.
    cbn [HarmonicEngine.with_context HarmonicEngine.with_objects
         HarmonicEngine.voices HarmonicEngine.objects].
    split; [reflexivity |]. split.
    + intros v vo [= <-] Hvo.
      now rewrite nth_error_updateNth, Nat.eqb_refl, Hvo.
    + intros v' Hne. rewrite nth_error_updateNth.
      destruct (Nat.eqb v' v0) eqn:Heq; [| reflexivity].
      apply Nat.eqb_eq in Heq. subst v'. congruence.
  - intros [= <-]. split; [reflexivity |]. split.
    + intros v vo Hv. discriminate.
    + reflexivity.
Qed.

Lemma voices_injective (e : HarmonicEngine.t) (id id' : string)
    (v : HarmonicEngine.VoiceRef) :
  engineReady e ->
  Js.Map.get (HarmonicEngine.voices e) id = Some v ->
  Js.Map.get (HarmonicEngine.voices e) id' = Some v ->
  id = id'.
Proof.
  intros (_ & ctx & master & _ & _ & _ & _ & _ & _ & _ & _ & Hinj) H1 H2.
  apply Map_get_In_key in H1. apply Map_get_In_key in H2.
  pose proof (NoDup_map_injective snd _ _ _ Hinj H1 H2 eq_refl) as Heq.
  now injection Heq.
Qed.

(** An iteration for an id whose new amplitude exceeds 0.01 and that the
    space knows brings the three records of that id into agreement. *)
Lemma updateHarmonic_effect (newAmplitudes : Js.Map.t R) (this : t)
    (id : string) (hm : Harmonic.t) :
  engineReady (engine this) ->
  orZero (Js.Map.get newAmplitudes id) > 0.01 ->
  HarmonicSpace.getHarmonic (space this) id = Some hm ->
  forall this',
    updateHarmonic newAmplitudes this id = Js.Normal this' ->
    storesAgree this' id (orZero (Js.Map.get newAmplitudes id)).
Proof.
  intros Hready Hgt Hhm this'. unfold updateHarmonic.
  destruct (Rgt_dec (orZero (Js.Map.get newAmplitudes id)) 0.01);
    [| contradiction].
  rewrite Hhm.
  destruct (HarmonicEngine.createVoice (engine this) id (Harmonic.ratio hm))
    as [[v e1] | err] eqn:Hc; [| discriminate].
  cbn [Js.bind snd].
  destruct (HarmonicEngine.setVoiceAmplitude e1 id
              (orZero (Js.Map.get newAmplitudes id)) (Some 0.15))
    as [e2 | err] eqn:Hs; [| discriminate].
  cbn [Js.bind]. intros [= <-].
  unfold storesAgree.
  cbn [with_space with_activeHarmonics with_engine activeHarmonics space
       engine].
  split; [apply Map_get_set_same |].
  split.
  { exists (Harmonic.set_amplitude (orZero (Js.Map.get newAmplitudes id)) hm).
    split; [apply setHarmonicAmplitude_stores; exact Hhm | reflexivity]. }
  pose proof (createVoice_binds _ _ _ _ _ Hc) as Hbind.
  destruct (ready_createVoice (engine this) id (Harmonic.ratio hm) Hready)
    as (v' & e1' & Hc' & Hready1 & _).
  rewrite Hc in Hc'. injection Hc' as <- <-.
  pose proof (ready_voice_bound e1 id v Hready1 Hbind) as Hlt.
  destruct (ready_deref e1 v Hready1 Hlt) as (vo & ctx & Hderef & _).
  unfold HarmonicEngine.deref in Hderef.
  destruct (nth_error (HarmonicEngine.objects e1) v) as [vo1 |] eqn:Hnth;
    [| discriminate].
  destruct (setVoiceAmplitude_objects _ _ _ _ _ Hs) as (Hvoices & Hset & _).
  exists v. eexists.
  split; [rewrite Hvoices; exact Hbind |].
  split; [apply (Hset v vo1 Hbind Hnth) | reflexivity].
Qed.

(** An iteration for one id leaves the agreement of every other id as it
    is. *)
Lemma updateHarmonic_frame (newAmplitudes : Js.Map.t R) (this this' : t)
    (id0 id : string) (a : R) :
  engineReady (engine this) ->
  id0 <> id ->
  updateHarmonic newAmplitudes this id0 = Js.Normal this' ->
  storesAgree this id a ->
  storesAgree this' id a.
Proof.
  intros Hready Hne Hrun (Hact & (hm & Hhm & Hamp) & (v & vo & Hv & Hvo & Ht)).
  unfold updateHarmonic in Hrun.
  destruct (Rgt_dec (orZero (Js.Map.get newAmplitudes id0)) 0.01).
  - destruct (HarmonicSpace.getHarmonic (space this) id0) as [hm0 |];
      [| injection Hrun as <-; repeat split; eauto].
    destruct (HarmonicEngine.createVoice (engine this) id0
                (Harmonic.ratio hm0)) as [[v0 e1] | err] eqn:Hc;
      [| discriminate].
    cbn [Js.bind snd] in Hrun.
    destruct (HarmonicEngine.setVoiceAmplitude e1 id0
                (orZero (Js.Map.get newAmplitudes id0)) (Some 0.15))
      as [e2 | err] eqn:Hs; [| discriminate].
    cbn [Js.bind] in Hrun. injection Hrun as <-.
    unfold storesAgree.
    cbn [with_space with_activeHarmonics with_engine activeHarmonics space
         engine].
    split; [rewrite Map_get_set_other by exact Hne; exact Hact |].
    split.
    { exists hm. split; [| exact Hamp].
      rewrite getHarmonic_set_other by exact Hne. exact Hhm. }
    destruct (createVoice_frame _ _ _ _ _ Hc) as [Hmap Hobj].
    destruct (setVoiceAmplitude_objects _ _ _ _ _ Hs) as (Hvoices & _ & Hrest).
    destruct (ready_createVoice (engine this) id0 (Harmonic.ratio hm0) Hready)
      as (v' & e1' & Hc' & Hready1 & _).
    rewrite Hc in Hc'. injection Hc' as <- <-.
    exists v, vo.
    split; [rewrite Hvoices, (Hmap id Hne); exact Hv |].
    split; [| exact Ht].
    rewrite Hrest; [now apply Hobj |].
    intros Hv0. apply Hne.
    apply (voices_injective e1 id0 id v Hready1 Hv0).
    rewrite (Hmap id Hne). exact Hv.
  - destruct (Rgt_dec (orZero (Js.Map.get (activeHarmonics this) id0)) 0.01);
      [| injection Hrun as <-; repeat split; eauto].
    destruct (HarmonicEngine.setVoiceAmplitude (engine this) id0 0
                (Some 0.3)) as [e1 | err] eqn:Hs; [| discriminate].
    cbn [Js.bind] in Hrun. injection Hrun as <-.
    unfold storesAgree.
    cbn [with_timeouts with_space with_activeHarmonics with_engine
         activeHarmonics space engine].
    split; [rewrite Map_get_set_other by exact Hne; exact Hact |].
    split.
    { exists hm. split; [| exact Hamp].
      rewrite getHarmonic_set_other by exact Hne. exact Hhm. }
    destruct (setVoiceAmplitude_objects _ _ _ _ _ Hs) as (Hvoices & _ & Hrest).
    exists v, vo.
    split; [rewrite Hvoices; exact Hv |].
    split; [| exact Ht].
    rewrite Hrest; [exact Hvo |].
    intros Hv0. apply Hne.
    exact (voices_injective (engine this) id0 id v Hready Hv0 Hv).
Qed.

Lemma updateHarmonic_present (newAmplitudes : Js.Map.t R) (this this' : t)
    (id0 id : string) :
  updateHarmonic newAmplitudes this id0 = Js.Normal this' ->
  HarmonicSpace.getHarmonic (space this') id = None
  <-> HarmonicSpace.getHarmonic (space this) id = None.
Proof.
  unfold updateHarmonic.
  destruct (Rgt_dec (orZero (Js.Map.get newAmplitudes id0)) 0.01).
  - destruct (HarmonicSpace.getHarmonic (space this) id0) as [hm0 |];
      [| intros [= <-]; tauto].
    destruct (HarmonicEngine.createVoice (engine this) id0
                (Harmonic.ratio hm0)) as [[v0 e1] | err]; [| discriminate].
    cbn [Js.bind snd].
    destruct (HarmonicEngine.setVoiceAmplitude e1 id0
                (orZero (Js.Map.get newAmplitudes id0)) (Some 0.15))
      as [e2 | err]; [| discriminate].
    cbn [Js.bind]. intros [= <-].
    cbn [with_space with_activeHarmonics with_engine space].
    apply getHarmonic_set_present.
  - destruct (Rgt_dec (orZero (Js.Map.get (activeHarmonics this) id0)) 0.01);
      [| intros [= <-]; tauto].
    destruct (HarmonicEngine.setVoiceAmplitude (engine this) id0 0
                (Some 0.3)) as [e1 | err]; [| discriminate].
    cbn [Js.bind]. intros [= <-].
    cbn [with_timeouts with_space with_activeHarmonics with_engine space].
    apply getHarmonic_set_present.
Qed.

Lemma updateHarmonics_loop_agree (newAmplitudes : Js.Map.t R)
    (ids : list string) :
  forall this : t,
    NoDup ids ->
    appInRange this ->
    engineReady (engine this) ->
    exists this',
      updateHarmonics_loop newAmplitudes ids this = Js.Normal this'
      /\ (forall id,
            In id ids ->
            orZero (Js.Map.get newAmplitudes id) > 0.01 ->
            HarmonicSpace.getHarmonic (space this) id <> None ->
            storesAgree this' id (orZero (Js.Map.get newAmplitudes id)))
      /\ (forall id a,
            ~ In id ids -> storesAgree this id a -> storesAgree this' id a).
Proof.
  induction ids as [| id0 ids IH]; intros this Hnd Hin Hready.
  - exists this. split; [reflexivity |]. split; [intros id [] | auto].
  - inversion Hnd as [| ? ? Hid0 Hids]; subst.
    destruct (ready_updateHarmonic newAmplitudes this id0 Hin Hready)
      as (this1 & Hrun1 & Hin1 & Hready1 & _).
    destruct (IH this1 Hids Hin1 Hready1) as (this' & Hrun & Hnew & Hkeep).
    exists this'. cbn [updateHarmonics_loop]. rewrite Hrun1. cbn [Js.bind].
    split; [exact Hrun |]. split.
    + intros id [<- | Hid] Hgt Hpresent.
      * destruct (HarmonicSpace.getHarmonic (space this) id0) as [hm |] eqn:Hhm;
          [| contradiction].
        apply Hkeep; [exact Hid0 |].
        exact (updateHarmonic_effect newAmplitudes this id0 hm Hready Hgt Hhm
                 this1 Hrun1).
      * apply Hnew; [exact Hid | exact Hgt |].
        intros Hnone. apply Hpresent.
        exact (proj1 (updateHarmonic_present _ _ _ _ id Hrun1) Hnone).
    + intros id a Hnot Hagree. apply Hkeep.
      * intros Hid. apply Hnot. now right.
      * apply (updateHarmonic_frame newAmplitudes this this1 id0 id a Hready);
          [| exact Hrun1 | exact Hagree].
        intros Heq. apply Hnot. now left.
Qed.

Lemma pressedAtCentre_sound : appSound pressedAtCentre.
Proof.
  split.
  - split.
    + unfold pressedAtCentre. cbn [space].
      rewrite freshSpace_run, new_spec. cbn [fst].
      split; [| cbn [HarmonicSpace.depth]; lra].
      cbn [HarmonicSpace.harmonics]. apply harmonicCarries_generated.
    + unfold pressedAtCentre, readyEngine.
      cbn [engine HarmonicEngine.fundamental]. lra.
  - right. split; [reflexivity | apply readyEngine_ready].
Qed.

End CursorUpdate.

(** X29.  On an initialised application, [updateHarmonicsFromCursor()]
    completes, and for every harmonic [getHarmonicsNear] returns for the
    cursor whose computed amplitude exceeds 0.01, the three records of
    its loudness agree on that amplitude afterwards: the entry of
    [activeHarmonics], the amplitude of the harmonic in the space, and
    the target gain of the voice the engine holds under that id. *)
Theorem cursor_update_synchronises_stores (this : HarmonicDepths.t) :
  appSound this ->
  HarmonicDepths.isInitialized this = true ->
  exists this',
    HarmonicDepths.updateHarmonicsFromCursor this = Js.Normal this'
    /\ forall entry,
         In entry
           (HarmonicSpace.getHarmonicsNear (HarmonicDepths.space this)
              (HarmonicSpace.px (HarmonicDepths.cursor this))
              (HarmonicSpace.py (HarmonicDepths.cursor this))
              (HarmonicDepths.influenceRadius this)) ->
         HarmonicDepths.newAmplitude (HarmonicDepths.isMouseDown this) entry
         > 0.01 ->
         storesAgree this' (Harmonic.id (harmonic entry))
           (HarmonicDepths.newAmplitude (HarmonicDepths.isMouseDown this)
              entry).
Proof.
  intros [Hin Hcase] Hinit.
  destruct Hcase as [(Hfalse & _) | (_ & Hready)]; [congruence |].
  unfold HarmonicDepths.updateHarmonicsFromCursor. rewrite Hinit.
  cbn [negb].
  set (near := HarmonicSpace.getHarmonicsNear (HarmonicDepths.space this)
                 (HarmonicSpace.px (HarmonicDepths.cursor this))
                 (HarmonicSpace.py (HarmonicDepths.cursor this))
                 (HarmonicDepths.influenceRadius this)).
  set (newAmplitudes :=
         HarmonicDepths.collectAmplitudes (HarmonicDepths.isMouseDown this)
           near Js.Map.empty).
  set (ids := Js.Set_from
                (Js.Map.keys (HarmonicDepths.activeHarmonics this)
                 ++ Js.Map.keys newAmplitudes) []).
  assert (Hnd : NoDup ids) by (apply Set_from_NoDup; constructor).
  destruct (updateHarmonics_loop_agree newAmplitudes ids this Hnd Hin Hready)
    as (this' & Hrun & Hnew & _).
  exists this'. split; [exact Hrun |].
  intros entry Hentry Hgt.
  assert (Hdistinct :
            NoDup (map (fun e => Harmonic.id (harmonic e)) near)).
  { apply near_ids_distinct. apply wellGenerated_ids_distinct. apply Hin. }
  pose proof (collectAmplitudes_get (HarmonicDepths.isMouseDown this) near
                Js.Map.empty Hdistinct entry Hentry) as Hget.
  fold newAmplitudes in Hget.
  assert (Htarget :
            HarmonicDepths.orZero
              (Js.Map.get newAmplitudes (Harmonic.id (harmonic entry)))
            = HarmonicDepths.newAmplitude (HarmonicDepths.isMouseDown this)
                entry)
    by (rewrite Hget; reflexivity).
  rewrite <- Htarget. apply Hnew.
  - apply Set_from_In. left. apply in_or_app. right.
    destruct (Map_get_keys newAmplitudes (Harmonic.id (harmonic entry)))
      as [_ Hkeys].
    destruct (in_dec string_dec (Harmonic.id (harmonic entry))
                (Js.Map.keys newAmplitudes)) as [Hk | Hk]; [exact Hk |].
    rewrite (Hkeys Hk) in Hget. discriminate.
  - rewrite Htarget. exact Hgt.
  - apply getHarmonicsNear_In in Hentry.
    destruct Hentry as (hm & Hhm & _ & _ & ->).
    cbn [nearEntry harmonic]. intros Hnone.
    unfold HarmonicSpace.getHarmonic in Hnone.
    exact (proj1 (find_none_iff _ _) Hnone hm Hhm eq_refl).
Qed.

(** The statement for an initialised application with the mouse button
    down at the centre of a fresh 800 x 600 space. *)
Lemma cursor_update_synchronises_stores_witness :
  exists this',
    HarmonicDepths.updateHarmonicsFromCursor pressedAtCentre = Js.Normal this'
    /\ forall entry,
         In entry
           (HarmonicSpace.getHarmonicsNear
              (HarmonicDepths.space pressedAtCentre)
              (HarmonicSpace.px (HarmonicDepths.cursor pressedAtCentre))
              (HarmonicSpace.py (HarmonicDepths.cursor pressedAtCentre))
              (HarmonicDepths.influenceRadius pressedAtCentre)) ->
         HarmonicDepths.newAmplitude
           (HarmonicDepths.isMouseDown pressedAtCentre) entry > 0.01 ->
         storesAgree this' (Harmonic.id (harmonic entry))
           (HarmonicDepths.newAmplitude
              (HarmonicDepths.isMouseDown pressedAtCentre) entry).
Proof.
  apply (cursor_update_synchronises_stores pressedAtCentre).
  - apply pressedAtCentre_sound.
  - reflexivity.
Defined.

Section WheelSync.
Import HarmonicDepths.

Lemma existsb_eqb_false (id : string) (l : list string) :
  existsb (String.eqb id) l = false <-> ~ In id l.
Proof.
  split.
  - intros Hex Hin.
    assert (Htrue : existsb (String.eqb id) l = true).
    { apply existsb_exists. exists id. split; [exact Hin |].
      apply String.eqb_refl. }
    congruence.
  - intros Hnot. destruct (existsb (String.eqb id) l) eqn:Hex;
      [| reflexivity].
    apply existsb_exists in Hex. destruct Hex as (x & Hx & Heq).
    apply String.eqb_eq in Heq. subst x. contradiction.
Qed.

Lemma setHarmonicAmplitude_depth (s : HarmonicSpace.t) (id : string) (a : R) :
  HarmonicSpace.depth (HarmonicSpace.setHarmonicAmplitude s id a)
  = HarmonicSpace.depth s.
Proof.
  unfold HarmonicSpace.setHarmonicAmplitude.
  destruct (HarmonicSpace.getHarmonic s id); reflexivity.
Qed.

(** What is left to do for the loop of [syncVoicesWithDepth]: every id
    that is hidden and still recorded with a positive amplitude has an
    entry with a positive amplitude among those the loop has not visited
    yet. *)
Lemma syncVoices_loop_silences (visible : list string)
    (entries : list (string * R)) :
  forall this this' : t,
    syncVoices_loop visible entries this = Js.Normal this' ->
    (forall id a,
       ~ In id visible ->
       Js.Map.get (activeHarmonics this) id = Some a ->
       a > 0 ->
       exists amp, In (id, amp) entries /\ amp > 0) ->
    HarmonicSpace.depth (space this') = HarmonicSpace.depth (space this)
    /\ forall id a,
         ~ In id visible ->
         Js.Map.get (activeHarmonics this') id = Some a ->
         a <= 0.
Proof.
  induction entries as [| [id0 amp0] entries IH]; intros this this' Hrun Hleft.
  - injection Hrun as <-. split; [reflexivity |].
    intros id a Hhidden Hget.
    destruct (Rle_dec a 0) as [Hle | Hgt]; [exact Hle |].
    destruct (Hleft id a Hhidden Hget) as (amp & [] & _). lra.
  - cbn [syncVoices_loop syncVoice] in Hrun.
    destruct (negb (existsb (String.eqb id0) visible)) eqn:Hvis.
    + destruct (Rgt_dec amp0 0) as [Hpos | Hnonpos].
      * destruct (HarmonicEngine.setVoiceAmplitude (engine this) id0 0
                    (Some 0.5)) as [e1 | err]; [| discriminate].
        cbn [Js.bind] in Hrun.
        apply IH in Hrun.
        -- destruct Hrun as [Hdepth Hpost]. split; [| exact Hpost].
           rewrite Hdepth.
           cbn [with_timeouts with_activeHarmonics with_space with_engine
                space].
           apply setHarmonicAmplitude_depth.
        -- cbn [with_timeouts with_activeHarmonics with_space with_engine
                activeHarmonics].
           intros id a Hhidden Hget Ha.
           destruct (string_dec id0 id) as [<- | Hne].
           ++ rewrite Map_get_set_same in Hget. injection Hget as <-. lra.
           ++ rewrite Map_get_set_other in Hget by exact Hne.
              destruct (Hleft id a Hhidden Hget Ha) as (amp & [Heq | Hin] & Hamp).
              ** injection Heq as Heq _. contradiction.
              ** exists amp. split; assumption.
      * cbn [Js.bind] in Hrun. apply IH in Hrun; [exact Hrun |].
        intros id a Hhidden Hget Ha.
        destruct (Hleft id a Hhidden Hget Ha) as (amp & [Heq | Hin] & Hamp).
        -- injection Heq as _ <-. contradiction.
        -- exists amp. split; assumption.
    + cbn [Js.bind] in Hrun. apply IH in Hrun; [exact Hrun |].
      intros id a Hhidden Hget Ha.
      destruct (Hleft id a Hhidden Hget Ha) as (amp & [Heq | Hin] & Hamp).
      * injection Heq as <- _. apply negb_false_iff in Hvis.
        apply existsb_eqb_false in Hhidden. congruence.
      * exists amp. split; assumption.
Qed.

Lemma wheelDepth_step (depth deltaY : R) :
  0 <= depth <= 1 ->
  0 <= wheelDepth depth deltaY <= 1
  /\ Rabs (wheelDepth depth deltaY - depth) <= 0.05
  /\ (deltaY > 0 -> depth <= 0.95 -> wheelDepth depth deltaY = depth + 0.05)
  /\ (deltaY <= 0 -> 0.05 <= depth -> wheelDepth depth deltaY = depth - 0.05).
Proof.
  intros Hd. unfold wheelDepth.
  destruct (Rgt_dec deltaY 0) as [Hup | Hdown].
  - unfold Rmin, Rmax.
    destruct (Rle_dec 1 (depth + 0.05)); destruct (Rle_dec 0 _);
      (split; [lra |]); (split; [apply Rabs_le; lra |]); split; intros; lra.
  - unfold Rmin, Rmax.
    destruct (Rle_dec 1 (depth + -0.05)); destruct (Rle_dec 0 _);
      (split; [lra |]); (split; [apply Rabs_le; lra |]); split; intros; lra.
Qed.

(** The other half of what the loop of [syncVoicesWithDepth] does: an
    id that is hidden ends with the entry 0 once its entry is 0 or an
    entry of it with a positive amplitude is still to be visited. *)
Lemma syncVoices_loop_zeroes (visible : list string) (id : string) :
  ~ In id visible ->
  forall (entries : list (string * R)) (this this' : t),
    syncVoices_loop visible entries this = Js.Normal this' ->
    Js.Map.get (activeHarmonics this) id = Some 0
    \/ (exists a, a > 0 /\ In (id, a) entries) ->
    Js.Map.get (activeHarmonics this') id = Some 0.
Proof.
  intros Hhidden.
  induction entries as [| [id0 amp0] entries IH]; intros this this' Hrun Hinv.
  - injection Hrun as <-.
    destruct Hinv as [Hzero | (a & _ & [])]. exact Hzero.
  - cbn [syncVoices_loop syncVoice] in Hrun.
    destruct (negb (existsb (String.eqb id0) visible)) eqn:Hvis.
    + destruct (Rgt_dec amp0 0) as [Hpos | Hnonpos].
      * destruct (HarmonicEngine.setVoiceAmplitude (engine this) id0 0
                    (Some 0.5)) as [e1 | err]; [| discriminate].
        cbn [Js.bind] in Hrun.
        apply (IH _ _ Hrun).
        cbn [with_timeouts with_activeHarmonics with_space with_engine
             activeHarmonics].
        destruct (string_dec id0 id) as [<- | Hne].
        -- left. apply Map_get_set_same.
        -- rewrite Map_get_set_other by exact Hne.
           destruct Hinv as [Hzero | (a & Ha & [Heq | Hin])].
           ++ left. exact Hzero.
           ++ injection Heq as Heq _. contradiction.
           ++ right. exists a. split; assumption.
      * cbn [Js.bind] in Hrun. apply (IH _ _ Hrun).
        destruct Hinv as [Hzero | (a & Ha & [Heq | Hin])].
        -- left. exact Hzero.
        -- injection Heq as _ <-. contradiction.
        -- right. exists a. split; assumption.
    + cbn [Js.bind] in Hrun. apply (IH _ _ Hrun).
      destruct Hinv as [Hzero | (a & Ha & [Heq | Hin])].
      * left. exact Hzero.
      * injection Heq as <- _. apply negb_false_iff in Hvis.
        apply existsb_eqb_false in Hhidden. congruence.
      * right. exists a. split; assumption.
Qed.

(** The harmonic of the prime at index [i] is hidden at a depth below
    its threshold. *)
Lemma hidden_by_index (s : HarmonicSpace.t) (i : nat) (ip : nat * Z) :
  wellGenerated s ->
  nth_error indexedPrimes i = Some ip ->
  ~ INR i <= 15 * HarmonicSpace.depth s + 8.5 ->
  ~ In (idOfPrime (snd ip))
      (map Harmonic.id (HarmonicSpace.getVisibleHarmonics s)).
Proof.
  intros [Hshape Hdepth] Hnth Hdeep Hin.
  apply in_map_iff in Hin. destruct Hin as (hm & Hid & Hvis).
  unfold HarmonicSpace.getVisibleHarmonics in Hvis.
  apply filter_In in Hvis. destruct Hvis as [Hmem Hv].
  apply visibleAt_true in Hv.
  destruct (Forall2_In_left _ _ _ _ Hshape Hmem) as (ip' & Hip' & Hcarries).
  destruct Hcarries as (Hid' & _ & _ & _ & Hthreshold).
  assert (Hsame : ip' = ip).
  { apply (NoDup_map_injective
             (fun ip0 : nat * Z => idOfPrime (snd ip0)) indexedPrimes);
      [exact generated_ids_distinct | exact Hip'
      | eapply nth_error_In; exact Hnth |].
    cbv beta. unfold idOfPrime. rewrite <- Hid'. exact Hid. }
  subst ip'. destruct ip as [k p].
  pose proof (nth_error_indexed PrimeMath.PRIMES 0 i k p Hnth) as Hk.
  cbn [fst Nat.add] in *. subst k.
  rewrite Hthreshold in Hv.
  apply threshold_test in Hv; [| lra].
  exact (Hdeep Hv).
Qed.

Lemma engineWith89_sound :
  engineReady engineWith89
  /\ HarmonicEngine.fundamental engineWith89 = 110.
Proof.
  unfold engineWith89.
  destruct (ready_createVoice readyEngine "prime_89"
              (PrimeMath.getPrimeRatio 89) readyEngine_ready)
    as (v & e1 & Hcreate & Hready1 & _).
  rewrite Hcreate.
  destruct (ready_setVoiceAmplitude e1 "prime_89" 0.05 (Some 0.15) Hready1)
    as (e2 & Hset & Hready2 & _).
  rewrite Hset. split; [exact Hready2 |].
  rewrite (setVoiceAmplitude_fundamental _ _ _ _ _ Hset).
  rewrite (createVoice_fundamental _ _ _ _ _ Hcreate).
  reflexivity.
Qed.

Lemma soundingDeep_sound : appSound soundingDeep.
Proof.
  destruct engineWith89_sound as [Hready Hf].
  destruct pressedAtCentre_sound as [[Hwg _] _].
  split.
  - split.
    + unfold soundingDeep. cbn [space].
      apply wellGenerated_setHarmonicAmplitude, wellGenerated_setDepth.
      exact Hwg.
    + unfold soundingDeep. cbn [engine]. rewrite Hf. lra.
  - right. split; [reflexivity | exact Hready].
Qed.

Lemma soundingDeep_wheel :
  wheelDepth (HarmonicSpace.depth (space soundingDeep)) (-100) = 0.95.
Proof.
  unfold soundingDeep. cbn [space].
  rewrite setHarmonicAmplitude_depth.
  cbn [HarmonicSpace.setDepth HarmonicSpace.depth].
  unfold wheelDepth. destruct (Rgt_dec (-100) 0) as [Hup | _]; [lra |].
  rewrite (Rmin_left 1 1) by lra. rewrite (Rmax_right 0 1) by lra.
  rewrite Rmin_right by lra. rewrite Rmax_right by lra. lra.
Qed.

(** At depth 0.95 the harmonic of the prime 89 is hidden. *)
Lemma soundingDeep_hidden :
  ~ In "prime_89"%string
      (map Harmonic.id
         (HarmonicSpace.getVisibleHarmonics
            (HarmonicSpace.setDepth (space soundingDeep) 0.95))).
Proof.
  destruct soundingDeep_sound as [[Hwg _] _].
  apply (hidden_by_index
           (HarmonicSpace.setDepth (space soundingDeep) 0.95) 23
           (23%nat, 89%Z)).
  - apply wellGenerated_setDepth. exact Hwg.
  - reflexivity.
  - cbn [HarmonicSpace.setDepth HarmonicSpace.depth].
    rewrite Rmin_right by lra. rewrite Rmax_right by lra.
    rewrite INR_IZR_INZ. cbn [Z.of_nat Pos.of_succ_nat Pos.succ]. lra.
Qed.

End WheelSync.

(** X30.  On an initialised application, [handleWheel] completes; the new
    depth is the old one moved by a notch of 0.05 (deeper for a positive
    [deltaY], shallower otherwise) and kept within [[0, 1]], so it differs from
    the old depth by at most 0.05; afterwards no harmonic that is hidden
    at the new depth is recorded in [activeHarmonics] with a positive
    amplitude, and one that was recorded with a positive amplitude is
    recorded with 0. *)
Theorem wheel_silences_hidden_harmonics (this : HarmonicDepths.t)
    (deltaY : R) :
  appSound this ->
  HarmonicDepths.isInitialized this = true ->
  let depth := HarmonicSpace.depth (HarmonicDepths.space this) in
  let newDepth := wheelDepth depth deltaY in
  let visible :=
    map Harmonic.id
      (HarmonicSpace.getVisibleHarmonics
         (HarmonicSpace.setDepth (HarmonicDepths.space this) newDepth)) in
  exists this',
    HarmonicDepths.handleWheel this deltaY = Js.Normal this'
    /\ HarmonicSpace.depth (HarmonicDepths.space this') = newDepth
    /\ 0 <= newDepth <= 1
    /\ Rabs (newDepth - depth) <= 0.05
    /\ (deltaY > 0 -> depth <= 0.95 -> newDepth = depth + 0.05)
    /\ (deltaY <= 0 -> 0.05 <= depth -> newDepth = depth - 0.05)
    /\ (forall id a,
          ~ In id visible ->
          Js.Map.get (HarmonicDepths.activeHarmonics this') id = Some a ->
          a <= 0)
    /\ (forall id a,
          ~ In id visible ->
          Js.Map.get (HarmonicDepths.activeHarmonics this) id = Some a ->
          a > 0 ->
          Js.Map.get (HarmonicDepths.activeHarmonics this') id = Some 0).
Proof.
  intros Hsound Hinit. cbv zeta.
  pose proof Hsound as [[Hwg Hf] Hcase].
  destruct Hcase as [(Hfalse & _) | (_ & Hready)]; [congruence |].
  pose proof (proj2 Hwg) as Hdepth.
  destruct (wheelDepth_step (HarmonicSpace.depth (HarmonicDepths.space this))
              deltaY Hdepth) as (Hrange & Hstep & Hup & Hdown).
  set (newDepth := wheelDepth
                     (HarmonicSpace.depth (HarmonicDepths.space this))
                     deltaY) in *.
  set (this1 := HarmonicDepths.with_space
                  (HarmonicSpace.setDepth (HarmonicDepths.space this)
                     newDepth) this).
  assert (Hwg1 : wellGenerated (HarmonicDepths.space this1))
    by (apply wellGenerated_setDepth; exact Hwg).
  destruct (ready_syncVoicesWithDepth this1) as (this' & Hrun & _);
    [split; [exact Hwg1 | exact Hf] | exact Hready |].
  exists this'.
  assert (Hhandle : HarmonicDepths.handleWheel this deltaY
                    = HarmonicDepths.syncVoicesWithDepth this1).
  { unfold HarmonicDepths.handleWheel. cbv zeta.
    fold (wheelDepth (HarmonicSpace.depth (HarmonicDepths.space this))
            deltaY).
    fold newDepth. fold this1.
    replace (HarmonicDepths.isInitialized this1) with true
      by (symmetry; exact Hinit).
    reflexivity. }
  split; [rewrite Hhandle; exact Hrun |].
  unfold HarmonicDepths.syncVoicesWithDepth in Hrun.
  pose proof Hrun as Hrun0.
  apply syncVoices_loop_silences in Hrun.
  - destruct Hrun as [Hd Hpost].
    split.
    { rewrite Hd. unfold this1.
      cbn [HarmonicDepths.with_space HarmonicDepths.space
           HarmonicSpace.setDepth HarmonicSpace.depth].
      rewrite Rmin_right by lra. apply Rmax_right. lra. }
    split; [exact Hrange |]. split; [exact Hstep |].
    split; [exact Hup |]. split; [exact Hdown |].
    split; [exact Hpost |].
    intros id a Hhidden Hget Ha.
    apply (syncVoices_loop_zeroes _ id Hhidden _ _ _ Hrun0).
    right. exists a. split; [exact Ha |].
    now apply Map_get_In_key.
  - intros id a _ Hget Ha. exists a. split; [| exact Ha].
    now apply Map_get_In_key.
Qed.

(** The statement for an application at full depth on which the
    harmonic of the prime 89 sounds, and a notch of the wheel back up:
    at depth 0.95 that harmonic is hidden, the loop of
    [syncVoicesWithDepth] reaches its entry, and the entry of 0.05
    becomes 0. *)
Lemma wheel_silences_hidden_harmonics_witness :
  Js.Map.get (HarmonicDepths.activeHarmonics soundingDeep) "prime_89"
  = Some 0.05
  /\ ~ In "prime_89"%string
         (map Harmonic.id
            (HarmonicSpace.getVisibleHarmonics
               (HarmonicSpace.setDepth (HarmonicDepths.space soundingDeep)
                  0.95)))
  /\ exists this',
       HarmonicDepths.handleWheel soundingDeep (-100) = Js.Normal this'
       /\ HarmonicSpace.depth (HarmonicDepths.space this') = 0.95
       /\ Js.Map.get (HarmonicDepths.activeHarmonics this') "prime_89"
          = Some 0.
Proof.
  split; [reflexivity |].
  split; [exact soundingDeep_hidden |].
  pose proof (wheel_silences_hidden_harmonics soundingDeep (-100)
                soundingDeep_sound eq_refl) as H.
  cbv zeta in H. rewrite soundingDeep_wheel in H.
  destruct H as (this' & Hrun & Hdepth & _ & _ & _ & _ & _ & Hzero).
  exists this'. split; [exact Hrun |]. split; [exact Hdepth |].
  apply (Hzero "prime_89"%string 0.05 soundingDeep_hidden); [reflexivity | lra].
Defined.

(* ================================================================== *)
(** * Nothing is scheduled that the Web Audio API would refuse *)
(* ================================================================== *)

Section TimelineRange.
Import WebAudio HarmonicEngine.

(** A change of the graph that keeps the clock and the timelines in
    range. *)
Local Abbreviation graphInRange ctx :=
  (0 <= currentTime ctx /\ Forall timelineInRange (nodes ctx)).

Lemma inRange_updateNode (r : NodeRef) (f : Node -> Node)
    (ctx : AudioContext) :
  (forall n, timelineInRange n -> timelineInRange (f n)) ->
  graphInRange ctx -> graphInRange (updateNode r f ctx).
Proof.
  intros Hf [Ht Hn]. split; [exact Ht |].
  unfold updateNode. cbn [nodes]. now apply Forall_updateNth.
Qed.

Lemma inRange_connect (src dst : NodeRef) (ctx : AudioContext) :
  graphInRange ctx -> graphInRange (connect src dst ctx).
Proof.
  apply inRange_updateNode. intros n H. exact H.
Qed.

Lemma inRange_disconnect (r : NodeRef) (ctx : AudioContext) :
  graphInRange ctx -> graphInRange (disconnect r ctx).
Proof.
  apply inRange_updateNode. intros n H. exact H.
Qed.

Lemma inRange_onGain (r : NodeRef) (f : AudioParam -> AudioParam)
    (ctx : AudioContext) :
  (forall p, Forall eventInRange (events p) ->
             Forall eventInRange (events (f p))) ->
  graphInRange ctx -> graphInRange (onGain r f ctx).
Proof.
  intros Hf. apply inRange_updateNode. intros [k outs].
  unfold timelineInRange. cbn [kind].
  destruct k; cbn [kind]; auto.
Qed.

Lemma inRange_onFrequency (r : NodeRef) (f : AudioParam -> AudioParam)
    (ctx : AudioContext) :
  (forall p, Forall eventInRange (events p) ->
             Forall eventInRange (events (f p))) ->
  graphInRange ctx -> graphInRange (onFrequency r f ctx).
Proof.
  intros Hf. apply inRange_updateNode. intros [k outs].
  unfold timelineInRange. cbn [kind].
  destruct k; cbn [kind]; auto.
Qed.

Lemma inRange_stop (r : NodeRef) (ctx ctx' : AudioContext) :
  stop r ctx = Js.Normal ctx' ->
  graphInRange ctx -> graphInRange ctx'.
Proof.
  unfold stop. destruct (getNode r ctx) as [[k outs] |] eqn:Hn;
    [| discriminate].
  destruct k as [| g | ty fq st sp | b | ? ? ? ? ?]; try discriminate.
  destruct st; [| discriminate].
  intros [= <-] [Ht Hnodes]. split; [exact Ht |].
  unfold updateNode. cbn [nodes].
  assert (Hfq : Forall eventInRange (events fq)).
  { rewrite Forall_forall in Hnodes.
    apply (Hnodes (mkNode (Oscillator ty fq true sp) outs)).
    eapply nth_error_In. exact Hn. }
  apply Forall_forall. intros n Hin.
  apply In_nth_error in Hin. destruct Hin as [i Hi].
  rewrite nth_error_updateNth in Hi.
  rewrite Forall_forall in Hnodes.
  destruct (Nat.eqb i r).
  - destruct (nth_error (nodes ctx) i) as [n0 |]; [| discriminate].
    cbn [option_map] in Hi. injection Hi as <-.
    unfold timelineInRange. cbn [kind]. exact Hfq.
  - apply Hnodes. eapply nth_error_In. exact Hi.
Qed.

Lemma inRange_rampGain (g : NodeRef) (now target finish : R)
    (ctx : AudioContext) :
  0 < target -> 0 <= now <= finish ->
  graphInRange ctx -> graphInRange (rampGain g now target finish ctx).
Proof.
  intros Htarget Htime Hctx. unfold rampGain.
  apply inRange_onGain.
  { intros p Hp. cbn [exponentialRampToValueAtTime events].
    apply Forall_app. split; [exact Hp |].
    constructor; [| constructor]. cbn [eventInRange]. lra. }
  apply inRange_onGain.
  { intros p Hp. cbn [setValueAtTime events].
    apply Forall_app. split; [exact Hp |].
    constructor; [| constructor]. cbn [eventInRange]. lra. }
  apply inRange_onGain; [| exact Hctx].
  intros p Hp. cbn [cancelScheduledValues events].
  apply Forall_forall. intros ev Hin. apply filter_In in Hin.
  rewrite Forall_forall in Hp. apply Hp. apply Hin.
Qed.

Lemma inRange_createVoice (e e1 : t) (id : string) (ratio : R)
    (v : VoiceRef) :
  0 < ratio ->
  createVoice e id ratio = Js.Normal (v, e1) ->
  engineInRange e -> engineInRange e1.
Proof.
  intros Hratio Hrun (Hf & Hobj & Hctx).
  destruct (Js.Map.has (voices e) id) eqn:Hhas.
  - apply Map_has_get in Hhas. destruct Hhas as [v0 Hget].
    rewrite (createVoice_existing e id ratio v0 Hget) in Hrun.
    injection Hrun as _ <-. exact (conj Hf (conj Hobj Hctx)).
  - destruct (audioContext e) as [ctx |] eqn:Hac.
    2:{ unfold createVoice, theContext in Hrun.
        rewrite Hhas, Hac in Hrun. discriminate. }
    destruct (masterGain e) as [master |] eqn:Hmg.
    2:{ unfold createVoice, theContext in Hrun.
        rewrite Hhas, Hac in Hrun. cbn [Js.bind] in Hrun.
        unfold createOscillator, createGain, createNode in Hrun.
        rewrite Hmg in Hrun. discriminate. }
    rewrite (createVoice_fresh e id ratio ctx master Hac Hmg Hhas) in Hrun.
    injection Hrun as _ <-.
    destruct (Hctx ctx eq_refl) as [Ht Hnodes].
    split; [exact Hf |]. split.
    + cbn [with_voices with_objects with_context objects].
      apply Forall_app. split; [exact Hobj |].
      constructor; [exact Hratio | constructor].
    + cbn [with_voices with_objects with_context audioContext].
      intros ctx' [= <-]. unfold graphWithVoice.
      cbn [currentTime nodes]. split; [exact Ht |].
      apply Forall_app. split; [exact Hnodes |].
      constructor; [| constructor; [| constructor]];
        unfold timelineInRange; cbn [kind events]; constructor.
Qed.

Lemma inRange_setVoiceAmplitude (e e' : t) (id : string) (a : R)
    (time : option R) :
  0 <= orDefault 0.1 time ->
  setVoiceAmplitude e id a time = Js.Normal e' ->
  engineInRange e -> engineInRange e'.
Proof.
  intros Htime Hrun (Hf & Hobj & Hctx). unfold setVoiceAmplitude in Hrun.
  destruct (Js.Map.get (voices e) id) as [v |];
    [| injection Hrun as <-; exact (conj Hf (conj Hobj Hctx))].
  unfold theContext in Hrun.
  destruct (audioContext e) as [ctx |] eqn:Hac; [| discriminate].
  cbn [Js.bind] in Hrun. unfold deref in Hrun.
  destruct (nth_error (objects e) v) as [vo |]; [| discriminate].
  cbn [Js.bind] in Hrun. injection Hrun as <-.
  destruct (Hctx ctx eq_refl) as [Ht Hnodes].
  split; [exact Hf |]. split.
  - unfold setTargetGain. cbn [with_context with_objects objects].
    apply Forall_updateNth; [| exact Hobj]. intros vo0 H. exact H.
  - cbn [with_context audioContext]. intros ctx' [= <-].
    apply inRange_rampGain; [| lra | split; assumption].
    eapply Rlt_le_trans; [| apply Rmax_r]. lra.
Qed.

Lemma inRange_releaseVoice (e e' : t) (id : string) (fade : option R) :
  0 <= orDefault 0.5 fade ->
  releaseVoice e id fade = Js.Normal e' ->
  engineInRange e -> engineInRange e'.
Proof.
  intros Htime Hrun (Hf & Hobj & Hctx). unfold releaseVoice in Hrun.
  destruct (Js.Map.get (voices e) id) as [v |];
    [| injection Hrun as <-; exact (conj Hf (conj Hobj Hctx))].
  unfold theContext in Hrun.
  destruct (audioContext e) as [ctx |] eqn:Hac; [| discriminate].
  cbn [Js.bind] in Hrun. unfold deref in Hrun.
  destruct (nth_error (objects e) v) as [vo |]; [| discriminate].
  cbn [Js.bind] in Hrun. injection Hrun as <-.
  destruct (Hctx ctx eq_refl) as [Ht Hnodes].
  split; [exact Hf |]. split; [exact Hobj |].
  cbn [with_timeouts with_context audioContext]. intros ctx' [= <-].
  apply inRange_rampGain; [lra | lra | split; assumption].
Qed.

Lemma inRange_fireTimeout (e e' : t) (k : nat) :
  fireTimeout e k = Js.Normal e' ->
  engineInRange e -> engineInRange e'.
Proof.
  intros Hrun (Hf & Hobj & Hctx). unfold fireTimeout in Hrun.
  destruct (nth_error (timeouts e) k) as [cb |];
    [| injection Hrun as <-; exact (conj Hf (conj Hobj Hctx))].
  unfold decommission, deref in Hrun. cbn [objects with_timeouts] in Hrun.
  destruct (nth_error (objects e) (voice cb)) as [vo |]; [| discriminate].
  cbn [Js.bind] in Hrun. unfold theContext in Hrun.
  cbn [audioContext with_timeouts] in Hrun.
  destruct (audioContext e) as [ctx |] eqn:Hac; [| discriminate].
  cbn [Js.bind] in Hrun.
  destruct (stop (oscillator vo) ctx) as [ctx1 | err] eqn:Hstop;
    [| discriminate].
  cbn [Js.bind] in Hrun. injection Hrun as <-.
  split; [exact Hf |]. split; [exact Hobj |].
  cbn [with_voices with_context audioContext]. intros ctx' [= <-].
  apply inRange_disconnect, inRange_disconnect.
  apply (inRange_stop _ _ _ Hstop). now apply Hctx.
Qed.

Lemma inRange_retune (e : t) (freq finish : R)
    (entries : list (string * VoiceRef)) :
  0 < freq ->
  Forall (fun vo => 0 < ratio vo) (objects e) ->
  forall ctx ctx',
    0 <= finish ->
    retune e freq finish entries ctx = Js.Normal ctx' ->
    graphInRange ctx -> graphInRange ctx'.
Proof.
  intros Hfreq Hobj.
  induction entries as [| [id v] entries IH]; intros ctx ctx' Hfin Hrun Hctx.
  - injection Hrun as <-. exact Hctx.
  - cbn [retune] in Hrun. unfold deref in Hrun.
    destruct (nth_error (objects e) v) as [vo |] eqn:Hnth; [| discriminate].
    cbn [Js.bind] in Hrun.
    apply (IH _ _ Hfin Hrun).
    apply inRange_onFrequency; [| exact Hctx].
    intros p Hp. cbn [exponentialRampToValueAtTime events].
    apply Forall_app. split; [exact Hp |].
    constructor; [| constructor]. cbn [eventInRange].
    split; [| exact Hfin].
    rewrite Forall_forall in Hobj.
    apply Rmult_lt_0_compat; [exact Hfreq |].
    apply Hobj. eapply nth_error_In. exact Hnth.
Qed.

Lemma inRange_setFundamental (e e' : t) (freq : R) (time : option R) :
  0 < freq ->
  0 <= orDefault 0.5 time ->
  setFundamental e freq time = Js.Normal e' ->
  engineInRange e -> engineInRange e'.
Proof.
  intros Hfreq Htime Hrun (Hf & Hobj & Hctx).
  unfold setFundamental, theContext in Hrun.
  cbn [audioContext with_fundamental fundamentalOsc voices] in Hrun.
  destruct (audioContext e) as [ctx |] eqn:Hac; [| discriminate].
  cbn [Js.bind] in Hrun.
  destruct (Hctx ctx eq_refl) as [Ht Hnodes].
  match type of Hrun with
  | context [retune ?a ?b ?c ?d ?g] =>
      destruct (retune a b c d g) as [ctx2 | err] eqn:Hretune
  end; [| discriminate].
  cbn [Js.bind] in Hrun. injection Hrun as <-.
  split; [exact Hfreq |]. split; [exact Hobj |].
  cbn [with_context with_fundamental audioContext]. intros ctx' [= <-].
  refine (inRange_retune _ _ _ _ Hfreq _ _ _ _ Hretune _);
    [exact Hobj | lra |].
  destruct (fundamentalOsc e); [| split; assumption].
  apply inRange_onFrequency; [| split; assumption].
  intros p Hp. cbn [exponentialRampToValueAtTime events].
  apply Forall_app. split; [exact Hp |].
  constructor; [| constructor]. cbn [eventInRange]. lra.
Qed.

Lemma inRange_releaseAll (ids : list string) :
  forall e e' : t,
    releaseAll ids e = Js.Normal e' ->
    engineInRange e -> engineInRange e'.
Proof.
  induction ids as [| id ids IH]; intros e e'; cbn [releaseAll].
  - intros [= <-] H. exact H.
  - destruct (releaseVoice e id (Some 0.1)) as [e1 | err] eqn:Hrel;
      [| discriminate].
    cbn [Js.bind]. intros Hrun Hin. apply (IH _ _ Hrun).
    apply (inRange_releaseVoice e e1 id (Some 0.1)); [cbn; lra | | ];
      assumption.
Qed.

Lemma inRange_destroy (e e' : t) :
  destroy e = Js.Normal e' ->
  engineInRange e -> engineInRange e'.
Proof.
  unfold destroy.
  destruct (releaseAll (Js.Map.keys (voices e)) e) as [e1 | err] eqn:Hrel;
    [| discriminate].
  cbn [Js.bind]. intros Hrun Hin.
  pose proof (inRange_releaseAll _ _ _ Hrel Hin) as (Hf & Hobj & Hctx).
  assert (Hstep :
    forall e2,
      match fundamentalOsc e1 with
      | Some osc =>
          ctx <- theContext e1 ;;
          ctx' <- stop osc ctx ;;
          Js.Normal (with_context ctx' e1)
      | None => Js.Normal e1
      end = Js.Normal e2 -> engineInRange e2).
  { intros e2. destruct (fundamentalOsc e1) as [osc |].
    - unfold theContext.
      destruct (audioContext e1) as [ctx |] eqn:Hac; [| discriminate].
      cbn [Js.bind].
      destruct (stop osc ctx) as [ctx' | err] eqn:Hstop; [| discriminate].
      cbn [Js.bind]. intros [= <-].
      split; [exact Hf |]. split; [exact Hobj |].
      cbn [with_context audioContext]. intros ctx0 [= <-].
      apply (inRange_stop _ _ _ Hstop). now apply Hctx.
    - intros [= <-]. exact (conj Hf (conj Hobj Hctx)). }
  match type of Hrun with
  | context [Js.bind ?c _] => destruct c as [e2 | err] eqn:Hmid
  end; [| discriminate].
  cbn [Js.bind] in Hrun.
  pose proof (Hstep e2 eq_refl) as (Hf2 & Hobj2 & Hctx2).
  destruct (audioContext e2) as [ctx |] eqn:Hac; injection Hrun as <-.
  - split; [exact Hf2 |]. split; [exact Hobj2 |].
    cbn [with_context audioContext]. intros ctx0 [= <-].
    unfold close. cbn [currentTime nodes]. now apply Hctx2.
  - split; [exact Hf2 |]. split; [exact Hobj2 |].
    intros ctx0 Hctx0. rewrite Hac in Hctx0. discriminate.
Qed.

Lemma inRange_init (e : t) (rate : nat) (rnd : Js.RandomSource) :
  engineIdle e ->
  0 < fundamental e ->
  engineInRange (fst (init e rate rnd)).
Proof.
  intros (Hinit & Hctx & Hmaster & Hfo & Hvo & Hobj & Hto) Hf.
  destruct e as [ac mg rv vs fu mv ii co fo fg ob ti].
  cbn [isInitialized audioContext masterGain fundamentalOsc voices objects
       timeouts fundamental] in *.
  subst. unfold engineInRange.
  assert (Hrun : exists ctx,
            fst (init (mk None None rv [] fu mv false co None fg [] [])
                   rate rnd)
            = mk (Some ctx) (Some 1%nat) (Some 2%nat) [] fu mv true
                (Some 3%nat) (Some 6%nat) (Some 7%nat) [] []
            /\ currentTime ctx = 0
            /\ Forall timelineInRange (nodes ctx)).
  { eexists. split; [run_code; reflexivity |].
    split; [reflexivity |].
    repeat constructor. }
  destruct Hrun as (ctx & -> & Ht & Hnodes).
  cbn [fundamental objects audioContext].
  split; [exact Hf |]. split; [constructor |].
  intros ctx' [= <-]. rewrite Ht. split; [lra | exact Hnodes].
Qed.

End TimelineRange.

Section AppTimelineRange.
Import HarmonicDepths.

Lemma carried_ratios_positive (hs : list Harmonic.t) (l : list (nat * Z)) :
  Forall2 harmonicCarries hs l ->
  (forall ip, In ip l -> (2 <= snd ip)%Z) ->
  Forall (fun hm => 0 < Harmonic.ratio hm) hs.
Proof.
  induction 1 as [| hm ip hs l (_ & _ & Hratio & _) _ IH]; intros Hl;
    constructor.
  - rewrite Hratio.
    assert (Hp : 1 <= IZR (snd ip)).
    { apply IZR_le. specialize (Hl ip (or_introl eq_refl)). lia. }
    pose proof (getPrimeRatio_range _ Hp). lra.
  - apply IH. intros ip' Hin. apply Hl. now right.
Qed.

Lemma wellGenerated_ratiosPositive (s : HarmonicSpace.t) :
  wellGenerated s -> ratiosPositive s.
Proof.
  intros [Hshape _]. apply (carried_ratios_positive _ _ Hshape).
  intros ip Hin. apply PRIMES_at_least_2.
  now apply indexedPrimes_In.
Qed.

Lemma ratiosPositive_setHarmonicAmplitude (s : HarmonicSpace.t)
    (id : string) (a : R) :
  ratiosPositive s ->
  ratiosPositive (HarmonicSpace.setHarmonicAmplitude s id a).
Proof.
  unfold ratiosPositive, HarmonicSpace.setHarmonicAmplitude.
  destruct (HarmonicSpace.getHarmonic s id); [| tauto].
  cbn [HarmonicSpace.harmonics].
  induction 1 as [| hm hs Hhm Hhs IH]; cbn [HarmonicSpace.assignAmplitude];
    [constructor |].
  destruct (String.eqb (Harmonic.id hm) id); constructor; assumption.
Qed.

Lemma getHarmonic_ratio_positive (s : HarmonicSpace.t) (id : string)
    (hm : Harmonic.t) :
  ratiosPositive s ->
  HarmonicSpace.getHarmonic s id = Some hm ->
  0 < Harmonic.ratio hm.
Proof.
  unfold ratiosPositive, HarmonicSpace.getHarmonic.
  induction 1 as [| h0 hs Hh0 Hhs IH]; cbn [Js.find]; [discriminate |].
  destruct (String.eqb (Harmonic.id h0) id); [| exact IH].
  intros [= <-]. exact Hh0.
Qed.

Lemma inRange_updateHarmonic (newAmplitudes : Js.Map.t R) (this this' : t)
    (id : string) :
  ratiosPositive (space this) ->
  engineInRange (engine this) ->
  updateHarmonic newAmplitudes this id = Js.Normal this' ->
  ratiosPositive (space this') /\ engineInRange (engine this').
Proof.
  intros Hrp Hin. unfold updateHarmonic. cbv zeta.
  destruct (Rgt_dec (orZero (Js.Map.get newAmplitudes id)) 0.01).
  - destruct (HarmonicSpace.getHarmonic (space this) id) as [hm |] eqn:Hget;
      [| intros [= <-]; split; assumption].
    destruct (HarmonicEngine.createVoice (engine this) id
                (Harmonic.ratio hm)) as [[v e1] | err] eqn:Hcreate;
      [| discriminate].
    cbn [Js.bind snd].
    destruct (HarmonicEngine.setVoiceAmplitude e1 id
                (orZero (Js.Map.get newAmplitudes id)) (Some 0.15))
      as [e2 | err] eqn:Hset; [| discriminate].
    cbn [Js.bind]. intros [= <-].
    cbn [with_space with_activeHarmonics with_engine space engine]. split.
    + now apply ratiosPositive_setHarmonicAmplitude.
    + refine (inRange_setVoiceAmplitude e1 e2 id _ (Some 0.15) _ Hset _);
        [cbn; lra |].
      refine (inRange_createVoice (engine this) e1 id _ v _ Hcreate Hin).
      now apply (getHarmonic_ratio_positive (space this) id).
  - destruct (Rgt_dec (orZero (Js.Map.get (activeHarmonics this) id)) 0.01);
      [| intros [= <-]; split; assumption].
    destruct (HarmonicEngine.setVoiceAmplitude (engine this) id 0
                (Some 0.3)) as [e2 | err] eqn:Hset; [| discriminate].
    cbn [Js.bind]. intros [= <-].
    cbn [with_timeouts with_space with_activeHarmonics with_engine space
         engine].
    split.
    + now apply ratiosPositive_setHarmonicAmplitude.
    + apply (inRange_setVoiceAmplitude (engine this) e2 id 0 (Some 0.3));
        [cbn; lra | exact Hset | exact Hin].
Qed.

Lemma inRange_updateHarmonics_loop (newAmplitudes : Js.Map.t R)
    (ids : list string) :
  forall this this' : t,
    ratiosPositive (space this) ->
    engineInRange (engine this) ->
    updateHarmonics_loop newAmplitudes ids this = Js.Normal this' ->
    ratiosPositive (space this') /\ engineInRange (engine this').
Proof.
  induction ids as [| id ids IH]; intros this this' Hrp Hin;
    cbn [updateHarmonics_loop].
  - intros [= <-]. split; assumption.
  - destruct (updateHarmonic newAmplitudes this id) as [this1 | err] eqn:Hone;
      [| discriminate].
    cbn [Js.bind].
    destruct (inRange_updateHarmonic _ _ _ _ Hrp Hin Hone) as [Hrp1 Hin1].
    now apply IH.
Qed.

Lemma inRange_updateHarmonicsFromCursor (this this' : t) :
  ratiosPositive (space this) ->
  engineInRange (engine this) ->
  updateHarmonicsFromCursor this = Js.Normal this' ->
  ratiosPositive (space this') /\ engineInRange (engine this').
Proof.
  intros Hrp Hin. unfold updateHarmonicsFromCursor.
  destruct (negb (isInitialized this)).
  - intros [= <-]. split; assumption.
  - cbv zeta. now apply inRange_updateHarmonics_loop.
Qed.

Lemma inRange_syncVoice (visible : list string) (this this' : t)
    (entry : string * R) :
  ratiosPositive (space this) ->
  engineInRange (engine this) ->
  syncVoice visible this entry = Js.Normal this' ->
  ratiosPositive (space this') /\ engineInRange (engine this').
Proof.
  intros Hrp Hin. destruct entry as [id amp]. unfold syncVoice.
  destruct (negb (existsb (String.eqb id) visible));
    [| intros [= <-]; split; assumption].
  destruct (Rgt_dec amp 0); [| intros [= <-]; split; assumption].
  destruct (HarmonicEngine.setVoiceAmplitude (engine this) id 0 (Some 0.5))
    as [e2 | err] eqn:Hset; [| discriminate].
  cbn [Js.bind]. intros [= <-].
  cbn [with_timeouts with_space with_activeHarmonics with_engine space
       engine].
  split.
  - now apply ratiosPositive_setHarmonicAmplitude.
  - apply (inRange_setVoiceAmplitude (engine this) e2 id 0 (Some 0.5));
      [cbn; lra | exact Hset | exact Hin].
Qed.

Lemma inRange_syncVoices_loop (visible : list string)
    (entries : list (string * R)) :
  forall this this' : t,
    ratiosPositive (space this) ->
    engineInRange (engine this) ->
    syncVoices_loop visible entries this = Js.Normal this' ->
    ratiosPositive (space this') /\ engineInRange (engine this').
Proof.
  induction entries as [| entry entries IH]; intros this this' Hrp Hin;
    cbn [syncVoices_loop].
  - intros [= <-]. split; assumption.
  - destruct (syncVoice visible this entry) as [this1 | err] eqn:Hone;
      [| discriminate].
    cbn [Js.bind].
    destruct (inRange_syncVoice _ _ _ _ Hrp Hin Hone) as [Hrp1 Hin1].
    now apply IH.
Qed.

Lemma inRange_runTimeout (this this' : t) (cb : Timeout) :
  engineInRange (engine this) ->
  runTimeout this cb = Js.Normal this' ->
  engineInRange (engine this').
Proof.
  intros Hin. destruct cb as [id | id]; cbn [runTimeout].
  - destruct (Js.Map.get (activeHarmonics this) id) as [amp |];
      [| intros [= <-]; exact Hin].
    destruct (Req_dec_T amp 0) as [Hzero | Hnonzero];
      [| intros [= <-]; exact Hin].
    destruct (HarmonicEngine.releaseVoice (engine this) id (Some 0.5))
      as [e | err] eqn:Hrel; [| discriminate].
    cbn [Js.bind]. intros [= <-].
    cbn [with_activeHarmonics with_engine engine].
    apply (inRange_releaseVoice (engine this) e id (Some 0.5));
      [cbn; lra | exact Hrel | exact Hin].
  - destruct (HarmonicEngine.releaseVoice (engine this) id (Some 0.3))
      as [e | err] eqn:Hrel; [| discriminate].
    cbn [Js.bind]. intros [= <-].
    cbn [with_activeHarmonics with_engine engine].
    apply (inRange_releaseVoice (engine this) e id (Some 0.3));
      [cbn; lra | exact Hrel | exact Hin].
Qed.

Lemma inRange_shiftFundamental (this this' : t) (direction : R) :
  engineInRange (engine this) ->
  shiftFundamental this direction = Js.Normal this' ->
  engineInRange (engine this').
Proof.
  intros Hin. unfold shiftFundamental. cbv zeta.
  destruct (Rge_dec _ 55) as [Hlow |]; [| intros [= <-]; exact Hin].
  destruct (Rle_dec _ 440); [| intros [= <-]; exact Hin].
  match goal with
  | |- context [HarmonicEngine.setFundamental ?e ?f ?tm] =>
      destruct (HarmonicEngine.setFundamental e f tm) as [e' | err] eqn:Hset
  end; [| discriminate].
  cbn [Js.bind]. intros [= <-]. cbn [with_engine engine].
  eapply inRange_setFundamental; [| | exact Hset | exact Hin];
    [lra | cbn; lra].
Qed.

Lemma inRange_initAudio (this : t) (rate : nat) (rnd : Js.RandomSource) :
  appSound this ->
  engineInRange (engine this) ->
  engineInRange (engine (fst (initAudio this rate rnd)))
  /\ space (fst (initAudio this rate rnd)) = space this.
Proof.
  intros [[_ Hf] Hcase] Hin. unfold initAudio.
  destruct (isInitialized this) eqn:Hinit; [split; [exact Hin | reflexivity] |].
  destruct Hcase as [(_ & Hidle & _) | (Hinit' & _)]; [| congruence].
  pose proof (inRange_init (engine this) rate rnd Hidle ltac:(lra)) as Hin'.
  destruct (HarmonicEngine.init (engine this) rate rnd) as [e rnd'].
  cbn [fst] in *. cbn [with_isInitialized with_engine engine space].
  split; [exact Hin' | reflexivity].
Qed.

Lemma inRange_handleEvent (rate : nat) (this : t) (rnd : Js.RandomSource)
    (ev : Event) (st' : t * Js.RandomSource) :
  appSound this ->
  engineInRange (engine this) ->
  handleEvent rate (this, rnd) ev = Js.Normal st' ->
  engineInRange (engine (fst st')).
Proof.
  intros Hsound Hin.
  pose proof Hsound as [[Hwg Hf] Hcase].
  pose proof (wellGenerated_ratiosPositive _ Hwg) as Hrp.
  destruct ev as [cx cy | | | deltaY | key | key | w h | timestamp | k | k |];
    cbn [handleEvent fst snd].
  - (* mouse move *)
    unfold handleMouseMove. cbv zeta.
    destruct (isInitialized (with_cursor (HarmonicSpace.mkPoint cx cy) this)).
    + destruct (updateHarmonicsFromCursor (with_cursor (HarmonicSpace.mkPoint cx cy) this))
        as [this1 | err] eqn:Hrun; [| discriminate].
      cbn [Js.bind]. intros [= <-]. cbn [fst].
      exact (proj2 (inRange_updateHarmonicsFromCursor
                      (with_cursor (HarmonicSpace.mkPoint cx cy) this) this1 Hrp Hin Hrun)).
    + cbn [Js.bind]. intros [= <-]. exact Hin.
  - (* mouse down *)
    unfold handleMouseDown.
    destruct (inRange_initAudio this rate rnd Hsound Hin) as [Hin1 Hsp1].
    destruct (initAudio this rate rnd) as [this1 rnd'].
    cbn [fst] in *.
    destruct (updateHarmonicsFromCursor (with_isMouseDown true this1))
      as [this2 | err] eqn:Hrun; [| discriminate].
    cbn [Js.bind]. intros [= <-]. cbn [fst].
    refine (proj2 (inRange_updateHarmonicsFromCursor
                     (with_isMouseDown true this1) this2 _ Hin1 Hrun)).
    cbn [with_isMouseDown space]. rewrite Hsp1. exact Hrp.
  - (* mouse up *)
    unfold handleMouseUp.
    destruct (updateHarmonicsFromCursor (with_isMouseDown false this))
      as [this1 | err] eqn:Hrun; [| discriminate].
    cbn [Js.bind]. intros [= <-]. cbn [fst].
    exact (proj2 (inRange_updateHarmonicsFromCursor
                    (with_isMouseDown false this) this1 Hrp Hin Hrun)).
  - (* wheel *)
    unfold handleWheel. cbv zeta.
    match goal with
    | |- context [with_space ?s this] => set (this1 := with_space s this)
    end.
    destruct (isInitialized this1).
    + destruct (syncVoicesWithDepth this1) as [this2 | err] eqn:Hrun;
        [| discriminate].
      cbn [Js.bind]. intros [= <-]. cbn [fst].
      unfold syncVoicesWithDepth in Hrun.
      refine (proj2 (inRange_syncVoices_loop _ _ this1 this2 _ _ Hrun));
        [exact Hrp | exact Hin].
    + cbn [Js.bind]. intros [= <-]. exact Hin.
  - (* key down *)
    unfold handleKeyDown.
    destruct (String.eqb key "ArrowUp" || String.eqb key "ArrowDown")%bool.
    { destruct (negb (isInitialized this)); [intros [= <-]; exact Hin |].
      destruct (shiftFundamental this
                  (if String.eqb key "ArrowUp" then 1 else -1))
        as [this1 | err] eqn:Hrun; [| discriminate].
      cbn [Js.bind]. intros [= <-]. cbn [fst].
      exact (inRange_shiftFundamental _ _ _ Hin Hrun). }
    destruct (String.eqb key "r" || String.eqb key "R")%bool.
    { destruct (isInitialized this); [| intros [= <-]; exact Hin].
      destruct (HarmonicEngine.setFundamental (engine this) 110 (Some 0.5))
        as [e | err] eqn:Hrun; [| discriminate].
      cbn [Js.bind]. intros [= <-]. cbn [fst with_space with_engine engine].
      apply (inRange_setFundamental (engine this) e 110 (Some 0.5));
        [lra | cbn; lra | exact Hrun | exact Hin]. }
    destruct (String.eqb key " "); [| intros [= <-]; exact Hin].
    destruct (isInitialized this) eqn:Hinit.
    + destruct (updateHarmonicsFromCursor (with_isMouseDown true this))
        as [this1 | err] eqn:Hrun; [| discriminate].
      cbn [Js.bind]. intros [= <-]. cbn [fst].
      exact (proj2 (inRange_updateHarmonicsFromCursor
                      (with_isMouseDown true this) this1 Hrp Hin Hrun)).
    + destruct (inRange_initAudio this rate rnd Hsound Hin) as [Hin1 _].
      destruct (initAudio this rate rnd) as [this1 rnd'].
      cbn [fst] in *. intros [= <-]. cbn [fst with_isMouseDown engine].
      exact Hin1.
  - (* key up *)
    unfold handleKeyUp. destruct (String.eqb key " ").
    + destruct (updateHarmonicsFromCursor (with_isMouseDown false this))
        as [this1 | err] eqn:Hrun; [| discriminate].
      cbn [Js.bind]. intros [= <-]. cbn [fst].
      exact (proj2 (inRange_updateHarmonicsFromCursor
                      (with_isMouseDown false this) this1 Hrp Hin Hrun)).
    + cbn [Js.bind]. intros [= <-]. exact Hin.
  - (* resize *)
    unfold handleResize.
    destruct (HarmonicSpace.resize (space this) w h rnd) as [s rnd'].
    intros [= <-]. exact Hin.
  - (* animation frame *)
    unfold animate. cbv zeta.
    match goal with
    | |- context [VisualRenderer.render ?a ?b ?c ?d] =>
        destruct (VisualRenderer.render a b c d) as [r | err]
    end; [| discriminate].
    cbn [Js.bind]. intros [= <-]. exact Hin.
  - (* a timer of the coordinator *)
    unfold fireTimeout.
    destruct (nth_error (timeouts this) k) as [cb |];
      [| cbn [Js.bind]; intros [= <-]; exact Hin].
    match goal with
    | |- context [runTimeout ?a cb] =>
        destruct (runTimeout a cb) as [this1 | err] eqn:Hrun
    end; [| discriminate].
    cbn [Js.bind]. intros [= <-]. cbn [fst].
    exact (inRange_runTimeout
             (with_timeouts (HarmonicEngine.removeNth k (timeouts this)) this)
             this1 cb Hin Hrun).
  - (* a timer of the engine *)
    destruct (HarmonicEngine.fireTimeout (engine this) k)
      as [e | err] eqn:Hrun; [| discriminate].
    cbn [Js.bind]. intros [= <-]. cbn [fst with_engine engine].
    exact (inRange_fireTimeout _ _ _ Hrun Hin).
  - (* unload *)
    unfold destroy.
    destruct (HarmonicEngine.destroy (engine this)) as [e | err] eqn:Hrun;
      [| discriminate].
    cbn [Js.bind]. intros [= <-]. cbn [fst with_engine engine].
    exact (inRange_destroy _ _ Hrun Hin).
Qed.

Lemma inRange_runEvents (rate : nat) (evs : list Event) :
  forall (this : t) (rnd : Js.RandomSource),
    appSound this ->
    engineInRange (engine this) ->
    exists st',
      runEvents rate (this, rnd) evs = Js.Normal st'
      /\ appSound (fst st')
      /\ engineInRange (engine (fst st')).
Proof.
  induction evs as [| ev evs IH]; intros this rnd Hsound Hin.
  - exists (this, rnd). split; [reflexivity |]. split; assumption.
  - destruct (sound_handleEvent rate this rnd ev Hsound)
      as ([this1 rnd1] & Hrun1 & Hsound1).
    pose proof (inRange_handleEvent rate this rnd ev _ Hsound Hin Hrun1)
      as Hin1.
    cbn [fst] in Hsound1, Hin1.
    destruct (IH this1 rnd1 Hsound1 Hin1) as (st' & Hrun & Hfinal).
    exists st'. cbn [runEvents]. rewrite Hrun1. cbn [Js.bind].
    split; assumption.
Qed.

Lemma inRange_new (innerWidth innerHeight now : R) (rnd : Js.RandomSource) :
  engineInRange (engine (fst (new innerWidth innerHeight now rnd))).
Proof.
  unfold new. rewrite new_spec. cbn [fst engine].
  unfold HarmonicEngine.new, engineInRange.
  cbn [HarmonicEngine.fundamental HarmonicEngine.objects
       HarmonicEngine.audioContext].
  split; [lra |]. split; [constructor | discriminate].
Qed.

End AppTimelineRange.

(** X28.  The application never throws, and never hands the Web Audio API
    a value it refuses.  From construction on, whatever sequence of
    mouse, wheel, key and resize events, animation frames, timer
    callbacks of the coordinator and of the engine, and unload events the
    host delivers, every handler completes.  Between events the space
    holds one harmonic per prime with a depth in [[0, 1]], the
    fundamental lies in [[55, 440]], and the engine is either untouched
    (before the first click or space bar, with no timer pending) or in
    working order.  Every automation event the engine has scheduled has a
    time that is not negative, and every exponential ramp a positive
    target: no call gave the API cause for a [RangeError]. *)
Theorem application_never_throws (innerWidth innerHeight now : R)
    (rnd : Js.RandomSource) (rate : nat) (evs : list Event) :
  exists st',
    runEvents rate (HarmonicDepths.new innerWidth innerHeight now rnd) evs
    = Js.Normal st'
    /\ appSound (fst st')
    /\ engineInRange (HarmonicDepths.engine (fst st')).
Proof.
  pose proof (sound_new innerWidth innerHeight now rnd) as Hsound.
  pose proof (inRange_new innerWidth innerHeight now rnd) as Hin.
  destruct (HarmonicDepths.new innerWidth innerHeight now rnd) as [this rnd0].
  cbn [fst] in Hsound, Hin.
  exact (inRange_runEvents rate evs this rnd0 Hsound Hin).
Qed.
